(** * sc-storage: a shallow embedding of [sc_storage.c]

    The element store of sc-memory: segments of element slots, the cache of
    segments with empty slots, element creation, recursive deletion and the
    type accessors.  One memory context runs at a time, so a slot lock is
    modelled by the number of acquisitions that are still outstanding. *)

From stdpp Require Import gmap list.
From Stdlib Require Import ZArith Lia.

Local Open Scope Z_scope.

(** ** Addresses ([sc_addr], declared in sc_types.h) *)

Record sc_addr := mk_addr { seg : Z; offset : Z }.

#[global] Instance sc_addr_eq_dec : EqDecision sc_addr.
Proof. solve_decision. Defined.

(** Modelled from the spec: the address macros of sc_types.h are not part of
    the sources at hand.  "A pair (segment: u16, offset: u16), packable to a
    single 32-bit integer.  The empty address has a reserved sentinel value":
    the sentinel is the all-zero pair, which is what [memset (&el, 0, ..)]
    leaves in every address field of a fresh element. *)
Definition addr_empty : sc_addr := mk_addr 0 0.

Definition SC_ADDR_IS_EMPTY (a : sc_addr) : bool :=
  (seg a =? 0) && (offset a =? 0).

Definition SC_ADDR_IS_NOT_EMPTY (a : sc_addr) : bool :=
  negb (SC_ADDR_IS_EMPTY a).

Definition SC_ADDR_IS_EQUAL (a b : sc_addr) : bool :=
  (seg a =? seg b) && (offset a =? offset b).

Definition SC_ADDR_IS_NOT_EQUAL (a b : sc_addr) : bool :=
  negb (SC_ADDR_IS_EQUAL a b).

Definition SC_ADDR_LOCAL_TO_INT (a : sc_addr) : Z :=
  Z.lor (Z.shiftl (seg a) 16) (Z.land (offset a) 65535).

Definition SC_ADDR_LOCAL_OFFSET_FROM_INT (v : Z) : Z := Z.land v 65535.

Definition SC_ADDR_LOCAL_SEG_FROM_INT (v : Z) : Z :=
  SC_ADDR_LOCAL_OFFSET_FROM_INT (Z.shiftr v 16).

Definition addr_of_int (v : Z) : sc_addr :=
  mk_addr (SC_ADDR_LOCAL_SEG_FROM_INT v) (SC_ADDR_LOCAL_OFFSET_FROM_INT v).

(** ** Elements ([sc_element], declared in sc_element.h) *)

Record sc_element := mk_element {
  flags_type : Z;
  first_out_arc : sc_addr;
  first_in_arc : sc_addr;
  arc_begin : sc_addr;
  arc_end : sc_addr;
  arc_next_out_arc : sc_addr;
  arc_next_in_arc : sc_addr;
  arc_prev_out_arc : sc_addr;
  arc_prev_in_arc : sc_addr;
  content_data : list Z
}.

Definition set_flags_type (v : Z) (e : sc_element) : sc_element :=
  mk_element v (first_out_arc e) (first_in_arc e) (arc_begin e) (arc_end e)
    (arc_next_out_arc e) (arc_next_in_arc e) (arc_prev_out_arc e)
    (arc_prev_in_arc e) (content_data e).

Definition set_first_out_arc (v : sc_addr) (e : sc_element) : sc_element :=
  mk_element (flags_type e) v (first_in_arc e) (arc_begin e) (arc_end e)
    (arc_next_out_arc e) (arc_next_in_arc e) (arc_prev_out_arc e)
    (arc_prev_in_arc e) (content_data e).

Definition set_first_in_arc (v : sc_addr) (e : sc_element) : sc_element :=
  mk_element (flags_type e) (first_out_arc e) v (arc_begin e) (arc_end e)
    (arc_next_out_arc e) (arc_next_in_arc e) (arc_prev_out_arc e)
    (arc_prev_in_arc e) (content_data e).

Definition set_arc_begin (v : sc_addr) (e : sc_element) : sc_element :=
  mk_element (flags_type e) (first_out_arc e) (first_in_arc e) v (arc_end e)
    (arc_next_out_arc e) (arc_next_in_arc e) (arc_prev_out_arc e)
    (arc_prev_in_arc e) (content_data e).

Definition set_arc_end (v : sc_addr) (e : sc_element) : sc_element :=
  mk_element (flags_type e) (first_out_arc e) (first_in_arc e) (arc_begin e) v
    (arc_next_out_arc e) (arc_next_in_arc e) (arc_prev_out_arc e)
    (arc_prev_in_arc e) (content_data e).

Definition set_arc_next_out_arc (v : sc_addr) (e : sc_element) : sc_element :=
  mk_element (flags_type e) (first_out_arc e) (first_in_arc e) (arc_begin e)
    (arc_end e) v (arc_next_in_arc e) (arc_prev_out_arc e)
    (arc_prev_in_arc e) (content_data e).

Definition set_arc_next_in_arc (v : sc_addr) (e : sc_element) : sc_element :=
  mk_element (flags_type e) (first_out_arc e) (first_in_arc e) (arc_begin e)
    (arc_end e) (arc_next_out_arc e) v (arc_prev_out_arc e)
    (arc_prev_in_arc e) (content_data e).

Definition set_arc_prev_out_arc (v : sc_addr) (e : sc_element) : sc_element :=
  mk_element (flags_type e) (first_out_arc e) (first_in_arc e) (arc_begin e)
    (arc_end e) (arc_next_out_arc e) (arc_next_in_arc e) v
    (arc_prev_in_arc e) (content_data e).

Definition set_arc_prev_in_arc (v : sc_addr) (e : sc_element) : sc_element :=
  mk_element (flags_type e) (first_out_arc e) (first_in_arc e) (arc_begin e)
    (arc_end e) (arc_next_out_arc e) (arc_next_in_arc e) (arc_prev_out_arc e)
    v (content_data e).

(** ** Segments and the storage globals *)

(** A pointer to an element: the segment it lives in (segments are named by
    the index of [segments[]] that holds them) and the slot offset. *)
Definition sc_element_ptr : Type := Z * Z.

Record sc_segment := mk_segment {
  num : Z;
  elements : gmap Z sc_element;
  locks : gmap Z positive
}.

Inductive sc_event_type :=
| SC_EVENT_ADD_OUTPUT_ARC
| SC_EVENT_ADD_INPUT_ARC
| SC_EVENT_REMOVE_OUTPUT_ARC
| SC_EVENT_REMOVE_INPUT_ARC
| SC_EVENT_REMOVE_ELEMENT.

#[global] Instance sc_event_type_eq_dec : EqDecision sc_event_type.
Proof. solve_decision. Defined.

(** What the event sink has been told, oldest first. *)
Inductive sc_event :=
| Emitted (el : sc_addr) (t : sc_event_type) (arg : sc_addr)
| ElementDeleted (el : sc_addr).

#[global] Instance sc_event_eq_dec : EqDecision sc_event.
Proof. solve_decision. Defined.

Record sc_storage := mk_storage {
  segments : gmap Z sc_segment;
  segments_num : Z;
  segments_cache_count : Z;
  segments_cache : gmap Z Z;
  event_log : list sc_event
}.

Inductive sc_result :=
| SC_RESULT_OK
| SC_RESULT_ERROR
| SC_RESULT_ERROR_INVALID_TYPE
| SC_RESULT_ERROR_INVALID_PARAMS.

#[global] Instance sc_result_eq_dec : EqDecision sc_result.
Proof. solve_decision. Defined.

Record sc_memory_context := mk_context { ctx_id : Z }.

(** The table of a [GHashTable]: keys with their values, in insertion order.
    [sc_storage_element_free] keys its tables by SC_ADDR_LOCAL_TO_INT (addr)
    and decodes a key with SC_ADDR_LOCAL_SEG_FROM_INT and
    SC_ADDR_LOCAL_OFFSET_FROM_INT; the packing is one-to-one on 16-bit
    fields ([addr_of_int_to_int] below), so the tables here are keyed by the
    address itself. *)
Definition hash_table : Type := list (sc_addr * sc_element_ptr).

(** ** Constants and collaborators declared outside sc_storage.c

    The type masks (sc_types.h), the sizes (sc_defines.h), the configured
    segment limit (sc_config.h), the slot search of a segment (sc_segment.c)
    and the iteration order of a GLib hash table are taken as parameters. *)
Class sc_defines := {
  sc_type_node : Z;
  sc_type_link : Z;
  sc_type_arc_common : Z;
  sc_type_arc_mask : Z;
  sc_type_element_mask : Z;
  SC_ADDR_SEG_MAX : Z;
  SC_SEGMENT_CACHE_SIZE : Z;
  SC_CHECKSUM_LEN : Z;
  sc_config_get_max_loaded_segments : Z;
  sc_segment_has_empty_slot : sc_segment -> bool;
  sc_segment_empty_slot_hint : sc_segment -> option Z;
  g_hash_table_iter_order : hash_table -> hash_table
}.

(** ** Outcomes of a run *)

Inductive outcome (A : Type) :=
| Done (a : A) (st : sc_storage)
| Fault
| Timeout.

Arguments Done {A} a st.
Arguments Fault {A}.
Arguments Timeout {A}.

Definition M (A : Type) : Type := sc_storage -> outcome A.

Definition ret {A} (a : A) : M A := fun st => Done a st.

Definition bind {A B} (m : M A) (k : A -> M B) : M B :=
  fun st => match m st with
            | Done a st' => k a st'
            | Fault => Fault
            | Timeout => Timeout
            end.

Definition fault {A} : M A := fun _ => Fault.
Definition timeout {A} : M A := fun _ => Timeout.
Definition get_storage : M sc_storage := fun st => Done st st.
Definition put_storage (st : sc_storage) : M unit := fun _ => Done tt st.

#[global] Instance M_ret : MRet M := @ret.
#[global] Instance M_bind : MBind M := fun A B k m => bind m k.

(** [g_assert]: the process aborts when the condition is false. *)
Definition g_assert (b : bool) : M unit := if b then ret tt else fault.

(** [STORAGE_CHECK_CALL (x)] asserts that the call returned SC_RESULT_OK. *)
Definition STORAGE_CHECK_CALL (m : M sc_result) : M unit :=
  r ← m; g_assert (bool_decide (r = SC_RESULT_OK)).

(** Field updates of the storage record. *)
Definition with_segments (v : gmap Z sc_segment) (st : sc_storage) : sc_storage :=
  mk_storage v (segments_num st) (segments_cache_count st) (segments_cache st)
    (event_log st).

Definition with_segments_num (v : Z) (st : sc_storage) : sc_storage :=
  mk_storage (segments st) v (segments_cache_count st) (segments_cache st)
    (event_log st).

Definition with_cache (c : gmap Z Z) (n : Z) (st : sc_storage) : sc_storage :=
  mk_storage (segments st) (segments_num st) n c (event_log st).

Definition with_event_log (v : list sc_event) (st : sc_storage) : sc_storage :=
  mk_storage (segments st) (segments_num st) (segments_cache_count st)
    (segments_cache st) v.

Definition with_elements (v : gmap Z sc_element) (s : sc_segment) : sc_segment :=
  mk_segment (num s) v (locks s).

Definition with_locks (v : gmap Z positive) (s : sc_segment) : sc_segment :=
  mk_segment (num s) (elements s) v.

(** The storage before [sc_storage_initialize] has loaded anything. *)
Definition storage_empty : sc_storage := mk_storage ∅ 0 0 ∅ [].

(** ** Slot locks *)

Definition lock_acquire (off : Z) (l : gmap Z positive) : gmap Z positive :=
  match l !! off with
  | Some n => <[off := Pos.succ n]> l
  | None => <[off := 1%positive]> l
  end.

Definition lock_release (off : Z) (l : gmap Z positive) : gmap Z positive :=
  match l !! off with
  | Some 1%positive => delete off l
  | Some n => <[off := Pos.pred n]> l
  | None => l
  end.

(** How many acquisitions of the lock of [a] are outstanding. *)
Definition lock_count (st : sc_storage) (a : sc_addr) : N :=
  match segments st !! seg a with
  | Some s => match locks s !! offset a with
              | Some n => Npos n
              | None => 0%N
              end
  | None => 0%N
  end.

(** ** The event sink (sc_event.c): every notification is recorded. *)

Definition sc_event_emit (el : sc_addr) (t : sc_event_type) (arg : sc_addr)
  : M unit :=
  fun st => Done tt (with_event_log (event_log st ++ [Emitted el t arg]) st).

Definition sc_event_notify_element_deleted (el : sc_addr) : M unit :=
  fun st => Done tt (with_event_log (event_log st ++ [ElementDeleted el]) st).

Section Storage.
Context `{sc_defines}.

(** The record [memset (&el, 0, sizeof (el))] leaves behind. *)
Definition sc_element_zero : sc_element :=
  mk_element 0 addr_empty addr_empty addr_empty addr_empty addr_empty
    addr_empty addr_empty addr_empty (replicate (Z.to_nat SC_CHECKSUM_LEN) 0).

(** The slot [off] of a segment; a slot that was never written is zeroed. *)
Definition seg_el (s : sc_segment) (off : Z) : sc_element :=
  default sc_element_zero (elements s !! off).

(** What an element pointer points at; segments that are not loaded hold
    nothing. *)
Definition slot (st : sc_storage) (p : sc_element_ptr) : sc_element :=
  match segments st !! p.1 with
  | Some s => seg_el s p.2
  | None => sc_element_zero
  end.

(** The element an address names. *)
Definition element_at (st : sc_storage) (a : sc_addr) : sc_element :=
  slot st (seg a, offset a).

(** Reads and writes through an element pointer. *)
Definition load (p : sc_element_ptr) : M sc_element :=
  fun st => match segments st !! p.1 with
            | Some _ => Done (slot st p) st
            | None => Fault
            end.

Definition store (p : sc_element_ptr) (f : sc_element -> sc_element) : M unit :=
  fun st => match segments st !! p.1 with
            | Some s =>
                Done tt (with_segments
                  (<[p.1 := with_elements
                              (<[p.2 := f (slot st p)]> (elements s)) s]>
                     (segments st)) st)
            | None => Fault
            end.

(** ** Segment primitives (sc_segment.c) *)

(** Modelled from the spec: sc_segment.c is not part of the sources at hand.
    "Slots are created empty when a segment is constructed". *)
Definition sc_segment_new (n : Z) : sc_segment := mk_segment n ∅ ∅.

(** Modelled from the spec: "lock_slot (seg, offset): acquires the per-slot
    lock".  With a single context the acquisition never waits; it hands out
    the pointer to the slot. *)
Definition sc_segment_lock_element (k off : Z) : M (option sc_element_ptr) :=
  fun st => match segments st !! k with
            | Some s =>
                Done (Some (k, off))
                  (with_segments
                     (<[k := with_locks (lock_acquire off (locks s)) s]>
                        (segments st)) st)
            | None => Fault
            end.

(** Modelled from the spec: the try variant of lock_slot "fails after a
    bounded number of attempts"; without a second context the first attempt
    succeeds. *)
Definition sc_segment_lock_element_try (k off : Z) (max_attempts : Z)
  : M (option sc_element_ptr) :=
  sc_segment_lock_element k off.

(** Modelled from the spec: releases one acquisition of the slot lock. *)
Definition sc_segment_unlock_element (k off : Z) : M unit :=
  fun st => match segments st !! k with
            | Some s =>
                Done tt
                  (with_segments
                     (<[k := with_locks (lock_release off (locks s)) s]>
                        (segments st)) st)
            | None => Fault
            end.

(** Modelled from the spec: "lock_empty_slot (seg): atomically finds a slot
    with type == 0, acquires its lock, returns a mutable reference; returns
    none if no slot is free".  Which free slot is found is left to
    [sc_segment_empty_slot_hint]; the slot whose address would be the
    reserved empty address is never handed out. *)
Definition sc_segment_lock_empty_element (k : Z) : M (option Z) :=
  fun st =>
    match segments st !! k with
    | Some s =>
        match sc_segment_empty_slot_hint s with
        | Some off =>
            if (flags_type (seg_el s off) =? 0)
               && SC_ADDR_IS_NOT_EMPTY (mk_addr (num s) off)
            then match sc_segment_lock_element k off st with
                 | Done _ st' => Done (Some off) st'
                 | Fault => Fault
                 | Timeout => Timeout
                 end
            else Done None st
        | None => Done None st
        end
    | None => Fault
    end.

(** Modelled from the spec: "erase_slot (seg, offset): zeros type under the
    assumption the caller holds the lock; releases the lock on success". *)
Definition sc_segment_erase_element (k off : Z) : M unit :=
  _ ← store (k, off) (set_flags_type 0);
  sc_segment_unlock_element k off.

(** ** Locking by address *)

Definition sc_storage_element_lock (addr : sc_addr)
  : M (sc_result * option sc_element_ptr) :=
  if SC_ADDR_SEG_MAX <=? seg addr then mret (SC_RESULT_ERROR, None)
  else
    st ← get_storage;
    match segments st !! seg addr with
    | None => mret (SC_RESULT_ERROR, None)
    | Some _ =>
        el ← sc_segment_lock_element (seg addr) (offset addr);
        mret (SC_RESULT_OK, el)
    end.

Definition sc_storage_element_lock_try (addr : sc_addr) (max_attempts : Z)
  : M (sc_result * option sc_element_ptr) :=
  if SC_ADDR_SEG_MAX <=? seg addr then mret (SC_RESULT_ERROR, None)
  else
    st ← get_storage;
    match segments st !! seg addr with
    | None => mret (SC_RESULT_ERROR, None)
    | Some _ =>
        el ← sc_segment_lock_element_try (seg addr) (offset addr) max_attempts;
        mret (SC_RESULT_OK, el)
    end.

Definition sc_storage_element_unlock (addr : sc_addr) : M sc_result :=
  if SC_ADDR_SEG_MAX <=? seg addr then mret SC_RESULT_ERROR
  else
    st ← get_storage;
    match segments st !! seg addr with
    | None => mret SC_RESULT_ERROR
    | Some _ =>
        _ ← sc_segment_unlock_element (seg addr) (offset addr);
        mret SC_RESULT_OK
    end.

Definition s_max_storage_lock_attempts : Z := 100.

(** ** The cache of segments with empty slots

    [_sc_segment_cache_lock] and [_sc_segment_cache_unlock] spin on a word
    only another context could hold; they change nothing here. *)

Variable ctx : sc_memory_context.

Definition CONCURRENCY_TO_CACHE_IDX (x : Z) : Z := Z.rem x SC_SEGMENT_CACHE_SIZE.

(** The [for] loop of [_sc_segment_cache_append], from iteration [i] on with
    [n] iterations left. *)
Fixpoint cache_append_from (n : nat) (i idx sg : Z) (st : sc_storage)
  : sc_storage :=
  match n with
  | O => st
  | S n' =>
      let slot := Z.rem (idx + i) SC_SEGMENT_CACHE_SIZE in
      match segments_cache st !! slot with
      | None =>
          with_cache (<[slot := sg]> (segments_cache st))
            (segments_cache_count st + 1) st
      | Some _ => cache_append_from n' (i + 1) idx sg st
      end
  end.

Definition _sc_segment_cache_append (sg : Z) : M unit :=
  fun st =>
    Done tt (cache_append_from (Z.to_nat SC_SEGMENT_CACHE_SIZE) 0
               (CONCURRENCY_TO_CACHE_IDX (ctx_id ctx)) sg st).

Fixpoint cache_remove_from (n : nat) (i idx sg : Z) (st : sc_storage)
  : sc_storage :=
  match n with
  | O => st
  | S n' =>
      let slot := Z.rem (idx + i) SC_SEGMENT_CACHE_SIZE in
      if bool_decide (segments_cache st !! slot = Some sg)
      then with_cache (delete slot (segments_cache st))
             (segments_cache_count st - 1) st
      else cache_remove_from n' (i + 1) idx sg st
  end.

Definition _sc_segment_cache_remove (sg : Z) : M unit :=
  fun st =>
    Done tt (cache_remove_from (Z.to_nat SC_SEGMENT_CACHE_SIZE) 0
               (CONCURRENCY_TO_CACHE_IDX (ctx_id ctx)) sg st).

(** The loop of [_sc_segment_cache_update] over [segments[i]]. *)
Fixpoint cache_update_from (n : nat) (i : Z) : M unit :=
  match n with
  | O => mret tt
  | S n' =>
      st ← get_storage;
      if segments_num st <=? i then mret tt
      else
        _ ← match segments st !! i with
            | Some s =>
                if sc_segment_has_empty_slot s
                then _sc_segment_cache_append i
                else mret tt
            | None => mret tt
            end;
        st' ← get_storage;
        if segments_cache_count st' =? SC_SEGMENT_CACHE_SIZE then mret tt
        else cache_update_from n' (i + 1)
  end.

Definition _sc_segment_cache_update : M unit :=
  st ← get_storage;
  cache_update_from (Z.to_nat (segments_num st)) 0.

(** The scan of [_sc_segment_cache_get] for a cached segment. *)
Fixpoint cache_scan_from (n : nat) (i idx : Z) (c : gmap Z Z) : option Z :=
  match n with
  | O => None
  | S n' =>
      match c !! Z.rem (idx + i) SC_SEGMENT_CACHE_SIZE with
      | Some sg => Some sg
      | None => cache_scan_from n' (i + 1) idx c
      end
  end.

(** [segments[seg_num] = seg] writes into an array of SC_ADDR_SEG_MAX
    pointers; a store outside of it ends the defined behaviour. *)
Definition _sc_segment_cache_get : M Z :=
  st ← get_storage;
  match (if 0 <? segments_cache_count st
         then cache_scan_from (Z.to_nat SC_SEGMENT_CACHE_SIZE) 0
                (CONCURRENCY_TO_CACHE_IDX (ctx_id ctx)) (segments_cache st)
         else None) with
  | Some sg => mret sg
  | None =>
      _ ← _sc_segment_cache_update;
      st1 ← get_storage;
      let seg_num := segments_num st1 in
      _ ← put_storage (with_segments_num (seg_num + 1) st1);
      if (seg_num <? 0) || (SC_ADDR_SEG_MAX <=? seg_num) then fault
      else
        st2 ← get_storage;
        _ ← put_storage
              (with_segments (<[seg_num := sc_segment_new seg_num]> (segments st2))
                 st2);
        _ ← _sc_segment_cache_append seg_num;
        mret seg_num
  end.

(** ** Allocation *)

(** The [while] loop of [sc_storage_append_el_into_segments]: the inner
    [seg] hides the outer one, so the loop ends only by a [return]. *)
Fixpoint append_el_loop (fuel : nat) (element : sc_element)
  : M (option sc_element_ptr * sc_addr) :=
  match fuel with
  | O => timeout
  | S fuel' =>
      sg ← _sc_segment_cache_get;
      el ← sc_segment_lock_empty_element sg;
      match el with
      | Some off =>
          s ← (fun st => match segments st !! sg with
                         | Some s => Done s st
                         | None => Fault
                         end);
          _ ← store (sg, off) (fun _ => element);
          mret (Some (sg, off), mk_addr (num s) off)
      | None =>
          _ ← _sc_segment_cache_remove sg;
          append_el_loop fuel' element
      end
  end.

Definition sc_storage_append_el_into_segments (fuel : nat)
    (element : sc_element) : M (option sc_element_ptr * sc_addr) :=
  st ← get_storage;
  if sc_config_get_max_loaded_segments <=? segments_num st
  then mret (None, addr_empty)
  else append_el_loop fuel element.

Definition sc_storage_is_element (addr : sc_addr) : M bool :=
  '(r, el) ← sc_storage_element_lock addr;
  match r, el with
  | SC_RESULT_OK, Some p =>
      e ← load p;
      _ ← sc_storage_element_unlock addr;
      mret (negb (flags_type e =? 0))
  | _, _ => mret false
  end.

Definition sc_storage_node_new (fuel : nat) (type : Z) : M sc_addr :=
  _ ← g_assert (Z.land sc_type_arc_mask type =? 0);
  let el := set_flags_type (Z.lor sc_type_node type) sc_element_zero in
  '(locked_el, addr) ← sc_storage_append_el_into_segments fuel el;
  match locked_el with
  | None => mret addr_empty
  | Some _ =>
      _ ← STORAGE_CHECK_CALL (sc_storage_element_unlock addr);
      mret addr
  end.

Definition sc_storage_link_new (fuel : nat) : M sc_addr :=
  let el := set_flags_type sc_type_link sc_element_zero in
  '(locked_el, addr) ← sc_storage_append_el_into_segments fuel el;
  match locked_el with
  | None => mret addr_empty
  | Some _ =>
      _ ← STORAGE_CHECK_CALL (sc_storage_element_unlock addr);
      mret addr
  end.

(** The second component is what the call stores through [result]. *)
Definition sc_storage_get_element_type (addr : sc_addr)
  : M (sc_result * option Z) :=
  '(r, el) ← sc_storage_element_lock addr;
  if negb (bool_decide (r = SC_RESULT_OK)) then mret (SC_RESULT_ERROR, None)
  else match el with
       | None => mret (SC_RESULT_ERROR, None)
       | Some p =>
           e ← load p;
           r' ← sc_storage_element_unlock addr;
           mret (r', Some (flags_type e))
       end.

Definition sc_storage_change_element_subtype (addr : sc_addr) (type : Z)
  : M sc_result :=
  if negb (Z.land type sc_type_element_mask =? 0)
  then mret SC_RESULT_ERROR_INVALID_PARAMS
  else
    '(r, el) ← sc_storage_element_lock addr;
    if negb (bool_decide (r = SC_RESULT_OK)) then mret SC_RESULT_ERROR
    else match el with
         | None => mret SC_RESULT_ERROR
         | Some p =>
             _ ← store p (fun e =>
                   set_flags_type
                     (Z.lor (Z.land (flags_type e) sc_type_element_mask)
                            (Z.land type (Z.lnot sc_type_element_mask))) e);
             sc_storage_element_unlock addr
         end.

(** ** Arc creation *)

(** The block under the label [unlock] of [sc_storage_arc_new]. *)
Definition arc_new_unlock (beg end_ : sc_addr)
    (beg_el end_el f_out_arc f_in_arc tmp_el : option sc_element_ptr)
    (first_out first_in addr : sc_addr) : M unit :=
  _ ← match beg_el with
      | Some _ =>
          _ ← (if f_out_arc is Some _ then _ ← sc_storage_element_unlock first_out; mret tt
               else mret tt);
          _ ← sc_storage_element_unlock beg;
          mret tt
      | None => mret tt
      end;
  _ ← match end_el with
      | Some _ =>
          _ ← (if f_in_arc is Some _ then _ ← sc_storage_element_unlock first_in; mret tt
               else mret tt);
          _ ← sc_storage_element_unlock end_;
          mret tt
      | None => mret tt
      end;
  if tmp_el is Some _ then _ ← sc_storage_element_unlock addr; mret tt
  else mret tt.

(** One pass through the body of the [while] loop: the last lock result [r]
    and the address of the new arc (empty when the pass left by [goto]). *)
Definition arc_new_pass (fuel : nat) (el : sc_element) (beg end_ : sc_addr)
  : M (sc_result * sc_addr) :=
  '(r, beg_el) ← sc_storage_element_lock_try beg s_max_storage_lock_attempts;
  match beg_el with
  | None =>
      _ ← arc_new_unlock beg end_ None None None None None
            addr_empty addr_empty addr_empty;
      mret (r, addr_empty)
  | Some bp =>
  '(r, end_el) ← sc_storage_element_lock_try end_ s_max_storage_lock_attempts;
  match end_el with
  | None =>
      _ ← arc_new_unlock beg end_ (Some bp) None None None None
            addr_empty addr_empty addr_empty;
      mret (r, addr_empty)
  | Some ep =>
  b ← load bp;
  let first_out := first_out_arc b in
  '(r, f_out_arc) ←
     (if SC_ADDR_IS_NOT_EMPTY first_out
      then sc_storage_element_lock_try first_out s_max_storage_lock_attempts
      else mret (r, None));
  if SC_ADDR_IS_NOT_EMPTY first_out && negb (bool_decide (is_Some f_out_arc))
  then
    _ ← arc_new_unlock beg end_ (Some bp) (Some ep) None None None
          first_out addr_empty addr_empty;
    mret (r, addr_empty)
  else
  e ← load ep;
  let first_in := first_in_arc e in
  '(r, f_in_arc) ←
     (if SC_ADDR_IS_NOT_EMPTY first_in
      then sc_storage_element_lock_try first_in s_max_storage_lock_attempts
      else mret (r, None));
  if SC_ADDR_IS_NOT_EMPTY first_in && negb (bool_decide (is_Some f_in_arc))
  then
    _ ← arc_new_unlock beg end_ (Some bp) (Some ep) f_out_arc None None
          first_out first_in addr_empty;
    mret (r, addr_empty)
  else
  '(tmp_el, addr) ← sc_storage_append_el_into_segments fuel el;
  match tmp_el with
  | None => fault
  | Some tp =>
  _ ← g_assert (SC_ADDR_IS_NOT_EQUAL addr first_in);
  _ ← sc_event_emit beg SC_EVENT_ADD_OUTPUT_ARC addr;
  _ ← sc_event_emit end_ SC_EVENT_ADD_INPUT_ARC addr;
  b' ← load bp;
  e' ← load ep;
  _ ← g_assert (negb (flags_type b' =? 0) && negb (flags_type e' =? 0));
  _ ← store tp (set_arc_next_out_arc first_out);
  _ ← store tp (set_arc_next_in_arc first_in);
  _ ← g_assert (SC_ADDR_IS_NOT_EQUAL addr first_out
                && SC_ADDR_IS_NOT_EQUAL addr first_in);
  _ ← match f_out_arc with
      | Some fp => store fp (set_arc_prev_out_arc addr)
      | None => mret tt
      end;
  _ ← match f_in_arc with
      | Some fp => store fp (set_arc_prev_in_arc addr)
      | None => mret tt
      end;
  _ ← store bp (set_first_out_arc addr);
  _ ← store ep (set_first_in_arc addr);
  _ ← arc_new_unlock beg end_ (Some bp) (Some ep) f_out_arc f_in_arc (Some tp)
        first_out first_in addr;
  mret (r, addr)
  end end end.

Fixpoint arc_new_loop (n fuel : nat) (el : sc_element) (beg end_ : sc_addr)
  : M sc_addr :=
  match n with
  | O => timeout
  | S n' =>
      '(r, addr) ← arc_new_pass fuel el beg end_;
      if negb (bool_decide (r = SC_RESULT_OK)) then mret addr
      else if SC_ADDR_IS_EMPTY addr then arc_new_loop n' fuel el beg end_
      else mret addr
  end.

Definition sc_storage_arc_new (fuel : nat) (type : Z) (beg end_ : sc_addr)
  : M sc_addr :=
  _ ← g_assert (Z.land sc_type_node type =? 0);
  let el :=
    set_arc_end end_
      (set_arc_begin beg
         (set_flags_type
            (if negb (Z.land type sc_type_arc_mask =? 0) then type
             else Z.lor sc_type_arc_common type)
            sc_element_zero)) in
  arc_new_loop fuel fuel el beg end_.

(** ** Recursive deletion *)

(** [GHashTable] with [g_direct_hash] and [g_direct_equal]. *)
Definition g_hash_table_lookup (t : hash_table) (k : sc_addr)
  : option sc_element_ptr :=
  snd <$> find (fun kv => bool_decide (kv.1 = k)) t.

Fixpoint g_hash_table_replace (t : hash_table) (k : sc_addr)
    (v : sc_element_ptr) : hash_table :=
  match t with
  | [] => []
  | kv :: t' =>
      if bool_decide (kv.1 = k) then (k, v) :: t'
      else kv :: g_hash_table_replace t' k v
  end.

Definition g_hash_table_insert (t : hash_table) (k : sc_addr)
    (v : sc_element_ptr) : hash_table :=
  match g_hash_table_lookup t k with
  | Some _ => g_hash_table_replace t k v
  | None => t ++ [(k, v)]
  end.

(** The locals [remove_table], [lock_table] and [remove_list]. *)
Record free_locals := mk_locals {
  remove_table : hash_table;
  lock_table : hash_table;
  remove_list : list sc_addr
}.

(** [sc_storage_element_lock (ctx, a, &el2)] followed by [g_assert (el2 != 0)];
    the result code is dropped when [checked] is false. *)
Definition free_lock (checked : bool) (a : sc_addr) : M sc_element_ptr :=
  '(r, el2) ← sc_storage_element_lock a;
  _ ← g_assert (negb checked || bool_decide (r = SC_RESULT_OK));
  match el2 with
  | Some p => mret p
  | None => fault
  end.

(** One of the two [while] loops that walk the connectors of the element
    being deleted; [next] is the link that is followed. *)
Fixpoint free_walk (fuel : nat) (next : sc_element -> sc_addr)
    (_addr : sc_addr) (tb : free_locals) : M free_locals :=
  match fuel with
  | O => timeout
  | S fuel' =>
      if SC_ADDR_IS_NOT_EMPTY _addr then
        '(el2, tb') ←
          match g_hash_table_lookup (remove_table tb) _addr with
          | Some el2 => mret (el2, tb)
          | None =>
              el2 ← free_lock false _addr;
              mret (el2,
                    mk_locals (g_hash_table_insert (remove_table tb) _addr el2)
                      (g_hash_table_insert (lock_table tb) _addr el2)
                      (remove_list tb ++ [_addr]))
          end;
        e2 ← load el2;
        free_walk fuel' next (next e2) tb'
      else mret tb
  end.

(** Locks a neighbour of the arc being deleted unless [lock_table] has it. *)
Definition free_lock_neighbour (a : sc_addr) (tb : free_locals)
  : M free_locals :=
  if SC_ADDR_IS_NOT_EMPTY a then
    match g_hash_table_lookup (lock_table tb) a with
    | Some _ => mret tb
    | None =>
        el2 ← free_lock true a;
        mret (mk_locals (remove_table tb)
                (g_hash_table_insert (lock_table tb) a el2)
                (remove_list tb))
    end
  else mret tb.

(** Locks an end of the arc being deleted unless [lock_table] has it. *)
Definition free_lock_end (a : sc_addr) (tb : free_locals)
  : M (sc_element_ptr * free_locals) :=
  match g_hash_table_lookup (lock_table tb) a with
  | Some el2 => mret (el2, tb)
  | None =>
      el2 ← free_lock true a;
      mret (el2, mk_locals (remove_table tb)
                   (g_hash_table_insert (lock_table tb) a el2)
                   (remove_list tb))
  end.

(** The branch [if (el->flags.type & sc_type_arc_mask)] of the first loop. *)
Definition free_collect_arc (_addr : sc_addr) (el : sc_element_ptr)
    (tb : free_locals) : M free_locals :=
  e ← load el;
  _ ← sc_event_emit (arc_begin e) SC_EVENT_REMOVE_OUTPUT_ARC _addr;
  e ← load el;
  _ ← sc_event_emit (arc_end e) SC_EVENT_REMOVE_INPUT_ARC _addr;
  e ← load el;
  '(el2, tb) ← free_lock_end (arc_begin e) tb;
  e ← load el;
  _ ← store el2 (set_first_out_arc (arc_next_out_arc e));
  e ← load el;
  '(el2, tb) ← free_lock_end (arc_end e) tb;
  e ← load el;
  _ ← store el2 (set_first_in_arc (arc_next_in_arc e));
  e ← load el;
  tb ← free_lock_neighbour (arc_prev_out_arc e) tb;
  tb ← free_lock_neighbour (arc_prev_in_arc e) tb;
  tb ← free_lock_neighbour (arc_next_out_arc e) tb;
  free_lock_neighbour (arc_next_in_arc e) tb.

(** The body of the first loop for the address taken off [remove_list]. *)
Definition free_collect_one (fuel : nat) (_addr : sc_addr) (tb : free_locals)
  : M free_locals :=
  '(el, tb) ←
    match g_hash_table_lookup (lock_table tb) _addr with
    | Some el => mret (el, tb)
    | None =>
        el ← free_lock true _addr;
        e ← load el;
        _ ← g_assert (negb (flags_type e =? 0));
        mret (el,
              mk_locals (g_hash_table_insert (remove_table tb) _addr el)
                (g_hash_table_insert (lock_table tb) _addr el)
                (remove_list tb))
    end;
  _ ← sc_event_notify_element_deleted _addr;
  e ← load el;
  tb ← (if negb (Z.land (flags_type e) sc_type_arc_mask =? 0)
        then free_collect_arc _addr el tb
        else mret tb);
  e ← load el;
  tb ← free_walk fuel arc_next_out_arc (first_out_arc e) tb;
  e ← load el;
  free_walk fuel arc_next_in_arc (first_in_arc e) tb.

(** The first loop: [while (remove_list != 0)]. *)
Fixpoint free_collect (n fuel : nat) (tb : free_locals) : M free_locals :=
  match n with
  | O => timeout
  | S n' =>
      match remove_list tb with
      | [] => mret tb
      | _addr :: rest =>
          tb ← free_collect_one fuel _addr
                 (mk_locals (remove_table tb) (lock_table tb) rest);
          free_collect n' fuel tb
      end
  end.

(** Looks an end of the arc up in [lock_table]; locks it when it is missing
    ([need_unlock]). *)
Definition free_erase_end (lt : hash_table) (a : sc_addr)
  : M (sc_element_ptr * bool) :=
  match g_hash_table_lookup lt a with
  | Some p => mret (p, false)
  | None => p ← free_lock true a; mret (p, true)
  end.

(** The branch that takes an arc out of the output and input lists. *)
Definition free_erase_arc (lt : hash_table) (addr : sc_addr)
    (el : sc_element_ptr) : M unit :=
  (* output arcs *)
  e ← load el;
  let prev_arc := arc_prev_out_arc e in
  let next_arc := arc_next_out_arc e in
  _ ← (if SC_ADDR_IS_NOT_EMPTY prev_arc then
         match g_hash_table_lookup lt prev_arc with
         | Some prev_el_arc => store prev_el_arc (set_arc_next_out_arc next_arc)
         | None => fault
         end
       else mret tt);
  _ ← (if SC_ADDR_IS_NOT_EMPTY next_arc then
         match g_hash_table_lookup lt next_arc with
         | Some next_el_arc => store next_el_arc (set_arc_prev_out_arc prev_arc)
         | None => fault
         end
       else mret tt);
  e ← load el;
  '(b_el, need_unlock) ← free_erase_end lt (arc_begin e);
  b ← load b_el;
  _ ← (if SC_ADDR_IS_EQUAL addr (first_out_arc b)
       then store b_el (set_first_out_arc next_arc) else mret tt);
  e ← load el;
  _ ← (if need_unlock : bool
       then _ ← sc_storage_element_unlock (arc_begin e); mret tt
       else mret tt);
  (* input arcs *)
  e ← load el;
  let prev_arc := arc_prev_in_arc e in
  let next_arc := arc_next_in_arc e in
  _ ← (if SC_ADDR_IS_NOT_EMPTY prev_arc then
         match g_hash_table_lookup lt prev_arc with
         | Some prev_el_arc => store prev_el_arc (set_arc_next_in_arc next_arc)
         | None => fault
         end
       else mret tt);
  _ ← (if SC_ADDR_IS_NOT_EMPTY next_arc then
         match g_hash_table_lookup lt next_arc with
         | Some next_el_arc => store next_el_arc (set_arc_prev_in_arc prev_arc)
         | None => fault
         end
       else mret tt);
  e ← load el;
  '(e_el, need_unlock) ← free_erase_end lt (arc_end e);
  b ← load b_el;
  _ ← (if SC_ADDR_IS_EQUAL addr (first_in_arc b)
       then store e_el (set_first_in_arc next_arc) else mret tt);
  e ← load el;
  if need_unlock : bool
  then _ ← sc_storage_element_unlock (arc_end e); mret tt
  else mret tt.

(** The body of the second loop, for one entry of [remove_table]. *)
Definition free_erase_one (lt : hash_table) (kv : sc_addr * sc_element_ptr)
  : M sc_addr :=
  let el := kv.2 in
  let addr := kv.1 in
  e ← load el;
  _ ← (if negb (Z.land (flags_type e) sc_type_arc_mask =? 0)
       then free_erase_arc lt addr el else mret tt);
  _ ← sc_segment_erase_element (seg addr) (offset addr);
  _ ← _sc_segment_cache_append (seg addr);
  mret addr.

(** The second loop; the result is the value [addr] is left with. *)
Fixpoint free_erase_all (lt : hash_table) (l : hash_table) (addr : sc_addr)
  : M sc_addr :=
  match l with
  | [] => mret addr
  | kv :: l' =>
      addr' ← free_erase_one lt kv;
      free_erase_all lt l' addr'
  end.

(** The third loop, over [lock_table]. *)
Fixpoint free_unlock_all (l : hash_table) (addr : sc_addr) : M sc_addr :=
  match l with
  | [] => mret addr
  | kv :: l' =>
      _ ← sc_storage_element_unlock kv.1;
      free_unlock_all l' kv.1
  end.

(** The first half of [sc_storage_element_free]: [addr] is locked and
    everything to be deleted is collected and locked.  [None] stands for the
    early [return SC_RESULT_ERROR]. *)
Definition free_collect_all (fuel : nat) (addr : sc_addr)
  : M (option free_locals) :=
  '(r, el) ← sc_storage_element_lock addr;
  if negb (bool_decide (r = SC_RESULT_OK)) then mret None
  else match el with
  | None => mret None
  | Some p =>
      e ← load p;
      if flags_type e =? 0 then mret None
      else
        tb ← free_collect fuel fuel (mk_locals [(addr, p)] [(addr, p)] [addr]);
        mret (Some tb)
  end.

(** The second half: the elements are erased in the order [to_erase] of
    [remove_table], the locks are released in the order [to_unlock] of
    [lock_table], and the removal is announced. *)
Definition free_finish (lt to_erase to_unlock : hash_table) (addr : sc_addr)
  : M sc_result :=
  addr ← free_erase_all lt to_erase addr;
  addr ← free_unlock_all to_unlock addr;
  _ ← sc_event_emit addr SC_EVENT_REMOVE_ELEMENT addr;
  mret SC_RESULT_OK.

Definition sc_storage_element_free (fuel : nat) (addr : sc_addr)
  : M sc_result :=
  tb ← free_collect_all fuel addr;
  match tb with
  | None => mret SC_RESULT_ERROR
  | Some tb =>
      free_finish (lock_table tb)
        (g_hash_table_iter_order (remove_table tb))
        (g_hash_table_iter_order (lock_table tb)) addr
  end.

End Storage.

(** ** The other operations of the storage *)

Section Facade.
Context `{sc_defines}.
Variable ctx : sc_memory_context.

(** [sc_storage_element_new] gives the lock back before it asserts that the
    allocation has handed out an element. *)
Definition sc_storage_element_new (fuel : nat) (type : Z) : M sc_addr :=
  let el := set_flags_type type sc_element_zero in
  '(res, addr) ← sc_storage_append_el_into_segments ctx fuel el;
  _ ← sc_storage_element_unlock addr;
  _ ← g_assert (bool_decide (is_Some res));
  mret addr.

(** The accessors of the ends of an arc; the second component is what the
    call stores through [result].  The pointer the lock hands out is read
    without the null test of [sc_storage_get_element_type]. *)
Definition sc_storage_get_arc_begin (addr : sc_addr)
  : M (sc_result * option sc_addr) :=
  '(r, el) ← sc_storage_element_lock addr;
  if negb (bool_decide (r = SC_RESULT_OK)) then mret (SC_RESULT_ERROR, None)
  else match el with
       | None => fault
       | Some p =>
           e ← load p;
           let res :=
             if negb (Z.land (flags_type e) sc_type_arc_mask =? 0)
             then (SC_RESULT_OK, Some (arc_begin e))
             else (SC_RESULT_ERROR_INVALID_TYPE, None) in
           _ ← sc_storage_element_unlock addr;
           mret res
       end.

Definition sc_storage_get_arc_end (addr : sc_addr)
  : M (sc_result * option sc_addr) :=
  '(r, el) ← sc_storage_element_lock addr;
  if negb (bool_decide (r = SC_RESULT_OK)) then mret (SC_RESULT_ERROR, None)
  else match el with
       | None => fault
       | Some p =>
           e ← load p;
           let res :=
             if negb (Z.land (flags_type e) sc_type_arc_mask =? 0)
             then (SC_RESULT_OK, Some (arc_end e))
             else (SC_RESULT_ERROR_INVALID_TYPE, None) in
           _ ← sc_storage_element_unlock addr;
           mret res
       end.

Definition sc_storage_get_segments_count : M Z :=
  st ← get_storage; mret (segments_num st).

End Facade.

(** ** Link content

    The checksum of a stream (sc_link_helpers.h) and the file storage that
    keeps the content (sc_fs_storage.h) are collaborators: the hasher and
    the two calls into the file storage are parameters, and the state of the
    file storage is passed along. *)

(** [sc_check_sum]: the bytes and how many of them count. *)
Record sc_check_sum := mk_check_sum { cs_data : list Z; cs_len : Z }.

Definition set_content_data (v : list Z) (e : sc_element) : sc_element :=
  mk_element (flags_type e) (first_out_arc e) (first_in_arc e) (arc_begin e)
    (arc_end e) (arc_next_out_arc e) (arc_next_in_arc e) (arc_prev_out_arc e)
    (arc_prev_in_arc e) v.

(** [memcpy (dst, src, n)] on byte arrays: the first [n] bytes of [dst]
    become those of [src]; a copy that leaves either array has no defined
    result. *)
Definition memcpy (dst src : list Z) (n : Z) : option (list Z) :=
  if (0 <=? n) && (n <=? Z.of_nat (length dst)) && (n <=? Z.of_nat (length src))
  then Some (take (Z.to_nat n) src ++ drop (Z.to_nat n) dst)
  else None.

Section Content.
Context `{sc_defines}.
Variable sc_stream : Type.
Variable fs_storage : Type.
Variable sc_link_calculate_checksum : sc_stream -> option sc_check_sum.
Variable sc_fs_storage_write_content :
  sc_addr -> sc_check_sum -> sc_stream -> fs_storage -> sc_result * fs_storage.
Variable sc_fs_storage_get_checksum_content :
  sc_check_sum -> fs_storage -> sc_result * option sc_stream * fs_storage.

(** [stream] is [None] for a null pointer.  The result of
    [sc_fs_storage_write_content] is assigned to [result] and overwritten
    with SC_RESULT_OK two statements later. *)
Definition sc_storage_set_link_content (addr : sc_addr)
    (stream : option sc_stream) (fs : fs_storage)
  : M (sc_result * fs_storage) :=
  '(r, el) ← sc_storage_element_lock addr;
  match r, el with
  | SC_RESULT_OK, Some p =>
      match stream with
      | None => fault
      | Some s =>
          e ← load p;
          if Z.land (flags_type e) sc_type_link =? 0 then
            _ ← STORAGE_CHECK_CALL (sc_storage_element_unlock addr);
            mret (SC_RESULT_ERROR_INVALID_TYPE, fs)
          else
            match sc_link_calculate_checksum s with
            | Some check_sum =>
                let fs' := (sc_fs_storage_write_content addr check_sum s fs).2 in
                e ← load p;
                match memcpy (content_data e) (cs_data check_sum)
                        (cs_len check_sum) with
                | Some data =>
                    _ ← store p (set_content_data data);
                    _ ← STORAGE_CHECK_CALL (sc_storage_element_unlock addr);
                    mret (SC_RESULT_OK, fs')
                | None => fault
                end
            | None => fault
            end
      end
  | _, _ => mret (SC_RESULT_ERROR, fs)
  end.

(** The checksum [sc_storage_get_link_content] builds from the element. *)
Definition link_checksum (e : sc_element) : option sc_check_sum :=
  if (0 <=? SC_CHECKSUM_LEN)
     && (SC_CHECKSUM_LEN <=? Z.of_nat (length (content_data e)))
  then Some (mk_check_sum (take (Z.to_nat SC_CHECKSUM_LEN) (content_data e))
               SC_CHECKSUM_LEN)
  else None.

(** The second component is what the call stores through [stream]. *)
Definition sc_storage_get_link_content (addr : sc_addr) (fs : fs_storage)
  : M (sc_result * option sc_stream * fs_storage) :=
  '(r, el) ← sc_storage_element_lock addr;
  match r, el with
  | SC_RESULT_OK, Some p =>
      e ← load p;
      if Z.land (flags_type e) sc_type_link =? 0 then
        _ ← STORAGE_CHECK_CALL (sc_storage_element_unlock addr);
        mret (SC_RESULT_ERROR_INVALID_TYPE, None, fs)
      else
        e ← load p;
        match link_checksum e with
        | Some checksum =>
            let res := sc_fs_storage_get_checksum_content checksum fs in
            _ ← STORAGE_CHECK_CALL (sc_storage_element_unlock addr);
            mret res
        | None => fault
        end
  | _, _ => mret (SC_RESULT_ERROR, None, fs)
  end.

End Content.

(** ** A concrete configuration

    The values of sc_types.h and sc_defines.h, a first-fit slot search over
    segments of [cap] slots, and a limit of [max_segs] loaded segments; the
    order in which a hash table is iterated stays a parameter. *)

Fixpoint first_empty_slot (n : nat) (off : Z) (s : sc_segment) : option Z :=
  match n with
  | O => None
  | S n' =>
      if match elements s !! off with
         | Some e => flags_type e =? 0
         | None => true
         end && negb ((num s =? 0) && (off =? 0))
      then Some off
      else first_empty_slot n' (off + 1) s
  end.

Definition demo_defines (cap max_segs : Z) (ord : hash_table -> hash_table)
  : sc_defines :=
  {| sc_type_node := 1;
     sc_type_link := 2;
     sc_type_arc_common := 8;
     sc_type_arc_mask := 28;
     sc_type_element_mask := 31;
     SC_ADDR_SEG_MAX := 65535;
     SC_SEGMENT_CACHE_SIZE := 32;
     SC_CHECKSUM_LEN := 32;
     sc_config_get_max_loaded_segments := max_segs;
     sc_segment_has_empty_slot :=
       fun s => bool_decide (is_Some (first_empty_slot (Z.to_nat cap) 0 s));
     sc_segment_empty_slot_hint := first_empty_slot (Z.to_nat cap) 0;
     g_hash_table_iter_order := ord |}.

(** * The vocabulary of the statements *)

(** ** Reasoning about runs *)

(** [hoare P m Q]: a run of [m] that starts in [P] and finishes does so in
    [Q]. *)
Definition hoare {A} (P : sc_storage -> Prop) (m : M A)
    (Q : A -> sc_storage -> Prop) : Prop :=
  forall st, P st -> forall a st', m st = Done a st' -> Q a st'.

(** [keeps R m]: every finished run of [m] relates its first state to its
    last by [R]. *)
Definition keeps {A} (R : relation sc_storage) (m : M A) : Prop :=
  forall st a st', m st = Done a st' -> R st st'.

Section StateVocabulary.
Context `{sc_defines}.
Variable ctx : sc_memory_context.

(** ** What the primitives leave alone *)

(** The segments that are loaded stay loaded, with their numbers. *)
Definition segs_grow (st st' : sc_storage) : Prop :=
  forall k s, segments st !! k = Some s ->
    exists s', segments st' !! k = Some s' /\ num s' = num s.

(** No element changes. *)
Definition same_elements (st st' : sc_storage) : Prop :=
  forall p, slot st' p = slot st p.

(** Nothing is told to the event sink. *)
Definition same_events (st st' : sc_storage) : Prop :=
  event_log st' = event_log st.

(** Only the locks and the cache may change. *)
Definition same_segments (st st' : sc_storage) : Prop :=
  (segments_num st' = segments_num st /\ event_log st' = event_log st) /\
  forall k, match segments st !! k, segments st' !! k with
            | Some s, Some s' => num s' = num s /\ elements s' = elements s
            | None, None => True
            | _, _ => False
            end.

(** ** Locking by address, as equations *)

(** The storage after one more acquisition of the lock of [a]. *)
Definition locked (a : sc_addr) (st : sc_storage) : sc_storage :=
  match segments st !! seg a with
  | Some s =>
      with_segments
        (<[seg a := with_locks (lock_acquire (offset a) (locks s)) s]>
           (segments st)) st
  | None => st
  end.

(** The storage after one acquisition of the lock of [a] is given back. *)
Definition unlocked (a : sc_addr) (st : sc_storage) : sc_storage :=
  match segments st !! seg a with
  | Some s =>
      with_segments
        (<[seg a := with_locks (lock_release (offset a) (locks s)) s]>
           (segments st)) st
  | None => st
  end.

(** An address the lock functions accept: the segment index is in bounds
    and the segment is loaded. *)
Definition addr_valid (st : sc_storage) (a : sc_addr) : Prop :=
  seg a < SC_ADDR_SEG_MAX /\ is_Some (segments st !! seg a).

#[global] Instance addr_valid_dec st a : Decision (addr_valid st a).
Proof. unfold addr_valid. apply _. Defined.

(** ** Reading and changing the type of an element *)

(** The type [sc_storage_change_element_subtype] leaves in a slot. *)
Definition subtype_changed (old type : Z) : Z :=
  Z.lor (Z.land old sc_type_element_mask)
        (Z.land type (Z.lnot sc_type_element_mask)).

(** The storage with [f] applied to the element of [a]. *)
Definition updated (a : sc_addr) (f : sc_element -> sc_element)
    (st : sc_storage) : sc_storage :=
  match segments st !! seg a with
  | Some s =>
      with_segments
        (<[seg a := with_elements
                      (<[offset a := f (element_at st a)]> (elements s)) s]>
           (segments st)) st
  | None => st
  end.

(** ** Allocation *)

(** The segment table as [sc_storage.c] keeps it: segment [k] carries the
    number [k], lies inside the array of SC_ADDR_SEG_MAX pointers and below
    [segments_num]. *)
Definition storage_wf (st : sc_storage) : Prop :=
  map_Forall
    (fun k s => num s = k /\ 0 <= k < SC_ADDR_SEG_MAX /\ k < segments_num st)
    (segments st).

#[global] Instance storage_wf_dec st : Decision (storage_wf st).
Proof. unfold storage_wf. apply _. Defined.

(** From a well-formed storage: the result is well formed, no segment is
    lost, no element changes and no event is emitted. *)
Definition grows (st st' : sc_storage) : Prop :=
  storage_wf st ->
  storage_wf st' /\ segs_grow st st' /\ same_elements st st' /\
  same_events st st'.

(** What a successful allocation of [el] at [addr] has done. *)
Definition allocated (el : sc_element) (st : sc_storage) (addr : sc_addr)
    (st' : sc_storage) : Prop :=
  SC_ADDR_IS_EMPTY addr = false /\
  addr_valid st' addr /\
  flags_type (element_at st addr) = 0 /\
  storage_wf st' /\
  segs_grow st st' /\
  same_events st st' /\
  element_at st' addr = el /\
  forall a, a <> addr -> element_at st' a = element_at st a.

(** ** Arc creation *)

(** The storage with [f] applied to the element of [h] unless [h] is the
    empty address. *)
Definition updated_head (h : sc_addr) (f : sc_element -> sc_element)
    (st : sc_storage) : sc_storage :=
  if SC_ADDR_IS_NOT_EMPTY h then updated h f st else st.

(** The assignments of [sc_storage_arc_new] that link the new arc [addr]
    in front of the heads [h_out] and [h_in]. *)
Definition arc_linked (beg end_ h_out h_in addr : sc_addr) (st : sc_storage)
  : sc_storage :=
  updated end_ (set_first_in_arc addr)
    (updated beg (set_first_out_arc addr)
       (updated_head h_in (set_arc_prev_in_arc addr)
          (updated_head h_out (set_arc_prev_out_arc addr)
             (updated addr (set_arc_next_in_arc h_in)
                (updated addr (set_arc_next_out_arc h_out) st))))).

(** A getter that the four back-link assignments of [arc_linked] leave
    alone. *)
Definition link_stable {A} (g : sc_element -> A) : Prop :=
  (forall v e, g (set_first_in_arc v e) = g e) /\
  (forall v e, g (set_first_out_arc v e) = g e) /\
  (forall v e, g (set_arc_prev_in_arc v e) = g e) /\
  (forall v e, g (set_arc_prev_out_arc v e) = g e).

(** What a successful [sc_storage_arc_new] has done: [h_out] and [h_in] are
    the heads of the two lists before the call. *)
Definition arc_created (el : sc_element) (beg end_ : sc_addr)
    (st : sc_storage) (addr : sc_addr) (st' : sc_storage) : Prop :=
  let h_out := first_out_arc (element_at st beg) in
  let h_in := first_in_arc (element_at st end_) in
  addr <> addr_empty /\
  addr_valid st' addr /\
  flags_type (element_at st addr) = 0 /\
  first_out_arc (element_at st' beg) = addr /\
  first_in_arc (element_at st' end_) = addr /\
  arc_next_out_arc (element_at st' addr) = h_out /\
  arc_next_in_arc (element_at st' addr) = h_in /\
  (h_out <> addr_empty -> arc_prev_out_arc (element_at st' h_out) = addr) /\
  (h_in <> addr_empty -> arc_prev_in_arc (element_at st' h_in) = addr) /\
  flags_type (element_at st' addr) = flags_type el /\
  arc_begin (element_at st' addr) = arc_begin el /\
  arc_end (element_at st' addr) = arc_end el /\
  (forall a, a <> addr ->
     flags_type (element_at st' a) = flags_type (element_at st a) /\
     arc_next_out_arc (element_at st' a) = arc_next_out_arc (element_at st a) /\
     arc_next_in_arc (element_at st' a) = arc_next_in_arc (element_at st a)) /\
  event_log st'
  = event_log st ++ [Emitted beg SC_EVENT_ADD_OUTPUT_ARC addr;
                     Emitted end_ SC_EVENT_ADD_INPUT_ARC addr] /\
  storage_wf st'.

(** The element [sc_storage_arc_new] fills in before it allocates. *)
Definition arc_element (type : Z) (beg end_ : sc_addr) : sc_element :=
  set_arc_end end_
    (set_arc_begin beg
       (set_flags_type
          (if negb (Z.land type sc_type_arc_mask =? 0) then type
           else Z.lor sc_type_arc_common type)
          sc_element_zero)).

(** ** The arc lists of an element *)

(** The addresses met from [a] on along the link [next] until the empty
    address; [None] when [fuel] links do not reach it. *)
Fixpoint arc_chain (next : sc_element -> sc_addr) (fuel : nat)
    (st : sc_storage) (a : sc_addr) : option (list sc_addr) :=
  match fuel with
  | O => None
  | S n =>
      if SC_ADDR_IS_EMPTY a then Some []
      else cons a <$> arc_chain next n st (next (element_at st a))
  end.

(** What a traversal from [el.first_out_arc] along [next_out_arc] visits. *)
Definition out_arcs (fuel : nat) (st : sc_storage) (el : sc_addr)
  : option (list sc_addr) :=
  arc_chain arc_next_out_arc fuel st (first_out_arc (element_at st el)).

(** What a traversal from [el.first_in_arc] along [next_in_arc] visits. *)
Definition in_arcs (fuel : nat) (st : sc_storage) (el : sc_addr)
  : option (list sc_addr) :=
  arc_chain arc_next_in_arc fuel st (first_in_arc (element_at st el)).

(** Every address of the list names an element that is not empty. *)
Definition all_alive (st : sc_storage) (l : list sc_addr) : Prop :=
  Forall (fun a => flags_type (element_at st a) <> 0) l.

#[global] Instance all_alive_dec st l : Decision (all_alive st l).
Proof. unfold all_alive. apply _. Defined.

End StateVocabulary.

(** ** Which element is created, and with which type *)

Inductive creation :=
| CreateNode (type : Z)
| CreateLink
| CreateArc (type : Z) (beg end_ : sc_addr).

Section CreationVocabulary.
Context `{sc_defines}.
Variable ctx : sc_memory_context.

Definition create (fuel : nat) (c : creation) : M sc_addr :=
  match c with
  | CreateNode type => sc_storage_node_new ctx fuel type
  | CreateLink => sc_storage_link_new ctx fuel
  | CreateArc type beg end_ => sc_storage_arc_new ctx fuel type beg end_
  end.

(** The type the new element is given. *)
Definition composed_type (c : creation) : Z :=
  match c with
  | CreateNode type => Z.lor sc_type_node type
  | CreateLink => sc_type_link
  | CreateArc type _ _ =>
      if Z.land type sc_type_arc_mask =? 0 then Z.lor sc_type_arc_common type
      else type
  end.

Definition creates_arc (c : creation) : bool :=
  match c with
  | CreateArc _ _ _ => true
  | _ => false
  end.

(** Everything but the type is as [memset] left it. *)
Definition zeroed_but_type (e : sc_element) : Prop :=
  first_out_arc e = addr_empty /\ first_in_arc e = addr_empty /\
  arc_begin e = addr_empty /\ arc_end e = addr_empty /\
  arc_next_out_arc e = addr_empty /\ arc_next_in_arc e = addr_empty /\
  arc_prev_out_arc e = addr_empty /\ arc_prev_in_arc e = addr_empty /\
  Forall (fun byte => byte = 0) (content_data e).

End CreationVocabulary.

(** ** Concrete runs *)

(** The configuration of the runs below: hash tables are iterated in
    insertion order. *)
Definition demo : sc_defines := demo_defines 65535 100 id.

Definition demo_ctx : sc_memory_context := mk_context 0.

(** The storage a run ends in. *)
Definition final_state {A} (o : outcome A) : sc_storage :=
  match o with
  | Done _ st => st
  | _ => storage_empty
  end.

(** Two nodes, at the addresses (0, 1) and (0, 2). *)
Definition demo_two_nodes : sc_storage :=
  Eval vm_compute in
    final_state
      ((_ ← @sc_storage_node_new demo demo_ctx 4 0;
        @sc_storage_node_new demo demo_ctx 4 0) storage_empty).

(** The two nodes and an arc between them, at (0, 3). *)
Definition demo_one_arc : sc_storage :=
  Eval vm_compute in
    final_state
      (@sc_storage_arc_new demo demo_ctx 4 0 (mk_addr 0 1) (mk_addr 0 2)
         demo_two_nodes).

(** A second arc between the two nodes, at (0, 4). *)
Definition demo_two_arcs : sc_storage :=
  Eval vm_compute in
    final_state
      (@sc_storage_arc_new demo demo_ctx 4 0 (mk_addr 0 1) (mk_addr 0 2)
         demo_one_arc).

(** A third node, of type [sc_type_const] (0x20), in the storage with two
    nodes. *)
Definition demo_three_nodes : sc_storage :=
  Eval vm_compute in
    final_state (@sc_storage_node_new demo demo_ctx 4 32 demo_two_nodes).

(** The configuration with [max_loaded_segments] set to 1. *)
Definition capacity_demo : sc_defines := demo_defines 65535 1 id.

(** The first node under that configuration, at (0, 1): segment 0 is
    loaded for it and [segments_num] becomes 1. *)
Definition capacity_one_node : sc_storage :=
  Eval vm_compute in
    final_state (@sc_storage_node_new capacity_demo demo_ctx 4 0 storage_empty).

Section OrderVocabulary.
Context `{sc_defines}.
Variable ctx : sc_memory_context.

(** ** Deletion, whatever the order of the hash tables *)

(** [check] holds of the elements at [probe] however [remove_table] is
    iterated. *)
Definition erased_in_every_order (lt rt : hash_table) (addr : sc_addr)
    (st : sc_storage) (probe : list sc_addr)
    (check : list sc_element -> bool) : bool :=
  forallb
    (fun to_erase =>
       match free_erase_all ctx lt to_erase addr st with
       | Done _ st1 => check (map (element_at st1) probe)
       | _ => false
       end)
    (permutations rt).

End OrderVocabulary.

(** ** Concrete graphs for the deletion *)

(** The configuration of the runs with the iteration order [ord]. *)
Definition demo_order (ord : hash_table -> hash_table) : sc_defines :=
  demo_defines 65535 100 ord.

(** A run of creations from the empty storage; arcs are ARC_COMMON (8). *)
Definition demo_node : M sc_addr := @sc_storage_node_new demo demo_ctx 4 0.

Definition demo_arc (beg end_ : sc_addr) : M sc_addr :=
  @sc_storage_arc_new demo demo_ctx 4 8 beg end_.

(** Scenario 5 of the specification: a -e1-> b -e2-> c, with
    a = (0, 1), b = (0, 2), c = (0, 3), e1 = (0, 4), e2 = (0, 5). *)
Definition build_chain : M sc_addr :=
  a ← demo_node; b ← demo_node; c ← demo_node;
  _ ← demo_arc a b; demo_arc b c.

Definition chain_demo : sc_storage :=
  Eval vm_compute in final_state (build_chain storage_empty).

(** The storage after [sc_storage_element_free (b)] in scenario 5, with the
    hash tables iterated in insertion order. *)
Definition chain_freed : sc_storage :=
  Eval vm_compute in
    final_state
      (@sc_storage_element_free demo demo_ctx 8 (mk_addr 0 2) chain_demo).

(** A node x = (0, 1) with the arcs y = (0, 4) : x -> z and
    e = (0, 5) : x -> y, and an arc e' = (0, 6) : w -> y from another node
    w = (0, 3); z = (0, 2).  The arcs e' and e both end in the arc y. *)
Definition build_closure : M sc_addr :=
  x ← demo_node; z ← demo_node; w ← demo_node;
  y ← demo_arc x z; _ ← demo_arc x y; demo_arc w y.

Definition closure_demo : sc_storage :=
  Eval vm_compute in final_state (build_closure storage_empty).

(** A node a = (0, 1) with the arcs c = (0, 4) : a -> z and
    e = (0, 5) : a -> t, and an arc e2 = (0, 6) : c -> t that begins in the
    arc c; z = (0, 2), t = (0, 3).  The input list of t is e2, e. *)
Definition build_splice : M sc_addr :=
  a ← demo_node; z ← demo_node; t ← demo_node;
  c ← demo_arc a z; _ ← demo_arc a t; demo_arc c t.

Definition splice_demo : sc_storage :=
  Eval vm_compute in final_state (build_splice storage_empty).

(** Two arcs e = (0, 4) : a -> b and e2 = (0, 5) : c -> b into the same
    node; a = (0, 1), b = (0, 2), c = (0, 3). *)
Definition build_fan_in : M sc_addr :=
  a ← demo_node; b ← demo_node; c ← demo_node;
  _ ← demo_arc a b; demo_arc c b.

Definition fan_in_demo : sc_storage :=
  Eval vm_compute in final_state (build_fan_in storage_empty).

(** ** The events of a deletion *)

Definition is_remove_element (ev : sc_event) : bool :=
  match ev with
  | Emitted _ SC_EVENT_REMOVE_ELEMENT _ => true
  | _ => false
  end.

Section EventVocabulary.
Context `{sc_defines}.
Variable ctx : sc_memory_context.

(** The fields of an element the first loop of the deletion never writes
    among those it reads for its notifications. *)
Definition core (e : sc_element) : Z * sc_addr * sc_addr :=
  (flags_type e, arc_begin e, arc_end e).

Definition same_core (st st' : sc_storage) : Prop :=
  forall x, core (element_at st' x) = core (element_at st x).

(** The event log grows by events other than SC_EVENT_REMOVE_ELEMENT. *)
Definition quiet_events (st st' : sc_storage) : Prop :=
  exists evs, event_log st' = event_log st ++ evs
              /\ Forall (fun ev => is_remove_element ev = false) evs.

Definition collects (st st' : sc_storage) : Prop :=
  same_core st st' /\ quiet_events st st'.

(** *** Hash tables *)

(** Every value of the table is the pointer to the element its key
    names. *)
Definition table_ptrs (t : hash_table) : Prop :=
  forall a el, (a, el) ∈ t -> el = (seg a, offset a).

(** *** The first loop *)

(** The sink has been told of the deletion of [a]: of the element, and of
    the arc when [a] was one in [st0]. *)
Definition notified (evs : list sc_event) (st0 : sc_storage) (a : sc_addr)
  : Prop :=
  ElementDeleted a ∈ evs /\
  (Z.land (flags_type (element_at st0 a)) sc_type_arc_mask <> 0 ->
   Emitted (arc_begin (element_at st0 a)) SC_EVENT_REMOVE_OUTPUT_ARC a ∈ evs /\
   Emitted (arc_end (element_at st0 a)) SC_EVENT_REMOVE_INPUT_ARC a ∈ evs).

(** The invariant of the first loop of [sc_storage_element_free], started
    in [st0]: the events [req] have been emitted, and every key of
    [remove_table] is in [pend], waits in [remove_list] or has been
    notified. *)
Definition collecting (st0 : sc_storage) (req : list sc_event)
    (pend : list sc_addr) (tb : free_locals) (st : sc_storage) : Prop :=
  same_core st0 st /\
  table_ptrs (lock_table tb) /\
  table_ptrs (remove_table tb) /\
  exists evs,
    event_log st = event_log st0 ++ evs /\
    Forall (fun ev => is_remove_element ev = false) evs /\
    (forall ev, ev ∈ req -> ev ∈ evs) /\
    forall a el, (a, el) ∈ remove_table tb ->
      a ∈ pend \/ a ∈ remove_list tb \/ notified evs st0 a.

(** *** The second and third loops *)

(** No event is emitted, and a type changes only by becoming 0 at an
    address of [S]. *)
Definition erases (S : list sc_addr) (st st' : sc_storage) : Prop :=
  same_events st st' /\
  forall x, flags_type (element_at st' x) = flags_type (element_at st x)
            \/ (x ∈ S /\ flags_type (element_at st' x) = 0).

End EventVocabulary.

(** ** The address that is deleted *)

Section DeletionVocabulary.
Context `{sc_defines}.

(** The first loop of the deletion only adds keys to [remove_table]. *)
Definition keys_kept (tb tb' : free_locals) : Prop :=
  forall a, a ∈ (remove_table tb).*1 -> a ∈ (remove_table tb').*1.

End DeletionVocabulary.

(** ** The calls of the storage *)

Inductive call :=
| CallNodeNew (type : Z)
| CallLinkNew
| CallElementNew (type : Z)
| CallArcNew (type : Z) (beg end_ : sc_addr)
| CallElementFree (addr : sc_addr)
| CallIsElement (addr : sc_addr)
| CallGetElementType (addr : sc_addr)
| CallChangeElementSubtype (addr : sc_addr) (type : Z)
| CallGetArcBegin (addr : sc_addr)
| CallGetArcEnd (addr : sc_addr).

Section InvariantVocabulary.
Context `{sc_defines}.
Variable ctx : sc_memory_context.

(** One call, its result dropped. *)
Definition run (fuel : nat) (c : call) : M unit :=
  match c with
  | CallNodeNew type => _ ← sc_storage_node_new ctx fuel type; mret tt
  | CallLinkNew => _ ← sc_storage_link_new ctx fuel; mret tt
  | CallElementNew type => _ ← sc_storage_element_new ctx fuel type; mret tt
  | CallArcNew type beg end_ =>
      _ ← sc_storage_arc_new ctx fuel type beg end_; mret tt
  | CallElementFree addr => _ ← sc_storage_element_free ctx fuel addr; mret tt
  | CallIsElement addr => _ ← sc_storage_is_element addr; mret tt
  | CallGetElementType addr => _ ← sc_storage_get_element_type addr; mret tt
  | CallChangeElementSubtype addr type =>
      _ ← sc_storage_change_element_subtype addr type; mret tt
  | CallGetArcBegin addr => _ ← sc_storage_get_arc_begin addr; mret tt
  | CallGetArcEnd addr => _ ← sc_storage_get_arc_end addr; mret tt
  end.

(** The cache as [sc_storage.c] keeps it: [segments_cache_count] is the
    number of slots of [segments_cache] that hold a segment, the slots lie
    inside the array of SC_SEGMENT_CACHE_SIZE pointers, and what they hold
    are segments that are loaded. *)
Definition cache_ok (st : sc_storage) : Prop :=
  segments_cache_count st = Z.of_nat (size (segments_cache st)) /\
  map_Forall
    (fun i sg => 0 <= i < SC_SEGMENT_CACHE_SIZE /\ is_Some (segments st !! sg))
    (segments_cache st).

#[global] Instance cache_ok_dec st : Decision (cache_ok st).
Proof. unfold cache_ok. apply _. Defined.

(** What every step of the storage keeps: the segment table and the cache
    stay well formed, [segments_num] does not decrease and no segment is
    unloaded. *)
Definition steady (st st' : sc_storage) : Prop :=
  (storage_wf st -> storage_wf st') /\
  (cache_ok st -> cache_ok st') /\
  segments_num st <= segments_num st' /\
  forall k, is_Some (segments st !! k) -> is_Some (segments st' !! k).

(** [steady] from a storage whose cache is in order. *)
Definition settled (st st' : sc_storage) : Prop :=
  cache_ok st -> steady st st'.

(** The storages that calls lead to from the empty storage. *)
Inductive reachable : sc_storage -> Prop :=
| reachable_empty : reachable storage_empty
| reachable_call st fuel c st' :
    reachable st -> run fuel c st = Done tt st' -> reachable st'.

End InvariantVocabulary.

(** ** The locks a call holds *)

Section LockVocabulary.
Context `{sc_defines}.

(** No lock is held that was not held before, and none was given up. *)
Definition same_locks (st st' : sc_storage) : Prop :=
  forall a, lock_count st' a = lock_count st a.

(** One acquisition of the lock of [a], counted at [b]. *)
Definition acquired (a b : sc_addr) : N :=
  if decide (a = b) then 1%N else 0%N.

(** The same for a lock that is taken only when [o] is a pointer. *)
Definition acquired_if (o : option sc_element_ptr) (a b : sc_addr) : N :=
  if o is Some _ then acquired a b else 0%N.

(** The locks a call holds in [st] on top of those of [st0]: [h] counts them
    per address, and what is held can be unlocked. *)
Definition held (h : sc_addr -> N) (st0 st : sc_storage) : Prop :=
  storage_wf st /\
  (forall x, (0 < h x)%N -> addr_valid st x) /\
  forall b, lock_count st b = (lock_count st0 b + h b)%N.

(** A step that takes and gives no lock and unloads no segment. *)
Definition calm (st st' : sc_storage) : Prop :=
  storage_wf st ->
  storage_wf st' /\ (forall a, addr_valid st a -> addr_valid st' a) /\
  same_locks st st'.

End LockVocabulary.

(** ** How the segment table grows *)

Section GrowthVocabulary.
Context `{sc_defines}.

(** The slot search of sc_segment.c finds a slot in a segment that has just
    been created, and not the one of the empty address. *)
Definition fresh_segment_has_slot : Prop :=
  forall n, exists off,
    sc_segment_empty_slot_hint (sc_segment_new n) = Some off /\
    SC_ADDR_IS_NOT_EMPTY (mk_addr n off) = true.

(** [segments_num] stays within the configured limit. *)
Definition capped (st st' : sc_storage) : Prop :=
  segments_num st <= sc_config_get_max_loaded_segments ->
  segments_num st' <= sc_config_get_max_loaded_segments.

(** Nothing but the cache and its count differs. *)
Definition same_store (st st' : sc_storage) : Prop :=
  segments st' = segments st /\ segments_num st' = segments_num st /\
  event_log st' = event_log st.

End GrowthVocabulary.

(** ** Further concrete runs *)

(** An element of type [sc_type_const] (0x20) made by
    [sc_storage_element_new] in the storage with two nodes, at (0, 3). *)
Definition demo_raw_element : sc_storage :=
  Eval vm_compute in
    final_state (@sc_storage_element_new demo demo_ctx 4 32 demo_two_nodes).

(** The first node made in the empty storage, at (0, 1). *)
Definition demo_one_node : sc_storage :=
  Eval vm_compute in
    final_state (@sc_storage_node_new demo demo_ctx 4 0 storage_empty).

(** A link made in the storage with two nodes, at (0, 3). *)
Definition demo_one_link : sc_storage :=
  Eval vm_compute in
    final_state (@sc_storage_link_new demo demo_ctx 4 demo_two_nodes).

(** Collaborators for runs of the link content: a stream is its bytes, its
    checksum the first 32 of them (zeros after the last), and the file
    storage refuses every write and hands back the bytes of the checksum it
    is asked for. *)
Definition demo_calculate_checksum (s : list Z) : option sc_check_sum :=
  Some (mk_check_sum (take 32 (s ++ replicate 32 0)) 32).

Definition demo_write_content (_ : sc_addr) (_ : sc_check_sum) (_ : list Z)
    (fs : unit) : sc_result * unit :=
  (SC_RESULT_ERROR, fs).

Definition demo_get_checksum_content (check_sum : sc_check_sum) (fs : unit)
  : sc_result * option (list Z) * unit :=
  (SC_RESULT_OK, Some (cs_data check_sum), fs).

(** The link (0, 3) after its content was set to the bytes 1, 2, 3. *)
Definition demo_link_content : sc_storage :=
  Eval vm_compute in
    final_state
      (@sc_storage_set_link_content demo (list Z) unit demo_calculate_checksum
         demo_write_content (mk_addr 0 3) (Some [1; 2; 3]) tt demo_one_link).

(** ** A slot that is reused while a list still holds it *)

Section ReuseVocabulary.
Context `{sc_defines}.
Variable ctx : sc_memory_context.

(** The address [n] links after [a]. *)
Fixpoint follow (next : sc_element -> sc_addr) (n : nat) (st : sc_storage)
    (a : sc_addr) : sc_addr :=
  match n with
  | O => a
  | S n' => follow next n' st (next (element_at st a))
  end.

(** The storage [sc_storage_element_free] returns in, when its second loop
    has left [st], the third loop has released the locks of [keys] and left
    [last] in [addr]. *)
Definition free_finished (keys : list sc_addr) (last : sc_addr)
    (st : sc_storage) : sc_storage :=
  let st' := foldr unlocked st keys in
  with_event_log
    (event_log st' ++ [Emitted last SC_EVENT_REMOVE_ELEMENT last]) st'.

(** [check] holds of the storage the deletion returns in, however
    [remove_table] and [lock_table] are iterated. *)
Definition freed_in_every_order (lt rt : hash_table) (addr : sc_addr)
    (st : sc_storage) (check : sc_storage -> bool) : bool :=
  forallb
    (fun to_erase =>
       match free_erase_all ctx lt to_erase addr st with
       | Done a st1 =>
           bool_decide (Forall (addr_valid st1) lt.*1)
           && forallb (fun last => check (free_finished lt.*1 last st1))
                (a :: lt.*1)
       | _ => false
       end)
    (permutations rt).

(** Three arcs from [beg] to [end_] made one after the other in [st]: they
    are given the slots [a1], [a2] and [a3]; before the third call the
    input list of [end_] is [a2], [a1], [a3] with [a3] an empty slot, and
    after it the list starts at [a3] and is back at [a3] three links
    later. *)
Definition third_arc_closes_cycle (fuel : nat) (type : Z)
    (beg end_ a1 a2 a3 : sc_addr) (st : sc_storage) : bool :=
  match sc_storage_arc_new ctx fuel type beg end_ st with
  | Done b1 st1 =>
      match sc_storage_arc_new ctx fuel type beg end_ st1 with
      | Done b2 st2 =>
          match sc_storage_arc_new ctx fuel type beg end_ st2 with
          | Done b3 st3 =>
              bool_decide (b1 = a1) && bool_decide (b2 = a2)
              && bool_decide (b3 = a3)
              && bool_decide (in_arcs 4 st2 end_ = Some [a2; a1; a3])
              && (flags_type (element_at st2 a3) =? 0)
              && bool_decide (first_in_arc (element_at st3 end_) = a3)
              && bool_decide
                   (map (fun i => follow arc_next_in_arc i st3 a3)
                      [1; 2; 3]%nat = [a2; a1; a3])
          | _ => false
          end
      | _ => false
      end
  | _ => false
  end.

End ReuseVocabulary.

(** * Lemmas *)

(** ** The address macros *)

Lemma addr_of_int_to_int (a : sc_addr) :
  0 <= seg a < 65536 -> 0 <= offset a < 65536 ->
  addr_of_int (SC_ADDR_LOCAL_TO_INT a) = a.
Proof.
  intros Hs Ho. destruct a as [sg off]; simpl in *.
  unfold addr_of_int, SC_ADDR_LOCAL_TO_INT, SC_ADDR_LOCAL_SEG_FROM_INT,
    SC_ADDR_LOCAL_OFFSET_FROM_INT; simpl.
  change 65535 with (Z.ones 16).
  rewrite !Z.land_ones by lia.
  rewrite (Z.mod_small off) by (change (2 ^ 16) with 65536; lia).
  rewrite Z.shiftr_lor, Z.shiftr_shiftl_l by lia.
  rewrite Z.sub_diag, Z.shiftl_0_r.
  rewrite (Z.shiftr_div_pow2 off), (Z.div_small off) by
    (try change (2 ^ 16) with 65536; lia).
  rewrite Z.lor_0_r, (Z.mod_small sg) by (change (2 ^ 16) with 65536; lia).
  f_equal.
  rewrite <- Z.land_ones, Z.land_lor_distr_l by lia.
  rewrite Z.shiftl_mul_pow2, Z.land_ones, Z.mod_mul by lia.
  rewrite Z.land_ones, Z.mod_small by (try change (2 ^ 16) with 65536; lia).
  reflexivity.
Qed.

Lemma SC_ADDR_IS_EMPTY_true (a : sc_addr) :
  SC_ADDR_IS_EMPTY a = true <-> a = addr_empty.
Proof.
  destruct a as [sg off]. unfold SC_ADDR_IS_EMPTY, addr_empty; simpl.
  rewrite andb_true_iff, !Z.eqb_eq. split.
  - intros [-> ->]. reflexivity.
  - intros [= -> ->]. auto.
Qed.

Lemma SC_ADDR_IS_EQUAL_true (a b : sc_addr) :
  SC_ADDR_IS_EQUAL a b = true <-> a = b.
Proof.
  destruct a as [sa oa], b as [sb ob]. unfold SC_ADDR_IS_EQUAL; simpl.
  rewrite andb_true_iff, !Z.eqb_eq. split.
  - intros [-> ->]. reflexivity.
  - intros [= -> ->]. auto.
Qed.

(** ** Reasoning about runs *)

Lemma bind_Done {A B} (m : M A) (k : A -> M B) st b st' :
  (m ≫= k) st = Done b st' <->
  exists a st1, m st = Done a st1 /\ k a st1 = Done b st'.
Proof.
  unfold mbind, M_bind, bind. split.
  - destruct (m st) as [a st1| |]; try discriminate. eauto.
  - intros (a & st1 & -> & Hk). exact Hk.
Qed.

Lemma ret_Done {A} (a b : A) st st' :
  (mret a : M A) st = Done b st' <-> a = b /\ st = st'.
Proof.
  unfold mret, M_ret, ret. split.
  - intros [= -> ->]. auto.
  - intros [-> ->]. reflexivity.
Qed.

Lemma hoare_bind {A B} P (m : M A) Q (k : A -> M B) R :
  hoare P m Q -> (forall a, hoare (Q a) (k a) R) -> hoare P (m ≫= k) R.
Proof.
  intros Hm Hk st HP b st' Hrun.
  apply bind_Done in Hrun as (a & st1 & H1 & H2).
  eapply Hk; [eapply Hm|]; eauto.
Qed.

Lemma hoare_ret {A} (P : sc_storage -> Prop) (a : A)
    (Q : A -> sc_storage -> Prop) :
  (forall st, P st -> Q a st) -> hoare P (mret a) Q.
Proof. intros HQ st HP b st' [<- <-]%ret_Done. auto. Qed.

Lemma hoare_fault {A} P (Q : A -> sc_storage -> Prop) : hoare P fault Q.
Proof. intros st _ a st' [=]. Qed.

Lemma hoare_timeout {A} P (Q : A -> sc_storage -> Prop) : hoare P timeout Q.
Proof. intros st _ a st' [=]. Qed.

Lemma hoare_conseq {A} (P P' : sc_storage -> Prop) (m : M A)
    (Q Q' : A -> sc_storage -> Prop) :
  hoare P' m Q' -> (forall st, P st -> P' st) ->
  (forall a st, Q' a st -> Q a st) -> hoare P m Q.
Proof. intros Hm HP HQ st Hst a st' Hrun. eauto. Qed.

Section Keeps.
Context (R : relation sc_storage) `{!PreOrder R}.

Lemma keeps_bind {A B} (m : M A) (k : A -> M B) :
  keeps R m -> (forall a, keeps R (k a)) -> keeps R (m ≫= k).
Proof.
  intros Hm Hk st b st' (a & st1 & H1 & H2)%bind_Done.
  etrans; [eapply Hm | eapply Hk]; eauto.
Qed.

Lemma keeps_ret {A} (a : A) : keeps R (mret a).
Proof. intros st b st' [_ <-]%ret_Done. reflexivity. Qed.

Lemma keeps_fault {A} : keeps R (@fault A).
Proof. intros st a st' [=]. Qed.

Lemma keeps_timeout {A} : keeps R (@timeout A).
Proof. intros st a st' [=]. Qed.

Lemma keeps_get_storage : keeps R get_storage.
Proof. intros st a st' [= _ <-]. reflexivity. Qed.

Lemma keeps_g_assert b : keeps R (g_assert b).
Proof. destruct b; [apply keeps_ret | apply keeps_fault]. Qed.

End Keeps.

(** Splits the goal [keeps R m] along the structure of [m]. *)
Ltac keeps_step :=
  match goal with
  | |- keeps _ (mbind _ _) => apply keeps_bind; [try typeclasses eauto | | intros]
  | |- keeps _ (_ ≫= _) => apply keeps_bind; [try typeclasses eauto | | intros]
  | |- keeps _ (mret _) => apply keeps_ret; typeclasses eauto
  | |- keeps _ fault => apply keeps_fault
  | |- keeps _ timeout => apply keeps_timeout
  | |- keeps _ get_storage => apply keeps_get_storage; typeclasses eauto
  | |- keeps _ (g_assert _) => apply keeps_g_assert; typeclasses eauto
  | |- keeps _ (STORAGE_CHECK_CALL _) => unfold STORAGE_CHECK_CALL
  | |- keeps _ (match ?x with _ => _ end) => destruct x
  | |- keeps _ (let '(_, _) := ?x in _) => destruct x
  end.

(** ** What the primitives leave alone *)

Section Frames.
Context `{sc_defines}.
Variable ctx : sc_memory_context.

#[global] Instance segs_grow_preorder : PreOrder segs_grow.
Proof.
  split.
  - intros st k s Hs. eauto.
  - intros st1 st2 st3 H12 H23 k s Hs.
    destruct (H12 k s Hs) as (s2 & Hs2 & Hn2).
    destruct (H23 k s2 Hs2) as (s3 & Hs3 & Hn3).
    exists s3. split; [done | congruence].
Qed.

#[global] Instance same_elements_preorder : PreOrder same_elements.
Proof.
  split.
  - intros st p. reflexivity.
  - intros st1 st2 st3 H12 H23 p. rewrite H23. apply H12.
Qed.

#[global] Instance same_events_preorder : PreOrder same_events.
Proof.
  split.
  - intros st. reflexivity.
  - intros st1 st2 st3 H12 H23. unfold same_events in *. congruence.
Qed.

#[global] Instance same_segments_preorder : PreOrder same_segments.
Proof.
  split.
  - intros st. split; [done|]. intros k. destruct (segments st !! k); auto.
  - intros st1 st2 st3 [[Hn12 He12] H12] [[Hn23 He23] H23].
    split; [split; congruence|].
    intros k. specialize (H12 k). specialize (H23 k).
    destruct (segments st1 !! k), (segments st2 !! k), (segments st3 !! k);
      try done.
    destruct H12, H23. split; congruence.
Qed.

Lemma same_segments_elements st st' :
  same_segments st st' -> same_elements st st'.
Proof.
  intros [_ Hs] [k off]. specialize (Hs k). unfold slot, seg_el; simpl.
  destruct (segments st !! k), (segments st' !! k); try done.
  destruct Hs as [_ ->]. reflexivity.
Qed.

Lemma same_segments_grow st st' : same_segments st st' -> segs_grow st st'.
Proof.
  intros [_ Hs] k s Hk. specialize (Hs k). rewrite Hk in Hs.
  destruct (segments st' !! k) as [s'|]; [|done]. exists s'. tauto.
Qed.

Lemma same_segments_with_locks st k s l :
  segments st !! k = Some s ->
  same_segments st (with_segments (<[k := with_locks l s]> (segments st)) st).
Proof.
  intros Hk. split; [done|]. intros j. simpl.
  destruct (decide (k = j)) as [<-|Hne].
  - rewrite Hk, lookup_insert_eq. done.
  - rewrite lookup_insert_ne by done. destruct (segments st !! j); done.
Qed.

Lemma same_segments_with_cache st c n : same_segments st (with_cache c n st).
Proof. split; [done|]. intros k. simpl. destruct (segments st !! k); done. Qed.

(** *** Locks *)

Lemma keeps_segment_lock_element k off :
  keeps same_segments (sc_segment_lock_element k off).
Proof.
  intros st a st' Hrun. unfold sc_segment_lock_element in Hrun.
  destruct (segments st !! k) eqn:Hk; simplify_eq.
  by apply same_segments_with_locks.
Qed.

Lemma keeps_segment_unlock_element k off :
  keeps same_segments (sc_segment_unlock_element k off).
Proof.
  intros st a st' Hrun. unfold sc_segment_unlock_element in Hrun.
  destruct (segments st !! k) eqn:Hk; simplify_eq.
  by apply same_segments_with_locks.
Qed.

Lemma keeps_element_lock a : keeps same_segments (sc_storage_element_lock a).
Proof.
  unfold sc_storage_element_lock.
  repeat first [keeps_step | apply keeps_segment_lock_element].
Qed.

Lemma keeps_element_lock_try a n :
  keeps same_segments (sc_storage_element_lock_try a n).
Proof.
  unfold sc_storage_element_lock_try, sc_segment_lock_element_try.
  repeat first [keeps_step | apply keeps_segment_lock_element].
Qed.

Lemma keeps_element_unlock a :
  keeps same_segments (sc_storage_element_unlock a).
Proof.
  unfold sc_storage_element_unlock.
  repeat first [keeps_step | apply keeps_segment_unlock_element].
Qed.

Lemma keeps_load (R : relation sc_storage) `{!PreOrder R} p : keeps R (load p).
Proof.
  intros st a st' Hrun. unfold load in Hrun.
  destruct (segments st !! p.1); simplify_eq. reflexivity.
Qed.

Lemma same_segments_events st st' : same_segments st st' -> same_events st st'.
Proof. intros [[_ He] _]. exact He. Qed.

Lemma keeps_weaken {A} (R R' : relation sc_storage) (m : M A) :
  (forall st st', R st st' -> R' st st') -> keeps R m -> keeps R' m.
Proof. intros HR Hm st a st' Hrun. eauto. Qed.

End Frames.

(** ** Locking by address, as equations *)

Section Locking.
Context `{sc_defines}.

Lemma element_lock_valid st a :
  addr_valid st a ->
  sc_storage_element_lock a st
  = Done (SC_RESULT_OK, Some (seg a, offset a)) (locked a st).
Proof.
  intros [Hlt [s Hs]]. unfold sc_storage_element_lock, locked.
  destruct (SC_ADDR_SEG_MAX <=? seg a) eqn:Hle; [lia|].
  unfold mbind, M_bind, bind, get_storage, sc_segment_lock_element.
  rewrite Hs. simpl. rewrite Hs. reflexivity.
Qed.

Lemma element_lock_invalid st a :
  ~ addr_valid st a ->
  sc_storage_element_lock a st = Done (SC_RESULT_ERROR, None) st.
Proof.
  intros Hbad. unfold sc_storage_element_lock.
  destruct (SC_ADDR_SEG_MAX <=? seg a) eqn:Hle; [reflexivity|].
  unfold mbind, M_bind, bind, get_storage.
  destruct (segments st !! seg a) eqn:Hs; [|reflexivity].
  exfalso. apply Hbad. split; [lia | eauto].
Qed.

Lemma element_lock_try_eq st a n :
  sc_storage_element_lock_try a n st = sc_storage_element_lock a st.
Proof. reflexivity. Qed.

Lemma element_unlock_valid st a :
  addr_valid st a ->
  sc_storage_element_unlock a st = Done SC_RESULT_OK (unlocked a st).
Proof.
  intros [Hlt [s Hs]]. unfold sc_storage_element_unlock, unlocked.
  destruct (SC_ADDR_SEG_MAX <=? seg a) eqn:Hle; [lia|].
  unfold mbind, M_bind, bind, get_storage, sc_segment_unlock_element.
  rewrite Hs. simpl. rewrite Hs. reflexivity.
Qed.

Lemma element_unlock_invalid st a :
  ~ addr_valid st a ->
  sc_storage_element_unlock a st = Done SC_RESULT_ERROR st.
Proof.
  intros Hbad. unfold sc_storage_element_unlock.
  destruct (SC_ADDR_SEG_MAX <=? seg a) eqn:Hle; [reflexivity|].
  unfold mbind, M_bind, bind, get_storage.
  destruct (segments st !! seg a) eqn:Hs; [|reflexivity].
  exfalso. apply Hbad. split; [lia | eauto].
Qed.

Lemma lock_release_acquire off (l : gmap Z positive) :
  lock_release off (lock_acquire off l) = l.
Proof.
  unfold lock_acquire, lock_release.
  destruct (l !! off) as [n|] eqn:Hl.
  - rewrite lookup_insert_eq.
    replace (match Pos.succ n with
             | 1%positive => delete off (<[off:=Pos.succ n]> l)
             | _ => <[off:=Pos.pred (Pos.succ n)]> (<[off:=Pos.succ n]> l)
             end)
      with (<[off:=Pos.pred (Pos.succ n)]> (<[off:=Pos.succ n]> l)).
    + rewrite Pos.pred_succ, insert_insert_eq. by apply insert_id.
    + destruct (Pos.succ n) eqn:Hn; try reflexivity.
      exfalso. eapply Pos.succ_not_1. exact Hn.
  - rewrite lookup_insert_eq. by apply delete_insert_id.
Qed.

Lemma with_locks_same s : with_locks (locks s) s = s.
Proof. by destruct s. Qed.

Lemma with_segments_same st : with_segments (segments st) st = st.
Proof. by destruct st. Qed.

Lemma unlocked_locked st a : unlocked a (locked a st) = st.
Proof.
  unfold unlocked, locked.
  destruct (segments st !! seg a) as [s|] eqn:Hs; simpl.
  - rewrite lookup_insert_eq. unfold with_segments, with_locks; simpl.
    rewrite insert_insert_eq, lock_release_acquire.
    destruct st as [sgs n cc c ev], s as [ns es ls]; simpl in *.
    by rewrite insert_id.
  - by rewrite Hs.
Qed.

Lemma slot_locked st a p : slot (locked a st) p = slot st p.
Proof.
  unfold locked. destruct (segments st !! seg a) as [s|] eqn:Hs; [|done].
  unfold slot; simpl. destruct (decide (seg a = p.1)) as [He|Hne].
  - rewrite <- He, lookup_insert_eq, Hs. reflexivity.
  - by rewrite lookup_insert_ne.
Qed.

Lemma slot_unlocked st a p : slot (unlocked a st) p = slot st p.
Proof.
  unfold unlocked. destruct (segments st !! seg a) as [s|] eqn:Hs; [|done].
  unfold slot; simpl. destruct (decide (seg a = p.1)) as [He|Hne].
  - rewrite <- He, lookup_insert_eq, Hs. reflexivity.
  - by rewrite lookup_insert_ne.
Qed.

Lemma addr_valid_locked st a b : addr_valid (locked a st) b <-> addr_valid st b.
Proof.
  unfold addr_valid, locked.
  destruct (segments st !! seg a) as [s|] eqn:Hs; [|done]. simpl.
  destruct (decide (seg a = seg b)) as [He|Hne].
  - rewrite <- He, lookup_insert_eq, Hs. split; intros [? _]; eauto.
  - by rewrite lookup_insert_ne.
Qed.

Lemma lock_count_locked st a :
  is_Some (segments st !! seg a) ->
  lock_count (locked a st) a = (lock_count st a + 1)%N.
Proof.
  intros [s Hs]. unfold lock_count, locked. rewrite Hs. simpl.
  rewrite lookup_insert_eq. simpl. unfold lock_acquire.
  destruct (locks s !! offset a) as [n|] eqn:Hl; rewrite lookup_insert_eq.
  - lia.
  - reflexivity.
Qed.

Lemma load_valid st p :
  is_Some (segments st !! p.1) -> load p st = Done (slot st p) st.
Proof. intros [s Hs]. unfold load. by rewrite Hs. Qed.

End Locking.

(** ** Reading and changing the type of an element *)

Section Accessors.
Context `{sc_defines}.

Lemma get_element_type_valid st addr :
  addr_valid st addr ->
  sc_storage_get_element_type addr st
  = Done (SC_RESULT_OK, Some (flags_type (element_at st addr))) st.
Proof.
  intros Hv. unfold sc_storage_get_element_type.
  unfold mbind, M_bind, bind. rewrite element_lock_valid by done. simpl.
  rewrite load_valid by (apply addr_valid_locked; apply Hv). 
  rewrite element_unlock_valid by (by apply addr_valid_locked).
  rewrite unlocked_locked. unfold element_at. by rewrite slot_locked.
Qed.

Lemma get_element_type_invalid st addr :
  ~ addr_valid st addr ->
  sc_storage_get_element_type addr st = Done (SC_RESULT_ERROR, None) st.
Proof.
  intros Hv. unfold sc_storage_get_element_type.
  unfold mbind, M_bind, bind. by rewrite element_lock_invalid.
Qed.

(** [sc_storage_is_element] on an empty slot gives the lock back before it
    answers: the storage is as before. *)
Lemma is_element_of_empty_slot st addr :
  addr_valid st addr -> flags_type (element_at st addr) = 0 ->
  sc_storage_is_element addr st = Done false st.
Proof.
  intros Hv Ht. unfold sc_storage_is_element.
  unfold mbind, M_bind, bind. rewrite element_lock_valid by done. simpl.
  rewrite load_valid by (apply addr_valid_locked; apply Hv).
  rewrite element_unlock_valid by (by apply addr_valid_locked).
  rewrite unlocked_locked, slot_locked.
  change (slot st (seg addr, offset addr)) with (element_at st addr).
  by rewrite Ht.
Qed.

Lemma store_valid st a f :
  is_Some (segments st !! seg a) ->
  store (seg a, offset a) f st = Done tt (updated a f st).
Proof. intros [s Hs]. unfold store, updated; simpl. by rewrite Hs. Qed.

Lemma element_at_updated st a f b :
  is_Some (segments st !! seg a) ->
  element_at (updated a f st) b
  = if decide (a = b) then f (element_at st a) else element_at st b.
Proof.
  intros [s Hs]. unfold updated. rewrite Hs.
  unfold element_at at 1. unfold slot; simpl.
  destruct (decide (a = b)) as [<-|Hne].
  - rewrite lookup_insert_eq. unfold seg_el; simpl.
    by rewrite lookup_insert_eq.
  - destruct (decide (seg a = seg b)) as [He|Hns].
    + rewrite <- He, lookup_insert_eq. unfold seg_el; simpl.
      rewrite lookup_insert_ne.
      * unfold element_at, slot; simpl. by rewrite <- He, Hs.
      * intros Ho. apply Hne. destruct a, b; simpl in *; congruence.
    + rewrite lookup_insert_ne by done. reflexivity.
Qed.

Lemma updated_locked_commute st a f :
  unlocked a (updated a f (locked a st)) = updated a f st.
Proof.
  unfold unlocked, updated, locked, element_at, slot; simpl.
  destruct (segments st !! seg a) as [s|] eqn:Hs; simpl.
  - rewrite !lookup_insert_eq. simpl. rewrite lookup_insert_eq. simpl.
    unfold with_segments, with_locks, with_elements, seg_el; simpl.
    rewrite !insert_insert_eq, lock_release_acquire.
    reflexivity.
  - rewrite !Hs. simpl. by rewrite ?Hs.
Qed.

Lemma change_element_subtype_valid st addr type :
  Z.land type sc_type_element_mask = 0 -> addr_valid st addr ->
  sc_storage_change_element_subtype addr type st
  = Done SC_RESULT_OK
      (updated addr
         (fun e => set_flags_type (subtype_changed (flags_type e) type) e) st).
Proof.
  intros Hm Hv. unfold sc_storage_change_element_subtype.
  rewrite Hm. simpl. unfold mbind, M_bind, bind.
  rewrite element_lock_valid by done. simpl.
  assert (Hv' : addr_valid (locked addr st) addr) by by apply addr_valid_locked.
  rewrite store_valid by apply Hv'.
  rewrite element_unlock_valid.
  - by rewrite updated_locked_commute.
  - destruct Hv' as [Hlt [s Hs]]. split; [done|].
    unfold updated. rewrite Hs. simpl. rewrite lookup_insert_eq. eauto.
Qed.

Lemma subtype_changed_class old type :
  Z.land (subtype_changed old type) sc_type_element_mask
  = Z.land old sc_type_element_mask.
Proof.
  unfold subtype_changed. apply Z.bits_inj'. intros n Hn.
  rewrite !Z.land_spec, Z.lor_spec, !Z.land_spec, Z.lnot_spec by done.
  destruct (Z.testbit old n), (Z.testbit type n),
    (Z.testbit sc_type_element_mask n); reflexivity.
Qed.

Lemma subtype_changed_subtype old type :
  Z.land type sc_type_element_mask = 0 ->
  Z.land (subtype_changed old type) (Z.lnot sc_type_element_mask) = type.
Proof.
  intros Hm. unfold subtype_changed. apply Z.bits_inj'. intros n Hn.
  rewrite !Z.land_spec, Z.lor_spec, !Z.land_spec, Z.lnot_spec by done.
  assert (Hb : Z.testbit (Z.land type sc_type_element_mask) n = false)
    by (rewrite Hm; apply Z.bits_0).
  rewrite Z.land_spec in Hb.
  destruct (Z.testbit old n), (Z.testbit type n),
    (Z.testbit sc_type_element_mask n); simpl in *; congruence.
Qed.

End Accessors.

(** ** Allocation *)

Section Allocation.
Context `{sc_defines}.
Variable ctx : sc_memory_context.

#[global] Instance grows_preorder : PreOrder grows.
Proof.
  split.
  - intros st Hwf. split; [done|]. split; [reflexivity|].
    split; reflexivity.
  - intros st1 st2 st3 H12 H23 Hwf.
    destruct (H12 Hwf) as (Hwf2 & Hg12 & He12 & Hv12).
    destruct (H23 Hwf2) as (Hwf3 & Hg23 & He23 & Hv23).
    split; [done|]. split; [by etrans|]. split; by etrans.
Qed.

Lemma same_segments_wf st st' :
  same_segments st st' -> storage_wf st -> storage_wf st'.
Proof.
  intros [[Hn _] Hs] Hwf k s' Hk. specialize (Hs k). rewrite Hk in Hs.
  destruct (segments st !! k) as [s|] eqn:Hk0; [|done].
  destruct Hs as [Hnum _]. specialize (Hwf k s Hk0). simpl in Hwf.
  rewrite Hn, Hnum. exact Hwf.
Qed.

Lemma same_segments_grows st st' : same_segments st st' -> grows st st'.
Proof.
  intros Hs Hwf. split; [by eapply same_segments_wf|].
  split; [by apply same_segments_grow|].
  split; [by apply same_segments_elements | by apply same_segments_events].
Qed.

Lemma cache_append_from_same n i idx sg st :
  same_segments st (cache_append_from n i idx sg st).
Proof.
  revert i. induction n as [|n IH]; intros i; simpl; [reflexivity|].
  destruct (segments_cache st !! _); [apply IH|].
  apply same_segments_with_cache.
Qed.

Lemma cache_remove_from_same n i idx sg st :
  same_segments st (cache_remove_from n i idx sg st).
Proof.
  revert i. induction n as [|n IH]; intros i; simpl; [reflexivity|].
  case_bool_decide; [apply same_segments_with_cache | apply IH].
Qed.

Lemma keeps_cache_append sg : keeps same_segments (_sc_segment_cache_append ctx sg).
Proof.
  intros st a st' Hrun. inversion Hrun; subst. apply cache_append_from_same.
Qed.

Lemma keeps_cache_remove sg : keeps same_segments (_sc_segment_cache_remove ctx sg).
Proof.
  intros st a st' Hrun. inversion Hrun; subst. apply cache_remove_from_same.
Qed.

Lemma keeps_cache_update_from n i :
  keeps same_segments (cache_update_from ctx n i).
Proof.
  revert i. induction n as [|n IH]; intros i; simpl.
  - apply keeps_ret. apply _.
  - repeat first [keeps_step | apply keeps_cache_append | apply IH].
Qed.

Lemma keeps_cache_update : keeps same_segments (_sc_segment_cache_update ctx).
Proof.
  unfold _sc_segment_cache_update.
  repeat first [keeps_step | apply keeps_cache_update_from].
Qed.

Lemma segment_added_grows st :
  0 <= segments_num st < SC_ADDR_SEG_MAX ->
  grows st
    (with_segments
       (<[segments_num st := sc_segment_new (segments_num st)]> (segments st))
       (with_segments_num (segments_num st + 1) st)).
Proof.
  intros Hn Hwf.
  assert (Hfresh : segments st !! segments_num st = None).
  { destruct (segments st !! segments_num st) as [s|] eqn:Hs; [|done].
    specialize (Hwf _ _ Hs). simpl in Hwf. lia. }
  split; [|split; [|split; [|reflexivity]]].
  - intros k s. simpl. rewrite lookup_insert_Some.
    intros [[<- <-]|[Hne Hk]]; simpl; [lia|].
    specialize (Hwf k s Hk). simpl in Hwf. lia.
  - intros k s Hk. exists s. simpl. split; [|done].
    rewrite lookup_insert_ne; [done|]. congruence.
  - intros [k off]. unfold slot; simpl.
    destruct (decide (segments_num st = k)) as [<-|Hne].
    + rewrite lookup_insert_eq, Hfresh. unfold seg_el; simpl.
      by rewrite lookup_empty.
    + by rewrite lookup_insert_ne.
Qed.

Lemma keeps_cache_get : keeps grows (_sc_segment_cache_get ctx).
Proof.
  intros st sg st' Hrun. unfold _sc_segment_cache_get in Hrun.
  apply bind_Done in Hrun as (st0 & st0' & Hget & Hrun).
  inversion Hget; subst st0 st0'; clear Hget.
  destruct (if 0 <? segments_cache_count st then _ else None) as [sg0|].
  { apply ret_Done in Hrun as [_ <-]. reflexivity. }
  apply bind_Done in Hrun as ([] & st1 & Hupd & Hrun).
  apply keeps_cache_update in Hupd.
  apply bind_Done in Hrun as (st1' & st1'' & Hget & Hrun).
  inversion Hget; subst st1' st1''; clear Hget.
  apply bind_Done in Hrun as ([] & st2 & Hput & Hrun).
  inversion Hput; subst st2; clear Hput.
  destruct ((segments_num st1 <? 0) || (SC_ADDR_SEG_MAX <=? segments_num st1))
    eqn:Hrange; [discriminate|].
  apply orb_false_iff in Hrange as [Hlo Hhi].
  apply bind_Done in Hrun as (st2' & st2'' & Hget & Hrun).
  inversion Hget; subst st2' st2''; clear Hget.
  apply bind_Done in Hrun as ([] & st3 & Hput & Hrun).
  inversion Hput; subst st3; clear Hput.
  apply bind_Done in Hrun as ([] & st4 & Happ & Hrun).
  apply keeps_cache_append in Happ.
  apply ret_Done in Hrun as [_ <-].
  etrans; [apply same_segments_grows, Hupd|].
  etrans; [|apply same_segments_grows, Happ].
  apply segment_added_grows. lia.
Qed.

Lemma lock_empty_element_Some sg off st st' :
  sc_segment_lock_empty_element sg st = Done (Some off) st' ->
  exists s, segments st !! sg = Some s /\
    flags_type (seg_el s off) = 0 /\
    SC_ADDR_IS_EMPTY (mk_addr (num s) off) = false /\
    same_segments st st'.
Proof.
  unfold sc_segment_lock_empty_element. intros Hrun.
  destruct (segments st !! sg) as [s|] eqn:Hs; [|discriminate].
  destruct (sc_segment_empty_slot_hint s) as [off'|]; [|discriminate].
  destruct (_ && _) eqn:Hguard; [|discriminate].
  apply andb_true_iff in Hguard as [Ht He].
  destruct (sc_segment_lock_element sg off' st) as [r st1| |] eqn:Hl;
    try discriminate.
  injection Hrun as -> ->. exists s. split; [done|].
  split; [by apply Z.eqb_eq|].
  split; [by apply negb_true_iff|].
  by eapply keeps_segment_lock_element.
Qed.

Lemma lock_empty_element_None sg st st' :
  sc_segment_lock_empty_element sg st = Done None st' -> st' = st.
Proof.
  unfold sc_segment_lock_empty_element. intros Hrun.
  destruct (segments st !! sg) as [s|] eqn:Hs; [|discriminate].
  destruct (sc_segment_empty_slot_hint s) as [off'|]; [|by injection Hrun].
  destruct (_ && _); [|by injection Hrun].
  destruct (sc_segment_lock_element sg off' st); discriminate.
Qed.

Lemma updated_wf st a f : storage_wf st -> storage_wf (updated a f st).
Proof.
  intros Hwf. unfold updated.
  destruct (segments st !! seg a) as [s|] eqn:Hs; [|done].
  intros k s'. simpl. rewrite lookup_insert_Some.
  intros [[<- <-]|[_ Hk]]; [apply (Hwf _ _ Hs) | apply (Hwf _ _ Hk)].
Qed.

Lemma updated_segs_grow st a f : segs_grow st (updated a f st).
Proof.
  unfold updated. destruct (segments st !! seg a) as [s|] eqn:Hs;
    [|reflexivity].
  intros k s' Hk. simpl. destruct (decide (seg a = k)) as [<-|Hne].
  - rewrite lookup_insert_eq. eexists. split; [done|]. simpl. congruence.
  - rewrite lookup_insert_ne by done. eauto.
Qed.

Lemma append_el_loop_spec fuel el st r addr st' :
  storage_wf st ->
  append_el_loop ctx fuel el st = Done (r, addr) st' ->
  r = Some (seg addr, offset addr) /\ allocated el st addr st'.
Proof.
  revert st. induction fuel as [|fuel IH]; intros st Hwf Hrun; [discriminate|].
  simpl in Hrun.
  apply bind_Done in Hrun as (sg & st1 & Hget & Hrun).
  apply keeps_cache_get in Hget.
  destruct (Hget Hwf) as (Hwf1 & Hg1 & He1 & Hv1).
  apply bind_Done in Hrun as ([off|] & st2 & Hlock & Hrun).
  - apply lock_empty_element_Some in Hlock as (s & Hs & Ht & Hne & Hsame).
    apply bind_Done in Hrun as (s2' & st2' & Hread & Hrun).
    destruct (segments st2 !! sg) as [s2|] eqn:Hs2; [|discriminate].
    injection Hread as <- <-.
    apply bind_Done in Hrun as ([] & st3 & Hstore & Hrun).
    apply ret_Done in Hrun as [Hres <-]. injection Hres as <- <-.
    assert (Hwf2 : storage_wf st2) by by eapply same_segments_wf.
    assert (Hnum : num s2 = sg) by apply (Hwf2 _ _ Hs2).
    assert (Hnum1 : num s = sg) by apply (Hwf1 _ _ Hs).
    rewrite Hnum. simpl. split; [done|].
    change (sg, off) with (seg (mk_addr sg off), offset (mk_addr sg off))
      in Hstore.
    rewrite store_valid in Hstore by (simpl; eauto).
    injection Hstore as <-.
    assert (Hel2 : same_elements st st2).
    { etrans; [exact He1 | by apply same_segments_elements]. }
    split; [by rewrite <- Hnum1|].
    split.
    { split; simpl; [apply (Hwf2 _ _ Hs2)|].
      destruct (updated_segs_grow st2 (mk_addr sg off) (fun _ => el) _ _ Hs2)
        as (s' & -> & _). eauto. }
    split.
    { unfold element_at; simpl. rewrite <- He1. unfold slot; simpl.
      by rewrite Hs. }
    split; [by apply updated_wf|].
    split.
    { etrans; [exact Hg1|]. etrans; [by apply same_segments_grow|].
      apply updated_segs_grow. }
    split.
    { unfold same_events, updated. simpl. rewrite Hs2. simpl.
      etrans; [by apply same_segments_events|]. exact Hv1. }
    split.
    { rewrite element_at_updated by (simpl; eauto).
      by rewrite decide_True. }
    intros a Hne'. rewrite element_at_updated by (simpl; eauto).
    rewrite decide_False by done. apply Hel2.
  - apply lock_empty_element_None in Hlock as ->.
    apply bind_Done in Hrun as ([] & st3 & Hrem & Hrun).
    apply keeps_cache_remove in Hrem.
    assert (Hwf3 : storage_wf st3) by by eapply same_segments_wf.
    destruct (IH _ Hwf3 Hrun) as
      (-> & Hne & Hval & Ht & Hwf' & Hg' & Hv' & Hel & Hothers).
    assert (Hel3 : same_elements st st3).
    { etrans; [exact He1 | by apply same_segments_elements]. }
    split; [done|].
    split; [done|]. split; [done|].
    split; [unfold element_at; by rewrite <- Hel3|].
    split; [done|].
    split.
    { etrans; [exact Hg1|]. etrans; [by apply same_segments_grow|]. done. }
    split.
    { unfold same_events in *. rewrite Hv', <- Hv1.
      by apply same_segments_events. }
    split; [done|].
    intros a Ha. rewrite Hothers by done. apply Hel3.
Qed.

(** [sc_storage_append_el_into_segments] either refuses at the segment
    limit, leaving the storage as it was, or allocates. *)
Lemma append_el_into_segments_spec fuel el st r addr st' :
  storage_wf st ->
  sc_storage_append_el_into_segments ctx fuel el st = Done (r, addr) st' ->
  (r = None /\ addr = addr_empty /\ st' = st /\
   sc_config_get_max_loaded_segments <= segments_num st)
  \/ (r = Some (seg addr, offset addr) /\ allocated el st addr st' /\
      segments_num st < sc_config_get_max_loaded_segments).
Proof.
  intros Hwf Hrun. unfold sc_storage_append_el_into_segments in Hrun.
  apply bind_Done in Hrun as (st0 & st0' & Hget & Hrun).
  inversion Hget; subst st0 st0'; clear Hget.
  destruct (sc_config_get_max_loaded_segments <=? segments_num st) eqn:Hcap.
  - apply ret_Done in Hrun as [[= <- <-] <-]. left.
    split; [done|]. split; [done|]. split; [done|]. lia.
  - right. apply append_el_loop_spec in Hrun as [-> Halloc]; [|done].
    split; [done|]. split; [done|]. lia.
Qed.

Lemma append_el_at_capacity fuel el st :
  sc_config_get_max_loaded_segments <= segments_num st ->
  sc_storage_append_el_into_segments ctx fuel el st = Done (None, addr_empty) st.
Proof.
  intros Hcap. unfold sc_storage_append_el_into_segments.
  unfold mbind, M_bind, bind, get_storage.
  destruct (sc_config_get_max_loaded_segments <=? segments_num st) eqn:Hc;
    [reflexivity | lia].
Qed.

End Allocation.

(** ** Nodes and links *)

Section Creation.
Context `{sc_defines}.
Variable ctx : sc_memory_context.

(** The tail shared by [sc_storage_node_new] and [sc_storage_link_new]. *)
Lemma create_tail_spec fuel el st addr st' :
  storage_wf st ->
  ('(locked_el, addr) ← sc_storage_append_el_into_segments ctx fuel el;
   match locked_el with
   | None => mret addr_empty
   | Some _ =>
       _ ← STORAGE_CHECK_CALL (sc_storage_element_unlock addr);
       mret addr
   end) st = Done addr st' ->
  (addr = addr_empty /\ st' = st /\
   sc_config_get_max_loaded_segments <= segments_num st)
  \/ (exists st1, allocated el st addr st1 /\ st' = unlocked addr st1 /\
        segments_num st < sc_config_get_max_loaded_segments).
Proof.
  intros Hwf Hrun.
  apply bind_Done in Hrun as ([r addr0] & st1 & Happ & Hrun).
  apply append_el_into_segments_spec in Happ; [|exact Hwf].
  destruct Happ as [(-> & -> & -> & Hcap)|(-> & Halloc & Hcap)].
  - apply ret_Done in Hrun as [<- <-]. by left.
  - right. apply bind_Done in Hrun as ([] & st2 & Hunlock & Hrun).
    apply ret_Done in Hrun as [<- <-].
    unfold STORAGE_CHECK_CALL in Hunlock.
    apply bind_Done in Hunlock as (r & st2' & Hunlock & Hassert).
    rewrite element_unlock_valid in Hunlock by apply Halloc.
    injection Hunlock as <- <-. simpl in Hassert.
    apply ret_Done in Hassert as [_ <-]. eauto.
Qed.

Lemma node_new_spec fuel type st addr st' :
  storage_wf st ->
  sc_storage_node_new ctx fuel type st = Done addr st' ->
  Z.land sc_type_arc_mask type = 0 /\
  ((addr = addr_empty /\ st' = st /\
    sc_config_get_max_loaded_segments <= segments_num st)
   \/ (exists st1,
         allocated (set_flags_type (Z.lor sc_type_node type) sc_element_zero)
           st addr st1 /\ st' = unlocked addr st1 /\
         segments_num st < sc_config_get_max_loaded_segments)).
Proof.
  intros Hwf Hrun. unfold sc_storage_node_new in Hrun.
  apply bind_Done in Hrun as ([] & st0 & Hassert & Hrun).
  unfold g_assert in Hassert.
  destruct (Z.land sc_type_arc_mask type =? 0) eqn:Hmask; [|discriminate].
  apply ret_Done in Hassert as [_ <-].
  split; [by apply Z.eqb_eq|]. by eapply create_tail_spec.
Qed.

Lemma link_new_spec fuel st addr st' :
  storage_wf st ->
  sc_storage_link_new ctx fuel st = Done addr st' ->
  (addr = addr_empty /\ st' = st /\
   sc_config_get_max_loaded_segments <= segments_num st)
  \/ (exists st1,
        allocated (set_flags_type sc_type_link sc_element_zero) st addr st1 /\
        st' = unlocked addr st1 /\
        segments_num st < sc_config_get_max_loaded_segments).
Proof. intros Hwf Hrun. by eapply create_tail_spec. Qed.

Lemma element_at_unlocked st a b :
  element_at (unlocked a st) b = element_at st b.
Proof. apply slot_unlocked. Qed.

Lemma addr_valid_unlocked st a b :
  addr_valid (unlocked a st) b <-> addr_valid st b.
Proof.
  unfold addr_valid, unlocked.
  destruct (segments st !! seg a) as [s|] eqn:Hs; [|done]. simpl.
  destruct (decide (seg a = seg b)) as [He|Hne].
  - rewrite <- He, lookup_insert_eq, Hs. split; intros [? _]; eauto.
  - by rewrite lookup_insert_ne.
Qed.

Lemma addr_empty_iff a : a <> addr_empty <-> SC_ADDR_IS_EMPTY a = false.
Proof.
  rewrite <- SC_ADDR_IS_EMPTY_true. destruct (SC_ADDR_IS_EMPTY a); split;
    congruence.
Qed.

(** At the segment limit a node or a link is refused: the empty address is
    returned and the storage, [segments_num] included, is as before. *)
Lemma node_new_at_capacity fuel type st :
  Z.land sc_type_arc_mask type = 0 ->
  sc_config_get_max_loaded_segments <= segments_num st ->
  sc_storage_node_new ctx fuel type st = Done addr_empty st.
Proof.
  intros Hmask Hcap. unfold sc_storage_node_new.
  rewrite Hmask. simpl. unfold mbind, M_bind, bind. simpl.
  by rewrite append_el_at_capacity.
Qed.

Lemma link_new_at_capacity fuel st :
  sc_config_get_max_loaded_segments <= segments_num st ->
  sc_storage_link_new ctx fuel st = Done addr_empty st.
Proof.
  intros Hcap. unfold sc_storage_link_new.
  unfold mbind, M_bind, bind. by rewrite append_el_at_capacity.
Qed.

End Creation.

(** ** Stepping through a run *)

Section Steps.
Context `{sc_defines}.

Lemma load_Done p st e st' :
  load p st = Done e st' ->
  st' = st /\ e = slot st p /\ is_Some (segments st !! p.1).
Proof.
  unfold load. destruct (segments st !! p.1) eqn:Hs; [|discriminate].
  intros [= <- <-]. eauto.
Qed.

Lemma store_Done a f st u st' :
  store (seg a, offset a) f st = Done u st' ->
  st' = updated a f st /\ is_Some (segments st !! seg a).
Proof.
  intros Hrun.
  assert (Hs : is_Some (segments st !! seg a)).
  { unfold store in Hrun. simpl in Hrun.
    destruct (segments st !! seg a); [eauto | discriminate]. }
  rewrite store_valid in Hrun by done. injection Hrun as <-. done.
Qed.

Lemma element_lock_Done a st r el st' :
  sc_storage_element_lock a st = Done (r, el) st' ->
  (addr_valid st a /\ r = SC_RESULT_OK /\ el = Some (seg a, offset a) /\
   st' = locked a st)
  \/ (~ addr_valid st a /\ r = SC_RESULT_ERROR /\ el = None /\ st' = st).
Proof.
  intros Hrun. destruct (decide (addr_valid st a)) as [Hv|Hv].
  - rewrite element_lock_valid in Hrun by done.
    injection Hrun as <- <- <-. by left.
  - rewrite element_lock_invalid in Hrun by done.
    injection Hrun as <- <- <-. by right.
Qed.

Lemma event_emit_Done el t arg st u st' :
  sc_event_emit el t arg st = Done u st' ->
  st' = with_event_log (event_log st ++ [Emitted el t arg]) st.
Proof. by intros [= <-]. Qed.

Lemma g_assert_Done b st u st' :
  g_assert b st = Done u st' -> b = true /\ st' = st.
Proof. destruct b; [|discriminate]. by intros [= <-]. Qed.

Lemma element_at_with_event_log st l a :
  element_at (with_event_log l st) a = element_at st a.
Proof. reflexivity. Qed.

Lemma element_at_locked st a b : element_at (locked a st) b = element_at st b.
Proof. apply slot_locked. Qed.

Lemma element_at_updated_same st a f :
  is_Some (segments st !! seg a) ->
  element_at (updated a f st) a = f (element_at st a).
Proof. intros Hs. rewrite element_at_updated by done. by rewrite decide_True. Qed.

Lemma element_at_updated_ne st a f b :
  a <> b -> element_at (updated a f st) b = element_at st b.
Proof.
  intros Hne. destruct (segments st !! seg a) as [s|] eqn:Hs.
  - rewrite element_at_updated by eauto. by rewrite decide_False.
  - unfold updated. by rewrite Hs.
Qed.

(** A field that [f] does not touch reads the same after [f] was applied
    to any element. *)
Lemma field_updated {A} (g : sc_element -> A) st a f b :
  (forall e, g (f e) = g e) ->
  g (element_at (updated a f st) b) = g (element_at st b).
Proof.
  intros Hg. destruct (decide (a = b)) as [<-|Hne].
  - destruct (segments st !! seg a) as [s|] eqn:Hs.
    + rewrite element_at_updated_same by eauto. apply Hg.
    + unfold updated. by rewrite Hs.
  - by rewrite element_at_updated_ne.
Qed.

Lemma addr_valid_updated st a f b :
  addr_valid (updated a f st) b <-> addr_valid st b.
Proof.
  unfold addr_valid, updated.
  destruct (segments st !! seg a) as [s|] eqn:Hs; [|done]. simpl.
  destruct (decide (seg a = seg b)) as [He|Hne].
  - rewrite <- He, lookup_insert_eq, Hs. split; intros [? _]; eauto.
  - by rewrite lookup_insert_ne.
Qed.

Lemma event_log_updated st a f : event_log (updated a f st) = event_log st.
Proof. unfold updated. by destruct (segments st !! seg a). Qed.

Lemma event_log_locked st a : event_log (locked a st) = event_log st.
Proof. unfold locked. by destruct (segments st !! seg a). Qed.

Lemma event_log_unlocked st a : event_log (unlocked a st) = event_log st.
Proof. unfold unlocked. by destruct (segments st !! seg a). Qed.

Lemma locked_same_segments st a : same_segments st (locked a st).
Proof.
  unfold locked. destruct (segments st !! seg a) as [s|] eqn:Hs;
    [|reflexivity].
  by apply same_segments_with_locks.
Qed.

Lemma unlocked_same_segments st a : same_segments st (unlocked a st).
Proof.
  unfold unlocked. destruct (segments st !! seg a) as [s|] eqn:Hs;
    [|reflexivity].
  by apply same_segments_with_locks.
Qed.

Lemma same_segments_valid st st' a :
  same_segments st st' -> addr_valid st a <-> addr_valid st' a.
Proof.
  intros [_ Hs]. unfold addr_valid. specialize (Hs (seg a)).
  destruct (segments st !! seg a), (segments st' !! seg a); try done.
  split; intros [? _]; eauto.
Qed.

Lemma same_segments_element_at st st' a :
  same_segments st st' -> element_at st' a = element_at st a.
Proof. intros Hs. by apply same_segments_elements. Qed.

End Steps.

(** ** Arc creation *)

Section Arcs.
Context `{sc_defines}.
Variable ctx : sc_memory_context.

Lemma keeps_arc_new_unlock beg end_ b e fo fi t fout fin addr :
  keeps same_segments (arc_new_unlock beg end_ b e fo fi t fout fin addr).
Proof.
  unfold arc_new_unlock.
  repeat first [keeps_step | apply keeps_element_unlock].
Qed.

Lemma element_lock_try_Done a n st r el st' :
  sc_storage_element_lock_try a n st = Done (r, el) st' ->
  (addr_valid st a /\ r = SC_RESULT_OK /\ el = Some (seg a, offset a) /\
   st' = locked a st)
  \/ (~ addr_valid st a /\ r = SC_RESULT_ERROR /\ el = None /\ st' = st).
Proof. apply element_lock_Done. Qed.

(** The optional lock of a list head in [sc_storage_arc_new]. *)
Lemma head_lock_Done h r n st r' f st' :
  (if SC_ADDR_IS_NOT_EMPTY h then sc_storage_element_lock_try h n
   else mret (r, None)) st = Done (r', f) st' ->
  same_segments st st' /\
  ((SC_ADDR_IS_NOT_EMPTY h && negb (bool_decide (is_Some f)) = true /\
    r' = SC_RESULT_ERROR)
   \/ (SC_ADDR_IS_NOT_EMPTY h && negb (bool_decide (is_Some f)) = false /\
       (r = SC_RESULT_OK -> r' = SC_RESULT_OK) /\
       f = (if SC_ADDR_IS_NOT_EMPTY h then Some (seg h, offset h) else None) /\
       (SC_ADDR_IS_NOT_EMPTY h = true -> addr_valid st h))).
Proof.
  destruct (SC_ADDR_IS_NOT_EMPTY h) eqn:Hh.
  - intros Hrun.
    apply element_lock_try_Done in Hrun as [(Hv & -> & -> & ->)|(Hv & -> & -> & ->)].
    + split; [apply locked_same_segments|]. right. done.
    + split; [reflexivity|]. left. done.
  - intros [[= <- <-] <-]%ret_Done. split; [reflexivity|]. right. done.
Qed.

Lemma field_updated_head {A} (g : sc_element -> A) st a f b :
  (forall e, g (f e) = g e) ->
  g (element_at (updated_head a f st) b) = g (element_at st b).
Proof.
  intros Hg. unfold updated_head. destruct (SC_ADDR_IS_NOT_EMPTY a); [|done].
  by apply field_updated.
Qed.

Lemma addr_valid_updated_head st a f b :
  addr_valid (updated_head a f st) b <-> addr_valid st b.
Proof.
  unfold updated_head. destruct (SC_ADDR_IS_NOT_EMPTY a); [|done].
  apply addr_valid_updated.
Qed.

Lemma store_head_Done h f st u st' :
  match (if SC_ADDR_IS_NOT_EMPTY h then Some (seg h, offset h) else None) with
  | Some fp => store fp f
  | None => mret tt
  end st = Done u st' ->
  st' = updated_head h f st.
Proof.
  unfold updated_head. destruct (SC_ADDR_IS_NOT_EMPTY h).
  - intros Hrun. by apply store_Done in Hrun as [-> _].
  - by intros [_ <-]%ret_Done.
Qed.

Lemma SC_ADDR_IS_NOT_EQUAL_true a b :
  SC_ADDR_IS_NOT_EQUAL a b = true <-> a <> b.
Proof.
  unfold SC_ADDR_IS_NOT_EQUAL. rewrite negb_true_iff.
  rewrite <- SC_ADDR_IS_EQUAL_true. by destruct (SC_ADDR_IS_EQUAL a b).
Qed.

Lemma arc_new_pass_spec fuel el beg end_ st r addr st' :
  storage_wf st ->
  arc_new_pass ctx fuel el beg end_ st = Done (r, addr) st' ->
  (r = SC_RESULT_ERROR /\ addr = addr_empty /\ same_segments st st')
  \/ exists st4 st5 st6,
      r = SC_RESULT_OK /\ addr_valid st beg /\ addr_valid st end_ /\
      same_segments st st4 /\
      allocated el st4 addr st5 /\
      let h_out := first_out_arc (element_at st beg) in
      let h_in := first_in_arc (element_at st end_) in
      (SC_ADDR_IS_NOT_EMPTY h_out = true -> addr_valid st h_out) /\
      (SC_ADDR_IS_NOT_EMPTY h_in = true -> addr_valid st h_in) /\
      addr <> h_out /\ addr <> h_in /\
      st6 = arc_linked beg end_ h_out h_in addr
              (with_event_log
                 (event_log st5 ++ [Emitted beg SC_EVENT_ADD_OUTPUT_ARC addr;
                                    Emitted end_ SC_EVENT_ADD_INPUT_ARC addr])
                 st5) /\
      same_segments st6 st'.
Proof.
  intros Hwf Hrun. unfold arc_new_pass in Hrun.
  apply bind_Done in Hrun as ([r1 beg_el] & st1 & Hl1 & Hrun).
  apply element_lock_try_Done in Hl1
    as [(Hvb & -> & -> & Hst1)|(Hvb & -> & -> & ->)].
  2:{ apply bind_Done in Hrun as ([] & st2 & Hu & Hrun).
      apply keeps_arc_new_unlock in Hu.
      apply ret_Done in Hrun as [[= <- <-] <-]. by left. }
  assert (Hs1 : same_segments st st1) by (subst st1; apply locked_same_segments).
  clear Hst1.
  apply bind_Done in Hrun as ([r2 end_el] & st2 & Hl2 & Hrun).
  apply element_lock_try_Done in Hl2
    as [(Hve & -> & -> & Hst2)|(Hve & -> & -> & ->)].
  2:{ apply bind_Done in Hrun as ([] & st2 & Hu & Hrun).
      apply keeps_arc_new_unlock in Hu.
      apply ret_Done in Hrun as [[= <- <-] <-]. left.
      split; [done|]. split; [done|]. by etrans. }
  assert (Hs2 : same_segments st st2).
  { subst st2. etrans; [exact Hs1 | apply locked_same_segments]. }
  clear Hst2.
  apply bind_Done in Hrun as (b & st3 & Hb & Hrun).
  apply load_Done in Hb as (-> & Hb & _).
  change (slot st2 (seg beg, offset beg)) with (element_at st2 beg) in Hb.
  rewrite (same_segments_element_at _ _ _ Hs2) in Hb. subst b.
  set (h_out := first_out_arc (element_at st beg)) in *.
  apply bind_Done in Hrun as ([r3 f_out] & st3 & Hl3 & Hrun).
  apply head_lock_Done in Hl3 as [Hs3 [[Hc3 ->]|(Hc3 & Hr3 & Hfo & Hv3)]];
    rewrite Hc3 in Hrun.
  { apply bind_Done in Hrun as ([] & st4 & Hu & Hrun).
    apply keeps_arc_new_unlock in Hu.
    apply ret_Done in Hrun as [[= <- <-] <-]. left.
    split; [done|]. split; [done|]. etrans; [exact Hs2|]. by etrans. }
  specialize (Hr3 eq_refl). subst r3.
  assert (Hs3' : same_segments st st3) by by etrans.
  apply bind_Done in Hrun as (e & st4 & He & Hrun).
  apply load_Done in He as (-> & He & _).
  change (slot st3 (seg end_, offset end_)) with (element_at st3 end_) in He.
  rewrite (same_segments_element_at _ _ _ Hs3') in He. subst e.
  set (h_in := first_in_arc (element_at st end_)) in *.
  apply bind_Done in Hrun as ([r4 f_in] & st4 & Hl4 & Hrun).
  apply head_lock_Done in Hl4 as [Hs4 [[Hc4 ->]|(Hc4 & Hr4 & Hfi & Hv4)]];
    rewrite Hc4 in Hrun.
  { apply bind_Done in Hrun as ([] & st5 & Hu & Hrun).
    apply keeps_arc_new_unlock in Hu.
    apply ret_Done in Hrun as [[= <- <-] <-]. left.
    split; [done|]. split; [done|]. etrans; [exact Hs3'|]. by etrans. }
  specialize (Hr4 eq_refl). subst r4.
  assert (Hs4' : same_segments st st4) by by etrans.
  apply bind_Done in Hrun as ([tmp_el addr0] & st5 & Happ & Hrun).
  apply append_el_into_segments_spec in Happ;
    [|by eapply same_segments_wf].
  destruct Happ as [(-> & _)|(-> & Halloc & _)]; [discriminate|].
  subst f_out f_in.
  apply bind_Done in Hrun as ([] & st6 & Ha & Hrun).
  apply g_assert_Done in Ha as [Hne_in ->].
  apply SC_ADDR_IS_NOT_EQUAL_true in Hne_in.
  apply bind_Done in Hrun as ([] & st6 & Hev1 & Hrun).
  apply event_emit_Done in Hev1 as ->.
  apply bind_Done in Hrun as ([] & st6 & Hev2 & Hrun).
  apply event_emit_Done in Hev2 as ->.
  apply bind_Done in Hrun as (b' & st6 & Hb & Hrun).
  apply load_Done in Hb as (-> & _ & _).
  apply bind_Done in Hrun as (e' & st6 & He & Hrun).
  apply load_Done in He as (-> & _ & _).
  apply bind_Done in Hrun as ([] & st6 & Ha & Hrun).
  apply g_assert_Done in Ha as [_ ->].
  apply bind_Done in Hrun as ([] & st6 & Hst & Hrun).
  apply store_Done in Hst as [-> _].
  apply bind_Done in Hrun as ([] & st6 & Hst & Hrun).
  apply store_Done in Hst as [-> _].
  apply bind_Done in Hrun as ([] & st6 & Ha & Hrun).
  apply g_assert_Done in Ha as [[Hne_out _]%andb_true_iff ->].
  apply SC_ADDR_IS_NOT_EQUAL_true in Hne_out.
  apply bind_Done in Hrun as ([] & st6 & Hst & Hrun).
  apply store_head_Done in Hst as ->.
  apply bind_Done in Hrun as ([] & st6 & Hst & Hrun).
  apply store_head_Done in Hst as ->.
  apply bind_Done in Hrun as ([] & st6 & Hst & Hrun).
  apply store_Done in Hst as [-> _].
  apply bind_Done in Hrun as ([] & st6 & Hst & Hrun).
  apply store_Done in Hst as [-> _].
  apply bind_Done in Hrun as ([] & st6 & Hu & Hrun).
  apply keeps_arc_new_unlock in Hu.
  apply ret_Done in Hrun as [[= <- <-] <-].
  right. eexists st4, st5, _.
  split; [done|]. split; [done|].
  split; [by apply (same_segments_valid _ _ _ Hs1)|].
  split; [done|]. split; [done|]. simpl.
  split; [intros Hh; by apply (same_segments_valid _ _ _ Hs2), Hv3|].
  split; [intros Hh; by apply (same_segments_valid _ _ _ Hs3'), Hv4|].
  split; [done|]. split; [done|].
  split; [|exact Hu].
  unfold arc_linked. simpl. rewrite <- app_assoc. reflexivity.
Qed.

Lemma addr_valid_loaded st a :
  addr_valid st a -> is_Some (segments st !! seg a).
Proof. by intros [_ Hs]. Qed.

Lemma arc_linked_field {A} (g : sc_element -> A) beg end_ h_out h_in addr st a :
  link_stable g ->
  g (element_at (arc_linked beg end_ h_out h_in addr st) a)
  = g (element_at
         (updated addr (set_arc_next_in_arc h_in)
            (updated addr (set_arc_next_out_arc h_out) st)) a).
Proof.
  intros (H1 & H2 & H3 & H4). unfold arc_linked.
  rewrite field_updated by apply H1.
  rewrite field_updated by apply H2.
  rewrite field_updated_head by apply H3.
  by rewrite field_updated_head by apply H4.
Qed.

Lemma arc_linked_field_other {A} (g : sc_element -> A)
    beg end_ h_out h_in addr st a :
  link_stable g -> addr <> a ->
  g (element_at (arc_linked beg end_ h_out h_in addr st) a)
  = g (element_at st a).
Proof.
  intros Hg Hne. rewrite arc_linked_field by done.
  by rewrite !element_at_updated_ne.
Qed.

Lemma arc_linked_field_new {A} (g : sc_element -> A)
    beg end_ h_out h_in addr st :
  link_stable g -> addr_valid st addr ->
  g (element_at (arc_linked beg end_ h_out h_in addr st) addr)
  = g (set_arc_next_in_arc h_in
         (set_arc_next_out_arc h_out (element_at st addr))).
Proof.
  intros Hg Hv. rewrite arc_linked_field by done.
  rewrite element_at_updated_same.
  - rewrite element_at_updated_same; [done | apply Hv].
  - apply addr_valid_loaded. by apply addr_valid_updated.
Qed.

Lemma arc_linked_valid beg end_ h_out h_in addr st a :
  addr_valid (arc_linked beg end_ h_out h_in addr st) a <-> addr_valid st a.
Proof.
  unfold arc_linked.
  rewrite 2!addr_valid_updated, 2!addr_valid_updated_head.
  by rewrite 2!addr_valid_updated.
Qed.

Lemma updated_head_wf st a f : storage_wf st -> storage_wf (updated_head a f st).
Proof.
  unfold updated_head. destruct (SC_ADDR_IS_NOT_EMPTY a); [|done].
  apply updated_wf.
Qed.

Lemma event_log_updated_head st a f :
  event_log (updated_head a f st) = event_log st.
Proof.
  unfold updated_head. destruct (SC_ADDR_IS_NOT_EMPTY a); [|done].
  apply event_log_updated.
Qed.

(** Validity of an address after some of the assignments of [arc_linked]. *)
Ltac valid_after_updates :=
  repeat first [apply addr_valid_updated | apply addr_valid_updated_head];
  assumption.

Lemma arc_linked_first_out beg end_ h_out h_in addr st :
  addr_valid st beg ->
  first_out_arc (element_at (arc_linked beg end_ h_out h_in addr st) beg) = addr.
Proof.
  intros Hv. unfold arc_linked.
  rewrite field_updated by done.
  rewrite element_at_updated_same; [done|].
  apply addr_valid_loaded. valid_after_updates.
Qed.

Lemma arc_linked_first_in beg end_ h_out h_in addr st :
  addr_valid st end_ ->
  first_in_arc (element_at (arc_linked beg end_ h_out h_in addr st) end_) = addr.
Proof.
  intros Hv. unfold arc_linked.
  rewrite element_at_updated_same; [done|].
  apply addr_valid_loaded. valid_after_updates.
Qed.

Lemma arc_linked_prev_out beg end_ h_out h_in addr st :
  SC_ADDR_IS_NOT_EMPTY h_out = true -> addr_valid st h_out ->
  arc_prev_out_arc (element_at (arc_linked beg end_ h_out h_in addr st) h_out)
  = addr.
Proof.
  intros Hh Hv. unfold arc_linked.
  rewrite field_updated by done.
  rewrite field_updated by done.
  rewrite field_updated_head by done.
  unfold updated_head at 1. rewrite Hh.
  rewrite element_at_updated_same; [done|].
  apply addr_valid_loaded. valid_after_updates.
Qed.

Lemma arc_linked_prev_in beg end_ h_out h_in addr st :
  SC_ADDR_IS_NOT_EMPTY h_in = true -> addr_valid st h_in ->
  arc_prev_in_arc (element_at (arc_linked beg end_ h_out h_in addr st) h_in)
  = addr.
Proof.
  intros Hh Hv. unfold arc_linked.
  rewrite field_updated by done.
  rewrite field_updated by done.
  unfold updated_head at 1. rewrite Hh.
  rewrite element_at_updated_same; [done|].
  apply addr_valid_loaded. valid_after_updates.
Qed.

Lemma arc_linked_wf beg end_ h_out h_in addr st :
  storage_wf st -> storage_wf (arc_linked beg end_ h_out h_in addr st).
Proof.
  intros Hwf. unfold arc_linked.
  by repeat first [apply updated_wf | apply updated_head_wf].
Qed.

Lemma arc_linked_event_log beg end_ h_out h_in addr st :
  event_log (arc_linked beg end_ h_out h_in addr st) = event_log st.
Proof.
  unfold arc_linked.
  rewrite 2!event_log_updated, 2!event_log_updated_head.
  by rewrite 2!event_log_updated.
Qed.

Lemma segs_grow_valid st st' a :
  segs_grow st st' -> addr_valid st a -> addr_valid st' a.
Proof.
  intros Hg [Hlt [s Hs]]. split; [done|].
  destruct (Hg _ _ Hs) as (s' & -> & _). eauto.
Qed.

Lemma SC_ADDR_IS_NOT_EMPTY_true a :
  SC_ADDR_IS_NOT_EMPTY a = true <-> a <> addr_empty.
Proof.
  unfold SC_ADDR_IS_NOT_EMPTY. rewrite negb_true_iff. symmetry.
  apply addr_empty_iff.
Qed.

Lemma arc_new_pass_created fuel el beg end_ st r addr st' :
  storage_wf st ->
  arc_new_pass ctx fuel el beg end_ st = Done (r, addr) st' ->
  (r = SC_RESULT_ERROR /\ addr = addr_empty /\ same_segments st st')
  \/ (r = SC_RESULT_OK /\ arc_created el beg end_ st addr st').
Proof.
  intros Hwf Hrun.
  apply arc_new_pass_spec in Hrun; [|done].
  destruct Hrun as [?|(st4 & st5 & st6 & -> & Hvb & Hve & Hs4 & Halloc & Hrest)];
    [by left|right].
  simpl in Hrest.
  destruct Hrest as (Hvo & Hvi & Hno & Hni & -> & Hs6).
  destruct Halloc as (Hne & Hva & Ht & Hwf5 & Hg & Hev & Hel & Hothers).
  set (evs := event_log st5 ++ _) in Hs6.
  set (sE := with_event_log evs st5) in *.
  assert (HvE : forall a, addr_valid st a -> addr_valid sE a).
  { intros a Ha. eapply (segs_grow_valid st4 st5); [done|].
    by apply (same_segments_valid _ _ _ Hs4). }
  assert (Hfin : forall A (g : sc_element -> A) a,
             g (element_at st' a)
             = g (element_at (arc_linked beg end_
                     (first_out_arc (element_at st beg))
                     (first_in_arc (element_at st end_)) addr sE) a)).
  { intros A g a. by rewrite (same_segments_element_at _ _ _ Hs6). }
  assert (Hold : forall a, a <> addr -> element_at sE a = element_at st a).
  { intros a Ha. unfold sE. rewrite element_at_with_event_log.
    rewrite Hothers by done. by apply same_segments_element_at. }
  split; [done|].
  split; [by apply addr_empty_iff|].
  split; [by apply (same_segments_valid _ _ _ Hs6), arc_linked_valid|].
  split; [by rewrite <- (same_segments_element_at _ _ _ Hs4)|].
  split; [rewrite Hfin; by apply arc_linked_first_out, HvE|].
  split; [rewrite Hfin; by apply arc_linked_first_in, HvE|].
  split; [by rewrite Hfin, arc_linked_field_new|].
  split; [by rewrite Hfin, arc_linked_field_new|].
  split.
  { intros Hh%SC_ADDR_IS_NOT_EMPTY_true. rewrite Hfin.
    apply arc_linked_prev_out; [done|]. by apply HvE, Hvo. }
  split.
  { intros Hh%SC_ADDR_IS_NOT_EMPTY_true. rewrite Hfin.
    apply arc_linked_prev_in; [done|]. by apply HvE, Hvi. }
  assert (HelE : element_at sE addr = el) by exact Hel.
  split; [rewrite Hfin, arc_linked_field_new by done; simpl; by rewrite HelE|].
  split; [rewrite Hfin, arc_linked_field_new by done; simpl; by rewrite HelE|].
  split; [rewrite Hfin, arc_linked_field_new by done; simpl; by rewrite HelE|].
  split.
  { intros a Ha.
    rewrite !Hfin, !arc_linked_field_other by done.
    by rewrite Hold. }
  split.
  { destruct Hs6 as [[_ ->] _]. rewrite arc_linked_event_log. unfold sE, evs.
    simpl. f_equal. unfold same_events in Hev. rewrite Hev.
    by destruct Hs4 as [[_ ->] _]. }
  eapply same_segments_wf; [exact Hs6|]. by apply arc_linked_wf.
Qed.

Lemma arc_new_loop_done n fuel el beg end_ st addr st' :
  storage_wf st ->
  arc_new_loop ctx n fuel el beg end_ st = Done addr st' ->
  (addr = addr_empty /\ same_segments st st')
  \/ arc_created el beg end_ st addr st'.
Proof.
  intros Hwf Hrun. destruct n as [|n]; [discriminate|]. simpl in Hrun.
  apply bind_Done in Hrun as ([r addr0] & st1 & Hpass & Hrun).
  apply arc_new_pass_created in Hpass; [|done].
  destruct Hpass as [(-> & -> & Hs)|(-> & Hc)].
  - simpl in Hrun. apply ret_Done in Hrun as [<- <-]. by left.
  - simpl in Hrun.
    assert (He : SC_ADDR_IS_EMPTY addr0 = false)
      by (apply addr_empty_iff, Hc).
    rewrite He in Hrun. apply ret_Done in Hrun as [<- <-]. by right.
Qed.

Lemma arc_new_spec fuel type beg end_ st addr st' :
  storage_wf st ->
  sc_storage_arc_new ctx fuel type beg end_ st = Done addr st' ->
  addr <> addr_empty ->
  Z.land sc_type_node type = 0 /\
  arc_created (arc_element type beg end_) beg end_ st addr st'.
Proof.
  intros Hwf Hrun Hne. unfold sc_storage_arc_new in Hrun.
  apply bind_Done in Hrun as ([] & st0 & Ha & Hrun).
  apply g_assert_Done in Ha as [Hmask%Z.eqb_eq ->].
  split; [done|].
  apply arc_new_loop_done in Hrun as [[-> _]|Hc]; done.
Qed.

End Arcs.

(** ** The arc lists of an element *)

Section Lists.
Context `{sc_defines}.

Lemma arc_chain_frame next n st st' a l new :
  arc_chain next n st a = Some l ->
  all_alive st l ->
  flags_type (element_at st new) = 0 ->
  (forall x, x <> new -> next (element_at st' x) = next (element_at st x)) ->
  arc_chain next n st' a = Some l /\ new ∉ l.
Proof.
  intros Hchain Halive Hnew Hnext. revert a l Hchain Halive.
  induction n as [|n IH]; intros a l Hchain Halive; [discriminate|].
  simpl in *. destruct (SC_ADDR_IS_EMPTY a).
  - injection Hchain as <-. split; [done|]. apply not_elem_of_nil.
  - destruct (arc_chain next n st (next (element_at st a))) as [l'|] eqn:Hl';
      [|discriminate].
    injection Hchain as <-. apply Forall_cons in Halive as [Ha Halive].
    assert (Hne : a <> new) by congruence.
    rewrite Hnext by done.
    destruct (IH _ _ Hl' Halive) as [-> Hnotin]. split; [done|].
    apply not_elem_of_cons. split; [congruence | done].
Qed.

Lemma arc_chain_cons next n st a :
  a <> addr_empty ->
  arc_chain next (S n) st a
  = cons a <$> arc_chain next n st (next (element_at st a)).
Proof.
  intros Hne%addr_empty_iff. simpl. by rewrite Hne.
Qed.

End Lists.

(** ** Which element is created, and with which type *)

Section Creations.
Context `{sc_defines}.
Variable ctx : sc_memory_context.

Lemma zeroed_but_type_zero t : zeroed_but_type (set_flags_type t sc_element_zero).
Proof.
  unfold zeroed_but_type; simpl. repeat split; try done.
  apply Forall_forall. by intros x [-> _]%elem_of_replicate.
Qed.

Lemma create_type fuel c st addr st' :
  storage_wf st -> create ctx fuel c st = Done addr st' -> addr <> addr_empty ->
  addr_valid st' addr /\ flags_type (element_at st' addr) = composed_type c.
Proof.
  intros Hwf Hrun Hne. destruct c as [type| |type beg end_]; simpl in Hrun.
  - apply node_new_spec in Hrun as [_ [[-> _]|(st1 & Ha & -> & _)]]; try done.
    destruct Ha as (_ & Hv & _ & _ & _ & _ & Hel & _).
    split; [by apply addr_valid_unlocked|].
    by rewrite element_at_unlocked, Hel.
  - apply link_new_spec in Hrun as [[-> _]|(st1 & Ha & -> & _)]; try done.
    destruct Ha as (_ & Hv & _ & _ & _ & _ & Hel & _).
    split; [by apply addr_valid_unlocked|].
    by rewrite element_at_unlocked, Hel.
  - apply arc_new_spec in Hrun as [_ Hc]; try done.
    destruct Hc as (_ & Hv & _ & _ & _ & _ & _ & _ & _ & Ht & _).
    split; [done|]. rewrite Ht. simpl.
    by destruct (Z.land type sc_type_arc_mask =? 0).
Qed.

End Creations.

(** ** Arc creation at the segment limit *)

Section Capacity.
Context `{sc_defines}.
Variable ctx : sc_memory_context.

Lemma segments_num_locked st a : segments_num (locked a st) = segments_num st.
Proof. unfold locked. by destruct (segments st !! seg a). Qed.

(** The lock of a list head in [sc_storage_arc_new], when the head is the
    empty address or can be locked. *)
Lemma head_lock_valid h r st :
  h = addr_empty \/ addr_valid st h ->
  exists r' f st',
    (if SC_ADDR_IS_NOT_EMPTY h
     then sc_storage_element_lock_try h s_max_storage_lock_attempts
     else mret (r, None)) st = Done (r', f) st' /\
    SC_ADDR_IS_NOT_EMPTY h && negb (bool_decide (is_Some f)) = false /\
    segments_num st' = segments_num st /\
    (forall a, addr_valid st a -> addr_valid st' a) /\
    (forall a, element_at st' a = element_at st a).
Proof.
  intros Hh. destruct (SC_ADDR_IS_NOT_EMPTY h) eqn:Hne.
  - destruct Hh as [->|Hv]; [discriminate|].
    exists SC_RESULT_OK, (Some (seg h, offset h)), (locked h st).
    split; [by apply element_lock_valid|].
    split; [done|]. split; [apply segments_num_locked|].
    split; [intros a; apply addr_valid_locked | apply element_at_locked].
  - exists r, None, st. done.
Qed.

Lemma arc_new_pass_at_capacity fuel el beg end_ st :
  sc_config_get_max_loaded_segments <= segments_num st ->
  addr_valid st beg -> addr_valid st end_ ->
  first_out_arc (element_at st beg) = addr_empty
    \/ addr_valid st (first_out_arc (element_at st beg)) ->
  first_in_arc (element_at st end_) = addr_empty
    \/ addr_valid st (first_in_arc (element_at st end_)) ->
  arc_new_pass ctx fuel el beg end_ st = Fault.
Proof.
  intros Hcap Hvb Hve Hho Hhi. unfold arc_new_pass.
  unfold mbind, M_bind, bind.
  change (sc_storage_element_lock_try beg s_max_storage_lock_attempts st)
    with (sc_storage_element_lock beg st).
  rewrite element_lock_valid by done.
  change (sc_storage_element_lock_try end_ s_max_storage_lock_attempts
            (locked beg st))
    with (sc_storage_element_lock end_ (locked beg st)).
  rewrite element_lock_valid by (by apply addr_valid_locked).
  set (st2 := locked end_ (locked beg st)).
  assert (Hv2 : forall a, addr_valid st a -> addr_valid st2 a).
  { intros a Ha. by apply addr_valid_locked, addr_valid_locked. }
  assert (He2 : forall a, element_at st2 a = element_at st a).
  { intros a. unfold st2. by rewrite !element_at_locked. }
  rewrite load_valid by (apply addr_valid_loaded, Hv2, Hvb).
  change (slot st2 (seg beg, offset beg)) with (element_at st2 beg).
  rewrite He2.
  destruct (head_lock_valid (first_out_arc (element_at st beg))
              SC_RESULT_OK st2)
    as (r3 & f3 & st3 & -> & -> & Hn3 & Hv3 & He3).
  { destruct Hho; [by left | right; by apply Hv2]. }
  rewrite load_valid by (apply addr_valid_loaded, Hv3, Hv2, Hve).
  change (slot st3 (seg end_, offset end_)) with (element_at st3 end_).
  rewrite He3, He2.
  destruct (head_lock_valid (first_in_arc (element_at st end_)) r3 st3)
    as (r4 & f4 & st4 & -> & -> & Hn4 & Hv4 & He4).
  { destruct Hhi; [by left | right; by apply Hv3, Hv2]. }
  rewrite append_el_at_capacity; [done|].
  rewrite Hn4, Hn3. unfold st2. by rewrite !segments_num_locked.
Qed.

Lemma arc_new_at_capacity fuel type beg end_ st :
  sc_config_get_max_loaded_segments <= segments_num st ->
  Z.land sc_type_node type = 0 ->
  addr_valid st beg -> addr_valid st end_ ->
  first_out_arc (element_at st beg) = addr_empty
    \/ addr_valid st (first_out_arc (element_at st beg)) ->
  first_in_arc (element_at st end_) = addr_empty
    \/ addr_valid st (first_in_arc (element_at st end_)) ->
  sc_storage_arc_new ctx (S fuel) type beg end_ st = Fault.
Proof.
  intros Hcap Hmask Hvb Hve Hho Hhi. unfold sc_storage_arc_new.
  rewrite Hmask. simpl. unfold mbind, M_bind, bind. simpl.
  unfold mbind, M_bind, bind.
  by rewrite arc_new_pass_at_capacity.
Qed.

End Capacity.

(** ** Deletion, whatever the order of the hash tables *)

Section AnyOrder.
Context `{sc_defines}.
Variable ctx : sc_memory_context.

Lemma element_unlock_total a st :
  exists r st', sc_storage_element_unlock a st = Done r st'.
Proof.
  destruct (decide (addr_valid st a)) as [Hv|Hv].
  - rewrite element_unlock_valid by done. eauto.
  - rewrite element_unlock_invalid by done. eauto.
Qed.

Lemma free_unlock_all_total l addr st :
  exists a st', free_unlock_all l addr st = Done a st'
                /\ same_segments st st'.
Proof.
  revert addr st. induction l as [|kv l IH]; intros addr st; simpl.
  - exists addr, st. split; [done | reflexivity].
  - destruct (element_unlock_total kv.1 st) as (r & st1 & Hu).
    destruct (IH kv.1 st1) as (a & st' & Hl & Hs).
    exists a, st'. unfold mbind, M_bind, bind. rewrite Hu. split; [done|].
    etrans; [|exact Hs]. by eapply keeps_element_unlock.
Qed.

(** Once the elements are erased, [sc_storage_element_free] ends with
    SC_RESULT_OK and the elements stay as the erasure left them. *)
Lemma free_finish_after_erase lt to_erase to_unlock addr st a st1 :
  free_erase_all ctx lt to_erase addr st = Done a st1 ->
  exists st', free_finish ctx lt to_erase to_unlock addr st
              = Done SC_RESULT_OK st'
              /\ forall x, element_at st' x = element_at st1 x.
Proof.
  intros Herase. unfold free_finish. unfold mbind, M_bind, bind.
  rewrite Herase.
  destruct (free_unlock_all_total to_unlock a st1) as (a' & st2 & -> & Hs).
  simpl. eexists. split; [reflexivity|]. intros x.
  rewrite element_at_with_event_log. by apply same_segments_element_at.
Qed.

Lemma free_in_every_order fuel addr st tb st_c probe check :
  (forall t, g_hash_table_iter_order t ≡ₚ t) ->
  free_collect_all fuel addr st = Done (Some tb) st_c ->
  erased_in_every_order ctx (lock_table tb) (remove_table tb) addr st_c
    probe check = true ->
  exists st', sc_storage_element_free ctx fuel addr st = Done SC_RESULT_OK st'
              /\ check (map (element_at st') probe) = true.
Proof.
  intros Hord Hcollect Hall.
  unfold sc_storage_element_free. unfold mbind at 1, M_bind at 1, bind at 1.
  rewrite Hcollect.
  unfold erased_in_every_order in Hall. rewrite forallb_forall in Hall.
  specialize (Hall (g_hash_table_iter_order (remove_table tb))).
  destruct (free_erase_all ctx (lock_table tb)
              (g_hash_table_iter_order (remove_table tb)) addr st_c)
    as [a st1| |] eqn:Herase.
  - destruct (free_finish_after_erase _ _
                (g_hash_table_iter_order (lock_table tb)) _ _ _ _ Herase)
      as (st' & -> & Hel).
    exists st'. split; [done|].
    rewrite (map_ext _ (element_at st1)) by done.
    apply Hall. apply list_elem_of_In, permutations_Permutation.
    symmetry. apply Hord.
  - exfalso. assert (false = true); [|discriminate].
    apply Hall. apply list_elem_of_In, permutations_Permutation.
    symmetry. apply Hord.
  - exfalso. assert (false = true); [|discriminate].
    apply Hall. apply list_elem_of_In, permutations_Permutation.
    symmetry. apply Hord.
Qed.

End AnyOrder.

(** ** Concrete graphs for the deletion *)

Lemma chain_demo_built : build_chain storage_empty = Done (mk_addr 0 5) chain_demo.
Proof. vm_compute. reflexivity. Qed.

Lemma closure_demo_built :
  build_closure storage_empty = Done (mk_addr 0 6) closure_demo.
Proof. vm_compute. reflexivity. Qed.

Lemma splice_demo_built :
  build_splice storage_empty = Done (mk_addr 0 6) splice_demo.
Proof. vm_compute. reflexivity. Qed.

Lemma fan_in_demo_built :
  build_fan_in storage_empty = Done (mk_addr 0 5) fan_in_demo.
Proof. vm_compute. reflexivity. Qed.

(** Runs [sc_storage_element_free] on a concrete storage for every order of
    iteration: the collection is evaluated, then the erasure for each
    permutation of [remove_table]. *)
Ltac free_in_every_order ord Hord fuel addr st probe check :=
  let r := eval vm_compute in (@free_collect_all (demo_order ord) fuel addr st) in
  match r with
  | Done (Some ?tb) ?st_c =>
      destruct (@free_in_every_order (demo_order ord) demo_ctx fuel addr st
                  tb st_c probe check Hord)
        as (st' & Hrun & Hcheck);
      [vm_compute; reflexivity | vm_compute; reflexivity | ]
  end.

(** ** The events of a deletion *)

Section Events.
Context `{sc_defines}.
Variable ctx : sc_memory_context.

#[global] Instance collects_preorder : PreOrder collects.
Proof.
  split.
  - intros st. split; [done|]. exists []. by rewrite app_nil_r.
  - intros st1 st2 st3 [Hc12 (ev12 & Hl12 & Hq12)] [Hc23 (ev23 & Hl23 & Hq23)].
    split.
    + intros x. rewrite Hc23. apply Hc12.
    + exists (ev12 ++ ev23). split.
      * by rewrite Hl23, Hl12, app_assoc.
      * by apply Forall_app.
Qed.

Lemma same_segments_collects st st' : same_segments st st' -> collects st st'.
Proof.
  intros Hs. split.
  - intros x. by rewrite (same_segments_element_at _ _ _ Hs).
  - exists []. rewrite app_nil_r. split; [|done].
    by apply same_segments_events.
Qed.

Lemma keeps_store_collects p f :
  (forall e, core (f e) = core e) -> keeps collects (store p f).
Proof.
  intros Hf st u st' Hrun. destruct p as [k off].
  change (k, off) with (seg (mk_addr k off), offset (mk_addr k off)) in Hrun.
  apply store_Done in Hrun as [-> _]. split.
  - intros x. by apply field_updated.
  - exists []. rewrite app_nil_r. split; [|done]. apply event_log_updated.
Qed.

Lemma keeps_free_lock_collects checked a : keeps collects (free_lock checked a).
Proof.
  unfold free_lock.
  repeat first
    [ keeps_step
    | eapply keeps_weaken;
      [apply same_segments_collects | apply keeps_element_lock] ].
Qed.

(** *** Hash tables *)

Lemma g_hash_table_lookup_Some t k v :
  g_hash_table_lookup t k = Some v -> (k, v) ∈ t.
Proof.
  unfold g_hash_table_lookup. induction t as [|[k' v'] t IH]; simpl;
    [discriminate|].
  case_bool_decide as Hk; simpl in *.
  - intros [= ->]. subst k'. apply list_elem_of_here.
  - intros Hl. apply list_elem_of_further. by apply IH.
Qed.

Lemma elem_of_g_hash_table_replace t k v a el :
  (a, el) ∈ g_hash_table_replace t k v -> (a, el) = (k, v) \/ (a, el) ∈ t.
Proof.
  induction t as [|kv t IH]; simpl; [by right|].
  case_bool_decide.
  - intros [->|Hin]%elem_of_cons; [by left|].
    right. by apply list_elem_of_further.
  - intros [->|Hin]%elem_of_cons; [right; apply list_elem_of_here|].
    destruct (IH Hin) as [?|?]; [by left|]. right.
    by apply list_elem_of_further.
Qed.

Lemma elem_of_g_hash_table_insert t k v a el :
  (a, el) ∈ g_hash_table_insert t k v -> (a, el) = (k, v) \/ (a, el) ∈ t.
Proof.
  unfold g_hash_table_insert. destruct (g_hash_table_lookup t k).
  - apply elem_of_g_hash_table_replace.
  - intros [?|?%list_elem_of_singleton]%elem_of_app; [by right | by left].
Qed.

Lemma table_ptrs_insert t a :
  table_ptrs t -> table_ptrs (g_hash_table_insert t a (seg a, offset a)).
Proof.
  intros Ht b el [[= -> ->]|Hin]%elem_of_g_hash_table_insert; [done|].
  by apply Ht.
Qed.

(** *** The first loop *)

Lemma notified_app evs evs' st0 a :
  notified evs st0 a -> notified (evs ++ evs') st0 a.
Proof.
  intros [Hd Ha]. split; [apply elem_of_app; by left|].
  intros Harc. destruct (Ha Harc). split; apply elem_of_app; by left.
Qed.

Lemma collecting_step st0 req pend tb st st' :
  collecting st0 req pend tb st -> collects st st' ->
  collecting st0 req pend tb st'.
Proof.
  intros (Hc & Hlt & Hrt & evs & Hlog & Hq & Hreq & Hcov) [Hc' (evs' & Hlog' & Hq')].
  split; [intros x; rewrite Hc'; apply Hc|]. split; [done|]. split; [done|].
  exists (evs ++ evs'). split; [by rewrite Hlog', Hlog, app_assoc|].
  split; [by apply Forall_app|].
  split; [intros ev Hev; apply elem_of_app; left; by apply Hreq|].
  intros a el Hin. destruct (Hcov a el Hin) as [?|[?|?]]; [by left|by right; left|].
  right; right. by apply notified_app.
Qed.

Lemma collecting_emit st0 req pend tb st ev :
  collecting st0 req pend tb st -> is_remove_element ev = false ->
  collecting st0 (ev :: req) pend tb
    (with_event_log (event_log st ++ [ev]) st).
Proof.
  intros (Hc & Hlt & Hrt & evs & Hlog & Hq & Hreq & Hcov) Hev.
  split; [done|]. split; [done|]. split; [done|].
  exists (evs ++ [ev]). split; [simpl; by rewrite Hlog, app_assoc|].
  split; [apply Forall_app; split; [done|by apply Forall_singleton]|].
  split.
  { intros ev' [->|Hin]%elem_of_cons; apply elem_of_app;
      [right; apply list_elem_of_here | left; by apply Hreq]. }
  intros a el Hin. destruct (Hcov a el Hin) as [?|[?|?]]; [by left|by right; left|].
  right; right. by apply notified_app.
Qed.

Lemma collecting_req st0 req req' pend tb st :
  collecting st0 req pend tb st -> (forall ev, ev ∈ req' -> ev ∈ req) ->
  collecting st0 req' pend tb st.
Proof.
  intros (Hc & Hlt & Hrt & evs & Hlog & Hq & Hreq & Hcov) Hsub.
  split; [done|]. split; [done|]. split; [done|].
  exists evs. split; [done|]. split; [done|]. split; [|done].
  intros ev Hev. by apply Hreq, Hsub.
Qed.

Lemma collecting_lock_insert st0 req pend tb st a :
  collecting st0 req pend tb st ->
  collecting st0 req pend
    (mk_locals (remove_table tb)
       (g_hash_table_insert (lock_table tb) a (seg a, offset a))
       (remove_list tb)) st.
Proof.
  intros (Hc & Hlt & Hrt & Hev).
  split; [done|]. split; [by apply table_ptrs_insert|]. split; done.
Qed.

Lemma collecting_walk_insert st0 req pend tb st a :
  collecting st0 req pend tb st ->
  collecting st0 req pend
    (mk_locals (g_hash_table_insert (remove_table tb) a (seg a, offset a))
       (g_hash_table_insert (lock_table tb) a (seg a, offset a))
       (remove_list tb ++ [a])) st.
Proof.
  intros (Hc & Hlt & Hrt & evs & Hlog & Hq & Hreq & Hcov).
  split; [done|]. split; [by apply table_ptrs_insert|].
  split; [by apply table_ptrs_insert|].
  exists evs. split; [done|]. split; [done|]. split; [done|].
  intros b el [[= -> ->]|Hin]%elem_of_g_hash_table_insert; simpl.
  - right; left. apply elem_of_app. right. apply list_elem_of_here.
  - destruct (Hcov b el Hin) as [?|[?|?]]; [by left| |by right; right].
    right; left. apply elem_of_app. by left.
Qed.

Lemma collecting_pending_insert st0 req pend tb st a :
  collecting st0 req pend tb st -> a ∈ pend ->
  collecting st0 req pend
    (mk_locals (g_hash_table_insert (remove_table tb) a (seg a, offset a))
       (g_hash_table_insert (lock_table tb) a (seg a, offset a))
       (remove_list tb)) st.
Proof.
  intros (Hc & Hlt & Hrt & evs & Hlog & Hq & Hreq & Hcov) Ha.
  split; [done|]. split; [by apply table_ptrs_insert|].
  split; [by apply table_ptrs_insert|].
  exists evs. split; [done|]. split; [done|]. split; [done|].
  intros b el [[= -> ->]|Hin]%elem_of_g_hash_table_insert; simpl.
  - by left.
  - by apply (Hcov b el).
Qed.

Lemma collecting_pop st0 req rt lt a rest st :
  collecting st0 req [] (mk_locals rt lt (a :: rest)) st ->
  collecting st0 req [a] (mk_locals rt lt rest) st.
Proof.
  intros (Hc & Hlt & Hrt & evs & Hlog & Hq & Hreq & Hcov).
  split; [done|]. split; [done|]. split; [done|].
  exists evs. split; [done|]. split; [done|]. split; [done|].
  intros b el Hin. simpl in *.
  destruct (Hcov b el Hin) as [[]%elem_of_nil|[[->|?]%elem_of_cons|?]].
  - left. apply list_elem_of_here.
  - by right; left.
  - by right; right.
Qed.

Lemma collecting_notified st0 req tb st a :
  collecting st0 req [a] tb st ->
  ElementDeleted a ∈ req ->
  (Z.land (flags_type (element_at st0 a)) sc_type_arc_mask <> 0 ->
   Emitted (arc_begin (element_at st0 a)) SC_EVENT_REMOVE_OUTPUT_ARC a ∈ req /\
   Emitted (arc_end (element_at st0 a)) SC_EVENT_REMOVE_INPUT_ARC a ∈ req) ->
  collecting st0 [] [] tb st.
Proof.
  intros (Hc & Hlt & Hrt & evs & Hlog & Hq & Hreq & Hcov) Hd Harc.
  split; [done|]. split; [done|]. split; [done|].
  exists evs. split; [done|]. split; [done|].
  split; [by intros ev []%elem_of_nil|].
  intros b el Hin.
  destruct (Hcov b el Hin) as [->%list_elem_of_singleton|[?|?]];
    [|by right; left|by right; right].
  right; right. split; [by apply Hreq|].
  intros Hb. destruct (Harc Hb). split; by apply Hreq.
Qed.

Lemma collecting_lock_ptr st0 req pend tb st a el :
  collecting st0 req pend tb st -> g_hash_table_lookup (lock_table tb) a = Some el ->
  el = (seg a, offset a).
Proof.
  intros (_ & Hlt & _) Hl. by apply Hlt, g_hash_table_lookup_Some.
Qed.

Lemma free_lock_Done checked a st p st' :
  free_lock checked a st = Done p st' ->
  p = (seg a, offset a) /\ same_segments st st' /\ addr_valid st a.
Proof.
  unfold free_lock. intros Hrun.
  apply bind_Done in Hrun as ([r el2] & st1 & Hl & Hrun).
  apply element_lock_Done in Hl as [(Hv & -> & -> & ->)|(Hv & -> & -> & ->)].
  - apply bind_Done in Hrun as ([] & st2 & Ha & Hrun).
    apply g_assert_Done in Ha as [_ ->].
    apply ret_Done in Hrun as [<- <-].
    split; [done|]. split; [apply locked_same_segments | done].
  - apply bind_Done in Hrun as ([] & st2 & Ha & Hrun). discriminate.
Qed.

Lemma free_walk_collecting st0 req pend fuel next _addr tb st tb' st' :
  free_walk fuel next _addr tb st = Done tb' st' ->
  collecting st0 req pend tb st -> collecting st0 req pend tb' st'.
Proof.
  revert _addr tb st. induction fuel as [|fuel IH]; intros _addr tb st Hrun Hinv;
    [discriminate|].
  simpl in Hrun. destruct (SC_ADDR_IS_NOT_EMPTY _addr).
  2:{ by apply ret_Done in Hrun as [<- <-]. }
  apply bind_Done in Hrun as ([el2 tb1] & st1 & Hfind & Hrun).
  apply bind_Done in Hrun as (e2 & st2 & Hload & Hrun).
  apply load_Done in Hload as (-> & _ & _).
  eapply IH; [exact Hrun|].
  destruct (g_hash_table_lookup (remove_table tb) _addr).
  - by apply ret_Done in Hfind as [[= <- <-] <-].
  - apply bind_Done in Hfind as (p & st1' & Hlock & Hfind).
    apply free_lock_Done in Hlock as (-> & Hs & _).
    apply ret_Done in Hfind as [[= <- <-] <-].
    apply collecting_walk_insert.
    eapply collecting_step; [exact Hinv|]. by apply same_segments_collects.
Qed.

Lemma free_lock_neighbour_collecting st0 req pend a tb st tb' st' :
  free_lock_neighbour a tb st = Done tb' st' ->
  collecting st0 req pend tb st -> collecting st0 req pend tb' st'.
Proof.
  unfold free_lock_neighbour. intros Hrun Hinv.
  destruct (SC_ADDR_IS_NOT_EMPTY a).
  2:{ by apply ret_Done in Hrun as [<- <-]. }
  destruct (g_hash_table_lookup (lock_table tb) a).
  { by apply ret_Done in Hrun as [<- <-]. }
  apply bind_Done in Hrun as (p & st1 & Hlock & Hrun).
  apply free_lock_Done in Hlock as (-> & Hs & _).
  apply ret_Done in Hrun as [<- <-].
  apply collecting_lock_insert.
  eapply collecting_step; [exact Hinv|]. by apply same_segments_collects.
Qed.

Lemma free_lock_end_collecting st0 req pend a tb st el2 tb' st' :
  free_lock_end a tb st = Done (el2, tb') st' ->
  collecting st0 req pend tb st ->
  el2 = (seg a, offset a) /\ collecting st0 req pend tb' st'.
Proof.
  unfold free_lock_end. intros Hrun Hinv.
  destruct (g_hash_table_lookup (lock_table tb) a) as [p|] eqn:Hl.
  { apply ret_Done in Hrun as [[= <- <-] <-]. split; [|done].
    by eapply collecting_lock_ptr. }
  apply bind_Done in Hrun as (p & st1 & Hlock & Hrun).
  apply free_lock_Done in Hlock as (-> & Hs & _).
  apply ret_Done in Hrun as [[= <- <-] <-]. split; [done|].
  apply collecting_lock_insert.
  eapply collecting_step; [exact Hinv|]. by apply same_segments_collects.
Qed.

Lemma collecting_core st0 req pend tb st x :
  collecting st0 req pend tb st -> core (element_at st x) = core (element_at st0 x).
Proof. intros [Hc _]. apply Hc. Qed.

Lemma free_collect_arc_collecting st0 req pend a tb st tb' st' :
  free_collect_arc a (seg a, offset a) tb st = Done tb' st' ->
  collecting st0 req pend tb st ->
  collecting st0
    (Emitted (arc_end (element_at st0 a)) SC_EVENT_REMOVE_INPUT_ARC a
     :: Emitted (arc_begin (element_at st0 a)) SC_EVENT_REMOVE_OUTPUT_ARC a
     :: req) pend tb' st'.
Proof.
  unfold free_collect_arc. intros Hrun Hinv.
  apply bind_Done in Hrun as (e & st1 & Hload & Hrun).
  apply load_Done in Hload as (-> & -> & _).
  change (slot st (seg a, offset a)) with (element_at st a) in Hrun.
  apply bind_Done in Hrun as ([] & st1 & Hev & Hrun).
  apply event_emit_Done in Hev as ->.
  assert (Hb : arc_begin (element_at st a) = arc_begin (element_at st0 a)).
  { by injection (collecting_core _ _ _ _ _ a Hinv). }
  rewrite Hb in Hrun.
  eapply (collecting_emit _ _ _ _ _
            (Emitted (arc_begin (element_at st0 a))
               SC_EVENT_REMOVE_OUTPUT_ARC a)) in Hinv; [|reflexivity].
  apply bind_Done in Hrun as (e & st1 & Hload & Hrun).
  apply load_Done in Hload as (-> & -> & _).
  set (st1 := with_event_log _ st) in *.
  change (slot st1 (seg a, offset a)) with (element_at st1 a) in Hrun.
  apply bind_Done in Hrun as ([] & st2 & Hev & Hrun).
  apply event_emit_Done in Hev as ->.
  assert (He : arc_end (element_at st1 a) = arc_end (element_at st0 a)).
  { by injection (collecting_core _ _ _ _ _ a Hinv). }
  rewrite He in Hrun.
  eapply (collecting_emit _ _ _ _ _
            (Emitted (arc_end (element_at st0 a))
               SC_EVENT_REMOVE_INPUT_ARC a)) in Hinv; [|reflexivity].
  set (st2 := with_event_log _ st1) in *.
  clearbody st2. clear st1 He Hb.
  apply bind_Done in Hrun as (e3 & st3 & Hload & Hrun).
  apply load_Done in Hload as (-> & _ & _).
  apply bind_Done in Hrun as ([el2 tb2] & st3 & Hend & Hrun).
  eapply free_lock_end_collecting in Hend as [-> Hinv3]; [|exact Hinv].
  apply bind_Done in Hrun as (e4 & st4 & Hload & Hrun).
  apply load_Done in Hload as (-> & _ & _).
  apply bind_Done in Hrun as ([] & st4 & Hst & Hrun).
  apply keeps_store_collects in Hst; [|done].
  eapply collecting_step in Hinv3; [|exact Hst].
  apply bind_Done in Hrun as (e5 & st5 & Hload & Hrun).
  apply load_Done in Hload as (-> & _ & _).
  apply bind_Done in Hrun as ([el3 tb3] & st5 & Hend & Hrun).
  eapply free_lock_end_collecting in Hend as [-> Hinv5]; [|exact Hinv3].
  apply bind_Done in Hrun as (e6 & st6 & Hload & Hrun).
  apply load_Done in Hload as (-> & _ & _).
  apply bind_Done in Hrun as ([] & st6 & Hst' & Hrun).
  apply keeps_store_collects in Hst'; [|done].
  eapply collecting_step in Hinv5; [|exact Hst'].
  apply bind_Done in Hrun as (e7 & st7 & Hload & Hrun).
  apply load_Done in Hload as (-> & _ & _).
  apply bind_Done in Hrun as (tb4 & st7 & Hn & Hrun).
  eapply free_lock_neighbour_collecting in Hn; [|exact Hinv5].
  apply bind_Done in Hrun as (tb5 & st8 & Hn' & Hrun).
  eapply free_lock_neighbour_collecting in Hn'; [|exact Hn].
  apply bind_Done in Hrun as (tb6 & st9 & Hn'' & Hrun).
  eapply free_lock_neighbour_collecting in Hn''; [|exact Hn'].
  eapply free_lock_neighbour_collecting in Hrun; [|exact Hn''].
  exact Hrun.
Qed.

Lemma free_collect_one_collecting st0 fuel a tb st tb' st' :
  free_collect_one fuel a tb st = Done tb' st' ->
  collecting st0 [] [a] tb st -> collecting st0 [] [] tb' st'.
Proof.
  unfold free_collect_one. intros Hrun Hinv.
  apply bind_Done in Hrun as ([el tb1] & st1 & Hfind & Hrun).
  assert (Hfound : el = (seg a, offset a) /\ collecting st0 [] [a] tb1 st1).
  { destruct (g_hash_table_lookup (lock_table tb) a) as [p|] eqn:Hl.
    - apply ret_Done in Hfind as [[= <- <-] <-]. split; [|done].
      by eapply collecting_lock_ptr.
    - apply bind_Done in Hfind as (p & st2 & Hlock & Hfind).
      apply free_lock_Done in Hlock as (-> & Hs & _).
      apply bind_Done in Hfind as (e & st3 & Hload & Hfind).
      apply load_Done in Hload as (-> & _ & _).
      apply bind_Done in Hfind as ([] & st3 & Ha & Hfind).
      apply g_assert_Done in Ha as [_ ->].
      apply ret_Done in Hfind as [[= <- <-] <-]. split; [done|].
      apply collecting_pending_insert; [|apply list_elem_of_here].
      eapply collecting_step; [exact Hinv|]. by apply same_segments_collects. }
  destruct Hfound as [-> Hinv1]. clear Hfind Hinv.
  apply bind_Done in Hrun as ([] & st2 & Hev & Hrun).
  injection Hev as <-.
  eapply (collecting_emit _ _ _ _ _ (ElementDeleted a)) in Hinv1; [|reflexivity].
  set (st2 := with_event_log _ st1) in *. clearbody st2.
  apply bind_Done in Hrun as (e & st3 & Hload & Hrun).
  apply load_Done in Hload as (-> & -> & _).
  change (slot st2 (seg a, offset a)) with (element_at st2 a) in Hrun.
  assert (Ht : flags_type (element_at st2 a) = flags_type (element_at st0 a)).
  { by injection (collecting_core _ _ _ _ _ a Hinv1). }
  rewrite Ht in Hrun.
  apply bind_Done in Hrun as (tb3 & st3 & Harc & Hrun).
  assert (Hinv3 : collecting st0 [] [] tb3 st3).
  { destruct (Z.land (flags_type (element_at st0 a)) sc_type_arc_mask =? 0)
      eqn:Hmask; simpl in Harc.
    - apply ret_Done in Harc as [<- <-].
      eapply collecting_notified; [exact Hinv1|apply list_elem_of_here|].
      intros Hne. apply Z.eqb_eq in Hmask. done.
    - eapply free_collect_arc_collecting in Harc; [|exact Hinv1].
      eapply collecting_notified; [exact Harc| |].
      + do 2 apply list_elem_of_further. apply list_elem_of_here.
      + intros _. split.
        * apply list_elem_of_further, list_elem_of_here.
        * apply list_elem_of_here. }
  clear Harc Hinv1 Ht.
  apply bind_Done in Hrun as (e & st4 & Hload & Hrun).
  apply load_Done in Hload as (-> & _ & _).
  apply bind_Done in Hrun as (tb4 & st4 & Hw & Hrun).
  eapply free_walk_collecting in Hw; [|exact Hinv3].
  apply bind_Done in Hrun as (e' & st5 & Hload & Hrun).
  apply load_Done in Hload as (-> & _ & _).
  eapply free_walk_collecting in Hrun; [|exact Hw].
  exact Hrun.
Qed.

Lemma free_collect_collecting st0 n fuel tb st tb' st' :
  free_collect n fuel tb st = Done tb' st' ->
  collecting st0 [] [] tb st ->
  collecting st0 [] [] tb' st' /\ remove_list tb' = [].
Proof.
  revert tb st. induction n as [|n IH]; intros tb st Hrun Hinv; [discriminate|].
  simpl in Hrun. destruct tb as [rt lt [|a rest]]; simpl in Hrun.
  { by apply ret_Done in Hrun as [<- <-]. }
  apply bind_Done in Hrun as (tb1 & st1 & Hone & Hrun).
  eapply IH; [exact Hrun|].
  eapply free_collect_one_collecting; [exact Hone|].
  by apply collecting_pop.
Qed.

(** *** The second and third loops *)

#[global] Instance erases_preorder S : PreOrder (erases S).
Proof.
  split.
  - intros st. split; [done|]. by left.
  - intros st1 st2 st3 [He12 Ht12] [He23 Ht23].
    split; [by etrans|]. intros x.
    destruct (Ht23 x) as [Heq|?]; [|by right].
    rewrite Heq. apply Ht12.
Qed.

Lemma erases_mono S S' st st' :
  (forall x, x ∈ S -> x ∈ S') -> erases S st st' -> erases S' st st'.
Proof.
  intros Hsub [He Ht]. split; [done|]. intros x.
  destruct (Ht x) as [?|[??]]; [by left|right; auto].
Qed.

Lemma same_segments_erases S st st' : same_segments st st' -> erases S st st'.
Proof.
  intros Hs. split; [by apply same_segments_events|].
  intros x. left. by rewrite (same_segments_element_at _ _ _ Hs).
Qed.

Lemma keeps_store_erases S p f :
  (forall e, flags_type (f e) = flags_type e) -> keeps (erases S) (store p f).
Proof.
  intros Hf st u st' Hrun. destruct p as [k off].
  change (k, off) with (seg (mk_addr k off), offset (mk_addr k off)) in Hrun.
  apply store_Done in Hrun as [-> _]. split; [apply event_log_updated|].
  intros x. left. by apply field_updated.
Qed.

(** Discharges [keeps (erases S) m] for the code of the second loop. *)
Ltac keeps_erases :=
  repeat first
    [ keeps_step
    | apply keeps_load; typeclasses eauto
    | apply keeps_store_erases; done
    | eapply keeps_weaken;
      [ apply same_segments_erases
      | first [ apply keeps_element_lock | apply keeps_element_unlock
              | apply keeps_segment_unlock_element
              | apply keeps_cache_append ] ] ].

Lemma keeps_free_lock_erases S checked a : keeps (erases S) (free_lock checked a).
Proof. unfold free_lock. keeps_erases. Qed.

Lemma keeps_free_erase_end S lt a : keeps (erases S) (free_erase_end lt a).
Proof.
  unfold free_erase_end.
  repeat first [keeps_step | apply keeps_free_lock_erases].
Qed.

Lemma keeps_free_erase_arc S lt addr el :
  keeps (erases S) (free_erase_arc lt addr el).
Proof.
  unfold free_erase_arc.
  repeat first [apply keeps_free_erase_end | progress keeps_erases].
Qed.

Lemma segment_erase_element_Done a st u st' :
  sc_segment_erase_element (seg a) (offset a) st = Done u st' ->
  erases [a] st st' /\ flags_type (element_at st' a) = 0.
Proof.
  unfold sc_segment_erase_element. intros Hrun.
  apply bind_Done in Hrun as ([] & st1 & Hst & Hrun).
  apply store_Done in Hst as [-> Hs].
  apply keeps_segment_unlock_element in Hrun.
  assert (Hz : flags_type (element_at st' a) = 0).
  { rewrite (same_segments_element_at _ _ _ Hrun).
    by rewrite element_at_updated_same. }
  split; [|done]. split.
  - unfold same_events. rewrite (same_segments_events _ _ Hrun).
    apply event_log_updated.
  - intros x. destruct (decide (a = x)) as [<-|Hne].
    + right. split; [apply list_elem_of_here | done].
    + left. rewrite (same_segments_element_at _ _ _ Hrun).
      by rewrite element_at_updated_ne.
Qed.

Lemma free_erase_one_Done lt kv st a st' :
  free_erase_one ctx lt kv st = Done a st' ->
  erases [kv.1] st st' /\ flags_type (element_at st' kv.1) = 0.
Proof.
  unfold free_erase_one. intros Hrun.
  apply bind_Done in Hrun as (e & st1 & Hload & Hrun).
  apply load_Done in Hload as (-> & _ & _).
  apply bind_Done in Hrun as ([] & st1 & Harc & Hrun).
  assert (H1 : erases [kv.1] st st1).
  { destruct (negb _); [by eapply keeps_free_erase_arc|].
    apply ret_Done in Harc as [_ <-]. reflexivity. }
  apply bind_Done in Hrun as ([] & st2 & Her & Hrun).
  apply segment_erase_element_Done in Her as [H2 Hz].
  apply bind_Done in Hrun as ([] & st3 & Hc & Hrun).
  apply keeps_cache_append in Hc.
  apply ret_Done in Hrun as [_ <-].
  split.
  - etrans; [exact H1|]. etrans; [exact H2|]. by apply same_segments_erases.
  - by rewrite (same_segments_element_at _ _ _ Hc).
Qed.

Lemma free_erase_all_Done lt l addr st a st' :
  free_erase_all ctx lt l addr st = Done a st' ->
  erases l.*1 st st' /\
  forall kv, kv ∈ l -> flags_type (element_at st' kv.1) = 0.
Proof.
  revert addr st. induction l as [|kv l IH]; intros addr st Hrun; simpl in Hrun.
  - apply ret_Done in Hrun as [_ <-]. split; [reflexivity|].
    by intros kv []%elem_of_nil.
  - apply bind_Done in Hrun as (a1 & st1 & Hone & Hrun).
    apply free_erase_one_Done in Hone as [H1 Hz].
    apply IH in Hrun as [H2 Hzs]. split.
    + etrans.
      * eapply erases_mono; [|exact H1].
        intros x ->%list_elem_of_singleton. simpl. apply list_elem_of_here.
      * eapply erases_mono; [|exact H2].
        intros x Hx. simpl. by apply list_elem_of_further.
    + intros kv' [->|Hin]%elem_of_cons; [|by apply Hzs].
      destruct H2 as [_ Ht]. destruct (Ht kv.1) as [-> | [_ ?]]; done.
Qed.

Lemma free_collect_all_collecting fuel addr st tb st_c :
  free_collect_all fuel addr st = Done (Some tb) st_c ->
  collecting st [] [] tb st_c /\ remove_list tb = [].
Proof.
  unfold free_collect_all. intros Hrun.
  apply bind_Done in Hrun as ([r el] & st1 & Hlock & Hrun).
  apply element_lock_Done in Hlock as [(Hv & -> & -> & ->)|(Hv & -> & -> & ->)];
    simpl in Hrun; [|by apply ret_Done in Hrun as [[=] _]].
  apply bind_Done in Hrun as (e & st1 & Hload & Hrun).
  apply load_Done in Hload as (-> & _ & _).
  destruct (flags_type e =? 0); [by apply ret_Done in Hrun as [[=] _]|].
  apply bind_Done in Hrun as (tb1 & st2 & Hcollect & Hrun).
  apply ret_Done in Hrun as [[= <-] <-].
  eapply free_collect_collecting; [exact Hcollect|].
  split; [intros x; by rewrite element_at_locked|].
  assert (Hp : table_ptrs [(addr, (seg addr, offset addr))]).
  { by intros a el [= -> ->]%list_elem_of_singleton. }
  split; [done|]. split; [done|].
  exists []. split; [by rewrite app_nil_r, event_log_locked|].
  split; [done|]. split; [done|].
  intros a el [= -> ->]%list_elem_of_singleton. right; left.
  apply list_elem_of_here.
Qed.

End Events.

(** ** Reading an element under its lock *)

Section Readers.
Context `{sc_defines}.

Lemma is_element_valid st addr :
  addr_valid st addr ->
  sc_storage_is_element addr st
  = Done (negb (flags_type (element_at st addr) =? 0)) st.
Proof.
  intros Hv. unfold sc_storage_is_element.
  unfold mbind, M_bind, bind. rewrite element_lock_valid by done. simpl.
  rewrite load_valid by (apply addr_valid_locked; apply Hv).
  rewrite element_unlock_valid by (by apply addr_valid_locked).
  by rewrite unlocked_locked, slot_locked.
Qed.

Lemma is_element_invalid st addr :
  ~ addr_valid st addr -> sc_storage_is_element addr st = Done false st.
Proof.
  intros Hv. unfold sc_storage_is_element.
  unfold mbind, M_bind, bind. by rewrite element_lock_invalid.
Qed.

Lemma get_arc_begin_valid st addr :
  addr_valid st addr ->
  sc_storage_get_arc_begin addr st
  = Done (if Z.land (flags_type (element_at st addr)) sc_type_arc_mask =? 0
          then (SC_RESULT_ERROR_INVALID_TYPE, None)
          else (SC_RESULT_OK, Some (arc_begin (element_at st addr)))) st.
Proof.
  intros Hv. unfold sc_storage_get_arc_begin.
  unfold mbind, M_bind, bind. rewrite element_lock_valid by done. simpl.
  rewrite load_valid by (apply addr_valid_locked; apply Hv).
  rewrite element_unlock_valid by (by apply addr_valid_locked).
  rewrite unlocked_locked, slot_locked.
  change (slot st (seg addr, offset addr)) with (element_at st addr).
  by destruct (Z.land _ _ =? 0).
Qed.

Lemma get_arc_end_valid st addr :
  addr_valid st addr ->
  sc_storage_get_arc_end addr st
  = Done (if Z.land (flags_type (element_at st addr)) sc_type_arc_mask =? 0
          then (SC_RESULT_ERROR_INVALID_TYPE, None)
          else (SC_RESULT_OK, Some (arc_end (element_at st addr)))) st.
Proof.
  intros Hv. unfold sc_storage_get_arc_end.
  unfold mbind, M_bind, bind. rewrite element_lock_valid by done. simpl.
  rewrite load_valid by (apply addr_valid_locked; apply Hv).
  rewrite element_unlock_valid by (by apply addr_valid_locked).
  rewrite unlocked_locked, slot_locked.
  change (slot st (seg addr, offset addr)) with (element_at st addr).
  by destruct (Z.land _ _ =? 0).
Qed.

Lemma get_arc_begin_invalid st addr :
  ~ addr_valid st addr ->
  sc_storage_get_arc_begin addr st = Done (SC_RESULT_ERROR, None) st.
Proof.
  intros Hv. unfold sc_storage_get_arc_begin.
  unfold mbind, M_bind, bind. by rewrite element_lock_invalid.
Qed.

Lemma get_arc_end_invalid st addr :
  ~ addr_valid st addr ->
  sc_storage_get_arc_end addr st = Done (SC_RESULT_ERROR, None) st.
Proof.
  intros Hv. unfold sc_storage_get_arc_end.
  unfold mbind, M_bind, bind. by rewrite element_lock_invalid.
Qed.

(** The class bits of the type [sc_storage_arc_new] composes. *)
Lemma arc_element_class type beg end_ :
  Z.land sc_type_arc_common sc_type_arc_mask <> 0 ->
  Z.land (flags_type (arc_element type beg end_)) sc_type_arc_mask <> 0.
Proof.
  intros Hc. unfold arc_element; simpl.
  destruct (Z.land type sc_type_arc_mask =? 0) eqn:Ht; simpl.
  - apply Z.eqb_eq in Ht. by rewrite Z.land_lor_distr_l, Ht, Z.lor_0_r.
  - by apply Z.eqb_neq in Ht.
Qed.

End Readers.

(** ** [sc_storage_element_new] *)

Section ElementNew.
Context `{sc_defines}.
Variable ctx : sc_memory_context.

Lemma element_new_at_capacity fuel type st :
  sc_config_get_max_loaded_segments <= segments_num st ->
  sc_storage_element_new ctx fuel type st = Fault.
Proof.
  intros Hcap. unfold sc_storage_element_new.
  unfold mbind at 1, M_bind at 1, bind at 1.
  rewrite append_el_at_capacity by done.
  unfold mbind at 1, M_bind at 1, bind at 1.
  by destruct (element_unlock_total addr_empty st) as (r & st1 & ->).
Qed.

Lemma element_new_spec fuel type st addr st' :
  storage_wf st ->
  sc_storage_element_new ctx fuel type st = Done addr st' ->
  exists st1,
    allocated (set_flags_type type sc_element_zero) st addr st1 /\
    st' = unlocked addr st1 /\
    segments_num st < sc_config_get_max_loaded_segments.
Proof.
  intros Hwf Hrun. unfold sc_storage_element_new in Hrun.
  apply bind_Done in Hrun as ([res addr0] & st1 & Happ & Hrun).
  apply append_el_into_segments_spec in Happ; [|exact Hwf].
  apply bind_Done in Hrun as (r & st2 & Hunlock & Hrun).
  apply bind_Done in Hrun as ([] & st3 & Ha & Hrun).
  apply g_assert_Done in Ha as [Hres ->].
  apply ret_Done in Hrun as [<- <-].
  destruct Happ as [(-> & _)|(-> & Halloc & Hcap)].
  { by apply bool_decide_eq_true_1 in Hres as [? [=]]. }
  rewrite element_unlock_valid in Hunlock by apply Halloc.
  injection Hunlock as <- <-. eauto.
Qed.

End ElementNew.

(** ** Calls on addresses that cannot be locked *)

Section Unloaded.
Context `{sc_defines}.
Variable ctx : sc_memory_context.

Lemma free_invalid fuel addr st :
  ~ addr_valid st addr ->
  sc_storage_element_free ctx fuel addr st = Done SC_RESULT_ERROR st.
Proof.
  intros Hv. unfold sc_storage_element_free, free_collect_all.
  unfold mbind, M_bind, bind. by rewrite element_lock_invalid.
Qed.

Lemma arc_new_pass_invalid fuel el beg end_ st :
  ~ addr_valid st beg \/ ~ addr_valid st end_ ->
  arc_new_pass ctx fuel el beg end_ st = Done (SC_RESULT_ERROR, addr_empty) st.
Proof.
  intros Hbad. unfold arc_new_pass.
  unfold mbind at 1, M_bind at 1, bind at 1.
  rewrite element_lock_try_eq.
  destruct (decide (addr_valid st beg)) as [Hvb|Hvb].
  - destruct Hbad as [?|Hve]; [done|].
    rewrite element_lock_valid by done.
    unfold mbind at 1, M_bind at 1, bind at 1.
    rewrite element_lock_try_eq.
    rewrite element_lock_invalid by (by rewrite addr_valid_locked).
    unfold arc_new_unlock. unfold mbind, M_bind, bind. simpl.
    rewrite element_unlock_valid by (by apply addr_valid_locked).
    by rewrite unlocked_locked.
  - by rewrite element_lock_invalid.
Qed.

Lemma arc_new_invalid fuel type beg end_ st :
  Z.land sc_type_node type = 0 ->
  ~ addr_valid st beg \/ ~ addr_valid st end_ ->
  sc_storage_arc_new ctx (S fuel) type beg end_ st = Done addr_empty st.
Proof.
  intros Hmask Hbad. unfold sc_storage_arc_new.
  rewrite Hmask. simpl. unfold mbind, M_bind, bind. simpl.
  unfold mbind, M_bind, bind.
  by rewrite arc_new_pass_invalid.
Qed.

End Unloaded.

(** ** What a creation leaves alone *)

Section CreationFrame.
Context `{sc_defines}.
Variable ctx : sc_memory_context.

Lemma element_at_updated_head_ne st h f a :
  h <> a -> element_at (updated_head h f st) a = element_at st a.
Proof.
  intros Hne. unfold updated_head. destruct (SC_ADDR_IS_NOT_EMPTY h); [|done].
  by apply element_at_updated_ne.
Qed.

Lemma arc_linked_other beg end_ h_out h_in addr st a :
  a <> addr -> a <> beg -> a <> end_ -> a <> h_out -> a <> h_in ->
  element_at (arc_linked beg end_ h_out h_in addr st) a = element_at st a.
Proof.
  intros H1 H2 H3 H4 H5. unfold arc_linked.
  rewrite 2!element_at_updated_ne by done.
  rewrite 2!element_at_updated_head_ne by done.
  by rewrite 2!element_at_updated_ne.
Qed.

(** A pass of [sc_storage_arc_new] that allocates writes to the new arc,
    the two ends and the two former heads only. *)
Lemma arc_new_pass_frame fuel el beg end_ st addr st' a :
  storage_wf st ->
  arc_new_pass ctx fuel el beg end_ st = Done (SC_RESULT_OK, addr) st' ->
  a <> addr -> a <> beg -> a <> end_ ->
  a <> first_out_arc (element_at st beg) ->
  a <> first_in_arc (element_at st end_) ->
  element_at st' a = element_at st a.
Proof.
  intros Hwf Hrun H1 H2 H3 H4 H5.
  apply arc_new_pass_spec in Hrun; [|done].
  destruct Hrun as [([=] & _)|(st4 & st5 & st6 & _ & _ & _ & Hs4 & Halloc & Hrest)].
  simpl in Hrest. destruct Hrest as (_ & _ & _ & _ & -> & Hs6).
  destruct Halloc as (_ & _ & _ & _ & _ & _ & _ & Hothers).
  rewrite (same_segments_element_at _ _ _ Hs6).
  rewrite arc_linked_other by done.
  rewrite element_at_with_event_log, Hothers by done.
  by apply same_segments_element_at.
Qed.

Lemma arc_new_frame fuel type beg end_ st addr st' a :
  storage_wf st ->
  sc_storage_arc_new ctx fuel type beg end_ st = Done addr st' ->
  a <> addr -> a <> beg -> a <> end_ ->
  a <> first_out_arc (element_at st beg) ->
  a <> first_in_arc (element_at st end_) ->
  element_at st' a = element_at st a.
Proof.
  intros Hwf Hrun H1 H2 H3 H4 H5. unfold sc_storage_arc_new in Hrun.
  apply bind_Done in Hrun as ([] & st0 & Ha & Hrun).
  apply g_assert_Done in Ha as [_ ->].
  destruct fuel as [|n]; [discriminate|]. simpl in Hrun.
  apply bind_Done in Hrun as ([r addr0] & st1 & Hpass & Hrun).
  destruct (arc_new_pass_created _ _ _ _ _ _ _ _ _ Hwf Hpass)
    as [(-> & -> & Hs)|(-> & Hc)]; simpl in Hrun.
  - apply ret_Done in Hrun as [<- <-]. by apply same_segments_element_at.
  - assert (He : SC_ADDR_IS_EMPTY addr0 = false) by (apply addr_empty_iff, Hc).
    rewrite He in Hrun. apply ret_Done in Hrun as [<- <-].
    by eapply arc_new_pass_frame.
Qed.

End CreationFrame.

Section Subtype.
Context `{sc_defines}.

Lemma updated_updated st a f g :
  updated a g (updated a f st) = updated a (fun e => g (f e)) st.
Proof.
  destruct (segments st !! seg a) as [s|] eqn:Hs.
  - unfold updated at 1 3. rewrite element_at_updated_same by eauto.
    unfold updated. rewrite Hs. simpl. rewrite lookup_insert_eq. simpl.
    unfold with_segments, with_elements; simpl.
    by rewrite !insert_insert_eq.
  - assert (Hf : updated a f st = st) by (unfold updated; by rewrite Hs).
    rewrite Hf. unfold updated. by rewrite Hs.
Qed.

Lemma subtype_changed_twice old t1 t2 :
  subtype_changed (subtype_changed old t1) t2 = subtype_changed old t2.
Proof.
  unfold subtype_changed at 1 3. by rewrite subtype_changed_class.
Qed.

Lemma subtype_changed_clean old type :
  Z.land type sc_type_element_mask = 0 ->
  subtype_changed old type = Z.lor (Z.land old sc_type_element_mask) type.
Proof.
  intros Hm. unfold subtype_changed. f_equal.
  apply Z.bits_inj'. intros n Hn.
  rewrite Z.land_spec, Z.lnot_spec by done.
  assert (Hb : Z.testbit (Z.land type sc_type_element_mask) n = false)
    by (rewrite Hm; apply Z.bits_0).
  rewrite Z.land_spec in Hb.
  destruct (Z.testbit type n), (Z.testbit sc_type_element_mask n);
    simpl in *; congruence.
Qed.

End Subtype.

(** ** The address that is deleted *)

Section Deleted.
Context `{sc_defines}.
Variable ctx : sc_memory_context.

Lemma g_hash_table_replace_keys t k v : (g_hash_table_replace t k v).*1 = t.*1.
Proof.
  induction t as [|kv t IH]; [done|].
  cbn [g_hash_table_replace]. case_bool_decide as Hk; rewrite !fmap_cons.
  - simpl. by rewrite Hk.
  - by rewrite IH.
Qed.

Lemma g_hash_table_insert_keys t k v a :
  a ∈ t.*1 -> a ∈ (g_hash_table_insert t k v).*1.
Proof.
  unfold g_hash_table_insert. destruct (g_hash_table_lookup t k).
  - by rewrite g_hash_table_replace_keys.
  - rewrite fmap_app. intros Ha. apply elem_of_app. by left.
Qed.

#[global] Instance keys_kept_preorder : PreOrder keys_kept.
Proof.
  split.
  - by intros tb a.
  - intros tb1 tb2 tb3 H12 H23 a Ha. by apply H23, H12.
Qed.

Lemma free_walk_keys fuel next _addr tb st tb' st' :
  free_walk fuel next _addr tb st = Done tb' st' -> keys_kept tb tb'.
Proof.
  revert _addr tb st. induction fuel as [|fuel IH]; intros _addr tb st Hrun;
    [discriminate|].
  simpl in Hrun. destruct (SC_ADDR_IS_NOT_EMPTY _addr).
  2:{ by apply ret_Done in Hrun as [<- _]. }
  apply bind_Done in Hrun as ([el2 tb1] & st1 & Hfind & Hrun).
  apply bind_Done in Hrun as (e2 & st2 & Hload & Hrun).
  apply load_Done in Hload as (-> & _ & _).
  etrans; [|eapply IH; exact Hrun].
  destruct (g_hash_table_lookup (remove_table tb) _addr).
  - by apply ret_Done in Hfind as [[= <- <-] _].
  - apply bind_Done in Hfind as (p & st1' & Hlock & Hfind).
    apply ret_Done in Hfind as [[= <- <-] _].
    intros a Ha. simpl. by apply g_hash_table_insert_keys.
Qed.

Lemma free_lock_neighbour_keys a tb st tb' st' :
  free_lock_neighbour a tb st = Done tb' st' ->
  remove_table tb' = remove_table tb.
Proof.
  unfold free_lock_neighbour. intros Hrun.
  destruct (SC_ADDR_IS_NOT_EMPTY a).
  2:{ by apply ret_Done in Hrun as [<- _]. }
  destruct (g_hash_table_lookup (lock_table tb) a).
  { by apply ret_Done in Hrun as [<- _]. }
  apply bind_Done in Hrun as (p & st1 & Hlock & Hrun).
  by apply ret_Done in Hrun as [<- _].
Qed.

Lemma free_lock_end_keys a tb st el2 tb' st' :
  free_lock_end a tb st = Done (el2, tb') st' ->
  remove_table tb' = remove_table tb.
Proof.
  unfold free_lock_end. intros Hrun.
  destruct (g_hash_table_lookup (lock_table tb) a).
  { by apply ret_Done in Hrun as [[= _ <-] _]. }
  apply bind_Done in Hrun as (p & st1 & Hlock & Hrun).
  by apply ret_Done in Hrun as [[= _ <-] _].
Qed.

Lemma free_collect_arc_keys a el tb st tb' st' :
  free_collect_arc a el tb st = Done tb' st' ->
  remove_table tb' = remove_table tb.
Proof.
  unfold free_collect_arc. intros Hrun.
  apply bind_Done in Hrun as (e1 & st1 & _ & Hrun).
  apply bind_Done in Hrun as ([] & st2 & _ & Hrun).
  apply bind_Done in Hrun as (e2 & st3 & _ & Hrun).
  apply bind_Done in Hrun as ([] & st4 & _ & Hrun).
  apply bind_Done in Hrun as (e3 & st5 & _ & Hrun).
  apply bind_Done in Hrun as ([el2 tb2] & st6 & Hend & Hrun).
  apply free_lock_end_keys in Hend.
  apply bind_Done in Hrun as (e4 & st7 & _ & Hrun).
  apply bind_Done in Hrun as ([] & st8 & _ & Hrun).
  apply bind_Done in Hrun as (e5 & st9 & _ & Hrun).
  apply bind_Done in Hrun as ([el3 tb3] & st10 & Hend' & Hrun).
  apply free_lock_end_keys in Hend'.
  apply bind_Done in Hrun as (e6 & st11 & _ & Hrun).
  apply bind_Done in Hrun as ([] & st12 & _ & Hrun).
  apply bind_Done in Hrun as (e7 & st13 & _ & Hrun).
  apply bind_Done in Hrun as (tb4 & st14 & Hn1 & Hrun).
  apply free_lock_neighbour_keys in Hn1.
  apply bind_Done in Hrun as (tb5 & st15 & Hn2 & Hrun).
  apply free_lock_neighbour_keys in Hn2.
  apply bind_Done in Hrun as (tb6 & st16 & Hn3 & Hrun).
  apply free_lock_neighbour_keys in Hn3.
  apply free_lock_neighbour_keys in Hrun.
  congruence.
Qed.

Lemma free_collect_one_keys fuel a tb st tb' st' :
  free_collect_one fuel a tb st = Done tb' st' -> keys_kept tb tb'.
Proof.
  unfold free_collect_one. intros Hrun.
  apply bind_Done in Hrun as ([el tb1] & st1 & Hfind & Hrun).
  assert (H1 : keys_kept tb tb1).
  { destruct (g_hash_table_lookup (lock_table tb) a).
    - by apply ret_Done in Hfind as [[= <- <-] _].
    - apply bind_Done in Hfind as (p & st2 & _ & Hfind).
      apply bind_Done in Hfind as (e & st3 & _ & Hfind).
      apply bind_Done in Hfind as ([] & st4 & _ & Hfind).
      apply ret_Done in Hfind as [[= <- <-] _].
      intros b Hb. simpl. by apply g_hash_table_insert_keys. }
  apply bind_Done in Hrun as ([] & st2 & _ & Hrun).
  apply bind_Done in Hrun as (e & st3 & _ & Hrun).
  apply bind_Done in Hrun as (tb3 & st4 & Harc & Hrun).
  assert (H3 : remove_table tb3 = remove_table tb1).
  { destruct (negb _).
    - by eapply free_collect_arc_keys.
    - by apply ret_Done in Harc as [<- _]. }
  apply bind_Done in Hrun as (e' & st5 & _ & Hrun).
  apply bind_Done in Hrun as (tb4 & st6 & Hw & Hrun).
  apply free_walk_keys in Hw.
  apply bind_Done in Hrun as (e'' & st7 & _ & Hrun).
  apply free_walk_keys in Hrun.
  intros b Hb. apply Hrun, Hw. unfold keys_kept in H1.
  rewrite H3. by apply H1.
Qed.

Lemma free_collect_keys n fuel tb st tb' st' :
  free_collect n fuel tb st = Done tb' st' -> keys_kept tb tb'.
Proof.
  revert tb st. induction n as [|n IH]; intros tb st Hrun; [discriminate|].
  simpl in Hrun. destruct tb as [rt lt [|a rest]]; simpl in Hrun.
  { by apply ret_Done in Hrun as [<- _]. }
  apply bind_Done in Hrun as (tb1 & st1 & Hone & Hrun).
  apply free_collect_one_keys in Hone. apply IH in Hrun.
  intros b Hb. by apply Hrun, Hone.
Qed.

(** The address given to [sc_storage_element_free] is a key of the
    [remove_table] its first loop ends with. *)
Lemma free_collect_all_root fuel addr st tb st_c :
  free_collect_all fuel addr st = Done (Some tb) st_c ->
  addr ∈ (remove_table tb).*1 /\ flags_type (element_at st addr) <> 0.
Proof.
  unfold free_collect_all. intros Hrun.
  apply bind_Done in Hrun as ([r el] & st1 & Hlock & Hrun).
  apply element_lock_Done in Hlock as [(Hv & -> & -> & ->)|(Hv & -> & -> & ->)];
    simpl in Hrun; [|by apply ret_Done in Hrun as [[=] _]].
  apply bind_Done in Hrun as (e & st1 & Hload & Hrun).
  apply load_Done in Hload as (-> & -> & _).
  change (slot (locked addr st) (seg addr, offset addr))
    with (element_at (locked addr st) addr) in Hrun.
  rewrite element_at_locked in Hrun.
  destruct (flags_type (element_at st addr) =? 0) eqn:Ht;
    [by apply ret_Done in Hrun as [[=] _]|].
  apply bind_Done in Hrun as (tb1 & st2 & Hcollect & Hrun).
  apply ret_Done in Hrun as [[= <-] _].
  apply free_collect_keys in Hcollect. split; [|by apply Z.eqb_neq].
  apply Hcollect. simpl. apply list_elem_of_here.
Qed.

(** What a successful [sc_storage_element_free] leaves at the address it
    was given. *)
Lemma free_erases_root fuel addr st st' :
  (forall t, g_hash_table_iter_order t ≡ₚ t) ->
  sc_storage_element_free ctx fuel addr st = Done SC_RESULT_OK st' ->
  flags_type (element_at st addr) <> 0 /\ flags_type (element_at st' addr) = 0.
Proof.
  intros Hord Hrun. unfold sc_storage_element_free in Hrun.
  apply bind_Done in Hrun as ([tb|] & st_c & Hcollect & Hrun);
    [|by apply ret_Done in Hrun as [[=] _]].
  apply free_collect_all_root in Hcollect as [Hkey Hlive].
  split; [done|].
  unfold free_finish in Hrun.
  apply bind_Done in Hrun as (a1 & st2 & Herase & Hrun).
  apply free_erase_all_Done in Herase as [_ Hz2].
  apply bind_Done in Hrun as (a2 & st3 & Hunlock & Hrun).
  destruct (free_unlock_all_total (g_hash_table_iter_order (lock_table tb))
              a1 st2) as (a2' & st3' & Hunlock' & Hs3).
  rewrite Hunlock in Hunlock'. injection Hunlock' as <- <-.
  apply bind_Done in Hrun as ([] & st4 & Hemit & Hrun).
  apply event_emit_Done in Hemit as ->.
  apply ret_Done in Hrun as [_ <-].
  rewrite element_at_with_event_log, (same_segments_element_at _ _ _ Hs3).
  apply list_elem_of_fmap in Hkey as ([a el] & -> & Hin).
  apply (Hz2 (a, el)). by rewrite (Hord (remove_table tb)).
Qed.

(** [sc_storage_element_free] on a slot that holds no element answers
    SC_RESULT_ERROR, whether the address can be locked or not. *)
Lemma free_of_empty_slot fuel addr st :
  flags_type (element_at st addr) = 0 ->
  exists st', sc_storage_element_free ctx fuel addr st = Done SC_RESULT_ERROR st'
              /\ forall a, element_at st' a = element_at st a.
Proof.
  intros Ht. destruct (decide (addr_valid st addr)) as [Hv|Hv].
  - exists (locked addr st). split; [|intros a; apply element_at_locked].
    unfold sc_storage_element_free, free_collect_all.
    unfold mbind, M_bind, bind. rewrite element_lock_valid by done. simpl.
    rewrite load_valid by (apply addr_valid_loaded; by apply addr_valid_locked).
    change (slot (locked addr st) (seg addr, offset addr))
      with (element_at (locked addr st) addr).
    by rewrite element_at_locked, Ht.
  - exists st. split; [by apply free_invalid | done].
Qed.

End Deleted.

(** ** Deleting an element without connectors *)

Section Isolated.
Context `{sc_defines}.
Variable ctx : sc_memory_context.

Lemma g_hash_table_lookup_here k v t :
  g_hash_table_lookup ((k, v) :: t) k = Some v.
Proof.
  unfold g_hash_table_lookup. simpl. by rewrite bool_decide_eq_true_2.
Qed.

Lemma free_walk_empty fuel next tb st :
  free_walk (S fuel) next addr_empty tb st = Done tb st.
Proof. reflexivity. Qed.

Lemma addr_valid_with_event_log st l a :
  addr_valid (with_event_log l st) a <-> addr_valid st a.
Proof. reflexivity. Qed.

(** The first loop on an element that is no arc and has no connector: only
    the element itself is collected. *)
Lemma free_collect_all_isolated fuel addr st :
  addr_valid st addr ->
  flags_type (element_at st addr) <> 0 ->
  Z.land (flags_type (element_at st addr)) sc_type_arc_mask = 0 ->
  first_out_arc (element_at st addr) = addr_empty ->
  first_in_arc (element_at st addr) = addr_empty ->
  free_collect_all (S (S fuel)) addr st
  = Done (Some (mk_locals [(addr, (seg addr, offset addr))]
                  [(addr, (seg addr, offset addr))] []))
      (with_event_log (event_log st ++ [ElementDeleted addr]) (locked addr st)).
Proof.
  intros Hv Ht Harc Hout Hin.
  assert (Hl : is_Some (segments (locked addr st) !! seg addr)).
  { apply addr_valid_loaded. by apply addr_valid_locked. }
  unfold free_collect_all.
  unfold mbind at 1, M_bind at 1, bind at 1.
  rewrite element_lock_valid by done. cbn [negb bool_decide decide_rel].
  rewrite bool_decide_eq_true_2 by done. cbn [negb].
  unfold mbind at 1, M_bind at 1, bind at 1.
  rewrite load_valid by done.
  change (slot (locked addr st) (seg addr, offset addr))
    with (element_at (locked addr st) addr).
  rewrite element_at_locked.
  apply Z.eqb_neq in Ht. rewrite Ht.
  unfold mbind at 1, M_bind at 1, bind at 1.
  cbn [free_collect remove_list remove_table lock_table].
  unfold mbind at 1, M_bind at 1, bind at 1.
  unfold free_collect_one. cbn [lock_table].
  rewrite g_hash_table_lookup_here.
  unfold mbind at 1, M_bind at 1, bind at 1.
  unfold mret at 1, M_ret at 1, ret at 1.
  unfold mbind at 1, M_bind at 1, bind at 1.
  unfold sc_event_notify_element_deleted at 1.
  rewrite event_log_locked.
  set (st2 := with_event_log _ (locked addr st)).
  assert (Hl2 : is_Some (segments st2 !! seg addr)) by exact Hl.
  assert (He2 : element_at st2 addr = element_at st addr).
  { unfold st2. by rewrite element_at_with_event_log, element_at_locked. }
  unfold mbind at 1, M_bind at 1, bind at 1.
  rewrite load_valid by done.
  change (slot st2 (seg addr, offset addr)) with (element_at st2 addr).
  rewrite He2, Harc. cbn [Z.eqb negb].
  unfold mbind at 1, M_bind at 1, bind at 1.
  unfold mret at 1, M_ret at 1, ret at 1.
  unfold mbind at 1, M_bind at 1, bind at 1.
  rewrite load_valid by done.
  change (slot st2 (seg addr, offset addr)) with (element_at st2 addr).
  rewrite He2, Hout.
  unfold mbind at 1, M_bind at 1, bind at 1.
  rewrite free_walk_empty.
  unfold mbind at 1, M_bind at 1, bind at 1.
  rewrite load_valid by done.
  change (slot st2 (seg addr, offset addr)) with (element_at st2 addr).
  rewrite He2, Hin, free_walk_empty.
  reflexivity.
Qed.

(** The second loop on an entry that is no arc. *)
Lemma free_erase_one_plain lt addr st :
  is_Some (segments st !! seg addr) ->
  Z.land (flags_type (element_at st addr)) sc_type_arc_mask = 0 ->
  exists st',
    free_erase_one ctx lt (addr, (seg addr, offset addr)) st = Done addr st'
    /\ same_segments (updated addr (set_flags_type 0) st) st'.
Proof.
  intros Hs Harc. unfold free_erase_one. cbn [fst snd].
  unfold mbind at 1, M_bind at 1, bind at 1.
  rewrite load_valid by done.
  change (slot st (seg addr, offset addr)) with (element_at st addr).
  rewrite Harc. cbn [Z.eqb negb].
  unfold mbind at 1, M_bind at 1, bind at 1.
  unfold mret at 1, M_ret at 1, ret at 1.
  unfold mbind at 1, M_bind at 1, bind at 1.
  unfold sc_segment_erase_element.
  unfold mbind at 1, M_bind at 1, bind at 1.
  rewrite store_valid by done.
  destruct (sc_segment_unlock_element (seg addr) (offset addr)
              (updated addr (set_flags_type 0) st)) as [[] st1| |] eqn:Hu.
  - apply keeps_segment_unlock_element in Hu.
    unfold mbind at 1, M_bind at 1, bind at 1.
    destruct (_sc_segment_cache_append ctx (seg addr) st1) as [[] st2| |] eqn:Hc;
      try discriminate.
    apply keeps_cache_append in Hc.
    exists st2. split; [done|]. by etrans.
  - exfalso. unfold sc_segment_unlock_element in Hu.
    destruct Hs as [s Hs]. unfold updated in Hu. rewrite Hs in Hu. simpl in Hu.
    by rewrite lookup_insert_eq in Hu.
  - exfalso. unfold sc_segment_unlock_element in Hu.
    by destruct (segments (updated _ _ _) !! seg addr).
Qed.

Lemma free_isolated fuel addr st :
  (forall t, g_hash_table_iter_order t ≡ₚ t) ->
  addr_valid st addr ->
  flags_type (element_at st addr) <> 0 ->
  Z.land (flags_type (element_at st addr)) sc_type_arc_mask = 0 ->
  first_out_arc (element_at st addr) = addr_empty ->
  first_in_arc (element_at st addr) = addr_empty ->
  exists st',
    sc_storage_element_free ctx (S (S fuel)) addr st = Done SC_RESULT_OK st'
    /\ element_at st' addr = set_flags_type 0 (element_at st addr)
    /\ (forall a, a <> addr -> element_at st' a = element_at st a)
    /\ event_log st'
       = event_log st ++ [ElementDeleted addr;
                          Emitted addr SC_EVENT_REMOVE_ELEMENT addr].
Proof.
  intros Hord Hv Ht Harc Hout Hin.
  unfold sc_storage_element_free.
  unfold mbind at 1, M_bind at 1, bind at 1.
  rewrite free_collect_all_isolated by done.
  cbn [lock_table remove_table].
  set (p := (seg addr, offset addr)).
  assert (Hone : g_hash_table_iter_order [(addr, p)] = [(addr, p)]).
  { apply Permutation_singleton_r, Hord. }
  rewrite Hone.
  set (st2 := with_event_log _ (locked addr st)).
  assert (Hl2 : is_Some (segments st2 !! seg addr)).
  { apply addr_valid_loaded. by apply addr_valid_locked. }
  assert (He2 : forall a, element_at st2 a = element_at st a).
  { intros a. unfold st2. by rewrite element_at_with_event_log, element_at_locked. }
  destruct (free_erase_one_plain [(addr, p)] addr st2 Hl2) as (st3 & Her & Hs3).
  { by rewrite He2. }
  unfold free_finish. cbn [free_erase_all].
  unfold mbind at 1, M_bind at 1, bind at 1.
  unfold mbind at 1, M_bind at 1, bind at 1.
  fold p in Her. rewrite Her.
  unfold mret at 1, M_ret at 1, ret at 1.
  cbn [free_unlock_all fst].
  destruct (element_unlock_total addr st3) as (r & st4 & Hu).
  unfold mbind at 1, M_bind at 1, bind at 1.
  unfold mbind at 1, M_bind at 1, bind at 1.
  rewrite Hu.
  unfold mret at 1, M_ret at 1, ret at 1.
  unfold mbind at 1, M_bind at 1, bind at 1.
  unfold sc_event_emit at 1.
  eexists. split; [reflexivity|].
  apply keeps_element_unlock in Hu.
  assert (Hs : same_segments (updated addr (set_flags_type 0) st2) st4)
    by by etrans.
  split; [|split].
  - rewrite element_at_with_event_log, (same_segments_element_at _ _ _ Hs).
    rewrite element_at_updated_same by done. by rewrite He2.
  - intros a Ha.
    rewrite element_at_with_event_log, (same_segments_element_at _ _ _ Hs).
    rewrite element_at_updated_ne by done. apply He2.
  - cbn [event_log with_event_log].
    rewrite (same_segments_events _ _ Hs), event_log_updated.
    unfold st2. cbn [event_log with_event_log].
    by rewrite <- app_assoc.
Qed.

End Isolated.

(** ** The invariants of the storage *)

Section Invariants.
Context `{sc_defines}.
Variable ctx : sc_memory_context.
Hypothesis Hctx : 0 <= ctx_id ctx.
Hypothesis Hsize : 0 < SC_SEGMENT_CACHE_SIZE.

#[global] Instance steady_preorder : PreOrder steady.
Proof.
  split.
  - intros st. split; [done|]. split; [done|]. split; [lia | done].
  - intros st1 st2 st3 (Hw12 & Hc12 & Hn12 & Hl12) (Hw23 & Hc23 & Hn23 & Hl23).
    split; [auto|]. split; [auto|]. split; [lia | auto].
Qed.

(** A step that leaves the cache alone and unloads no segment. *)
Lemma steady_quiet st st' :
  (storage_wf st -> storage_wf st') ->
  segs_grow st st' ->
  segments_num st' = segments_num st ->
  segments_cache st' = segments_cache st ->
  segments_cache_count st' = segments_cache_count st ->
  steady st st'.
Proof.
  intros Hwf Hg Hn Hc Hcc.
  assert (Hl : forall k, is_Some (segments st !! k) -> is_Some (segments st' !! k)).
  { intros k [s Hs]. destruct (Hg _ _ Hs) as (s' & -> & _). eauto. }
  split; [done|]. split; [|split; [lia | done]].
  intros [Hcount Hall]. split; [by rewrite Hcc, Hc|].
  rewrite Hc. intros i sg Hi. destruct (Hall i sg Hi) as [? ?]. auto.
Qed.

Lemma steady_same_segments st st' :
  same_segments st st' ->
  segments_cache st' = segments_cache st ->
  segments_cache_count st' = segments_cache_count st ->
  steady st st'.
Proof.
  intros Hs Hc Hcc. apply steady_quiet; try done.
  - by apply same_segments_wf.
  - by apply same_segments_grow.
  - by destruct Hs as [[-> _] _].
Qed.

Lemma steady_locked a st : steady st (locked a st).
Proof.
  apply steady_same_segments; [apply locked_same_segments| |];
    unfold locked; by destruct (segments st !! seg a).
Qed.

Lemma steady_unlocked a st : steady st (unlocked a st).
Proof.
  apply steady_same_segments; [apply unlocked_same_segments| |];
    unfold unlocked; by destruct (segments st !! seg a).
Qed.

Lemma steady_updated a f st : steady st (updated a f st).
Proof.
  apply steady_quiet; [apply updated_wf | apply updated_segs_grow | ..];
    unfold updated; by destruct (segments st !! seg a).
Qed.

Lemma steady_with_event_log l st : steady st (with_event_log l st).
Proof. apply steady_quiet; try done. intros k s Hs. eauto. Qed.

Lemma keeps_steady_segment_lock k off :
  keeps steady (sc_segment_lock_element k off).
Proof.
  intros st a st' Hrun. unfold sc_segment_lock_element in Hrun.
  destruct (segments st !! k) as [s|] eqn:Hk; simplify_eq.
  pose proof (steady_locked (mk_addr k off) st) as Hst.
  unfold locked in Hst. simpl in Hst. by rewrite Hk in Hst.
Qed.

Lemma keeps_steady_segment_unlock k off :
  keeps steady (sc_segment_unlock_element k off).
Proof.
  intros st a st' Hrun. unfold sc_segment_unlock_element in Hrun.
  destruct (segments st !! k) as [s|] eqn:Hk; simplify_eq.
  pose proof (steady_unlocked (mk_addr k off) st) as Hst.
  unfold unlocked in Hst. simpl in Hst. by rewrite Hk in Hst.
Qed.

Lemma keeps_steady_store p f : keeps steady (store p f).
Proof.
  intros st u st' Hrun. destruct p as [k off].
  change (k, off) with (seg (mk_addr k off), offset (mk_addr k off)) in Hrun.
  apply store_Done in Hrun as [-> _]. apply steady_updated.
Qed.

Lemma keeps_steady_emit el t arg : keeps steady (sc_event_emit el t arg).
Proof.
  intros st u st' Hrun. inversion Hrun; subst. apply steady_with_event_log.
Qed.

Lemma keeps_steady_notify el :
  keeps steady (sc_event_notify_element_deleted el).
Proof.
  intros st u st' Hrun. inversion Hrun; subst. apply steady_with_event_log.
Qed.

(** Discharges [keeps steady m] for code made of the steps above. *)
Ltac keeps_steady :=
  repeat first
    [ keeps_step
    | apply keeps_load; typeclasses eauto
    | apply keeps_steady_segment_lock
    | apply keeps_steady_segment_unlock
    | apply keeps_steady_store
    | apply keeps_steady_emit
    | apply keeps_steady_notify ].

Lemma keeps_steady_element_lock a : keeps steady (sc_storage_element_lock a).
Proof. unfold sc_storage_element_lock. keeps_steady. Qed.

Lemma keeps_steady_element_lock_try a n :
  keeps steady (sc_storage_element_lock_try a n).
Proof.
  unfold sc_storage_element_lock_try, sc_segment_lock_element_try.
  keeps_steady.
Qed.

Lemma keeps_steady_element_unlock a :
  keeps steady (sc_storage_element_unlock a).
Proof. unfold sc_storage_element_unlock. keeps_steady. Qed.

(** *** The cache *)

Lemma cache_slot_range i :
  0 <= i ->
  0 <= Z.rem (CONCURRENCY_TO_CACHE_IDX (ctx_id ctx) + i) SC_SEGMENT_CACHE_SIZE
    < SC_SEGMENT_CACHE_SIZE.
Proof.
  intros Hi. apply Z.rem_bound_pos; [|done].
  unfold CONCURRENCY_TO_CACHE_IDX.
  pose proof (Z.rem_bound_pos (ctx_id ctx) SC_SEGMENT_CACHE_SIZE Hctx Hsize).
  lia.
Qed.

Lemma steady_with_cache c n st :
  (cache_ok st -> cache_ok (with_cache c n st)) ->
  steady st (with_cache c n st).
Proof.
  intros Hc. split; [done|]. split; [done|]. split; [simpl; lia | done].
Qed.

Lemma steady_cache_append_from n i sg st :
  0 <= i -> is_Some (segments st !! sg) ->
  steady st (cache_append_from n i (CONCURRENCY_TO_CACHE_IDX (ctx_id ctx)) sg st).
Proof.
  intros Hi Hsg. revert i Hi. induction n as [|n IH]; intros i Hi; simpl;
    [reflexivity|].
  destruct (segments_cache st !! _) eqn:Hslot; [apply IH; lia|].
  apply steady_with_cache. intros [Hcount Hall]. split; simpl.
  - rewrite map_size_insert_None by done. lia.
  - apply map_Forall_insert_2; [|done].
    split; [by apply cache_slot_range | done].
Qed.

Lemma steady_cache_remove_from n i sg st :
  steady st (cache_remove_from n i (CONCURRENCY_TO_CACHE_IDX (ctx_id ctx)) sg st).
Proof.
  revert i. induction n as [|n IH]; intros i; simpl; [reflexivity|].
  case_bool_decide as Hslot; [|apply IH].
  apply steady_with_cache. intros [Hcount Hall]. split; simpl.
  - rewrite map_size_delete_Some by eauto.
    assert (size (segments_cache st) <> 0%nat).
    { intros Hz. apply map_size_empty_inv in Hz. by rewrite Hz in Hslot. }
    lia.
  - by apply map_Forall_delete.
Qed.

Lemma keeps_steady_cache_remove sg :
  keeps steady (_sc_segment_cache_remove ctx sg).
Proof.
  intros st a st' Hrun. inversion Hrun; subst. apply steady_cache_remove_from.
Qed.

Lemma cache_append_Done sg st u st' :
  _sc_segment_cache_append ctx sg st = Done u st' ->
  is_Some (segments st !! sg) -> steady st st'.
Proof.
  intros Hrun Hsg. inversion Hrun; subst. by apply steady_cache_append_from.
Qed.

Lemma keeps_steady_cache_update_from n i :
  keeps steady (cache_update_from ctx n i).
Proof.
  revert i. induction n as [|n IH]; intros i st u st' Hrun; simpl in Hrun.
  { apply ret_Done in Hrun as [_ <-]. reflexivity. }
  apply bind_Done in Hrun as (st0 & st0' & Hget & Hrun).
  inversion Hget; subst st0 st0'; clear Hget.
  destruct (segments_num st <=? i).
  { apply ret_Done in Hrun as [_ <-]. reflexivity. }
  apply bind_Done in Hrun as ([] & st1 & Happ & Hrun).
  assert (H1 : steady st st1).
  { destruct (segments st !! i) as [s|] eqn:Hs.
    - destruct (sc_segment_has_empty_slot s).
      + eapply cache_append_Done; eauto.
      + apply ret_Done in Happ as [_ <-]. reflexivity.
    - apply ret_Done in Happ as [_ <-]. reflexivity. }
  apply bind_Done in Hrun as (st1' & st1'' & Hget & Hrun).
  inversion Hget; subst st1' st1''; clear Hget.
  destruct (segments_cache_count st1 =? SC_SEGMENT_CACHE_SIZE).
  - by apply ret_Done in Hrun as [_ <-].
  - etrans; [exact H1|]. by eapply IH.
Qed.

Lemma keeps_steady_cache_update : keeps steady (_sc_segment_cache_update ctx).
Proof.
  intros st u st' Hrun. unfold _sc_segment_cache_update in Hrun.
  apply bind_Done in Hrun as (st0 & st0' & Hget & Hrun).
  inversion Hget; subst st0 st0'; clear Hget.
  by eapply keeps_steady_cache_update_from.
Qed.

Lemma steady_segment_added st :
  0 <= segments_num st < SC_ADDR_SEG_MAX ->
  steady st
    (with_segments
       (<[segments_num st := sc_segment_new (segments_num st)]> (segments st))
       (with_segments_num (segments_num st + 1) st)).
Proof.
  intros Hn.
  assert (Hl : forall k, is_Some (segments st !! k) ->
                 is_Some ((<[segments_num st := sc_segment_new (segments_num st)]>
                             (segments st)) !! k)).
  { intros k Hk. apply lookup_insert_is_Some'. by right. }
  split; [|split; [|split; [simpl; lia | exact Hl]]].
  - intros Hwf. by apply (segment_added_grows st Hn Hwf).
  - intros [Hcount Hall]. split; [done|]. simpl.
    intros i sg Hi. destruct (Hall i sg Hi) as [? ?]. auto.
Qed.

Lemma cache_scan_from_Some n i idx c sg :
  cache_scan_from n i idx c = Some sg -> exists j, c !! j = Some sg.
Proof.
  revert i. induction n as [|n IH]; intros i; simpl; [discriminate|].
  destruct (c !! _) as [sg'|] eqn:Hslot.
  - intros [= ->]. eauto.
  - apply IH.
Qed.

(** What [_sc_segment_cache_get] hands out is a segment that is loaded. *)
Lemma cache_get_Done st sg st' :
  cache_ok st ->
  _sc_segment_cache_get ctx st = Done sg st' ->
  steady st st' /\ is_Some (segments st' !! sg).
Proof.
  intros Hok Hrun. unfold _sc_segment_cache_get in Hrun.
  apply bind_Done in Hrun as (st0 & st0' & Hget & Hrun).
  inversion Hget; subst st0 st0'; clear Hget.
  destruct (if 0 <? segments_cache_count st then _ else None) as [sg0|] eqn:Hscan.
  { apply ret_Done in Hrun as [<- <-]. split; [reflexivity|].
    destruct (0 <? segments_cache_count st); [|discriminate].
    apply cache_scan_from_Some in Hscan as [j Hj].
    destruct Hok as [_ Hall]. by destruct (Hall _ _ Hj). }
  apply bind_Done in Hrun as ([] & st1 & Hupd & Hrun).
  apply keeps_steady_cache_update in Hupd.
  apply bind_Done in Hrun as (st1' & st1'' & Hget & Hrun).
  inversion Hget; subst st1' st1''; clear Hget.
  apply bind_Done in Hrun as ([] & st2 & Hput & Hrun).
  inversion Hput; subst st2; clear Hput.
  destruct ((segments_num st1 <? 0) || (SC_ADDR_SEG_MAX <=? segments_num st1))
    eqn:Hrange; [discriminate|].
  apply orb_false_iff in Hrange as [Hlo Hhi].
  apply bind_Done in Hrun as (st2' & st2'' & Hget & Hrun).
  inversion Hget; subst st2' st2''; clear Hget.
  apply bind_Done in Hrun as ([] & st3 & Hput & Hrun).
  inversion Hput; subst st3; clear Hput.
  apply bind_Done in Hrun as ([] & st4 & Happ & Hrun).
  apply ret_Done in Hrun as [<- <-].
  assert (Hnew : is_Some
            (segments
               (with_segments
                  (<[segments_num st1 := sc_segment_new (segments_num st1)]>
                     (segments (with_segments_num (segments_num st1 + 1) st1)))
                  (with_segments_num (segments_num st1 + 1) st1))
             !! segments_num st1)).
  { simpl. rewrite lookup_insert_eq. eauto. }
  assert (Hadd := steady_segment_added st1 ltac:(lia)).
  apply cache_append_Done in Happ; [|exact Hnew].
  split.
  - etrans; [exact Hupd|]. etrans; [exact Hadd | exact Happ].
  - by apply Happ.
Qed.

Lemma keeps_steady_lock_empty_element sg :
  keeps steady (sc_segment_lock_empty_element sg).
Proof.
  intros st r st' Hrun. unfold sc_segment_lock_empty_element in Hrun.
  destruct (segments st !! sg) as [s|] eqn:Hs; [|discriminate].
  destruct (sc_segment_empty_slot_hint s) as [off|];
    [|injection Hrun as <- <-; reflexivity].
  destruct (_ && _); [|injection Hrun as <- <-; reflexivity].
  destruct (sc_segment_lock_element sg off st) as [r' st1| |] eqn:Hl;
    try discriminate.
  injection Hrun as <- <-. by eapply keeps_steady_segment_lock.
Qed.

(** *** Allocation *)

Lemma append_el_loop_steady fuel el st r st' :
  cache_ok st ->
  append_el_loop ctx fuel el st = Done r st' -> steady st st'.
Proof.
  revert st. induction fuel as [|fuel IH]; intros st Hok Hrun; [discriminate|].
  simpl in Hrun.
  apply bind_Done in Hrun as (sg & st1 & Hget & Hrun).
  apply cache_get_Done in Hget as [H1 Hsg]; [|done].
  apply bind_Done in Hrun as (o & st2 & Hlock & Hrun).
  apply keeps_steady_lock_empty_element in Hlock.
  assert (H2 : steady st st2) by by etrans.
  destruct o as [off|].
  - apply bind_Done in Hrun as (s2' & st2' & Hread & Hrun).
    destruct (segments st2 !! sg) as [s2|] eqn:Hs2; [|discriminate].
    injection Hread as <- <-.
    apply bind_Done in Hrun as ([] & st3 & Hstore & Hrun).
    apply keeps_steady_store in Hstore.
    apply ret_Done in Hrun as [_ <-]. by etrans.
  - apply bind_Done in Hrun as ([] & st3 & Hrem & Hrun).
    apply keeps_steady_cache_remove in Hrem.
    assert (H3 : steady st st3) by by etrans.
    etrans; [exact H3|]. eapply IH; [|exact Hrun]. by apply H3.
Qed.

#[global] Instance settled_preorder : PreOrder settled.
Proof.
  split.
  - intros st _. reflexivity.
  - intros st1 st2 st3 H12 H23 Hok. etrans; [by apply H12|].
    apply H23. by apply (H12 Hok).
Qed.

Lemma steady_settled st st' : steady st st' -> settled st st'.
Proof. by intros Hs _. Qed.

Lemma keeps_settled_append_el_into_segments fuel el :
  keeps settled (sc_storage_append_el_into_segments ctx fuel el).
Proof.
  intros st r st' Hrun Hok. unfold sc_storage_append_el_into_segments in Hrun.
  apply bind_Done in Hrun as (st0 & st0' & Hget & Hrun).
  inversion Hget; subst st0 st0'; clear Hget.
  destruct (sc_config_get_max_loaded_segments <=? segments_num st).
  - apply ret_Done in Hrun as [_ <-]. reflexivity.
  - by eapply append_el_loop_steady.
Qed.

(** The end of the body of the second loop of the deletion: the segment of
    the erased slot goes back to the cache. *)
Lemma keeps_steady_erase_slot a :
  keeps steady (_ ← sc_segment_erase_element (seg a) (offset a);
                _sc_segment_cache_append ctx (seg a)).
Proof.
  intros st u st' Hrun.
  apply bind_Done in Hrun as ([] & st2 & Her & Hc).
  unfold sc_segment_erase_element in Her.
  apply bind_Done in Her as ([] & st1 & Hst & Her).
  apply store_Done in Hst as [-> Hs].
  apply keeps_steady_segment_unlock in Her.
  assert (H2 : steady st st2) by (etrans; [apply steady_updated | exact Her]).
  apply cache_append_Done in Hc; [|by apply H2].
  by etrans.
Qed.

End Invariants.

(** ** What every call keeps

    A relation that the steps of the storage keep is kept by every call. *)

Section EveryCall.
Context `{sc_defines}.
Variable ctx : sc_memory_context.
Variable R : relation sc_storage.
Context `{!PreOrder R}.
Hypothesis R_lock : forall k off, keeps R (sc_segment_lock_element k off).
Hypothesis R_unlock : forall k off, keeps R (sc_segment_unlock_element k off).
Hypothesis R_store : forall p f, keeps R (store p f).
Hypothesis R_emit : forall el t arg, keeps R (sc_event_emit el t arg).
Hypothesis R_notify : forall el, keeps R (sc_event_notify_element_deleted el).
Hypothesis R_append :
  forall fuel el, keeps R (sc_storage_append_el_into_segments ctx fuel el).
Hypothesis R_erase :
  forall a, keeps R (_ ← sc_segment_erase_element (seg a) (offset a);
                     _sc_segment_cache_append ctx (seg a)).

(** Splits [keeps R m] down to the steps. *)
Ltac kept :=
  repeat first
    [ keeps_step
    | apply keeps_load; typeclasses eauto
    | apply R_lock | apply R_unlock | apply R_store | apply R_emit
    | apply R_notify | apply R_append ].

Lemma kept_element_lock a : keeps R (sc_storage_element_lock a).
Proof. unfold sc_storage_element_lock. kept. Qed.

Lemma kept_element_lock_try a n : keeps R (sc_storage_element_lock_try a n).
Proof.
  unfold sc_storage_element_lock_try, sc_segment_lock_element_try. kept.
Qed.

Lemma kept_element_unlock a : keeps R (sc_storage_element_unlock a).
Proof. unfold sc_storage_element_unlock. kept. Qed.

(** The same with the three functions above as steps. *)
Ltac kept_calls :=
  repeat first
    [ apply kept_element_lock | apply kept_element_lock_try
    | apply kept_element_unlock | progress kept ].

Lemma kept_is_element addr : keeps R (sc_storage_is_element addr).
Proof. unfold sc_storage_is_element. kept_calls. Qed.

Lemma kept_get_element_type addr : keeps R (sc_storage_get_element_type addr).
Proof. unfold sc_storage_get_element_type. kept_calls. Qed.

Lemma kept_change_element_subtype addr type :
  keeps R (sc_storage_change_element_subtype addr type).
Proof. unfold sc_storage_change_element_subtype. kept_calls. Qed.

Lemma kept_get_arc_begin addr : keeps R (sc_storage_get_arc_begin addr).
Proof. unfold sc_storage_get_arc_begin. kept_calls. Qed.

Lemma kept_get_arc_end addr : keeps R (sc_storage_get_arc_end addr).
Proof. unfold sc_storage_get_arc_end. kept_calls. Qed.

Lemma kept_node_new fuel type : keeps R (sc_storage_node_new ctx fuel type).
Proof.
  unfold sc_storage_node_new.
  repeat first [apply R_append | progress kept_calls].
Qed.

Lemma kept_link_new fuel : keeps R (sc_storage_link_new ctx fuel).
Proof.
  unfold sc_storage_link_new.
  repeat first [apply R_append | progress kept_calls].
Qed.

Lemma kept_element_new fuel type :
  keeps R (sc_storage_element_new ctx fuel type).
Proof.
  unfold sc_storage_element_new.
  repeat first [apply R_append | progress kept_calls].
Qed.

Lemma kept_arc_new_unlock beg end_ b e fo fi t fout fin addr :
  keeps R (arc_new_unlock beg end_ b e fo fi t fout fin addr).
Proof. unfold arc_new_unlock. kept_calls. Qed.

Lemma kept_arc_new_pass fuel el beg end_ :
  keeps R (arc_new_pass ctx fuel el beg end_).
Proof.
  unfold arc_new_pass.
  repeat first [apply R_append | apply kept_arc_new_unlock
               | progress kept_calls].
Qed.

Lemma kept_arc_new_loop n fuel el beg end_ :
  keeps R (arc_new_loop ctx n fuel el beg end_).
Proof.
  induction n as [|n IH]; simpl; [apply keeps_timeout|].
  repeat first [apply kept_arc_new_pass | apply IH | progress kept].
Qed.

Lemma kept_arc_new fuel type beg end_ :
  keeps R (sc_storage_arc_new ctx fuel type beg end_).
Proof.
  unfold sc_storage_arc_new.
  repeat first [apply kept_arc_new_loop | progress kept].
Qed.

Lemma kept_free_lock checked a : keeps R (free_lock checked a).
Proof. unfold free_lock. kept_calls. Qed.

Lemma kept_free_walk fuel next a tb : keeps R (free_walk fuel next a tb).
Proof.
  revert a tb. induction fuel as [|fuel IH]; intros a tb; simpl;
    [apply keeps_timeout|].
  repeat first [apply kept_free_lock | apply IH | progress kept].
Qed.

Lemma kept_free_lock_neighbour a tb : keeps R (free_lock_neighbour a tb).
Proof.
  unfold free_lock_neighbour.
  repeat first [apply kept_free_lock | progress kept].
Qed.

Lemma kept_free_lock_end a tb : keeps R (free_lock_end a tb).
Proof.
  unfold free_lock_end. repeat first [apply kept_free_lock | progress kept].
Qed.

Lemma kept_free_collect_arc a el tb : keeps R (free_collect_arc a el tb).
Proof.
  unfold free_collect_arc.
  repeat first [apply kept_free_lock_end | apply kept_free_lock_neighbour
               | progress kept].
Qed.

Lemma kept_free_collect_one fuel a tb : keeps R (free_collect_one fuel a tb).
Proof.
  unfold free_collect_one.
  repeat first [apply kept_free_lock | apply kept_free_collect_arc
               | apply kept_free_walk | progress kept].
Qed.

Lemma kept_free_collect n fuel tb : keeps R (free_collect n fuel tb).
Proof.
  revert tb. induction n as [|n IH]; intros tb; simpl; [apply keeps_timeout|].
  repeat first [apply kept_free_collect_one | apply IH | progress kept].
Qed.

Lemma kept_free_collect_all fuel addr : keeps R (free_collect_all fuel addr).
Proof.
  unfold free_collect_all.
  repeat first [apply kept_free_collect | progress kept_calls].
Qed.

Lemma kept_free_erase_end lt a : keeps R (free_erase_end lt a).
Proof.
  unfold free_erase_end. repeat first [apply kept_free_lock | progress kept].
Qed.

Lemma kept_free_erase_arc lt addr el : keeps R (free_erase_arc lt addr el).
Proof.
  unfold free_erase_arc.
  repeat first [apply kept_free_erase_end | progress kept_calls].
Qed.

Lemma kept_free_erase_one lt kv : keeps R (free_erase_one ctx lt kv).
Proof.
  intros st a st' Hrun. unfold free_erase_one in Hrun.
  apply bind_Done in Hrun as (e & st1 & Hload & Hrun).
  apply load_Done in Hload as (-> & _ & _).
  apply bind_Done in Hrun as ([] & st1 & Harc & Hrun).
  assert (H1 : R st st1).
  { destruct (negb _); [by eapply kept_free_erase_arc|].
    apply ret_Done in Harc as [_ <-]. reflexivity. }
  apply bind_Done in Hrun as ([] & st2 & Her & Hrun).
  apply bind_Done in Hrun as ([] & st3 & Hc & Hrun).
  apply ret_Done in Hrun as [_ <-].
  etrans; [exact H1|]. eapply (R_erase kv.1). apply bind_Done. eauto.
Qed.

Lemma kept_free_erase_all lt l addr : keeps R (free_erase_all ctx lt l addr).
Proof.
  revert addr. induction l as [|kv l IH]; intros addr; simpl.
  - apply keeps_ret. apply _.
  - apply keeps_bind; [apply _ | apply kept_free_erase_one|].
    intros a. apply IH.
Qed.

Lemma kept_free_unlock_all l addr : keeps R (free_unlock_all l addr).
Proof.
  revert addr. induction l as [|kv l IH]; intros addr; simpl.
  - apply keeps_ret. apply _.
  - apply keeps_bind; [apply _ | apply kept_element_unlock|].
    intros a. apply IH.
Qed.

Lemma kept_free_finish lt to_erase to_unlock addr :
  keeps R (free_finish ctx lt to_erase to_unlock addr).
Proof.
  unfold free_finish.
  repeat first [apply kept_free_erase_all | apply kept_free_unlock_all
               | progress kept].
Qed.

Lemma kept_element_free fuel addr :
  keeps R (sc_storage_element_free ctx fuel addr).
Proof.
  unfold sc_storage_element_free.
  repeat first [apply kept_free_collect_all | apply kept_free_finish
               | progress kept].
Qed.

Lemma kept_run fuel c : keeps R (run ctx fuel c).
Proof.
  destruct c; simpl;
    (apply keeps_bind; [apply _| |intros; apply keeps_ret; apply _]);
    first [ apply kept_node_new | apply kept_link_new | apply kept_element_new
          | apply kept_arc_new | apply kept_element_free
          | apply kept_is_element | apply kept_get_element_type
          | apply kept_change_element_subtype | apply kept_get_arc_begin
          | apply kept_get_arc_end ].
Qed.

End EveryCall.

(** ** The storage stays in order *)

Section InOrder.
Context `{sc_defines}.
Variable ctx : sc_memory_context.
Hypothesis Hctx : 0 <= ctx_id ctx.
Hypothesis Hsize : 0 < SC_SEGMENT_CACHE_SIZE.

Lemma keeps_settled_run fuel c : keeps settled (run ctx fuel c).
Proof.
  apply kept_run; try apply _; intros;
    first [ by apply keeps_settled_append_el_into_segments
          | eapply keeps_weaken; [apply steady_settled|] ].
  - apply keeps_steady_segment_lock.
  - apply keeps_steady_segment_unlock.
  - apply keeps_steady_store.
  - apply keeps_steady_emit.
  - apply keeps_steady_notify.
  - by apply keeps_steady_erase_slot.
Qed.

Lemma storage_empty_ok : storage_wf storage_empty /\ cache_ok storage_empty.
Proof.
  split.
  - apply map_Forall_empty.
  - split; [done|]. apply map_Forall_empty.
Qed.

Lemma reachable_ok st :
  reachable ctx st -> storage_wf st /\ cache_ok st.
Proof.
  induction 1 as [|st fuel c st' Hreach [Hwf Hok] Hrun].
  - apply storage_empty_ok.
  - destruct (keeps_settled_run fuel c st tt st' Hrun Hok)
      as (Hw & Hc & _). auto.
Qed.

End InOrder.

(** ** The locks a call holds *)

Section Locks.
Context `{sc_defines}.
Variable ctx : sc_memory_context.

#[global] Instance calm_preorder : PreOrder calm.
Proof.
  split.
  - intros st Hwf. done.
  - intros st1 st2 st3 H12 H23 Hwf.
    destruct (H12 Hwf) as (Hwf2 & Hv12 & Hl12).
    destruct (H23 Hwf2) as (Hwf3 & Hv23 & Hl23).
    split; [done|]. split; [auto|]. intros a. by rewrite Hl23.
Qed.

Lemma lock_count_locked_at st a b :
  is_Some (segments st !! seg a) ->
  lock_count (locked a st) b = (lock_count st b + acquired a b)%N.
Proof.
  intros [s Hs]. unfold acquired. destruct (decide (a = b)) as [<-|Hne].
  - apply lock_count_locked. eauto.
  - rewrite N.add_0_r. unfold lock_count, locked. rewrite Hs. simpl.
    destruct (decide (seg a = seg b)) as [He|Hns].
    + rewrite <- He, lookup_insert_eq, Hs. simpl.
      assert (Ho : offset a <> offset b).
      { intros Ho. apply Hne. destruct a, b; simpl in *; congruence. }
      unfold lock_acquire. destruct (locks s !! offset a);
        by rewrite lookup_insert_ne.
    + by rewrite lookup_insert_ne.
Qed.

Lemma lock_count_unlocked_at st a b :
  lock_count (unlocked a st) b = (lock_count st b - acquired a b)%N.
Proof.
  unfold acquired, lock_count, unlocked.
  destruct (segments st !! seg a) as [s|] eqn:Hs.
  - simpl. destruct (decide (a = b)) as [<-|Hne].
    + rewrite lookup_insert_eq, Hs. simpl. unfold lock_release.
      destruct (locks s !! offset a) as [n|] eqn:Hl.
      * destruct (decide (n = 1%positive)) as [->|Hn].
        -- by rewrite lookup_delete_eq.
        -- replace (match n with
                    | 1%positive => delete (offset a) (locks s)
                    | _ => <[offset a:=Pos.pred n]> (locks s)
                    end) with (<[offset a:=Pos.pred n]> (locks s))
             by by destruct n.
           rewrite lookup_insert_eq. lia.
      * by rewrite Hl.
    + rewrite N.sub_0_r. destruct (decide (seg a = seg b)) as [He|Hns].
      * rewrite <- He, lookup_insert_eq, Hs. simpl.
        assert (Ho : offset a <> offset b).
        { intros Ho. apply Hne. destruct a, b; simpl in *; congruence. }
        unfold lock_release. destruct (locks s !! offset a) as [n|]; [|done].
        destruct n; by rewrite ?lookup_insert_ne, ?lookup_delete_ne.
      * by rewrite lookup_insert_ne.
  - destruct (decide (a = b)) as [<-|Hne]; [by rewrite Hs|].
    by rewrite N.sub_0_r.
Qed.

Lemma held_start st : storage_wf st -> held (fun _ => 0%N) st st.
Proof.
  intros Hwf. split; [done|]. split; [lia|]. intros b. lia.
Qed.

Lemma held_calm h st0 st st' : held h st0 st -> calm st st' -> held h st0 st'.
Proof.
  intros (Hwf & Hv & Hl) Hc. destruct (Hc Hwf) as (Hwf' & Hv' & Hl').
  split; [done|]. split; [auto|]. intros b. by rewrite Hl'.
Qed.

Lemma held_locked h st0 st a :
  held h st0 st -> addr_valid st a ->
  held (fun b => (h b + acquired a b)%N) st0 (locked a st).
Proof.
  intros (Hwf & Hv & Hl) Ha. split; [|split].
  - eapply same_segments_wf; [apply locked_same_segments | done].
  - intros x Hx. apply addr_valid_locked. unfold acquired in Hx.
    destruct (decide (a = x)) as [<-|Hne]; [done|]. apply Hv. lia.
  - intros b. rewrite lock_count_locked_at by apply Ha. rewrite Hl. lia.
Qed.

Lemma held_unlocked h st0 st a :
  held h st0 st -> (0 < h a)%N ->
  held (fun b => (h b - acquired a b)%N) st0 (unlocked a st).
Proof.
  intros (Hwf & Hv & Hl) Ha. split; [|split].
  - eapply same_segments_wf; [apply unlocked_same_segments | done].
  - intros x Hx. apply addr_valid_unlocked. apply Hv. lia.
  - intros b. rewrite lock_count_unlocked_at, Hl. unfold acquired.
    destruct (decide (a = b)) as [<-|Hne]; lia.
Qed.

Lemma held_element_lock h st0 st a r el st' :
  held h st0 st ->
  sc_storage_element_lock a st = Done (r, el) st' ->
  (r = SC_RESULT_OK /\ el = Some (seg a, offset a) /\
   held (fun b => (h b + acquired a b)%N) st0 st')
  \/ (r = SC_RESULT_ERROR /\ el = None /\ st' = st).
Proof.
  intros Hh Hrun.
  apply element_lock_Done in Hrun as [(Hv & -> & -> & ->)|(Hv & -> & -> & ->)].
  - left. split; [done|]. split; [done|]. by apply held_locked.
  - by right.
Qed.

Lemma held_element_unlock h st0 st a r st' :
  held h st0 st -> (0 < h a)%N ->
  sc_storage_element_unlock a st = Done r st' ->
  r = SC_RESULT_OK /\ held (fun b => (h b - acquired a b)%N) st0 st'.
Proof.
  intros Hh Ha Hrun.
  assert (Hv : addr_valid st a) by by apply Hh.
  rewrite element_unlock_valid in Hrun by done. injection Hrun as <- <-.
  split; [done|]. by apply held_unlocked.
Qed.

(** *** Steps that take no lock *)

(** Only the cache, [segments_num] aside, differs. *)
Lemma calm_same_store st st' :
  segments st' = segments st -> segments_num st' = segments_num st ->
  calm st st'.
Proof.
  intros Hs Hn Hwf. split; [|split].
  - unfold storage_wf. rewrite Hs, Hn. exact Hwf.
  - intros a. unfold addr_valid. by rewrite Hs.
  - intros a. unfold lock_count. by rewrite Hs.
Qed.

Lemma calm_updated a f st : calm st (updated a f st).
Proof.
  intros Hwf. split; [by apply updated_wf|].
  split; [intros b; by apply addr_valid_updated|].
  intros b. unfold lock_count, updated.
  destruct (segments st !! seg a) as [s|] eqn:Hs; [|done]. simpl.
  destruct (decide (seg a = seg b)) as [He|Hne].
  - by rewrite <- He, lookup_insert_eq, Hs.
  - by rewrite lookup_insert_ne.
Qed.

Lemma keeps_calm_store p f : keeps calm (store p f).
Proof.
  intros st u st' Hrun. destruct p as [k off].
  change (k, off) with (seg (mk_addr k off), offset (mk_addr k off)) in Hrun.
  apply store_Done in Hrun as [-> _]. apply calm_updated.
Qed.

Lemma keeps_calm_emit el t arg : keeps calm (sc_event_emit el t arg).
Proof.
  intros st u st' Hrun. inversion Hrun; subst. by apply calm_same_store.
Qed.

Lemma cache_append_from_store n i idx sg st :
  segments (cache_append_from n i idx sg st) = segments st /\
  segments_num (cache_append_from n i idx sg st) = segments_num st.
Proof.
  revert i. induction n as [|n IH]; intros i; simpl; [done|].
  destruct (segments_cache st !! _); [apply IH | done].
Qed.

Lemma cache_remove_from_store n i idx sg st :
  segments (cache_remove_from n i idx sg st) = segments st /\
  segments_num (cache_remove_from n i idx sg st) = segments_num st.
Proof.
  revert i. induction n as [|n IH]; intros i; simpl; [done|].
  case_bool_decide; [done | apply IH].
Qed.

Lemma keeps_calm_cache_append sg : keeps calm (_sc_segment_cache_append ctx sg).
Proof.
  intros st a st' Hrun. inversion Hrun; subst.
  apply calm_same_store; apply cache_append_from_store.
Qed.

Lemma keeps_calm_cache_remove sg : keeps calm (_sc_segment_cache_remove ctx sg).
Proof.
  intros st a st' Hrun. inversion Hrun; subst.
  apply calm_same_store; apply cache_remove_from_store.
Qed.

Lemma keeps_calm_cache_update_from n i : keeps calm (cache_update_from ctx n i).
Proof.
  revert i. induction n as [|n IH]; intros i; simpl.
  - apply keeps_ret. apply _.
  - repeat first [keeps_step | apply keeps_calm_cache_append | apply IH].
Qed.

Lemma keeps_calm_cache_update : keeps calm (_sc_segment_cache_update ctx).
Proof.
  unfold _sc_segment_cache_update.
  repeat first [keeps_step | apply keeps_calm_cache_update_from].
Qed.

Lemma calm_segment_added st :
  0 <= segments_num st < SC_ADDR_SEG_MAX ->
  calm st
    (with_segments
       (<[segments_num st := sc_segment_new (segments_num st)]> (segments st))
       (with_segments_num (segments_num st + 1) st)).
Proof.
  intros Hn Hwf.
  assert (Hfresh : segments st !! segments_num st = None).
  { destruct (segments st !! segments_num st) as [s|] eqn:Hs; [|done].
    specialize (Hwf _ _ Hs). simpl in Hwf. lia. }
  destruct (segment_added_grows st Hn Hwf) as (Hwf' & Hg & _).
  split; [done|]. split; [intros a; by apply segs_grow_valid|].
  intros a. unfold lock_count. simpl.
  destruct (decide (segments_num st = seg a)) as [<-|Hne].
  - by rewrite lookup_insert_eq, Hfresh.
  - by rewrite lookup_insert_ne.
Qed.

Lemma keeps_calm_cache_get : keeps calm (_sc_segment_cache_get ctx).
Proof.
  intros st sg st' Hrun. unfold _sc_segment_cache_get in Hrun.
  apply bind_Done in Hrun as (st0 & st0' & Hget & Hrun).
  inversion Hget; subst st0 st0'; clear Hget.
  destruct (if 0 <? segments_cache_count st then _ else None) as [sg0|].
  { apply ret_Done in Hrun as [_ <-]. reflexivity. }
  apply bind_Done in Hrun as ([] & st1 & Hupd & Hrun).
  apply keeps_calm_cache_update in Hupd.
  apply bind_Done in Hrun as (st1' & st1'' & Hget & Hrun).
  inversion Hget; subst st1' st1''; clear Hget.
  apply bind_Done in Hrun as ([] & st2 & Hput & Hrun).
  inversion Hput; subst st2; clear Hput.
  destruct ((segments_num st1 <? 0) || (SC_ADDR_SEG_MAX <=? segments_num st1))
    eqn:Hrange; [discriminate|].
  apply orb_false_iff in Hrange as [Hlo Hhi].
  apply bind_Done in Hrun as (st2' & st2'' & Hget & Hrun).
  inversion Hget; subst st2' st2''; clear Hget.
  apply bind_Done in Hrun as ([] & st3 & Hput & Hrun).
  inversion Hput; subst st3; clear Hput.
  apply bind_Done in Hrun as ([] & st4 & Happ & Hrun).
  apply keeps_calm_cache_append in Happ.
  apply ret_Done in Hrun as [_ <-].
  etrans; [exact Hupd|]. etrans; [|exact Happ].
  apply calm_segment_added. lia.
Qed.

(** *** Allocation *)

Lemma lock_empty_element_locked sg off st st' :
  sc_segment_lock_empty_element sg st = Done (Some off) st' ->
  st' = locked (mk_addr sg off) st /\ is_Some (segments st !! sg).
Proof.
  unfold sc_segment_lock_empty_element. intros Hrun.
  destruct (segments st !! sg) as [s|] eqn:Hs; [|discriminate].
  destruct (sc_segment_empty_slot_hint s) as [off'|]; [|discriminate].
  destruct (_ && _); [|discriminate].
  unfold sc_segment_lock_element in Hrun. rewrite Hs in Hrun.
  injection Hrun as <- <-. split; [|eauto].
  unfold locked. simpl. by rewrite Hs.
Qed.

Lemma append_el_loop_held h st0 fuel el st r addr st' :
  held h st0 st ->
  append_el_loop ctx fuel el st = Done (r, addr) st' ->
  held (fun b => (h b + acquired addr b)%N) st0 st'.
Proof.
  revert st. induction fuel as [|fuel IH]; intros st Hh Hrun; [discriminate|].
  simpl in Hrun.
  apply bind_Done in Hrun as (sg & st1 & Hget & Hrun).
  apply keeps_calm_cache_get in Hget.
  assert (H1 : held h st0 st1) by by eapply held_calm.
  apply bind_Done in Hrun as ([off|] & st2 & Hlock & Hrun).
  - apply lock_empty_element_locked in Hlock as [-> Hsg].
    apply bind_Done in Hrun as (s2' & st2' & Hread & Hrun).
    destruct (segments (locked (mk_addr sg off) st1) !! sg) as [s2|] eqn:Hs2;
      [|discriminate].
    injection Hread as <- <-.
    apply bind_Done in Hrun as ([] & st3 & Hstore & Hrun).
    apply keeps_calm_store in Hstore.
    apply ret_Done in Hrun as [[= _ <-] <-].
    assert (Hv : addr_valid st1 (mk_addr sg off)).
    { destruct Hsg as [s1 Hs1]. split; [|simpl; eauto].
      destruct H1 as [Hwf1 _]. apply (Hwf1 _ _ Hs1). }
    assert (H2 := held_locked h st0 st1 (mk_addr sg off) H1 Hv).
    assert (Hnum : num s2 = sg).
    { destruct H2 as [Hwf2 _]. apply (Hwf2 _ _ Hs2). }
    rewrite Hnum. by eapply held_calm.
  - apply lock_empty_element_None in Hlock as ->.
    apply bind_Done in Hrun as ([] & st3 & Hrem & Hrun).
    apply keeps_calm_cache_remove in Hrem.
    eapply IH; [|exact Hrun]. by eapply held_calm.
Qed.

Lemma append_el_into_segments_held h st0 fuel el st r addr st' :
  held h st0 st ->
  sc_storage_append_el_into_segments ctx fuel el st = Done (r, addr) st' ->
  (r = None /\ st' = st)
  \/ (is_Some r /\ held (fun b => (h b + acquired addr b)%N) st0 st').
Proof.
  intros Hh Hrun. unfold sc_storage_append_el_into_segments in Hrun.
  apply bind_Done in Hrun as (st1 & st1' & Hget & Hrun).
  inversion Hget; subst st1 st1'; clear Hget.
  destruct (sc_config_get_max_loaded_segments <=? segments_num st).
  - apply ret_Done in Hrun as [[= <- <-] <-]. by left.
  - right. split; [|by eapply append_el_loop_held].
    destruct Hh as [Hwf _].
    apply append_el_loop_spec in Hrun as [-> _]; eauto.
Qed.

Lemma held_same h st st' :
  held h st st' -> (forall b, h b = 0%N) -> same_locks st st'.
Proof. intros (_ & _ & Hl) Hz a. rewrite Hl, Hz. lia. Qed.

(** Arithmetic on the counts of [acquired]. *)
Ltac tally :=
  intros; cbv beta; unfold acquired_if, acquired;
  repeat match goal with
         | |- context [decide (?a = ?b)] => destruct (decide (a = b)); try done
         end;
  try lia.

Lemma check_unlock_held h st0 st a u st' :
  held h st0 st -> (0 < h a)%N ->
  STORAGE_CHECK_CALL (sc_storage_element_unlock a) st = Done u st' ->
  held (fun b => (h b - acquired a b)%N) st0 st'.
Proof.
  intros Hh Ha Hrun. unfold STORAGE_CHECK_CALL in Hrun.
  apply bind_Done in Hrun as (r & st1 & Hu & Hrun).
  eapply held_element_unlock in Hu as [-> Hh1]; [|done..].
  by apply g_assert_Done in Hrun as [_ <-].
Qed.

(** The tail shared by [sc_storage_node_new] and [sc_storage_link_new]
    gives back the lock the allocation has taken. *)
Lemma create_tail_locks fuel el st addr st' :
  storage_wf st ->
  ('(locked_el, addr) ← sc_storage_append_el_into_segments ctx fuel el;
   match locked_el with
   | None => mret addr_empty
   | Some _ =>
       _ ← STORAGE_CHECK_CALL (sc_storage_element_unlock addr);
       mret addr
   end) st = Done addr st' ->
  same_locks st st'.
Proof.
  intros Hwf Hrun.
  apply bind_Done in Hrun as ([r addr0] & st1 & Happ & Hrun).
  eapply append_el_into_segments_held in Happ; [|by apply held_start].
  destruct Happ as [[-> ->]|[[p ->] Hh]].
  - by apply ret_Done in Hrun as [_ <-].
  - apply bind_Done in Hrun as ([] & st2 & Hu & Hrun).
    apply ret_Done in Hrun as [_ <-].
    eapply check_unlock_held in Hu; [|exact Hh|tally].
    eapply held_same; [exact Hu|]. tally.
Qed.

Lemma node_new_locks fuel type st addr st' :
  storage_wf st ->
  sc_storage_node_new ctx fuel type st = Done addr st' -> same_locks st st'.
Proof.
  intros Hwf Hrun. unfold sc_storage_node_new in Hrun.
  apply bind_Done in Hrun as ([] & st0 & Ha & Hrun).
  apply g_assert_Done in Ha as [_ ->]. by eapply create_tail_locks.
Qed.

Lemma link_new_locks fuel st addr st' :
  storage_wf st ->
  sc_storage_link_new ctx fuel st = Done addr st' -> same_locks st st'.
Proof. intros Hwf Hrun. by eapply create_tail_locks. Qed.

Lemma element_new_locks fuel type st addr st' :
  storage_wf st ->
  sc_storage_element_new ctx fuel type st = Done addr st' -> same_locks st st'.
Proof.
  intros Hwf Hrun. unfold sc_storage_element_new in Hrun.
  apply bind_Done in Hrun as ([res addr0] & st1 & Happ & Hrun).
  eapply append_el_into_segments_held in Happ; [|by apply held_start].
  apply bind_Done in Hrun as (r & st2 & Hu & Hrun).
  apply bind_Done in Hrun as ([] & st3 & Ha & Hrun).
  apply g_assert_Done in Ha as [Hres ->].
  apply ret_Done in Hrun as [_ <-].
  destruct Happ as [[-> ->]|[_ Hh]].
  { by apply bool_decide_eq_true_1 in Hres as [? [=]]. }
  eapply held_element_unlock in Hu as [_ Hh2]; [|exact Hh|tally].
  eapply held_same; [exact Hh2|]. tally.
Qed.

(** *** Arc creation *)

(** The optional lock of a list head in [sc_storage_arc_new]: it fails, it
    succeeds, or there is no head. *)
Lemma head_lock_held hh st0 h r n st r' f st' :
  held hh st0 st ->
  (if SC_ADDR_IS_NOT_EMPTY h then sc_storage_element_lock_try h n
   else mret (r, None)) st = Done (r', f) st' ->
  (SC_ADDR_IS_NOT_EMPTY h && negb (bool_decide (is_Some f)) = true /\
   f = None /\ st' = st)
  \/ (SC_ADDR_IS_NOT_EMPTY h && negb (bool_decide (is_Some f)) = false /\
      f = Some (seg h, offset h) /\
      held (fun b => (hh b + acquired h b)%N) st0 st')
  \/ (SC_ADDR_IS_NOT_EMPTY h && negb (bool_decide (is_Some f)) = false /\
      f = None /\ st' = st).
Proof.
  intros Hh. destruct (SC_ADDR_IS_NOT_EMPTY h).
  - intros Hrun. rewrite element_lock_try_eq in Hrun.
    eapply held_element_lock in Hrun as [(_ & -> & Hh')|(_ & -> & ->)];
      [right; left| left |exact Hh]; done.
  - intros [[= <- <-] <-]%ret_Done. right; right. done.
Qed.

(** The optional unlock of a list head under the label [unlock]. *)
Lemma head_unlock_held hh st0 (f : option sc_element_ptr) h st u st' :
  held hh st0 st -> (is_Some f -> (0 < hh h)%N) ->
  (if f is Some _ then _ ← sc_storage_element_unlock h; mret tt
   else mret tt) st = Done u st' ->
  held (fun b => (hh b - acquired_if f h b)%N) st0 st'.
Proof.
  intros Hh Hpos Hrun. destruct f as [p|].
  - apply bind_Done in Hrun as (r & st1 & Hu & Hrun).
    apply ret_Done in Hrun as [_ <-].
    eapply held_element_unlock in Hu as [_ Hh1]; [done|done|eauto].
  - apply ret_Done in Hrun as [_ <-].
    destruct Hh as (Hwf & Hv & Hl). split; [done|]. split.
    + intros x Hx. apply Hv. lia.
    + intros b. rewrite Hl. simpl. lia.
Qed.

(** The block under the label [unlock], entered with both ends locked:
    every lock that is held is given back once. *)
Lemma arc_new_unlock_held hh st0 st beg end_ bp ep fo fi tp
    first_out first_in addr u st' :
  held hh st0 st ->
  arc_new_unlock beg end_ (Some bp) (Some ep) fo fi tp first_out first_in addr st
  = Done u st' ->
  (is_Some fo -> 0 < hh first_out)%N ->
  (0 < hh beg - acquired_if fo first_out beg)%N ->
  (is_Some fi ->
   0 < hh first_in - acquired_if fo first_out first_in
       - acquired beg first_in)%N ->
  (0 < hh end_ - acquired_if fo first_out end_ - acquired beg end_
       - acquired_if fi first_in end_)%N ->
  (is_Some tp ->
   0 < hh addr - acquired_if fo first_out addr - acquired beg addr
       - acquired_if fi first_in addr - acquired end_ addr)%N ->
  held (fun b => (hh b - acquired_if fo first_out b - acquired beg b
                  - acquired_if fi first_in b - acquired end_ b
                  - acquired_if tp addr b)%N) st0 st'.
Proof.
  intros Hh Hrun P1 P2 P3 P4 P5. unfold arc_new_unlock in Hrun.
  apply bind_Done in Hrun as ([] & st1 & Hb & Hrun).
  apply bind_Done in Hb as ([] & st2 & Hfo & Hb).
  eapply head_unlock_held in Hfo; [|exact Hh|exact P1].
  apply bind_Done in Hb as (r1 & st3 & Hub & Hb).
  apply ret_Done in Hb as [_ <-].
  eapply held_element_unlock in Hub as [_ Hh2]; [|exact Hfo|exact P2].
  apply bind_Done in Hrun as ([] & st4 & He & Hrun).
  apply bind_Done in He as ([] & st5 & Hfi & He).
  eapply head_unlock_held in Hfi; [|exact Hh2|exact P3].
  apply bind_Done in He as (r2 & st6 & Hue & He).
  apply ret_Done in He as [_ <-].
  eapply held_element_unlock in Hue as [_ Hh4]; [|exact Hfi|exact P4].
  eapply head_unlock_held in Hrun; [|exact Hh4|exact P5].
  exact Hrun.
Qed.

(** One step of a run that takes no lock. *)
Ltac calm_step Hrun Hh :=
  let x := fresh "x" in
  let st := fresh "st" in
  let Hs := fresh "Hs" in
  apply bind_Done in Hrun as (x & st & Hs & Hrun);
  first
    [ apply g_assert_Done in Hs as [_ ->]
    | apply load_Done in Hs as (-> & _ & _)
    | apply ret_Done in Hs as [_ <-]
    | first [apply keeps_calm_store in Hs | apply keeps_calm_emit in Hs];
      eapply held_calm in Hh; [|exact Hs]; clear Hs ].

(** Leaves [sc_storage_arc_new] through the label [unlock]. *)
Ltac leave_by_unlock Hrun Hh :=
  let x := fresh "x" in
  let st := fresh "st" in
  let Hu := fresh "Hu" in
  apply bind_Done in Hrun as (x & st & Hu & Hrun);
  apply ret_Done in Hrun as [_ <-];
  eapply arc_new_unlock_held in Hu; [|exact Hh|tally..];
  eapply held_same; [exact Hu|]; tally.

(** The part of a pass of [sc_storage_arc_new] that follows the locks of
    the ends and the heads. *)
Ltac allocate_and_link Hrun Hh :=
  let tmp := fresh "tmp_el" in
  let addr0 := fresh "addr0" in
  let st := fresh "st" in
  let Happ := fresh "Happ" in
  let p := fresh "p" in
  apply bind_Done in Hrun as ([tmp addr0] & st & Happ & Hrun);
  eapply append_el_into_segments_held in Happ; [|exact Hh];
  destruct Happ as [[-> ->]|[[p ->] Happ]]; [discriminate|];
  clear Hh; rename Happ into Hh;
  do 13 calm_step Hrun Hh;
  leave_by_unlock Hrun Hh.

Lemma arc_new_pass_locks fuel el beg end_ st r addr st' :
  storage_wf st ->
  arc_new_pass ctx fuel el beg end_ st = Done (r, addr) st' ->
  same_locks st st'.
Proof.
  intros Hwf Hrun.
  destruct (decide (addr_valid st beg)) as [Hvb|Hvb];
    [|rewrite arc_new_pass_invalid in Hrun by auto; by injection Hrun as _ _ <-].
  destruct (decide (addr_valid st end_)) as [Hve|Hve];
    [|rewrite arc_new_pass_invalid in Hrun by auto; by injection Hrun as _ _ <-].
  unfold arc_new_pass in Hrun.
  assert (Hh := held_start st Hwf).
  apply bind_Done in Hrun as ([r1 beg_el] & st1 & Hl1 & Hrun).
  rewrite element_lock_try_eq in Hl1.
  rewrite element_lock_valid in Hl1 by done. injection Hl1 as <- <- <-.
  apply (held_locked _ _ _ beg) in Hh; [|done].
  apply bind_Done in Hrun as ([r2 end_el] & st2 & Hl2 & Hrun).
  rewrite element_lock_try_eq in Hl2.
  rewrite element_lock_valid in Hl2 by (by apply addr_valid_locked).
  injection Hl2 as <- <- <-.
  apply (held_locked _ _ _ end_) in Hh; [|by apply addr_valid_locked].
  apply bind_Done in Hrun as (b & st3 & Hb & Hrun).
  apply load_Done in Hb as (-> & _ & _).
  set (h_out := first_out_arc b) in *. clearbody h_out. clear b.
  apply bind_Done in Hrun as ([r3 f_out] & st3 & Hl3 & Hrun).
  eapply head_lock_held in Hl3
    as [(Hc3 & -> & ->)|[(Hc3 & -> & Hh3)|(Hc3 & -> & ->)]]; [| | |exact Hh];
    rewrite Hc3 in Hrun.
  { leave_by_unlock Hrun Hh. }
  all: apply bind_Done in Hrun as (e & st4 & He & Hrun);
    apply load_Done in He as (-> & _ & _);
    set (h_in := first_in_arc e) in *; clearbody h_in; clear e;
    apply bind_Done in Hrun as ([r4 f_in] & st4 & Hl4 & Hrun).
  - clear Hh. rename Hh3 into Hh.
    eapply head_lock_held in Hl4
      as [(Hc4 & -> & ->)|[(Hc4 & -> & Hh4)|(Hc4 & -> & ->)]]; [| | |exact Hh];
      rewrite Hc4 in Hrun.
    + leave_by_unlock Hrun Hh.
    + clear Hh. rename Hh4 into Hh. allocate_and_link Hrun Hh.
    + allocate_and_link Hrun Hh.
  - eapply head_lock_held in Hl4
      as [(Hc4 & -> & ->)|[(Hc4 & -> & Hh4)|(Hc4 & -> & ->)]]; [| | |exact Hh];
      rewrite Hc4 in Hrun.
    + leave_by_unlock Hrun Hh.
    + clear Hh. rename Hh4 into Hh. allocate_and_link Hrun Hh.
    + allocate_and_link Hrun Hh.
Qed.

Lemma arc_new_locks fuel type beg end_ st addr st' :
  storage_wf st ->
  sc_storage_arc_new ctx fuel type beg end_ st = Done addr st' ->
  same_locks st st'.
Proof.
  intros Hwf Hrun. unfold sc_storage_arc_new in Hrun.
  apply bind_Done in Hrun as ([] & st0 & Ha & Hrun).
  apply g_assert_Done in Ha as [_ ->].
  destruct fuel as [|n]; [discriminate|]. simpl in Hrun.
  apply bind_Done in Hrun as ([r addr0] & st1 & Hpass & Hrun).
  assert (Hl := arc_new_pass_locks _ _ _ _ _ _ _ _ Hwf Hpass).
  destruct (arc_new_pass_created _ _ _ _ _ _ _ _ _ Hwf Hpass)
    as [(-> & -> & Hs)|(-> & Hc)]; simpl in Hrun.
  - by apply ret_Done in Hrun as [_ <-].
  - assert (He : SC_ADDR_IS_EMPTY addr0 = false) by (apply addr_empty_iff, Hc).
    rewrite He in Hrun. by apply ret_Done in Hrun as [_ <-].
Qed.

End Locks.

(** ** How the segment table grows *)

Section Growth.
Context `{sc_defines}.
Variable ctx : sc_memory_context.
Hypothesis Hfresh : fresh_segment_has_slot.

#[global] Instance same_store_preorder : PreOrder same_store.
Proof.
  split.
  - by intros st.
  - intros st1 st2 st3 (Hs12 & Hn12 & He12) (Hs23 & Hn23 & He23).
    split; [by rewrite Hs23|]. split; [by rewrite Hn23 | by rewrite He23].
Qed.

#[global] Instance capped_preorder : PreOrder capped.
Proof.
  split.
  - intros st Hc. exact Hc.
  - intros st1 st2 st3 H12 H23 Hc. by apply H23, H12.
Qed.

Lemma cache_append_from_same_store n i idx sg st :
  same_store st (cache_append_from n i idx sg st).
Proof.
  revert i. induction n as [|n IH]; intros i; simpl; [done|].
  destruct (segments_cache st !! _); [apply IH | done].
Qed.

Lemma cache_remove_from_same_store n i idx sg st :
  same_store st (cache_remove_from n i idx sg st).
Proof.
  revert i. induction n as [|n IH]; intros i; simpl; [done|].
  case_bool_decide; [done | apply IH].
Qed.

Lemma keeps_same_store_cache_append sg :
  keeps same_store (_sc_segment_cache_append ctx sg).
Proof.
  intros st a st' Hrun. inversion Hrun; subst.
  apply cache_append_from_same_store.
Qed.

Lemma keeps_same_store_cache_update_from n i :
  keeps same_store (cache_update_from ctx n i).
Proof.
  revert i. induction n as [|n IH]; intros i; simpl.
  - apply keeps_ret. apply _.
  - repeat first [keeps_step | apply keeps_same_store_cache_append | apply IH].
Qed.

Lemma keeps_same_store_cache_update :
  keeps same_store (_sc_segment_cache_update ctx).
Proof.
  unfold _sc_segment_cache_update.
  repeat first [keeps_step | apply keeps_same_store_cache_update_from].
Qed.

(** [_sc_segment_cache_get] hands out a segment of the cache and changes
    nothing, or it loads a new segment, the one it hands out. *)
Lemma cache_get_cases st sg st' :
  _sc_segment_cache_get ctx st = Done sg st' ->
  (st' = st /\ 0 < segments_cache_count st /\
   cache_scan_from (Z.to_nat SC_SEGMENT_CACHE_SIZE) 0
     (CONCURRENCY_TO_CACHE_IDX (ctx_id ctx)) (segments_cache st) = Some sg)
  \/ (sg = segments_num st /\ 0 <= sg < SC_ADDR_SEG_MAX /\
      segments_num st' = segments_num st + 1 /\
      segments st' = <[sg := sc_segment_new sg]> (segments st) /\
      event_log st' = event_log st).
Proof.
  intros Hrun. unfold _sc_segment_cache_get in Hrun.
  apply bind_Done in Hrun as (st0 & st0' & Hget & Hrun).
  inversion Hget; subst st0 st0'; clear Hget.
  destruct (if 0 <? segments_cache_count st then _ else None) as [sg0|] eqn:Hhit.
  { apply ret_Done in Hrun as [<- <-]. left. split; [done|].
    destruct (0 <? segments_cache_count st) eqn:Hcount; [|discriminate].
    split; [lia | done]. }
  right.
  apply bind_Done in Hrun as ([] & st1 & Hupd & Hrun).
  apply keeps_same_store_cache_update in Hupd. destruct Hupd as (Hs1 & Hn1 & He1).
  apply bind_Done in Hrun as (st1' & st1'' & Hget & Hrun).
  inversion Hget; subst st1' st1''; clear Hget.
  apply bind_Done in Hrun as ([] & st2 & Hput & Hrun).
  inversion Hput; subst st2; clear Hput.
  destruct ((segments_num st1 <? 0) || (SC_ADDR_SEG_MAX <=? segments_num st1))
    eqn:Hrange; [discriminate|].
  apply orb_false_iff in Hrange as [Hlo Hhi].
  apply bind_Done in Hrun as (st2' & st2'' & Hget & Hrun).
  inversion Hget; subst st2' st2''; clear Hget.
  apply bind_Done in Hrun as ([] & st3 & Hput & Hrun).
  inversion Hput; subst st3; clear Hput.
  apply bind_Done in Hrun as ([] & st4 & Happ & Hrun).
  apply keeps_same_store_cache_append in Happ. destruct Happ as (Hs4 & Hn4 & He4).
  apply ret_Done in Hrun as [<- <-].
  split; [done|]. split; [lia|].
  split; [rewrite Hn4; simpl; lia|].
  split; [rewrite Hs4; simpl; by rewrite Hs1, Hn1|].
  rewrite He4. simpl. done.
Qed.

Lemma seg_el_new n off : seg_el (sc_segment_new n) off = sc_element_zero.
Proof. unfold seg_el. simpl. by rewrite lookup_empty. Qed.

(** In a segment that was just created a slot is found and locked. *)
Lemma lock_empty_element_fresh sg st :
  segments st !! sg = Some (sc_segment_new sg) ->
  exists off,
    sc_segment_lock_empty_element sg st
    = Done (Some off) (locked (mk_addr sg off) st).
Proof.
  intros Hs. destruct (Hfresh sg) as (off & Hhint & Hne). exists off.
  unfold sc_segment_lock_empty_element. rewrite Hs, Hhint.
  rewrite seg_el_new. simpl num. rewrite Hne. simpl.
  unfold sc_segment_lock_element, locked. simpl. by rewrite Hs.
Qed.

(** One allocation loads at most one segment. *)
Lemma append_el_loop_grows fuel el st r st' :
  append_el_loop ctx fuel el st = Done r st' ->
  segments_num st <= segments_num st' <= segments_num st + 1.
Proof.
  revert st. induction fuel as [|fuel IH]; intros st Hrun; [discriminate|].
  simpl in Hrun.
  apply bind_Done in Hrun as (sg & st1 & Hget & Hrun).
  apply bind_Done in Hrun as (o & st2 & Hlock & Hrun).
  assert (Htail : forall off,
            o = Some off -> segments_num st' = segments_num st1).
  { intros off ->.
    apply lock_empty_element_Some in Hlock as (s & _ & _ & _ & Hsame).
    apply bind_Done in Hrun as (s2' & st2' & Hread & Hrun).
    destruct (segments st2 !! sg) as [s2|] eqn:Hs2; [|discriminate].
    injection Hread as <- <-.
    apply bind_Done in Hrun as ([] & st3 & Hstore & Hrun).
    change (sg, off) with (seg (mk_addr sg off), offset (mk_addr sg off))
      in Hstore.
    apply store_Done in Hstore as [-> _].
    apply ret_Done in Hrun as [_ <-].
    destruct Hsame as [[Hn _] _]. rewrite <- Hn.
    unfold updated. by destruct (segments st2 !! _). }
  apply cache_get_cases in Hget
    as [(-> & _ & _)|(-> & _ & Hn1 & Hs1 & _)].
  - destruct o as [off|].
    + rewrite (Htail off eq_refl). lia.
    + apply lock_empty_element_None in Hlock as ->.
      apply bind_Done in Hrun as ([] & st3 & Hrem & Hrun).
      inversion Hrem; subst st3.
      apply IH in Hrun.
      destruct (cache_remove_from_same_store
                  (Z.to_nat SC_SEGMENT_CACHE_SIZE) 0
                  (CONCURRENCY_TO_CACHE_IDX (ctx_id ctx)) sg st) as (_ & Hn & _).
      lia.
  - destruct (lock_empty_element_fresh (segments_num st) st1) as (off & Hl).
    { rewrite Hs1. apply lookup_insert_eq. }
    rewrite Hl in Hlock. injection Hlock as <- <-.
    rewrite (Htail off eq_refl). lia.
Qed.

Lemma keeps_capped_append_el_into_segments fuel el :
  keeps capped (sc_storage_append_el_into_segments ctx fuel el).
Proof.
  intros st r st' Hrun Hcap. unfold sc_storage_append_el_into_segments in Hrun.
  apply bind_Done in Hrun as (st0 & st0' & Hget & Hrun).
  inversion Hget; subst st0 st0'; clear Hget.
  destruct (sc_config_get_max_loaded_segments <=? segments_num st) eqn:Hc.
  - by apply ret_Done in Hrun as [_ <-].
  - apply append_el_loop_grows in Hrun. lia.
Qed.

Lemma capped_same_num st st' :
  segments_num st' = segments_num st -> capped st st'.
Proof. intros Hn Hc. by rewrite Hn. Qed.

Lemma keeps_capped_same_segments {A} (m : M A) :
  keeps same_segments m -> keeps capped m.
Proof.
  intros Hm st a st' Hrun. apply capped_same_num.
  by destruct (Hm st a st' Hrun) as [[-> _] _].
Qed.

Lemma keeps_capped_store p f : keeps capped (store p f).
Proof.
  intros st u st' Hrun. destruct p as [k off].
  change (k, off) with (seg (mk_addr k off), offset (mk_addr k off)) in Hrun.
  apply store_Done in Hrun as [-> _]. apply capped_same_num.
  unfold updated. by destruct (segments st !! _).
Qed.

Lemma keeps_capped_run fuel c : keeps capped (run ctx fuel c).
Proof.
  apply kept_run; try apply _; intros.
  - apply keeps_capped_same_segments, keeps_segment_lock_element.
  - apply keeps_capped_same_segments, keeps_segment_unlock_element.
  - apply keeps_capped_store.
  - intros st u st' Hrun. inversion Hrun; subst. by apply capped_same_num.
  - intros st u st' Hrun. inversion Hrun; subst. by apply capped_same_num.
  - apply keeps_capped_append_el_into_segments.
  - unfold sc_segment_erase_element.
    repeat first [ keeps_step | apply keeps_capped_store
                 | apply keeps_capped_same_segments;
                   first [ apply keeps_segment_unlock_element
                         | apply keeps_cache_append ] ].
Qed.

End Growth.

(** ** Allocation returns *)

Section Returns.
Context `{sc_defines}.
Variable ctx : sc_memory_context.
Hypothesis Hctx : 0 <= ctx_id ctx.
Hypothesis Hsize : 0 < SC_SEGMENT_CACHE_SIZE.
Hypothesis Hfresh : fresh_segment_has_slot.

Lemma cache_update_from_total n i st :
  exists st', cache_update_from ctx n i st = Done tt st'.
Proof.
  revert i st. induction n as [|n IH]; intros i st; simpl; [by eexists|].
  unfold mbind at 1, M_bind at 1, bind at 1, get_storage at 1.
  destruct (segments_num st <=? i); [by eexists|].
  unfold mbind at 1, M_bind at 1, bind at 1.
  assert (Hstep : exists st1,
            match segments st !! i with
            | Some s => if sc_segment_has_empty_slot s
                        then _sc_segment_cache_append ctx i else mret tt
            | None => mret tt
            end st = Done tt st1).
  { destruct (segments st !! i) as [s|]; [|by eexists].
    destruct (sc_segment_has_empty_slot s); by eexists. }
  destruct Hstep as (st1 & ->).
  unfold mbind at 1, M_bind at 1, bind at 1, get_storage at 1.
  destruct (segments_cache_count st1 =? SC_SEGMENT_CACHE_SIZE); [by eexists|].
  apply IH.
Qed.

Lemma cache_update_total st :
  exists st', _sc_segment_cache_update ctx st = Done tt st'.
Proof.
  unfold _sc_segment_cache_update.
  unfold mbind at 1, M_bind at 1, bind at 1, get_storage at 1.
  apply cache_update_from_total.
Qed.

Lemma cache_get_total st :
  0 <= segments_num st < SC_ADDR_SEG_MAX ->
  exists sg st', _sc_segment_cache_get ctx st = Done sg st'.
Proof.
  intros Hn. unfold _sc_segment_cache_get.
  unfold mbind at 1, M_bind at 1, bind at 1, get_storage at 1.
  destruct (if 0 <? segments_cache_count st then _ else None) as [sg|];
    [by eexists _, _|].
  destruct (cache_update_total st) as (st1 & Hupd).
  unfold mbind at 1, M_bind at 1, bind at 1. rewrite Hupd.
  apply keeps_same_store_cache_update in Hupd as (_ & Hn1 & _).
  unfold mbind at 1, M_bind at 1, bind at 1, get_storage at 1.
  unfold mbind at 1, M_bind at 1, bind at 1, put_storage at 1.
  rewrite Hn1.
  assert (Hr : (segments_num st <? 0) || (SC_ADDR_SEG_MAX <=? segments_num st)
               = false).
  { apply orb_false_iff. split; lia. }
  rewrite Hr. by eexists _, _.
Qed.

Lemma lock_empty_element_total sg st :
  is_Some (segments st !! sg) ->
  exists o st', sc_segment_lock_empty_element sg st = Done o st'.
Proof.
  intros [s Hs]. unfold sc_segment_lock_empty_element. rewrite Hs.
  destruct (sc_segment_empty_slot_hint s) as [off|]; [|by eexists _, _].
  destruct (_ && _); [|by eexists _, _].
  unfold sc_segment_lock_element. rewrite Hs. by eexists _, _.
Qed.

(** The slot the scan of [_sc_segment_cache_get] has found is the one
    [_sc_segment_cache_remove] clears. *)
Lemma cache_remove_scanned n i idx sg st :
  cache_scan_from n i idx (segments_cache st) = Some sg ->
  (size (segments_cache (cache_remove_from n i idx sg st))
   < size (segments_cache st))%nat.
Proof.
  revert i. induction n as [|n IH]; intros i; simpl; [discriminate|].
  destruct (segments_cache st !! _) as [sg'|] eqn:Hslot.
  - intros [= ->]. rewrite bool_decide_eq_true_2 by done. simpl.
    rewrite map_size_delete_Some by eauto.
    assert (size (segments_cache st) <> 0%nat).
    { intros Hz. apply map_size_empty_inv in Hz. by rewrite Hz in Hslot. }
    lia.
  - intros Hscan. rewrite bool_decide_eq_false_2 by done. by apply IH.
Qed.

(** The assignments after a slot was locked. *)
Lemma append_el_store_total sg off el st :
  is_Some (segments st !! sg) ->
  exists s st',
    (s ← (fun st => match segments st !! sg with
                    | Some s => Done s st
                    | None => Fault
                    end);
     _ ← store (sg, off) (fun _ => el);
     mret (Some (sg, off), mk_addr (num s) off)) st
    = Done (Some (sg, off), mk_addr (num s) off) st'.
Proof.
  intros [s Hs]. exists s.
  unfold mbind at 1, M_bind at 1, bind at 1. rewrite Hs.
  unfold mbind at 1, M_bind at 1, bind at 1. unfold store. simpl. rewrite Hs.
  by eexists.
Qed.

Lemma append_el_loop_total fuel el st :
  storage_wf st -> cache_ok st ->
  0 <= segments_num st < SC_ADDR_SEG_MAX ->
  (size (segments_cache st) < fuel)%nat ->
  exists p addr st', append_el_loop ctx fuel el st = Done (Some p, addr) st'.
Proof.
  revert st. induction fuel as [|fuel IH]; intros st Hwf Hok Hn Hfuel; [lia|].
  simpl.
  destruct (cache_get_total st Hn) as (sg & st1 & Hget).
  unfold mbind at 1, M_bind at 1, bind at 1. rewrite Hget.
  destruct (cache_get_cases ctx st sg st1 Hget)
    as [(-> & _ & Hscan)|(-> & _ & _ & Hs1 & _)].
  - assert (Hsg : is_Some (segments st !! sg)).
    { apply cache_scan_from_Some in Hscan as [j Hj].
      destruct Hok as [_ Hall]. by destruct (Hall j sg Hj). }
    destruct (lock_empty_element_total sg st Hsg) as ([off|] & st2 & Hlock);
      unfold mbind at 1, M_bind at 1, bind at 1; rewrite Hlock.
    + apply lock_empty_element_Some in Hlock as (s & _ & _ & _ & Hsame).
      assert (Hsg2 : is_Some (segments st2 !! sg)).
      { destruct Hsg as [s0 Hs0].
        destruct (same_segments_grow _ _ Hsame _ _ Hs0) as (s' & -> & _). eauto. }
      destruct (append_el_store_total sg off el st2 Hsg2) as (s2 & st3 & ->).
      by eexists _, _, _.
    + apply lock_empty_element_None in Hlock as ->.
      unfold mbind at 1, M_bind at 1, bind at 1.
      unfold _sc_segment_cache_remove at 1.
      set (st3 := cache_remove_from _ _ _ _ _).
      assert (Hst : steady st st3) by (by apply steady_cache_remove_from).
      destruct Hst as (Hwf3 & Hok3 & _ & _).
      destruct (cache_remove_from_same_store
                  (Z.to_nat SC_SEGMENT_CACHE_SIZE) 0
                  (CONCURRENCY_TO_CACHE_IDX (ctx_id ctx)) sg st) as (_ & Hn3 & _).
      fold st3 in Hn3.
      apply IH; [auto | auto | by rewrite Hn3 |].
      pose proof (cache_remove_scanned _ _ _ _ _ Hscan) as Hlt.
      fold st3 in Hlt. lia.
  - destruct (lock_empty_element_fresh Hfresh (segments_num st) st1)
      as (off & Hl).
    { rewrite Hs1. apply lookup_insert_eq. }
    unfold mbind at 1, M_bind at 1, bind at 1. rewrite Hl.
    assert (Hsg2 : is_Some (segments (locked (mk_addr (segments_num st) off) st1)
                              !! segments_num st)).
    { unfold locked. simpl. rewrite Hs1, lookup_insert_eq. simpl.
      rewrite lookup_insert_eq. eauto. }
    destruct (append_el_store_total (segments_num st) off el _ Hsg2)
      as (s2 & st3 & ->).
    by eexists _, _, _.
Qed.

Lemma append_el_into_segments_total fuel el st :
  storage_wf st -> cache_ok st ->
  0 <= segments_num st < sc_config_get_max_loaded_segments ->
  sc_config_get_max_loaded_segments <= SC_ADDR_SEG_MAX ->
  (size (segments_cache st) < fuel)%nat ->
  exists addr st',
    sc_storage_append_el_into_segments ctx fuel el st
    = Done (Some (seg addr, offset addr), addr) st'
    /\ allocated el st addr st'.
Proof.
  intros Hwf Hok Hn Hmax Hfuel.
  destruct (append_el_loop_total fuel el st) as (p & addr & st' & Hrun);
    [done | done | lia | done |].
  assert (Hrun' : sc_storage_append_el_into_segments ctx fuel el st
                  = Done (Some p, addr) st').
  { unfold sc_storage_append_el_into_segments.
    unfold mbind at 1, M_bind at 1, bind at 1, get_storage at 1.
    destruct (sc_config_get_max_loaded_segments <=? segments_num st) eqn:Hc;
      [lia | done]. }
  destruct (append_el_into_segments_spec ctx _ _ _ _ _ _ Hwf Hrun')
    as [([=] & _)|(Hp & Ha & _)].
  exists addr, st'. by rewrite <- Hp.
Qed.

(** The tail shared by [sc_storage_node_new] and [sc_storage_link_new]. *)
Lemma create_tail_total fuel el st :
  storage_wf st -> cache_ok st ->
  0 <= segments_num st < sc_config_get_max_loaded_segments ->
  sc_config_get_max_loaded_segments <= SC_ADDR_SEG_MAX ->
  (size (segments_cache st) < fuel)%nat ->
  exists addr st',
    ('(locked_el, addr) ← sc_storage_append_el_into_segments ctx fuel el;
     match locked_el with
     | None => mret addr_empty
     | Some _ =>
         _ ← STORAGE_CHECK_CALL (sc_storage_element_unlock addr);
         mret addr
     end) st = Done addr st'
    /\ addr <> addr_empty.
Proof.
  intros Hwf Hok Hn Hmax Hfuel.
  destruct (append_el_into_segments_total fuel el st)
    as (addr & st1 & Hrun & Ha); [done..|].
  destruct Ha as (Hne & Hv & _).
  exists addr, (unlocked addr st1). split; [|by apply addr_empty_iff].
  unfold mbind at 1, M_bind at 1, bind at 1. rewrite Hrun.
  unfold mbind at 1, M_bind at 1, bind at 1. unfold STORAGE_CHECK_CALL.
  unfold mbind at 1, M_bind at 1, bind at 1.
  by rewrite element_unlock_valid.
Qed.

Lemma node_new_total fuel type st :
  storage_wf st -> cache_ok st ->
  0 <= segments_num st < sc_config_get_max_loaded_segments ->
  sc_config_get_max_loaded_segments <= SC_ADDR_SEG_MAX ->
  (size (segments_cache st) < fuel)%nat ->
  Z.land sc_type_arc_mask type = 0 ->
  exists addr st',
    sc_storage_node_new ctx fuel type st = Done addr st' /\ addr <> addr_empty.
Proof.
  intros Hwf Hok Hn Hmax Hfuel Hm. unfold sc_storage_node_new.
  unfold mbind at 1, M_bind at 1, bind at 1. rewrite Hm. simpl.
  by apply create_tail_total.
Qed.

Lemma link_new_total fuel st :
  storage_wf st -> cache_ok st ->
  0 <= segments_num st < sc_config_get_max_loaded_segments ->
  sc_config_get_max_loaded_segments <= SC_ADDR_SEG_MAX ->
  (size (segments_cache st) < fuel)%nat ->
  exists addr st',
    sc_storage_link_new ctx fuel st = Done addr st' /\ addr <> addr_empty.
Proof. intros. by apply create_tail_total. Qed.

Lemma element_new_total fuel type st :
  storage_wf st -> cache_ok st ->
  0 <= segments_num st < sc_config_get_max_loaded_segments ->
  sc_config_get_max_loaded_segments <= SC_ADDR_SEG_MAX ->
  (size (segments_cache st) < fuel)%nat ->
  exists addr st',
    sc_storage_element_new ctx fuel type st = Done addr st'
    /\ addr <> addr_empty.
Proof.
  intros Hwf Hok Hn Hmax Hfuel.
  destruct (append_el_into_segments_total fuel
              (set_flags_type type sc_element_zero) st)
    as (addr & st1 & Hrun & Ha); [done..|].
  destruct Ha as (Hne & Hv & _).
  exists addr, (unlocked addr st1). split; [|by apply addr_empty_iff].
  unfold sc_storage_element_new.
  unfold mbind at 1, M_bind at 1, bind at 1. rewrite Hrun.
  unfold mbind at 1, M_bind at 1, bind at 1.
  by rewrite element_unlock_valid.
Qed.

End Returns.

(** ** Link content *)

Section ContentRuns.
Context `{sc_defines}.
Variable sc_stream : Type.
Variable fs_storage : Type.
Variable sc_link_calculate_checksum : sc_stream -> option sc_check_sum.
Variable sc_fs_storage_write_content :
  sc_addr -> sc_check_sum -> sc_stream -> fs_storage -> sc_result * fs_storage.
Variable sc_fs_storage_get_checksum_content :
  sc_check_sum -> fs_storage -> sc_result * option sc_stream * fs_storage.

Lemma check_unlock_valid st a :
  addr_valid st a ->
  STORAGE_CHECK_CALL (sc_storage_element_unlock a) st = Done tt (unlocked a st).
Proof.
  intros Hv. unfold STORAGE_CHECK_CALL.
  unfold mbind at 1, M_bind at 1, bind at 1.
  by rewrite element_unlock_valid.
Qed.

Lemma set_link_content_invalid st addr stream fs :
  ~ addr_valid st addr ->
  sc_storage_set_link_content sc_stream fs_storage sc_link_calculate_checksum
    sc_fs_storage_write_content addr stream fs st
  = Done (SC_RESULT_ERROR, fs) st.
Proof.
  intros Hv. unfold sc_storage_set_link_content.
  unfold mbind at 1, M_bind at 1, bind at 1.
  by rewrite element_lock_invalid.
Qed.

Lemma set_link_content_null st addr fs :
  addr_valid st addr ->
  sc_storage_set_link_content sc_stream fs_storage sc_link_calculate_checksum
    sc_fs_storage_write_content addr None fs st
  = Fault.
Proof.
  intros Hv. unfold sc_storage_set_link_content.
  unfold mbind at 1, M_bind at 1, bind at 1.
  by rewrite element_lock_valid.
Qed.

Lemma set_link_content_valid st addr s fs :
  addr_valid st addr ->
  sc_storage_set_link_content sc_stream fs_storage sc_link_calculate_checksum
    sc_fs_storage_write_content addr (Some s) fs st
  = if Z.land (flags_type (element_at st addr)) sc_type_link =? 0
    then Done (SC_RESULT_ERROR_INVALID_TYPE, fs) st
    else match sc_link_calculate_checksum s with
         | Some check_sum =>
             match memcpy (content_data (element_at st addr))
                     (cs_data check_sum) (cs_len check_sum) with
             | Some data =>
                 Done (SC_RESULT_OK,
                       (sc_fs_storage_write_content addr check_sum s fs).2)
                   (updated addr (set_content_data data) st)
             | None => Fault
             end
         | None => Fault
         end.
Proof.
  intros Hv.
  assert (Hv' : addr_valid (locked addr st) addr) by by apply addr_valid_locked.
  assert (Hl := addr_valid_loaded _ _ Hv').
  unfold sc_storage_set_link_content.
  unfold mbind at 1, M_bind at 1, bind at 1.
  rewrite element_lock_valid by done. cbv beta iota.
  unfold mbind at 1, M_bind at 1, bind at 1.
  rewrite load_valid by done.
  change (slot (locked addr st) (seg addr, offset addr))
    with (element_at (locked addr st) addr).
  rewrite element_at_locked.
  destruct (Z.land (flags_type (element_at st addr)) sc_type_link =? 0).
  { unfold mbind at 1, M_bind at 1, bind at 1.
    rewrite check_unlock_valid by done. by rewrite unlocked_locked. }
  destruct (sc_link_calculate_checksum s) as [check_sum|]; [|done].
  unfold mbind at 1, M_bind at 1, bind at 1.
  rewrite load_valid by done.
  change (slot (locked addr st) (seg addr, offset addr))
    with (element_at (locked addr st) addr).
  rewrite element_at_locked.
  destruct (memcpy _ _ _) as [data|]; [|done].
  unfold mbind at 1, M_bind at 1, bind at 1.
  rewrite store_valid by done.
  unfold mbind at 1, M_bind at 1, bind at 1.
  rewrite check_unlock_valid by (by apply addr_valid_updated).
  by rewrite updated_locked_commute.
Qed.

Lemma get_link_content_invalid st addr fs :
  ~ addr_valid st addr ->
  sc_storage_get_link_content sc_stream fs_storage
    sc_fs_storage_get_checksum_content addr fs st
  = Done (SC_RESULT_ERROR, None, fs) st.
Proof.
  intros Hv. unfold sc_storage_get_link_content.
  unfold mbind at 1, M_bind at 1, bind at 1.
  by rewrite element_lock_invalid.
Qed.

Lemma get_link_content_valid st addr fs :
  addr_valid st addr ->
  sc_storage_get_link_content sc_stream fs_storage
    sc_fs_storage_get_checksum_content addr fs st
  = if Z.land (flags_type (element_at st addr)) sc_type_link =? 0
    then Done (SC_RESULT_ERROR_INVALID_TYPE, None, fs) st
    else match link_checksum (element_at st addr) with
         | Some checksum =>
             Done (sc_fs_storage_get_checksum_content checksum fs) st
         | None => Fault
         end.
Proof.
  intros Hv.
  assert (Hv' : addr_valid (locked addr st) addr) by by apply addr_valid_locked.
  assert (Hl := addr_valid_loaded _ _ Hv').
  unfold sc_storage_get_link_content.
  unfold mbind at 1, M_bind at 1, bind at 1.
  rewrite element_lock_valid by done. cbv beta iota.
  unfold mbind at 1, M_bind at 1, bind at 1.
  rewrite load_valid by done.
  change (slot (locked addr st) (seg addr, offset addr))
    with (element_at (locked addr st) addr).
  rewrite element_at_locked.
  destruct (Z.land (flags_type (element_at st addr)) sc_type_link =? 0).
  { unfold mbind at 1, M_bind at 1, bind at 1.
    rewrite check_unlock_valid by done. by rewrite unlocked_locked. }
  unfold mbind at 1, M_bind at 1, bind at 1.
  rewrite load_valid by done.
  change (slot (locked addr st) (seg addr, offset addr))
    with (element_at (locked addr st) addr).
  rewrite element_at_locked.
  destruct (link_checksum _) as [checksum|]; [|done].
  unfold mbind at 1, M_bind at 1, bind at 1.
  rewrite check_unlock_valid by done. by rewrite unlocked_locked.
Qed.

(** A copy of the whole checksum into an array that has room for it. *)
Lemma memcpy_whole dst src n :
  0 <= n -> n <= Z.of_nat (length dst) -> n <= Z.of_nat (length src) ->
  memcpy dst src n = Some (take (Z.to_nat n) src ++ drop (Z.to_nat n) dst).
Proof.
  intros H0 Hd Hs. unfold memcpy.
  assert (Hb : (0 <=? n) && (n <=? Z.of_nat (length dst))
               && (n <=? Z.of_nat (length src)) = true).
  { rewrite !andb_true_iff. repeat split; lia. }
  by rewrite Hb.
Qed.

(** The checksum read from an element whose content was just copied. *)
Lemma link_checksum_set src dst e :
  0 <= SC_CHECKSUM_LEN ->
  SC_CHECKSUM_LEN <= Z.of_nat (length src) ->
  link_checksum
    (set_content_data
       (take (Z.to_nat SC_CHECKSUM_LEN) src ++ drop (Z.to_nat SC_CHECKSUM_LEN) dst)
       e)
  = Some (mk_check_sum (take (Z.to_nat SC_CHECKSUM_LEN) src) SC_CHECKSUM_LEN).
Proof.
  intros H0 Hs. unfold link_checksum. simpl.
  assert (Hlen : length (take (Z.to_nat SC_CHECKSUM_LEN) src)
                 = Z.to_nat SC_CHECKSUM_LEN).
  { rewrite length_take. lia. }
  assert (Hb : (0 <=? SC_CHECKSUM_LEN)
               && (SC_CHECKSUM_LEN
                   <=? Z.of_nat (length (take (Z.to_nat SC_CHECKSUM_LEN) src
                                         ++ drop (Z.to_nat SC_CHECKSUM_LEN) dst)))
               = true).
  { rewrite andb_true_iff, length_app, Hlen. split; apply Z.leb_le; lia. }
  rewrite Hb. f_equal. f_equal.
  rewrite take_app_le by lia. rewrite take_ge by lia. done.
Qed.

End ContentRuns.

(** ** Calls that take no lock with them *)

Section CallLocks.
Context `{sc_defines}.
Variable ctx : sc_memory_context.

Lemma same_locks_refl st : same_locks st st.
Proof. by intros a. Qed.

Lemma change_element_subtype_locks addr type st r st' :
  storage_wf st ->
  sc_storage_change_element_subtype addr type st = Done r st' ->
  same_locks st st'.
Proof.
  intros Hwf Hrun. unfold sc_storage_change_element_subtype in Hrun.
  destruct (Z.land type sc_type_element_mask =? 0) eqn:Hm; simpl in Hrun.
  - apply Z.eqb_eq in Hm.
    destruct (decide (addr_valid st addr)) as [Hv|Hv].
    + fold (sc_storage_change_element_subtype addr type) in Hrun.
      unfold sc_storage_change_element_subtype in Hrun.
      pose proof (change_element_subtype_valid st addr type Hm Hv) as Hok.
      unfold sc_storage_change_element_subtype in Hok.
      rewrite Hm in Hok. simpl in Hok. rewrite Hok in Hrun.
      injection Hrun as _ <-. by apply calm_updated.
    + unfold mbind at 1, M_bind at 1, bind at 1 in Hrun.
      rewrite element_lock_invalid in Hrun by done. simpl in Hrun.
      apply ret_Done in Hrun as [_ <-]. apply same_locks_refl.
  - apply ret_Done in Hrun as [_ <-]. apply same_locks_refl.
Qed.

Lemma run_locks fuel c st st' :
  (forall addr, c <> CallElementFree addr) ->
  storage_wf st ->
  run ctx fuel c st = Done tt st' ->
  same_locks st st'.
Proof.
  intros Hc Hwf Hrun. destruct c; simpl in Hrun;
    apply bind_Done in Hrun as (r & st1 & Hrun & Hret);
    apply ret_Done in Hret as [_ <-].
  - by eapply node_new_locks.
  - by eapply link_new_locks.
  - by eapply element_new_locks.
  - by eapply arc_new_locks.
  - by destruct (Hc addr).
  - destruct (decide (addr_valid st addr)) as [Hv|Hv].
    + rewrite is_element_valid in Hrun by done. injection Hrun as _ <-.
      apply same_locks_refl.
    + rewrite is_element_invalid in Hrun by done. injection Hrun as _ <-.
      apply same_locks_refl.
  - destruct (decide (addr_valid st addr)) as [Hv|Hv].
    + rewrite get_element_type_valid in Hrun by done. injection Hrun as _ <-.
      apply same_locks_refl.
    + rewrite get_element_type_invalid in Hrun by done. injection Hrun as _ <-.
      apply same_locks_refl.
  - by eapply change_element_subtype_locks.
  - destruct (decide (addr_valid st addr)) as [Hv|Hv].
    + rewrite get_arc_begin_valid in Hrun by done. injection Hrun as _ <-.
      apply same_locks_refl.
    + rewrite get_arc_begin_invalid in Hrun by done. injection Hrun as _ <-.
      apply same_locks_refl.
  - destruct (decide (addr_valid st addr)) as [Hv|Hv].
    + rewrite get_arc_end_valid in Hrun by done. injection Hrun as _ <-.
      apply same_locks_refl.
    + rewrite get_arc_end_invalid in Hrun by done. injection Hrun as _ <-.
      apply same_locks_refl.
Qed.

End CallLocks.

(** ** Storages reached from the empty one *)

Section Reached.
Context `{sc_defines}.
Variable ctx : sc_memory_context.

Lemma reachable_in_order st :
  0 <= ctx_id ctx -> 0 < SC_SEGMENT_CACHE_SIZE ->
  reachable ctx st ->
  storage_wf st /\ cache_ok st /\ 0 <= segments_num st.
Proof.
  intros Hctx Hsize.
  induction 1 as [|st fuel c st' Hreach (Hwf & Hok & Hn) Hrun].
  - destruct storage_empty_ok as [? ?]. split; [done|]. split; [done|].
    simpl. lia.
  - destruct (keeps_settled_run ctx Hctx Hsize fuel c st tt st' Hrun Hok)
      as (Hw & Hc & Hle & _).
    split; [auto|]. split; [auto|]. lia.
Qed.

Lemma reachable_capped st :
  fresh_segment_has_slot ->
  0 <= sc_config_get_max_loaded_segments ->
  reachable ctx st ->
  segments_num st <= sc_config_get_max_loaded_segments.
Proof.
  intros Hfresh Hmax.
  induction 1 as [|st fuel c st' Hreach Hn Hrun]; [done|].
  by apply (keeps_capped_run ctx Hfresh fuel c st tt st' Hrun).
Qed.

End Reached.

(** ** The first-fit slot search of the concrete configuration *)

Lemma first_empty_slot_fresh cap max_segs ord :
  2 <= cap -> @fresh_segment_has_slot (demo_defines cap max_segs ord).
Proof.
  intros Hcap n. unfold sc_segment_empty_slot_hint, demo_defines.
  assert (Hc : Z.to_nat cap = S (S (Z.to_nat (cap - 2)))) by lia.
  rewrite Hc. cbn [first_empty_slot sc_segment_new elements num].
  rewrite lookup_empty.
  destruct (decide (n = 0)) as [->|Hn].
  - exists 1. split; [|reflexivity].
    cbn [Z.eqb andb negb]. by rewrite lookup_empty.
  - exists 0. apply Z.eqb_neq in Hn.
    unfold SC_ADDR_IS_NOT_EMPTY, SC_ADDR_IS_EMPTY. cbn [seg offset].
    rewrite Hn. done.
Qed.

(** ** Creation followed by deletion *)

Section CreateThenFree.
Context `{sc_defines}.
Variable ctx : sc_memory_context.

Lemma create_then_free fuel fuel' c st addr st1 :
  (forall t, g_hash_table_iter_order t ≡ₚ t) ->
  storage_wf st ->
  creates_arc c = false ->
  composed_type c <> 0 ->
  Z.land (composed_type c) sc_type_arc_mask = 0 ->
  create ctx fuel c st = Done addr st1 ->
  addr <> addr_empty ->
  exists st2,
    sc_storage_element_free ctx (S (S fuel')) addr st1 = Done SC_RESULT_OK st2
    /\ element_at st2 addr = sc_element_zero
    /\ (forall a, a <> addr -> element_at st2 a = element_at st a)
    /\ event_log st2
       = event_log st ++ [ElementDeleted addr;
                          Emitted addr SC_EVENT_REMOVE_ELEMENT addr].
Proof.
  intros Hord Hwf Hc Ht Harc Hrun Hne.
  assert (Hal : exists st0,
            allocated (set_flags_type (composed_type c) sc_element_zero)
              st addr st0 /\ st1 = unlocked addr st0).
  { destruct c as [type| |type beg end_]; [| |discriminate]; simpl in Hrun.
    - apply node_new_spec in Hrun as [_ [[-> _]|(st0 & Ha & -> & _)]];
        [done|eauto|done].
    - apply link_new_spec in Hrun as [[-> _]|(st0 & Ha & -> & _)];
        [done|eauto|done]. }
  destruct Hal as (st0 & Ha & ->).
  destruct Ha as (_ & Hv & _ & _ & _ & Hev & Hel & Hothers).
  assert (Hel1 : element_at (unlocked addr st0) addr
                 = set_flags_type (composed_type c) sc_element_zero)
    by by rewrite element_at_unlocked.
  destruct (free_isolated ctx fuel' addr (unlocked addr st0))
    as (st2 & Hfree & Hz & Hrest & Hlog);
    [done | by apply addr_valid_unlocked | by rewrite Hel1..|].
  exists st2. split; [done|]. split; [by rewrite Hz, Hel1|].
  split.
  - intros a Hneq. rewrite Hrest by done. rewrite element_at_unlocked.
    by apply Hothers.
  - by rewrite Hlog, event_log_unlocked, Hev.
Qed.

End CreateThenFree.

(** ** What [_sc_segment_cache_get] hands out *)

Section CacheGet.
Context `{sc_defines}.
Variable ctx : sc_memory_context.
Hypothesis Hctx : 0 <= ctx_id ctx.
Hypothesis Hsize : 0 < SC_SEGMENT_CACHE_SIZE.

Lemma cache_get_spec st :
  cache_ok st ->
  0 <= segments_num st < SC_ADDR_SEG_MAX ->
  exists sg st',
    _sc_segment_cache_get ctx st = Done sg st'
    /\ is_Some (segments st' !! sg)
    /\ cache_ok st'
    /\ ((st' = st /\ exists i, segments_cache st !! i = Some sg)
        \/ (sg = segments_num st
            /\ segments_num st' = segments_num st + 1
            /\ segments st' = <[sg := sc_segment_new sg]> (segments st)
            /\ event_log st' = event_log st)).
Proof.
  intros Hok Hn.
  destruct (cache_get_total ctx st Hn) as (sg & st' & Hrun).
  exists sg, st'. split; [done|].
  destruct (cache_get_Done ctx Hctx Hsize st sg st' Hok Hrun)
    as [(_ & Hc & _) Hl].
  split; [done|]. split; [auto|].
  destruct (cache_get_cases ctx st sg st' Hrun)
    as [(-> & _ & Hscan)|(-> & _ & Hn1 & Hs1 & He1)].
  - left. split; [done|]. by eapply cache_scan_from_Some.
  - right. done.
Qed.

End CacheGet.

(** ** Arc creation returns *)

Section ArcReturns.
Context `{sc_defines}.
Variable ctx : sc_memory_context.
Hypothesis Hctx : 0 <= ctx_id ctx.
Hypothesis Hsize : 0 < SC_SEGMENT_CACHE_SIZE.
Hypothesis Hfresh : fresh_segment_has_slot.

Ltac unlock_once :=
  match goal with
  | |- context [sc_storage_element_unlock ?a ?st] =>
      let r := fresh "r" in
      let st' := fresh "st" in
      let Hu := fresh "Hu" in
      destruct (element_unlock_total a st) as (r & st' & Hu); rewrite Hu; simpl
  end.

Lemma arc_new_unlock_total beg end_ b e fo fi t fout fin addr st :
  exists st',
    arc_new_unlock beg end_ b e fo fi t fout fin addr st = Done tt st'.
Proof.
  unfold arc_new_unlock.
  destruct b, e, fo, fi, t;
    unfold mbind, M_bind, bind, mret, M_ret, ret; simpl;
    repeat unlock_once; eauto.
Qed.

Lemma segments_cache_locked a st :
  segments_cache (locked a st) = segments_cache st.
Proof. unfold locked. by destruct (segments st !! seg a). Qed.

(** The lock of a list head that is empty or can be locked: only locks
    change. *)
Lemma head_lock_returns h r st :
  h = addr_empty \/ addr_valid st h ->
  exists r' f st',
    (if SC_ADDR_IS_NOT_EMPTY h
     then sc_storage_element_lock_try h s_max_storage_lock_attempts
     else mret (r, None)) st = Done (r', f) st' /\
    SC_ADDR_IS_NOT_EMPTY h && negb (bool_decide (is_Some f)) = false /\
    f = (if SC_ADDR_IS_NOT_EMPTY h then Some (seg h, offset h) else None) /\
    steady st st' /\ same_segments st st' /\
    segments_cache st' = segments_cache st.
Proof.
  intros Hh. destruct (SC_ADDR_IS_NOT_EMPTY h) eqn:Hne.
  - destruct Hh as [->|Hv]; [discriminate|].
    exists SC_RESULT_OK, (Some (seg h, offset h)), (locked h st).
    split; [by apply element_lock_valid|].
    split; [done|]. split; [done|].
    split; [apply steady_locked|].
    split; [apply locked_same_segments | apply segments_cache_locked].
  - exists r, None, st. done.
Qed.

Lemma store_head_valid h f st :
  h = addr_empty \/ addr_valid st h ->
  match (if SC_ADDR_IS_NOT_EMPTY h then Some (seg h, offset h) else None) with
  | Some fp => store fp f
  | None => mret tt
  end st = Done tt (updated_head h f st).
Proof.
  intros Hh. unfold updated_head. destruct (SC_ADDR_IS_NOT_EMPTY h) eqn:Hne.
  - destruct Hh as [->|Hv]; [discriminate|].
    apply store_valid. by apply addr_valid_loaded.
  - done.
Qed.

Lemma arc_new_pass_total fuel el beg end_ st :
  storage_wf st -> cache_ok st ->
  0 <= segments_num st < sc_config_get_max_loaded_segments ->
  sc_config_get_max_loaded_segments <= SC_ADDR_SEG_MAX ->
  (size (segments_cache st) < fuel)%nat ->
  addr_valid st beg -> addr_valid st end_ ->
  flags_type (element_at st beg) <> 0 ->
  flags_type (element_at st end_) <> 0 ->
  (first_out_arc (element_at st beg) = addr_empty
   \/ (addr_valid st (first_out_arc (element_at st beg))
       /\ flags_type (element_at st (first_out_arc (element_at st beg))) <> 0)) ->
  (first_in_arc (element_at st end_) = addr_empty
   \/ (addr_valid st (first_in_arc (element_at st end_))
       /\ flags_type (element_at st (first_in_arc (element_at st end_))) <> 0)) ->
  exists r addr st',
    arc_new_pass ctx fuel el beg end_ st = Done (r, addr) st'
    /\ addr <> addr_empty.
Proof.
  intros Hwf Hok Hn Hmax Hfuel Hvb Hve Htb Hte Hho Hhi.
  set (fo := first_out_arc (element_at st beg)) in *.
  set (fi := first_in_arc (element_at st end_)) in *.
  unfold arc_new_pass. unfold mbind, M_bind, bind.
  change (sc_storage_element_lock_try beg s_max_storage_lock_attempts st)
    with (sc_storage_element_lock beg st).
  rewrite element_lock_valid by done.
  change (sc_storage_element_lock_try end_ s_max_storage_lock_attempts
            (locked beg st))
    with (sc_storage_element_lock end_ (locked beg st)).
  rewrite element_lock_valid by (by apply addr_valid_locked).
  set (st2 := locked end_ (locked beg st)).
  assert (Hq2 : steady st st2).
  { etrans; apply steady_locked. }
  assert (Hs2 : same_segments st st2).
  { etrans; apply locked_same_segments. }
  assert (Hc2 : segments_cache st2 = segments_cache st).
  { unfold st2. by rewrite !segments_cache_locked. }
  assert (Hv2 : forall a, addr_valid st a -> addr_valid st2 a).
  { intros a Ha. by apply (same_segments_valid _ _ _ Hs2). }
  assert (He2 : forall a, element_at st2 a = element_at st a).
  { intros a. by apply same_segments_element_at. }
  rewrite load_valid by (apply addr_valid_loaded, Hv2, Hvb).
  change (slot st2 (seg beg, offset beg)) with (element_at st2 beg).
  rewrite He2. fold fo.
  destruct (head_lock_returns fo SC_RESULT_OK st2)
    as (r3 & f3 & st3 & -> & -> & Hf3 & Hq3 & Hs3 & Hc3).
  { destruct Hho as [?|[? _]]; [by left | right; by apply Hv2]. }
  assert (Hv3 : forall a, addr_valid st a -> addr_valid st3 a).
  { intros a Ha. by apply (same_segments_valid _ _ _ Hs3), Hv2. }
  assert (He3 : forall a, element_at st3 a = element_at st a).
  { intros a. by rewrite (same_segments_element_at _ _ _ Hs3). }
  rewrite load_valid by (apply addr_valid_loaded, Hv3, Hve).
  change (slot st3 (seg end_, offset end_)) with (element_at st3 end_).
  rewrite He3. fold fi.
  destruct (head_lock_returns fi r3 st3)
    as (r4 & f4 & st4 & -> & -> & Hf4 & Hq4 & Hs4 & Hc4).
  { destruct Hhi as [?|[? _]]; [by left | right; by apply Hv3]. }
  assert (Hv4 : forall a, addr_valid st a -> addr_valid st4 a).
  { intros a Ha. by apply (same_segments_valid _ _ _ Hs4), Hv3. }
  assert (He4 : forall a, element_at st4 a = element_at st a).
  { intros a. by rewrite (same_segments_element_at _ _ _ Hs4). }
  assert (Hq : steady st st4) by (etrans; [exact Hq2|]; by etrans).
  destruct Hq as (Hwf4 & Hok4 & _ & _).
  assert (Hn4 : segments_num st4 = segments_num st).
  { destruct Hs4 as [[-> _] _], Hs3 as [[-> _] _]. by destruct Hs2 as [[-> _] _]. }
  destruct (append_el_into_segments_total ctx Hfresh fuel el st4)
    as (addr & st5 & -> & Ha);
    [auto | auto | by rewrite Hn4 | done | by rewrite Hc4, Hc3, Hc2 |].
  destruct Ha as (Hne & Hva & Ht0 & Hwf5 & Hg & Hev & Hel & Hothers).
  rewrite He4 in Ht0.
  assert (Hlive : forall x, flags_type (element_at st x) <> 0 -> addr <> x).
  { intros x Hx ->. done. }
  assert (Hnempty : addr <> addr_empty) by by apply addr_empty_iff.
  assert (Hnfo : addr <> fo).
  { destruct Hho as [->|[_ ?]]; [done | by apply Hlive]. }
  assert (Hnfi : addr <> fi).
  { destruct Hhi as [->|[_ ?]]; [done | by apply Hlive]. }
  assert (Hv5 : forall a, addr_valid st a -> addr_valid st5 a).
  { intros a Ha. by apply (segs_grow_valid _ _ _ Hg), Hv4. }
  assert (He5 : forall a, a <> addr -> element_at st5 a = element_at st a).
  { intros a Ha. rewrite Hothers by done. apply He4. }
  assert (Hnb : beg <> addr) by (apply not_eq_sym; by apply Hlive).
  assert (Hne_ : end_ <> addr) by (apply not_eq_sym; by apply Hlive).
  rewrite (proj2 (SC_ADDR_IS_NOT_EQUAL_true addr fi) Hnfi).
  rewrite (proj2 (SC_ADDR_IS_NOT_EQUAL_true addr fo) Hnfo).
  cbn [andb]. unfold g_assert, ret, sc_event_emit. cbn beta iota.
  set (st6 := with_event_log _ (with_event_log _ st5)).
  assert (Hv6 : forall a, addr_valid st5 a -> addr_valid st6 a) by done.
  assert (He6 : forall a, element_at st6 a = element_at st5 a) by done.
  rewrite load_valid by (apply addr_valid_loaded, Hv6, Hv5, Hvb).
  rewrite load_valid by (apply addr_valid_loaded, Hv6, Hv5, Hve).
  change (slot st6 (seg beg, offset beg)) with (element_at st6 beg).
  change (slot st6 (seg end_, offset end_)) with (element_at st6 end_).
  rewrite !He6, !He5 by done.
  rewrite (proj2 (Z.eqb_neq _ _) Htb), (proj2 (Z.eqb_neq _ _) Hte).
  cbn [negb andb].
  rewrite store_valid by (apply addr_valid_loaded, Hv6, Hva).
  set (st7 := updated addr _ st6).
  assert (Hv7 : forall a, addr_valid st5 a -> addr_valid st7 a).
  { intros a Ha. by apply addr_valid_updated, Hv6. }
  rewrite store_valid by (apply addr_valid_loaded, Hv7, Hva).
  set (st8 := updated addr _ st7).
  assert (Hv8 : forall a, addr_valid st5 a -> addr_valid st8 a).
  { intros a Ha. by apply addr_valid_updated, Hv7. }
  rewrite Hf3, store_head_valid.
  2:{ destruct Hho as [?|[? _]]; [by left | right; by apply Hv8, Hv5]. }
  set (st9 := updated_head fo _ st8).
  assert (Hv9 : forall a, addr_valid st5 a -> addr_valid st9 a).
  { intros a Ha. by apply addr_valid_updated_head, Hv8. }
  rewrite Hf4, store_head_valid.
  2:{ destruct Hhi as [?|[? _]]; [by left | right; by apply Hv9, Hv5]. }
  set (st10 := updated_head fi _ st9).
  assert (Hv10 : forall a, addr_valid st5 a -> addr_valid st10 a).
  { intros a Ha. by apply addr_valid_updated_head, Hv9. }
  rewrite store_valid by (apply addr_valid_loaded, Hv10, Hv5, Hvb).
  set (st11 := updated beg _ st10).
  assert (Hv11 : forall a, addr_valid st5 a -> addr_valid st11 a).
  { intros a Ha. by apply addr_valid_updated, Hv10. }
  rewrite store_valid by (apply addr_valid_loaded, Hv11, Hv5, Hve).
  match goal with
  | |- context [arc_new_unlock ?a ?b ?c ?d ?e ?f ?g ?h ?i ?j ?s] =>
      destruct (arc_new_unlock_total a b c d e f g h i j s) as (st' & ->)
  end.
  by eexists _, _, _.
Qed.

Lemma arc_new_total fuel type beg end_ st :
  storage_wf st -> cache_ok st ->
  0 <= segments_num st < sc_config_get_max_loaded_segments ->
  sc_config_get_max_loaded_segments <= SC_ADDR_SEG_MAX ->
  (size (segments_cache st) < fuel)%nat ->
  Z.land sc_type_node type = 0 ->
  addr_valid st beg -> addr_valid st end_ ->
  flags_type (element_at st beg) <> 0 ->
  flags_type (element_at st end_) <> 0 ->
  (first_out_arc (element_at st beg) = addr_empty
   \/ (addr_valid st (first_out_arc (element_at st beg))
       /\ flags_type (element_at st (first_out_arc (element_at st beg))) <> 0)) ->
  (first_in_arc (element_at st end_) = addr_empty
   \/ (addr_valid st (first_in_arc (element_at st end_))
       /\ flags_type (element_at st (first_in_arc (element_at st end_))) <> 0)) ->
  exists addr st',
    sc_storage_arc_new ctx fuel type beg end_ st = Done addr st'
    /\ addr <> addr_empty.
Proof.
  intros Hwf Hok Hn Hmax Hfuel Hm Hvb Hve Htb Hte Hho Hhi.
  unfold sc_storage_arc_new. rewrite Hm. cbn [Z.eqb g_assert].
  unfold mbind at 1, M_bind at 1, bind at 1, ret at 1.
  destruct fuel as [|n]; [lia|]. cbn [arc_new_loop].
  match goal with
  | |- context [arc_new_pass ctx (S n) ?el beg end_] =>
      destruct (arc_new_pass_total (S n) el beg end_ st)
        as (r & addr & st' & Hpass & Hne); try done
  end.
  exists addr, st'. split; [|done].
  unfold mbind at 1, M_bind at 1, bind at 1. rewrite Hpass.
  apply addr_empty_iff in Hne.
  destruct (bool_decide (r = SC_RESULT_OK)); cbn [negb]; [|done].
  by rewrite Hne.
Qed.

End ArcReturns.

(** ** The third loop of the deletion, in any order *)

Section UnlockOrder.
Context `{sc_defines}.
Variable ctx : sc_memory_context.

Lemma lock_release_comm x y (l : gmap Z positive) :
  lock_release x (lock_release y l) = lock_release y (lock_release x l).
Proof.
  destruct (decide (x = y)) as [->|Hne]; [done|].
  unfold lock_release.
  destruct (l !! x) as [[n|n|]|] eqn:Hx, (l !! y) as [[m|m|]|] eqn:Hy;
    rewrite ?lookup_insert_ne, ?lookup_delete_ne, ?Hx, ?Hy by done;
    first [ done
          | by apply insert_insert_ne
          | by rewrite delete_insert_ne
          | by apply delete_delete ].
Qed.

Lemma unlocked_comm a b st :
  unlocked a (unlocked b st) = unlocked b (unlocked a st).
Proof.
  unfold unlocked.
  destruct (segments st !! seg a) as [sa|] eqn:Ha,
           (segments st !! seg b) as [sb|] eqn:Hb; simpl;
    rewrite ?Ha, ?Hb; try done.
  - destruct (decide (seg a = seg b)) as [He|Hne].
    + rewrite He in *. rewrite Ha in Hb. injection Hb as ->.
      rewrite !lookup_insert_eq. unfold with_segments, with_locks; simpl.
      rewrite !insert_insert_eq. by rewrite lock_release_comm.
    + rewrite !lookup_insert_ne by done. rewrite Ha, Hb.
      unfold with_segments; simpl. f_equal. by apply insert_insert_ne.
  - destruct (decide (seg a = seg b)) as [He|Hne].
    + rewrite He in *. congruence.
    + rewrite lookup_insert_ne by done. by rewrite Hb.
  - destruct (decide (seg a = seg b)) as [He|Hne].
    + rewrite He in *. congruence.
    + rewrite lookup_insert_ne by done. by rewrite Ha.
Qed.

Lemma foldr_unlocked_permutation l1 l2 st :
  l1 ≡ₚ l2 -> foldr unlocked st l1 = foldr unlocked st l2.
Proof.
  apply (foldr_permutation_proper (=) unlocked st).
  intros a b st'. apply unlocked_comm.
Qed.

(** The third loop on locks that can all be released: the storage it
    leaves does not depend on the order. *)
Lemma free_unlock_all_valid l addr st :
  Forall (addr_valid st) l.*1 ->
  exists last,
    free_unlock_all l addr st = Done last (foldr unlocked st l.*1)
    /\ last ∈ addr :: l.*1.
Proof.
  revert addr st. induction l as [|[k p] l IH]; intros addr st Hv; simpl.
  - exists addr. split; [done | apply list_elem_of_here].
  - apply Forall_cons in Hv as [Hk Hv].
    unfold mbind at 1, M_bind at 1, bind at 1.
    rewrite element_unlock_valid by done.
    destruct (IH k (unlocked k st)) as (last & -> & Hlast).
    { eapply Forall_impl; [exact Hv|]. intros a Ha.
      by apply addr_valid_unlocked. }
    exists last. split.
    + f_equal. rewrite <- (foldr_comm_acc unlocked (unlocked k)); [done|].
      intros x y. apply unlocked_comm.
    + apply list_elem_of_further. exact Hlast.
Qed.

Lemma free_finish_in_every_order lt to_erase to_unlock addr st a st1 :
  to_unlock ≡ₚ lt ->
  free_erase_all ctx lt to_erase addr st = Done a st1 ->
  Forall (addr_valid st1) lt.*1 ->
  exists last,
    free_finish ctx lt to_erase to_unlock addr st
    = Done SC_RESULT_OK (free_finished lt.*1 last st1)
    /\ last ∈ a :: lt.*1.
Proof.
  intros Hp Herase Hv. unfold free_finish.
  unfold mbind at 1, M_bind at 1, bind at 1. rewrite Herase.
  destruct (free_unlock_all_valid to_unlock a st1) as (last & Hu & Hlast).
  { by rewrite Hp. }
  unfold mbind at 1, M_bind at 1, bind at 1. rewrite Hu.
  exists last. split.
  - unfold free_finished. rewrite <- (foldr_unlocked_permutation _ _ _
      (fmap_Permutation fst _ _ Hp)). reflexivity.
  - by rewrite <- Hp.
Qed.

Lemma freed_in_every_order_spec fuel addr st tb st_c check :
  (forall t, g_hash_table_iter_order t ≡ₚ t) ->
  free_collect_all fuel addr st = Done (Some tb) st_c ->
  freed_in_every_order ctx (lock_table tb) (remove_table tb) addr st_c check
  = true ->
  exists st', sc_storage_element_free ctx fuel addr st = Done SC_RESULT_OK st'
              /\ check st' = true.
Proof.
  intros Hord Hcollect Hall.
  unfold sc_storage_element_free. unfold mbind at 1, M_bind at 1, bind at 1.
  rewrite Hcollect.
  unfold freed_in_every_order in Hall. rewrite forallb_forall in Hall.
  specialize (Hall (g_hash_table_iter_order (remove_table tb))).
  assert (Hin : In (g_hash_table_iter_order (remove_table tb))
                  (permutations (remove_table tb))).
  { apply list_elem_of_In, permutations_Permutation. symmetry. apply Hord. }
  specialize (Hall Hin).
  destruct (free_erase_all ctx (lock_table tb)
              (g_hash_table_iter_order (remove_table tb)) addr st_c)
    as [a st1| |] eqn:Herase; try discriminate.
  apply andb_true_iff in Hall as [Hv Hall].
  apply bool_decide_eq_true_1 in Hv.
  destruct (free_finish_in_every_order (lock_table tb) _
              (g_hash_table_iter_order (lock_table tb)) _ _ _ _
              (Hord _) Herase Hv) as (last & -> & Hlast).
  eexists. split; [reflexivity|].
  rewrite forallb_forall in Hall. apply Hall. by apply list_elem_of_In.
Qed.

End UnlockOrder.

(** ** A traversal that does not end *)

Section Cycle.
Context `{sc_defines}.

Lemma follow_S next n st a :
  follow next (S n) st a = next (element_at st (follow next n st a)).
Proof.
  revert a. induction n as [|n IH]; intros a; [done|].
  change (follow next (S (S n)) st a)
    with (follow next (S n) st (next (element_at st a))).
  by rewrite IH.
Qed.

(** Along a chain that comes back to where it started without meeting the
    empty address, no amount of fuel ends the traversal. *)
Lemma arc_chain_cycle next k st a :
  follow next (S k) st a = a ->
  (forall i, (i <= k)%nat -> SC_ADDR_IS_EMPTY (follow next i st a) = false) ->
  forall n, arc_chain next n st a = None.
Proof.
  intros Hback Hne.
  assert (Hall : forall n i, (i <= k)%nat ->
            arc_chain next n st (follow next i st a) = None).
  { induction n as [|n IH]; intros i Hi; [done|].
    simpl. rewrite Hne by done. rewrite <- follow_S.
    destruct (decide (i = k)) as [->|Hik].
    - rewrite Hback. assert (H0 := IH 0%nat (Nat.le_0_l k)).
      simpl in H0. by rewrite H0.
    - by rewrite IH by lia. }
  intros n. apply (Hall n 0%nat). lia.
Qed.

End Cycle.

(** Runs [sc_storage_element_free] on a concrete storage for every order of
    iteration of both tables, and [check] on the storage it returns in. *)
Ltac freed_in_every_order ord Hord fuel addr st check :=
  let r := eval vm_compute in (@free_collect_all (demo_order ord) fuel addr st) in
  match r with
  | Done (Some ?tb) ?st_c =>
      destruct (@freed_in_every_order_spec (demo_order ord) demo_ctx fuel addr
                  st tb st_c check Hord)
        as (st' & Hrun & Hcheck);
      [vm_compute; reflexivity | vm_compute; reflexivity | ]
  end.

(** * The claims, on the functions of [sc_storage.c] *)

(** ** C1 *)

(** Scenario 5: [free (b)] erases b, e1 and e2 and leaves [a.first_out_arc]
    and [c.first_in_arc] empty, in whatever order the tables are iterated. *)
Lemma free_chain_scenario (ord : hash_table -> hash_table) :
  (forall t, ord t ≡ₚ t) ->
  exists st',
    @sc_storage_element_free (demo_order ord) demo_ctx 8 (mk_addr 0 2)
      chain_demo = Done SC_RESULT_OK st'
    /\ flags_type (@element_at (demo_order ord) st' (mk_addr 0 2)) = 0
    /\ flags_type (@element_at (demo_order ord) st' (mk_addr 0 4)) = 0
    /\ flags_type (@element_at (demo_order ord) st' (mk_addr 0 5)) = 0
    /\ first_out_arc (@element_at (demo_order ord) st' (mk_addr 0 1))
       = addr_empty
    /\ first_in_arc (@element_at (demo_order ord) st' (mk_addr 0 3))
       = addr_empty.
Proof.
  intros Hord.
  free_in_every_order ord Hord 8%nat (mk_addr 0 2) chain_demo
    [mk_addr 0 2; mk_addr 0 4; mk_addr 0 5; mk_addr 0 1; mk_addr 0 3]
    (fun l : list sc_element =>
       match l with
       | [b; e1; e2; a; c] =>
           (flags_type b =? 0) && (flags_type e1 =? 0) && (flags_type e2 =? 0)
           && bool_decide (first_out_arc a = addr_empty)
           && bool_decide (first_in_arc c = addr_empty)
       | _ => false
       end).
  exists st'. split; [exact Hrun|]. simpl in Hcheck.
  repeat (apply andb_true_iff in Hcheck as [Hcheck ?]).
  repeat split;
    first [by apply Z.eqb_eq | by eapply bool_decide_eq_true_1].
Qed.

(** C1, as the code behaves.  In [closure_demo] the arc y leaves x, and the
    arcs e' and e end in y, so x, e, y and e' are what the deletion of x is
    to erase.  [sc_storage_element_free (x)] answers SC_RESULT_OK and erases
    x, e and y, but e' is left in the storage, with its end y erased: when
    e was collected, [y.first_in_arc] was overwritten with [e.next_in_arc],
    so the walk over the input arcs of y never met e'.  This holds in
    whatever order the hash tables are iterated. *)
Theorem free_misses_arc_of_closure (ord : hash_table -> hash_table) :
  (forall t, ord t ≡ₚ t) ->
  @out_arcs demo 3 closure_demo (mk_addr 0 1) = Some [mk_addr 0 5; mk_addr 0 4]
  /\ @in_arcs demo 3 closure_demo (mk_addr 0 4)
     = Some [mk_addr 0 6; mk_addr 0 5]
  /\ exists st',
       @sc_storage_element_free (demo_order ord) demo_ctx 8 (mk_addr 0 1)
         closure_demo = Done SC_RESULT_OK st'
       /\ flags_type (@element_at (demo_order ord) st' (mk_addr 0 1)) = 0
       /\ flags_type (@element_at (demo_order ord) st' (mk_addr 0 5)) = 0
       /\ flags_type (@element_at (demo_order ord) st' (mk_addr 0 4)) = 0
       /\ flags_type (@element_at (demo_order ord) st' (mk_addr 0 6)) = 8
       /\ arc_end (@element_at (demo_order ord) st' (mk_addr 0 6))
          = mk_addr 0 4.
Proof.
  intros Hord. split; [reflexivity|]. split; [reflexivity|].
  free_in_every_order ord Hord 8%nat (mk_addr 0 1) closure_demo
    [mk_addr 0 1; mk_addr 0 5; mk_addr 0 4; mk_addr 0 6]
    (fun l : list sc_element =>
       match l with
       | [x; e; y; e'] =>
           (flags_type x =? 0) && (flags_type e =? 0) && (flags_type y =? 0)
           && (flags_type e' =? 8)
           && bool_decide (arc_end e' = mk_addr 0 4)
       | _ => false
       end).
  exists st'. split; [exact Hrun|]. simpl in Hcheck.
  repeat (apply andb_true_iff in Hcheck as [Hcheck ?]).
  repeat split;
    first [by apply Z.eqb_eq | by eapply bool_decide_eq_true_1].
Qed.

Lemma free_misses_arc_of_closure_witness :
  (forall t : hash_table, id t ≡ₚ t) /\
  exists st',
    @sc_storage_element_free (demo_order id) demo_ctx 8 (mk_addr 0 1)
      closure_demo = Done SC_RESULT_OK st'
    /\ flags_type (@element_at (demo_order id) st' (mk_addr 0 4)) = 0
    /\ flags_type (@element_at (demo_order id) st' (mk_addr 0 6)) = 8.
Proof.
  assert (Hord : forall t : hash_table, id t ≡ₚ t) by reflexivity.
  split; [exact Hord|].
  destruct (free_misses_arc_of_closure id Hord)
    as (_ & _ & st' & Hrun & _ & _ & Hy & He' & _).
  exists st'. split; [exact Hrun|]. split; [exact Hy | exact He'].
Defined.

(** ** C2 *)

(** The part of the claim that holds.  When [sc_storage_arc_new] returns an
    address [new] that is not empty, the new arc is the head of both lists:
    [beg.first_out_arc] and [end.first_in_arc] are [new],
    [new.next_out_arc] and [new.next_in_arc] are the heads from before the
    call, and a head that existed has [new] as its [prev_out_arc] (resp.
    [prev_in_arc]).  When the list of [beg] (resp. [end_]) before the call
    ends at the empty address and holds only elements that are not empty,
    the traversal after the call meets [new] first and nowhere else. *)
Lemma arc_new_prepends_to_both_lists `{sc_defines}
    (ctx : sc_memory_context) (fuel : nat) (type : Z) (beg end_ : sc_addr)
    (st : sc_storage) (new : sc_addr) (st' : sc_storage) :
  storage_wf st ->
  sc_storage_arc_new ctx fuel type beg end_ st = Done new st' ->
  new <> addr_empty ->
  let h_out := first_out_arc (element_at st beg) in
  let h_in := first_in_arc (element_at st end_) in
  first_out_arc (element_at st' beg) = new
  /\ first_in_arc (element_at st' end_) = new
  /\ arc_next_out_arc (element_at st' new) = h_out
  /\ arc_next_in_arc (element_at st' new) = h_in
  /\ (h_out <> addr_empty -> arc_prev_out_arc (element_at st' h_out) = new)
  /\ (h_in <> addr_empty -> arc_prev_in_arc (element_at st' h_in) = new)
  /\ (forall n l, out_arcs n st beg = Some l -> all_alive st l ->
        out_arcs (S n) st' beg = Some (new :: l) /\ new ∉ l)
  /\ (forall n l, in_arcs n st end_ = Some l -> all_alive st l ->
        in_arcs (S n) st' end_ = Some (new :: l) /\ new ∉ l).
Proof.
  intros Hwf Hrun Hne h_out h_in.
  apply arc_new_spec in Hrun as [_ Hc]; try done.
  destruct Hc as (_ & _ & Ht & Hfo & Hfi & Hno & Hni & Hpo & Hpi & _ & _ & _
                  & Hothers & _).
  split; [done|]. split; [done|]. split; [done|]. split; [done|].
  split; [done|]. split; [done|]. split.
  - intros n l Hl Halive. unfold out_arcs in *. rewrite Hfo.
    rewrite arc_chain_cons by done. rewrite Hno.
    destruct (arc_chain_frame arc_next_out_arc n st st' _ l new Hl Halive Ht)
      as [-> Hnotin]; [|done].
    intros x Hx. by apply Hothers.
  - intros n l Hl Halive. unfold in_arcs in *. rewrite Hfi.
    rewrite arc_chain_cons by done. rewrite Hni.
    destruct (arc_chain_frame arc_next_in_arc n st st' _ l new Hl Halive Ht)
      as [-> Hnotin]; [|done].
    intros x Hx. by apply Hothers.
Qed.

Lemma arc_new_prepends_to_both_lists_witness :
  @storage_wf demo demo_one_arc /\
  @sc_storage_arc_new demo demo_ctx 4 0 (mk_addr 0 1) (mk_addr 0 2)
    demo_one_arc = Done (mk_addr 0 4) demo_two_arcs /\
  mk_addr 0 4 <> addr_empty /\
  @out_arcs demo 2 demo_one_arc (mk_addr 0 1) = Some [mk_addr 0 3] /\
  @all_alive demo demo_one_arc [mk_addr 0 3] /\
  first_out_arc (@element_at demo demo_two_arcs (mk_addr 0 1)) = mk_addr 0 4 /\
  arc_prev_out_arc (@element_at demo demo_two_arcs (mk_addr 0 3))
  = mk_addr 0 4 /\
  @out_arcs demo 3 demo_two_arcs (mk_addr 0 1)
  = Some [mk_addr 0 4; mk_addr 0 3].
Proof.
  assert (Hwf : @storage_wf demo demo_one_arc)
    by (apply (bool_decide_unpack _); vm_compute; reflexivity).
  assert (Hrun : @sc_storage_arc_new demo demo_ctx 4 0 (mk_addr 0 1)
                   (mk_addr 0 2) demo_one_arc
                 = Done (mk_addr 0 4) demo_two_arcs)
    by (vm_compute; reflexivity).
  assert (Hne : mk_addr 0 4 <> addr_empty) by discriminate.
  assert (Hl : @out_arcs demo 2 demo_one_arc (mk_addr 0 1)
               = Some [mk_addr 0 3]) by reflexivity.
  assert (Halive : @all_alive demo demo_one_arc [mk_addr 0 3])
    by (apply (bool_decide_unpack _); vm_compute; reflexivity).
  destruct (@arc_new_prepends_to_both_lists demo demo_ctx 4 0 (mk_addr 0 1)
              (mk_addr 0 2) demo_one_arc (mk_addr 0 4) demo_two_arcs
              Hwf Hrun Hne)
    as (Hfo & _ & _ & _ & Hpo & _ & Hout & _).
  split; [exact Hwf|]. split; [exact Hrun|]. split; [exact Hne|].
  split; [exact Hl|]. split; [exact Halive|]. split; [exact Hfo|].
  split; [apply Hpo; discriminate|].
  apply (Hout 2%nat [mk_addr 0 3] Hl Halive).
Defined.

(** C2, as the code behaves.  In [splice_demo] the deletion of a leaves the
    erased arc e = (0, 5) as the head of the input list of t.  Three arcs
    are then made from z to t: the allocation hands out the erased slots
    (0, 1), (0, 4) and (0, 5) in turn.  Before the third call the input
    list of t is (0, 4), (0, 1), (0, 5), so the slot the third arc is given
    is still the last of the list it is prepended to: after the call
    [t.first_in_arc] is (0, 5) and three links along [next_in_arc] lead
    back to (0, 5).  The traversal from [t.first_in_arc] meets the new arc
    again and again and never ends.  This holds in whatever order the hash
    tables of the deletion are iterated. *)
Theorem arc_new_on_listed_slot_closes_a_cycle (ord : hash_table -> hash_table) :
  (forall t, ord t ≡ₚ t) ->
  exists st1 st2 st3 st4,
    @sc_storage_element_free (demo_order ord) demo_ctx 8 (mk_addr 0 1)
      splice_demo = Done SC_RESULT_OK st1
    /\ @sc_storage_arc_new (demo_order ord) demo_ctx 4 8 (mk_addr 0 2)
         (mk_addr 0 3) st1 = Done (mk_addr 0 1) st2
    /\ @sc_storage_arc_new (demo_order ord) demo_ctx 4 8 (mk_addr 0 2)
         (mk_addr 0 3) st2 = Done (mk_addr 0 4) st3
    /\ @in_arcs (demo_order ord) 4 st3 (mk_addr 0 3)
       = Some [mk_addr 0 4; mk_addr 0 1; mk_addr 0 5]
    /\ flags_type (@element_at (demo_order ord) st3 (mk_addr 0 5)) = 0
    /\ @sc_storage_arc_new (demo_order ord) demo_ctx 4 8 (mk_addr 0 2)
         (mk_addr 0 3) st3 = Done (mk_addr 0 5) st4
    /\ first_in_arc (@element_at (demo_order ord) st4 (mk_addr 0 3))
       = mk_addr 0 5
    /\ @follow (demo_order ord) arc_next_in_arc 3 st4 (mk_addr 0 5)
       = mk_addr 0 5
    /\ forall n, @in_arcs (demo_order ord) n st4 (mk_addr 0 3) = None.
Proof.
  intros Hord.
  freed_in_every_order ord Hord 8%nat (mk_addr 0 1) splice_demo
    (@third_arc_closes_cycle (demo_order ord) demo_ctx 4 8 (mk_addr 0 2)
       (mk_addr 0 3) (mk_addr 0 1) (mk_addr 0 4) (mk_addr 0 5)).
  unfold third_arc_closes_cycle in Hcheck.
  destruct (@sc_storage_arc_new (demo_order ord) demo_ctx 4 8 (mk_addr 0 2)
              (mk_addr 0 3) st') as [b1 st2| |] eqn:H1;
    [|discriminate Hcheck..].
  destruct (@sc_storage_arc_new (demo_order ord) demo_ctx 4 8 (mk_addr 0 2)
              (mk_addr 0 3) st2) as [b2 st3| |] eqn:H2;
    [|discriminate Hcheck..].
  destruct (@sc_storage_arc_new (demo_order ord) demo_ctx 4 8 (mk_addr 0 2)
              (mk_addr 0 3) st3) as [b3 st4| |] eqn:H3;
    [|discriminate Hcheck..].
  apply andb_true_iff in Hcheck as [Hcheck Hfollow].
  apply andb_true_iff in Hcheck as [Hcheck Hhead].
  apply andb_true_iff in Hcheck as [Hcheck Hzero].
  apply andb_true_iff in Hcheck as [Hcheck Hlist].
  apply andb_true_iff in Hcheck as [Hcheck Hb3].
  apply andb_true_iff in Hcheck as [Hb1 Hb2].
  apply bool_decide_eq_true_1 in Hb1, Hb2, Hb3, Hlist, Hhead, Hfollow.
  apply Z.eqb_eq in Hzero. subst b1 b2 b3.
  injection Hfollow as Hf1 Hf2 Hf3.
  exists st', st2, st3, st4.
  split; [exact Hrun|]. split; [exact H1|]. split; [exact H2|].
  split; [exact Hlist|]. split; [exact Hzero|]. split; [exact H3|].
  split; [exact Hhead|]. split; [exact Hf3|].
  intros n. unfold in_arcs. rewrite Hhead.
  apply (arc_chain_cycle arc_next_in_arc 2); [exact Hf3|].
  intros i Hi.
  destruct i as [|[|[|i]]]; [reflexivity| | |lia].
  - cbn [follow]. rewrite Hf1. reflexivity.
  - cbn [follow]. rewrite Hf2. reflexivity.
Qed.

Lemma arc_new_on_listed_slot_closes_a_cycle_witness :
  (forall t : hash_table, id t ≡ₚ t) /\
  exists st3 st4,
    @in_arcs demo 4 st3 (mk_addr 0 3)
    = Some [mk_addr 0 4; mk_addr 0 1; mk_addr 0 5]
    /\ @sc_storage_arc_new demo demo_ctx 4 8 (mk_addr 0 2) (mk_addr 0 3) st3
       = Done (mk_addr 0 5) st4
    /\ forall n, @in_arcs demo n st4 (mk_addr 0 3) = None.
Proof.
  assert (Hord : forall t : hash_table, id t ≡ₚ t) by reflexivity.
  split; [exact Hord|].
  destruct (arc_new_on_listed_slot_closes_a_cycle id Hord)
    as (st1 & st2 & st3 & st4 & _ & _ & _ & Hl & _ & Hrun & _ & _ & Hn).
  exists st3, st4. split; [exact Hl|]. split; [exact Hrun | exact Hn].
Defined.

(** ** C3 *)

(** The same loss without arcs on arcs: in [fan_in_demo] the input list of
    b is e2, e.  Deleting a erases a and e only, yet [b.first_in_arc] ends
    up empty although e2 : c -> b is still in the storage: the first loop
    assigns [e.next_in_arc] to the head without asking whether e is the
    head. *)
Lemma free_unlinks_surviving_arc (ord : hash_table -> hash_table) :
  (forall t, ord t ≡ₚ t) ->
  @in_arcs demo 3 fan_in_demo (mk_addr 0 2) = Some [mk_addr 0 5; mk_addr 0 4]
  /\ exists st',
       @sc_storage_element_free (demo_order ord) demo_ctx 8 (mk_addr 0 1)
         fan_in_demo = Done SC_RESULT_OK st'
       /\ flags_type (@element_at (demo_order ord) st' (mk_addr 0 5)) = 8
       /\ arc_end (@element_at (demo_order ord) st' (mk_addr 0 5))
          = mk_addr 0 2
       /\ first_in_arc (@element_at (demo_order ord) st' (mk_addr 0 2))
          = addr_empty.
Proof.
  intros Hord. split; [reflexivity|].
  free_in_every_order ord Hord 8%nat (mk_addr 0 1) fan_in_demo
    [mk_addr 0 5; mk_addr 0 2]
    (fun l : list sc_element =>
       match l with
       | [e2; b] =>
           (flags_type e2 =? 8) && bool_decide (arc_end e2 = mk_addr 0 2)
           && bool_decide (first_in_arc b = addr_empty)
       | _ => false
       end).
  exists st'. split; [exact Hrun|]. simpl in Hcheck.
  repeat (apply andb_true_iff in Hcheck as [Hcheck ?]).
  repeat split;
    first [by apply Z.eqb_eq | by eapply bool_decide_eq_true_1].
Qed.

(** C3, as the code behaves.  In [splice_demo] the input list of the node t
    is e2, e, and the deletion of a erases both arcs.  When e2 is collected
    after e, [t.first_in_arc] is overwritten with [e2.next_in_arc], which is
    e.  In the second loop e is then the head of the input list of its end,
    but the fix-up compares [addr] with [b_el->first_in_arc], the head of
    the input list of the begin element a, and leaves [t.first_in_arc]
    alone: after [sc_storage_element_free (a)] the node t still has the
    erased e as its first input arc, in whatever order the hash tables are
    iterated. *)
Theorem free_leaves_erased_arc_as_head (ord : hash_table -> hash_table) :
  (forall t, ord t ≡ₚ t) ->
  @in_arcs demo 3 splice_demo (mk_addr 0 3) = Some [mk_addr 0 6; mk_addr 0 5]
  /\ exists st',
       @sc_storage_element_free (demo_order ord) demo_ctx 8 (mk_addr 0 1)
         splice_demo = Done SC_RESULT_OK st'
       /\ flags_type (@element_at (demo_order ord) st' (mk_addr 0 5)) = 0
       /\ flags_type (@element_at (demo_order ord) st' (mk_addr 0 6)) = 0
       /\ flags_type (@element_at (demo_order ord) st' (mk_addr 0 3)) = 1
       /\ first_in_arc (@element_at (demo_order ord) st' (mk_addr 0 3))
          = mk_addr 0 5.
Proof.
  intros Hord. split; [reflexivity|].
  free_in_every_order ord Hord 8%nat (mk_addr 0 1) splice_demo
    [mk_addr 0 5; mk_addr 0 6; mk_addr 0 3]
    (fun l : list sc_element =>
       match l with
       | [e; e2; t] =>
           (flags_type e =? 0) && (flags_type e2 =? 0) && (flags_type t =? 1)
           && bool_decide (first_in_arc t = mk_addr 0 5)
       | _ => false
       end).
  exists st'. split; [exact Hrun|]. simpl in Hcheck.
  repeat (apply andb_true_iff in Hcheck as [Hcheck ?]).
  repeat split;
    first [by apply Z.eqb_eq | by eapply bool_decide_eq_true_1].
Qed.

Lemma free_leaves_erased_arc_as_head_witness :
  (forall t : hash_table, id t ≡ₚ t) /\
  exists st',
    @sc_storage_element_free (demo_order id) demo_ctx 8 (mk_addr 0 1)
      splice_demo = Done SC_RESULT_OK st'
    /\ flags_type (@element_at (demo_order id) st' (mk_addr 0 5)) = 0
    /\ first_in_arc (@element_at (demo_order id) st' (mk_addr 0 3))
       = mk_addr 0 5.
Proof.
  assert (Hord : forall t : hash_table, id t ≡ₚ t) by reflexivity.
  split; [exact Hord|].
  destruct (free_leaves_erased_arc_as_head id Hord)
    as (_ & st' & Hrun & He & _ & _ & Hhead).
  exists st'. split; [exact Hrun|]. split; [exact He | exact Hhead].
Defined.

(** ** C4 *)

(** C4, as the code behaves.  Once [segments_num] has reached the configured
    limit, [sc_storage_node_new] and [sc_storage_link_new] return the empty
    address and leave the whole storage, [segments_num] included, as it was.
    [sc_storage_arc_new] between two elements that can be locked does not
    return at all: the allocation hands back a null pointer and
    [g_assert (tmp_el != 0)] stops the process. *)
Theorem allocation_at_segment_limit `{sc_defines}
    (ctx : sc_memory_context) (fuel : nat) (type : Z) (beg end_ : sc_addr)
    (st : sc_storage) :
  sc_config_get_max_loaded_segments <= segments_num st ->
  Z.land sc_type_arc_mask type = 0 ->
  Z.land sc_type_node type = 0 ->
  addr_valid st beg -> addr_valid st end_ ->
  first_out_arc (element_at st beg) = addr_empty
    \/ addr_valid st (first_out_arc (element_at st beg)) ->
  first_in_arc (element_at st end_) = addr_empty
    \/ addr_valid st (first_in_arc (element_at st end_)) ->
  sc_storage_node_new ctx fuel type st = Done addr_empty st
  /\ sc_storage_link_new ctx fuel st = Done addr_empty st
  /\ sc_storage_arc_new ctx (S fuel) type beg end_ st = Fault.
Proof.
  intros Hcap Hma Hmn Hvb Hve Hho Hhi.
  split; [by apply node_new_at_capacity|].
  split; [by apply link_new_at_capacity|].
  by apply arc_new_at_capacity.
Qed.

Lemma allocation_at_segment_limit_witness :
  @sc_storage_node_new capacity_demo demo_ctx 4 0 storage_empty
  = Done (mk_addr 0 1) capacity_one_node /\
  @sc_config_get_max_loaded_segments capacity_demo
  <= segments_num capacity_one_node /\
  @sc_storage_node_new capacity_demo demo_ctx 4 0 capacity_one_node
  = Done addr_empty capacity_one_node /\
  @sc_storage_link_new capacity_demo demo_ctx 4 capacity_one_node
  = Done addr_empty capacity_one_node /\
  @sc_storage_arc_new capacity_demo demo_ctx 5 0 (mk_addr 0 1) (mk_addr 0 1)
    capacity_one_node = Fault.
Proof.
  assert (Hcap : @sc_config_get_max_loaded_segments capacity_demo
                 <= segments_num capacity_one_node) by (vm_compute; discriminate).
  assert (Hma : Z.land (@sc_type_arc_mask capacity_demo) 0 = 0) by reflexivity.
  assert (Hmn : Z.land (@sc_type_node capacity_demo) 0 = 0) by reflexivity.
  assert (Hv : @addr_valid capacity_demo capacity_one_node (mk_addr 0 1))
    by (split; [reflexivity | vm_compute; eauto]).
  assert (Hho : first_out_arc
                  (@element_at capacity_demo capacity_one_node (mk_addr 0 1))
                = addr_empty
                \/ @addr_valid capacity_demo capacity_one_node
                     (first_out_arc
                        (@element_at capacity_demo capacity_one_node
                           (mk_addr 0 1))))
    by (left; reflexivity).
  assert (Hhi : first_in_arc
                  (@element_at capacity_demo capacity_one_node (mk_addr 0 1))
                = addr_empty
                \/ @addr_valid capacity_demo capacity_one_node
                     (first_in_arc
                        (@element_at capacity_demo capacity_one_node
                           (mk_addr 0 1))))
    by (left; reflexivity).
  split; [vm_compute; reflexivity|]. split; [exact Hcap|].
  apply (@allocation_at_segment_limit capacity_demo demo_ctx 4 0
           (mk_addr 0 1) (mk_addr 0 1) capacity_one_node
           Hcap Hma Hmn Hv Hv Hho Hhi).
Defined.

(** ** C5 *)

(** C5, as the code behaves.  [sc_storage_element_free] on an address that
    can be locked and holds an empty element answers SC_RESULT_ERROR and
    changes no element, but it returns with the lock it has just taken on
    the address still held: the storage it leaves is [locked addr st]. *)
Theorem free_of_empty_element_keeps_lock `{sc_defines}
    (ctx : sc_memory_context) (fuel : nat) (st : sc_storage) (addr : sc_addr) :
  addr_valid st addr ->
  flags_type (element_at st addr) = 0 ->
  sc_storage_element_free ctx fuel addr st
  = Done SC_RESULT_ERROR (locked addr st)
  /\ lock_count (locked addr st) addr = (lock_count st addr + 1)%N
  /\ forall a, element_at (locked addr st) a = element_at st a.
Proof.
  intros Hv Ht. split; [|split].
  - unfold sc_storage_element_free, free_collect_all.
    unfold mbind, M_bind, bind. rewrite element_lock_valid by done. simpl.
    rewrite load_valid by (apply addr_valid_loaded; by apply addr_valid_locked).
    change (slot (locked addr st) (seg addr, offset addr))
      with (element_at (locked addr st) addr).
    by rewrite element_at_locked, Ht.
  - apply lock_count_locked, Hv.
  - intros a. apply element_at_locked.
Qed.

Lemma free_of_empty_element_keeps_lock_witness :
  @addr_valid demo demo_two_nodes (mk_addr 0 9) /\
  flags_type (@element_at demo demo_two_nodes (mk_addr 0 9)) = 0 /\
  @sc_storage_element_free demo demo_ctx 8 (mk_addr 0 9) demo_two_nodes
  = Done SC_RESULT_ERROR (locked (mk_addr 0 9) demo_two_nodes) /\
  lock_count demo_two_nodes (mk_addr 0 9) = 0%N /\
  lock_count (locked (mk_addr 0 9) demo_two_nodes) (mk_addr 0 9) = 1%N.
Proof.
  assert (Hv : @addr_valid demo demo_two_nodes (mk_addr 0 9))
    by (split; [reflexivity | vm_compute; eauto]).
  assert (Ht : flags_type (@element_at demo demo_two_nodes (mk_addr 0 9)) = 0)
    by reflexivity.
  split; [exact Hv|]. split; [exact Ht|].
  split; [|split; reflexivity].
  apply (@free_of_empty_element_keeps_lock demo demo_ctx 8 demo_two_nodes
           (mk_addr 0 9) Hv Ht).
Defined.

(** ** C6 *)

(** C6. After [sc_storage_node_new] (with a type without arc-class bits, as
    its assertion demands), [sc_storage_link_new] or [sc_storage_arc_new]
    has returned an address that is not empty, [sc_storage_get_element_type]
    on that address answers SC_RESULT_OK with the composed type:
    [sc_type_node | type], [sc_type_link], or for an arc [type] itself, with
    [sc_type_arc_common] ORed in when [type] has no bit of
    [sc_type_arc_mask]. *)
Theorem created_element_has_composed_type `{sc_defines}
    (ctx : sc_memory_context) (fuel : nat) (c : creation)
    (st : sc_storage) (addr : sc_addr) (st' : sc_storage) :
  storage_wf st ->
  create ctx fuel c st = Done addr st' ->
  addr <> addr_empty ->
  sc_storage_get_element_type addr st'
  = Done (SC_RESULT_OK, Some (composed_type c)) st'.
Proof.
  intros Hwf Hrun Hne.
  destruct (create_type ctx fuel c st addr st' Hwf Hrun Hne) as [Hv <-].
  by apply get_element_type_valid.
Qed.

Lemma created_element_has_composed_type_witness :
  @storage_wf demo demo_two_nodes /\
  @create demo demo_ctx 4 (CreateArc 0 (mk_addr 0 1) (mk_addr 0 2))
    demo_two_nodes = Done (mk_addr 0 3) demo_one_arc /\
  mk_addr 0 3 <> addr_empty /\
  @sc_storage_get_element_type demo (mk_addr 0 3) demo_one_arc
  = Done (SC_RESULT_OK, Some 8) demo_one_arc.
Proof.
  assert (Hwf : @storage_wf demo demo_two_nodes)
    by (apply (bool_decide_unpack _); vm_compute; reflexivity).
  assert (Hrun : @create demo demo_ctx 4
                   (CreateArc 0 (mk_addr 0 1) (mk_addr 0 2)) demo_two_nodes
                 = Done (mk_addr 0 3) demo_one_arc)
    by (vm_compute; reflexivity).
  assert (Hne : mk_addr 0 3 <> addr_empty) by discriminate.
  split; [exact Hwf|]. split; [exact Hrun|]. split; [exact Hne|].
  apply (@created_element_has_composed_type demo demo_ctx 4
           (CreateArc 0 (mk_addr 0 1) (mk_addr 0 2)) demo_two_nodes
           (mk_addr 0 3) demo_one_arc Hwf Hrun Hne).
Defined.

(** ** C7 *)

(** C7. [sc_storage_change_element_subtype] answers
    SC_RESULT_ERROR_INVALID_PARAMS exactly when [type] has a bit of
    [sc_type_element_mask], and then changes nothing.  Otherwise, on an
    address that can be locked, it answers SC_RESULT_OK; the class bits of
    the type of the slot stay, the other bits become those of [type], every
    other field of the element and every other element stay as they were. *)
Theorem change_element_subtype_overwrites_subtype_only `{sc_defines}
    (st : sc_storage) (addr : sc_addr) (type : Z) :
  ((exists st', sc_storage_change_element_subtype addr type st
                = Done SC_RESULT_ERROR_INVALID_PARAMS st')
   <-> Z.land type sc_type_element_mask <> 0)
  /\ (Z.land type sc_type_element_mask <> 0 ->
      sc_storage_change_element_subtype addr type st
      = Done SC_RESULT_ERROR_INVALID_PARAMS st)
  /\ (Z.land type sc_type_element_mask = 0 -> addr_valid st addr ->
      exists st',
        sc_storage_change_element_subtype addr type st = Done SC_RESULT_OK st'
        /\ element_at st' addr
           = set_flags_type (flags_type (element_at st' addr))
               (element_at st addr)
        /\ Z.land (flags_type (element_at st' addr)) sc_type_element_mask
           = Z.land (flags_type (element_at st addr)) sc_type_element_mask
        /\ Z.land (flags_type (element_at st' addr))
             (Z.lnot sc_type_element_mask) = type
        /\ (forall a, a <> addr -> element_at st' a = element_at st a)
        /\ event_log st' = event_log st
        /\ forall a, lock_count st' a = lock_count st a).
Proof.
  assert (Hbad : Z.land type sc_type_element_mask <> 0 ->
            sc_storage_change_element_subtype addr type st
            = Done SC_RESULT_ERROR_INVALID_PARAMS st).
  { intros Hm. unfold sc_storage_change_element_subtype.
    apply Z.eqb_neq in Hm. by rewrite Hm. }
  split; [|split; [exact Hbad|]].
  - split; [|eauto]. intros [st' Hrun] Hm.
    destruct (decide (addr_valid st addr)) as [Hv|Hv].
    + by rewrite change_element_subtype_valid in Hrun.
    + unfold sc_storage_change_element_subtype in Hrun. rewrite Hm in Hrun.
      simpl in Hrun. unfold mbind, M_bind, bind in Hrun.
      by rewrite element_lock_invalid in Hrun.
  - intros Hm Hv. eexists. split; [by apply change_element_subtype_valid|].
    assert (Hs := addr_valid_loaded _ _ Hv).
    rewrite element_at_updated_same by done. simpl.
    split; [done|]. split; [apply subtype_changed_class|].
    split; [by apply subtype_changed_subtype|].
    split; [intros a Ha; by apply element_at_updated_ne|].
    split; [apply event_log_updated|].
    intros a. destruct Hs as [s Hs]. unfold lock_count, updated.
    rewrite Hs. simpl. destruct (decide (seg addr = seg a)) as [He|Hne].
    + by rewrite <- He, lookup_insert_eq, Hs.
    + by rewrite lookup_insert_ne.
Qed.

(** ** C8 *)

(** C8, as amended.  When [sc_storage_element_free] answers SC_RESULT_OK,
    the deletion set is the [remove_table] its first loop has built: these
    are the elements erased on return, and no other element changes its
    type.  For each of them the sink was told by
    [sc_event_notify_element_deleted], and for each that was an arc
    SC_EVENT_REMOVE_OUTPUT_ARC was emitted on its begin and
    SC_EVENT_REMOVE_INPUT_ARC on its end.  SC_EVENT_REMOVE_ELEMENT is
    emitted once per call, as the last event, and not once per deleted
    element. *)
Theorem free_notifies_every_deleted_element `{sc_defines}
    (ctx : sc_memory_context) (fuel : nat) (addr : sc_addr)
    (st st' : sc_storage) :
  (forall t, g_hash_table_iter_order t ≡ₚ t) ->
  sc_storage_element_free ctx fuel addr st = Done SC_RESULT_OK st' ->
  exists tb st_c evs last,
    free_collect_all fuel addr st = Done (Some tb) st_c
    /\ (forall a el, (a, el) ∈ remove_table tb ->
          flags_type (element_at st' a) = 0)
    /\ (forall a, flags_type (element_at st' a) <> flags_type (element_at st a) ->
          exists el, (a, el) ∈ remove_table tb)
    /\ event_log st'
       = event_log st ++ evs ++ [Emitted last SC_EVENT_REMOVE_ELEMENT last]
    /\ Forall (fun ev => is_remove_element ev = false) evs
    /\ forall a el, (a, el) ∈ remove_table tb -> notified evs st a.
Proof.
  intros Hord Hrun. unfold sc_storage_element_free in Hrun.
  apply bind_Done in Hrun as ([tb|] & st_c & Hcollect & Hrun);
    [|by apply ret_Done in Hrun as [[=] _]].
  destruct (free_collect_all_collecting _ _ _ _ _ Hcollect)
    as [(Hcore & _ & _ & evs & Hlog & Hquiet & _ & Hcov) Hlist].
  unfold free_finish in Hrun.
  apply bind_Done in Hrun as (a1 & st2 & Herase & Hrun).
  apply free_erase_all_Done in Herase as [[Hev2 Ht2] Hz2].
  apply bind_Done in Hrun as (a2 & st3 & Hunlock & Hrun).
  destruct (free_unlock_all_total (g_hash_table_iter_order (lock_table tb))
              a1 st2) as (a2' & st3' & Hunlock' & Hs3).
  rewrite Hunlock in Hunlock'. injection Hunlock' as <- <-.
  apply bind_Done in Hrun as ([] & st4 & Hemit & Hrun).
  apply event_emit_Done in Hemit as ->.
  apply ret_Done in Hrun as [_ <-].
  exists tb, st_c, evs, a2. split; [done|].
  assert (Hel : forall x, element_at
                  (with_event_log
                     (event_log st3 ++ [Emitted a2 SC_EVENT_REMOVE_ELEMENT a2])
                     st3) x = element_at st2 x).
  { intros x. rewrite element_at_with_event_log.
    by apply same_segments_element_at. }
  split.
  { intros a el Hin. rewrite Hel. apply (Hz2 (a, el)).
    by rewrite (Hord (remove_table tb)). }
  split.
  { intros a Hne. rewrite Hel in Hne.
    destruct (Ht2 a) as [Heq|[Hin _]].
    - exfalso. apply Hne. rewrite Heq.
      by injection (Hcore a).
    - apply list_elem_of_fmap in Hin as ([a' el] & -> & Hin).
      exists el. by rewrite <- (Hord (remove_table tb)). }
  split.
  { simpl. rewrite (same_segments_events _ _ Hs3). unfold same_events in Hev2.
    by rewrite Hev2, Hlog, app_assoc. }
  split; [done|].
  intros a el Hin. destruct (Hcov a el Hin) as [[]%elem_of_nil|[Hl|?]]; [|done].
  rewrite Hlist in Hl. by apply elem_of_nil in Hl.
Qed.

Lemma free_notifies_every_deleted_element_witness :
  (forall t : hash_table, @g_hash_table_iter_order demo t ≡ₚ t) /\
  @sc_storage_element_free demo demo_ctx 8 (mk_addr 0 2) chain_demo
  = Done SC_RESULT_OK chain_freed /\
  exists tb st_c evs last,
    @free_collect_all demo 8 (mk_addr 0 2) chain_demo = Done (Some tb) st_c
    /\ (forall a (el : sc_element_ptr), (a, el) ∈ remove_table tb ->
          flags_type (@element_at demo chain_freed a) = 0)
    /\ event_log chain_freed
       = event_log chain_demo ++ evs
         ++ [Emitted last SC_EVENT_REMOVE_ELEMENT last]
    /\ forall a (el : sc_element_ptr), (a, el) ∈ remove_table tb ->
         @notified demo evs chain_demo a.
Proof.
  assert (Hord : forall t : hash_table, @g_hash_table_iter_order demo t ≡ₚ t)
    by reflexivity.
  assert (Hrun : @sc_storage_element_free demo demo_ctx 8 (mk_addr 0 2)
                   chain_demo = Done SC_RESULT_OK chain_freed)
    by (vm_compute; reflexivity).
  split; [exact Hord|]. split; [exact Hrun|].
  destruct (@free_notifies_every_deleted_element demo demo_ctx 8 (mk_addr 0 2)
              chain_demo chain_freed Hord Hrun)
    as (tb & st_c & evs & last & Hc & Hz & _ & Hlog & _ & Hn).
  exists tb, st_c, evs, last. split; [exact Hc|]. split; [exact Hz|].
  split; [exact Hlog | exact Hn].
Defined.

(** C8, as stated, fails on scenario 5.  b, e1 and e2 are elements of
    [chain_demo], and [sc_storage_element_free (b)] erases the three of
    them, in whatever order its hash tables are iterated; yet the events it
    has emitted hold SC_EVENT_REMOVE_ELEMENT once, the one that is emitted
    after the loops, and not once for each of the three deleted
    elements. *)
Lemma remove_element_not_emitted_per_element :
  Forall (fun a => flags_type (@element_at demo chain_demo a) <> 0)
    [mk_addr 0 2; mk_addr 0 4; mk_addr 0 5]
  /\ filter (fun ev => is_remove_element ev = true) (event_log chain_demo) = []
  /\ forall ord : hash_table -> hash_table,
       (forall t, ord t ≡ₚ t) ->
       exists st',
         @sc_storage_element_free (demo_order ord) demo_ctx 8 (mk_addr 0 2)
           chain_demo = Done SC_RESULT_OK st'
         /\ Forall (fun a =>
                      flags_type (@element_at (demo_order ord) st' a) = 0)
              [mk_addr 0 2; mk_addr 0 4; mk_addr 0 5]
         /\ length (filter (fun ev => is_remove_element ev = true)
                      (event_log st')) = 1%nat.
Proof.
  split; [by repeat constructor|]. split; [reflexivity|].
  intros ord Hord.
  freed_in_every_order ord Hord 8%nat (mk_addr 0 2) chain_demo
    (fun st : sc_storage =>
       forallb (fun a => flags_type (@element_at (demo_order ord) st a) =? 0)
         [mk_addr 0 2; mk_addr 0 4; mk_addr 0 5]
       && bool_decide
            (length (filter (fun ev => is_remove_element ev = true)
                       (event_log st)) = 1%nat)).
  exists st'. split; [exact Hrun|].
  apply andb_true_iff in Hcheck as [Hz Hone].
  split; [|by apply bool_decide_eq_true_1 in Hone].
  rewrite forallb_forall in Hz. apply Forall_forall. intros a Ha.
  apply Z.eqb_eq, Hz. by apply list_elem_of_In.
Qed.

(** ** C9 *)

(** C9. The element of a node or a link that has just been created is the
    zeroed record with only its type set: the heads [first_out_arc] and
    [first_in_arc] are the empty address, the arc fields are zero and every
    byte of the content checksum is zero. *)
Theorem created_node_or_link_is_zeroed `{sc_defines}
    (ctx : sc_memory_context) (fuel : nat) (c : creation)
    (st : sc_storage) (addr : sc_addr) (st' : sc_storage) :
  storage_wf st ->
  creates_arc c = false ->
  create ctx fuel c st = Done addr st' ->
  addr <> addr_empty ->
  element_at st' addr = set_flags_type (composed_type c) sc_element_zero
  /\ zeroed_but_type (element_at st' addr).
Proof.
  intros Hwf Hc Hrun Hne.
  assert (Hel : element_at st' addr
                = set_flags_type (composed_type c) sc_element_zero).
  { destruct c as [type| |type beg end_]; [| |discriminate]; simpl in Hrun.
    - apply node_new_spec in Hrun as [_ [[-> _]|(st1 & Ha & -> & _)]];
        try done.
      destruct Ha as (_ & _ & _ & _ & _ & _ & Hel & _).
      by rewrite element_at_unlocked.
    - apply link_new_spec in Hrun as [[-> _]|(st1 & Ha & -> & _)]; try done.
      destruct Ha as (_ & _ & _ & _ & _ & _ & Hel & _).
      by rewrite element_at_unlocked. }
  split; [done|]. rewrite Hel. apply zeroed_but_type_zero.
Qed.

Lemma created_node_or_link_is_zeroed_witness :
  @storage_wf demo demo_two_nodes /\
  creates_arc (CreateNode 32) = false /\
  @create demo demo_ctx 4 (CreateNode 32) demo_two_nodes
  = Done (mk_addr 0 3) demo_three_nodes /\
  mk_addr 0 3 <> addr_empty /\
  @element_at demo demo_three_nodes (mk_addr 0 3)
  = set_flags_type 33 (@sc_element_zero demo) /\
  zeroed_but_type (@element_at demo demo_three_nodes (mk_addr 0 3)).
Proof.
  assert (Hwf : @storage_wf demo demo_two_nodes)
    by (apply (bool_decide_unpack _); vm_compute; reflexivity).
  assert (Hc : creates_arc (CreateNode 32) = false) by reflexivity.
  assert (Hrun : @create demo demo_ctx 4 (CreateNode 32) demo_two_nodes
                 = Done (mk_addr 0 3) demo_three_nodes)
    by (vm_compute; reflexivity).
  assert (Hne : mk_addr 0 3 <> addr_empty) by discriminate.
  split; [exact Hwf|]. split; [exact Hc|]. split; [exact Hrun|].
  split; [exact Hne|].
  apply (@created_node_or_link_is_zeroed demo demo_ctx 4 (CreateNode 32)
           demo_two_nodes (mk_addr 0 3) demo_three_nodes Hwf Hc Hrun Hne).
Defined.

(** ** C10 *)

(** C10. For every address whose segment index is in bounds and whose
    segment is loaded, [sc_storage_get_element_type] returns SC_RESULT_OK
    and stores the raw type field of the slot through [result], 0 for an
    empty slot included; the storage is left as it was. *)
Theorem get_element_type_returns_raw_type `{sc_defines}
    (st : sc_storage) (addr : sc_addr) :
  seg addr < SC_ADDR_SEG_MAX ->
  is_Some (segments st !! seg addr) ->
  sc_storage_get_element_type addr st
  = Done (SC_RESULT_OK, Some (flags_type (element_at st addr))) st
  /\ (flags_type (element_at st addr) = 0 ->
      sc_storage_get_element_type addr st
      = Done (SC_RESULT_OK, Some 0) st).
Proof.
  intros Hlt Hs.
  assert (Hget := get_element_type_valid st addr (conj Hlt Hs)).
  split; [done|]. intros Hz. by rewrite Hget, Hz.
Qed.

Lemma get_element_type_returns_raw_type_witness :
  seg (mk_addr 0 9) < @SC_ADDR_SEG_MAX demo /\
  is_Some (segments demo_two_nodes !! seg (mk_addr 0 9)) /\
  @sc_storage_get_element_type demo (mk_addr 0 9) demo_two_nodes
  = Done (SC_RESULT_OK, Some 0) demo_two_nodes.
Proof.
  assert (Hlt : seg (mk_addr 0 9) < @SC_ADDR_SEG_MAX demo) by reflexivity.
  assert (Hs : is_Some (segments demo_two_nodes !! seg (mk_addr 0 9)))
    by (vm_compute; eauto).
  split; [exact Hlt|]. split; [exact Hs|].
  apply (@get_element_type_returns_raw_type demo demo_two_nodes (mk_addr 0 9)
           Hlt Hs).
  reflexivity.
Defined.

(** * Further properties of [sc_storage.c] *)

(** ** X1 *)

(** X1. [sc_storage_is_element] answers for every address, and answers true
    exactly when the address can be locked (segment index in bounds, segment
    loaded) and its slot is not empty.  On every path the lock is given
    back: the storage is left as it was. *)
Theorem is_element_exactly_of_live_slots `{sc_defines}
    (st : sc_storage) (addr : sc_addr) :
  sc_storage_is_element addr st
  = Done (bool_decide (addr_valid st addr
                       /\ flags_type (element_at st addr) <> 0)) st.
Proof.
  destruct (decide (addr_valid st addr)) as [Hv|Hv].
  - rewrite is_element_valid by done. f_equal.
    destruct (flags_type (element_at st addr) =? 0) eqn:Ht; simpl.
    + apply Z.eqb_eq in Ht. symmetry. apply bool_decide_eq_false. tauto.
    + apply Z.eqb_neq in Ht. symmetry. by apply bool_decide_eq_true.
  - rewrite is_element_invalid by done. f_equal.
    symmetry. apply bool_decide_eq_false. tauto.
Qed.

(** ** X2 *)

(** X2. [sc_storage_get_arc_begin] and [sc_storage_get_arc_end] answer
    SC_RESULT_ERROR on an address that cannot be locked,
    SC_RESULT_ERROR_INVALID_TYPE on a slot whose type has no bit of
    [sc_type_arc_mask] (a node, a link, an empty slot), and otherwise
    SC_RESULT_OK with the [arc.begin] (resp. [arc.end]) field.  They store
    nothing through [result] unless they answer SC_RESULT_OK, and they leave
    the storage as it was. *)
Theorem arc_ends_are_read_of_arcs_only `{sc_defines}
    (st : sc_storage) (addr : sc_addr) :
  (~ addr_valid st addr ->
   sc_storage_get_arc_begin addr st = Done (SC_RESULT_ERROR, None) st
   /\ sc_storage_get_arc_end addr st = Done (SC_RESULT_ERROR, None) st)
  /\ (addr_valid st addr ->
      Z.land (flags_type (element_at st addr)) sc_type_arc_mask = 0 ->
      sc_storage_get_arc_begin addr st
      = Done (SC_RESULT_ERROR_INVALID_TYPE, None) st
      /\ sc_storage_get_arc_end addr st
         = Done (SC_RESULT_ERROR_INVALID_TYPE, None) st)
  /\ (addr_valid st addr ->
      Z.land (flags_type (element_at st addr)) sc_type_arc_mask <> 0 ->
      sc_storage_get_arc_begin addr st
      = Done (SC_RESULT_OK, Some (arc_begin (element_at st addr))) st
      /\ sc_storage_get_arc_end addr st
         = Done (SC_RESULT_OK, Some (arc_end (element_at st addr))) st).
Proof.
  split; [|split].
  - intros Hv. by rewrite get_arc_begin_invalid, get_arc_end_invalid.
  - intros Hv Ht. rewrite get_arc_begin_valid, get_arc_end_valid by done.
    by rewrite Ht.
  - intros Hv Ht%Z.eqb_neq.
    rewrite get_arc_begin_valid, get_arc_end_valid by done. by rewrite Ht.
Qed.

(** ** X3 *)

(** X3. Once [segments_num] has reached the configured limit,
    [sc_storage_element_new] does not return: the allocation hands back a
    null pointer, the empty address is unlocked, and [g_assert (res != 0)]
    stops the process, where [sc_storage_node_new] and
    [sc_storage_link_new] return the empty address. *)
Theorem element_new_aborts_at_segment_limit `{sc_defines}
    (ctx : sc_memory_context) (fuel : nat) (type : Z) (st : sc_storage) :
  sc_config_get_max_loaded_segments <= segments_num st ->
  sc_storage_element_new ctx fuel type st = Fault.
Proof. apply element_new_at_capacity. Qed.

Lemma element_new_aborts_at_segment_limit_witness :
  @sc_config_get_max_loaded_segments capacity_demo
  <= segments_num capacity_one_node /\
  @sc_storage_element_new capacity_demo demo_ctx 4 32 capacity_one_node = Fault.
Proof.
  assert (Hcap : @sc_config_get_max_loaded_segments capacity_demo
                 <= segments_num capacity_one_node) by (vm_compute; discriminate).
  split; [exact Hcap|].
  apply (@element_new_aborts_at_segment_limit capacity_demo demo_ctx 4 32
           capacity_one_node Hcap).
Defined.

(** ** X4 *)

(** X4. When [sc_storage_element_new] returns, the address is not empty, its
    slot was empty before the call and now holds the zeroed record with the
    type exactly as given: no class bit is ORed in.  No other element
    changes and no event is emitted.  [sc_storage_get_element_type] reads
    the type back, and [sc_storage_is_element] answers false when the type
    given was 0. *)
Theorem element_new_stores_the_raw_type `{sc_defines}
    (ctx : sc_memory_context) (fuel : nat) (type : Z)
    (st : sc_storage) (addr : sc_addr) (st' : sc_storage) :
  storage_wf st ->
  sc_storage_element_new ctx fuel type st = Done addr st' ->
  addr <> addr_empty
  /\ flags_type (element_at st addr) = 0
  /\ element_at st' addr = set_flags_type type sc_element_zero
  /\ (forall a, a <> addr -> element_at st' a = element_at st a)
  /\ event_log st' = event_log st
  /\ sc_storage_get_element_type addr st'
     = Done (SC_RESULT_OK, Some type) st'
  /\ sc_storage_is_element addr st' = Done (negb (type =? 0)) st'.
Proof.
  intros Hwf Hrun.
  apply element_new_spec in Hrun as (st1 & Ha & -> & _); [|done].
  destruct Ha as (Hne & Hv & Ht & _ & _ & Hev & Hel & Hothers).
  assert (Hv' : addr_valid (unlocked addr st1) addr)
    by by apply addr_valid_unlocked.
  assert (Hel' : element_at (unlocked addr st1) addr
                 = set_flags_type type sc_element_zero)
    by by rewrite element_at_unlocked.
  split; [by apply addr_empty_iff|]. split; [done|]. split; [done|].
  split; [intros a Ha; rewrite element_at_unlocked; by apply Hothers|].
  split; [by rewrite event_log_unlocked|].
  split.
  - rewrite get_element_type_valid by done. by rewrite Hel'.
  - rewrite is_element_valid by done. by rewrite Hel'.
Qed.

Lemma element_new_stores_the_raw_type_witness :
  @storage_wf demo demo_two_nodes /\
  @sc_storage_element_new demo demo_ctx 4 32 demo_two_nodes
  = Done (mk_addr 0 3) demo_raw_element /\
  @element_at demo demo_raw_element (mk_addr 0 3)
  = set_flags_type 32 (@sc_element_zero demo) /\
  @sc_storage_get_element_type demo (mk_addr 0 3) demo_raw_element
  = Done (SC_RESULT_OK, Some 32) demo_raw_element.
Proof.
  assert (Hwf : @storage_wf demo demo_two_nodes)
    by (apply (bool_decide_unpack _); vm_compute; reflexivity).
  assert (Hrun : @sc_storage_element_new demo demo_ctx 4 32 demo_two_nodes
                 = Done (mk_addr 0 3) demo_raw_element)
    by (vm_compute; reflexivity).
  split; [exact Hwf|]. split; [exact Hrun|].
  destruct (@element_new_stores_the_raw_type demo demo_ctx 4 32 demo_two_nodes
              (mk_addr 0 3) demo_raw_element Hwf Hrun)
    as (_ & _ & Hel & _ & _ & Hget & _).
  split; [exact Hel | exact Hget].
Defined.

(** ** X5 *)

(** X5. The ends of an arc read back: when [sc_storage_arc_new] has returned
    an address that is not empty, [sc_storage_get_arc_begin] and
    [sc_storage_get_arc_end] on it answer SC_RESULT_OK with the [beg] and
    [end] that were given, provided [sc_type_arc_common] is one of the bits
    of [sc_type_arc_mask]. *)
Theorem arc_new_ends_read_back `{sc_defines}
    (ctx : sc_memory_context) (fuel : nat) (type : Z) (beg end_ : sc_addr)
    (st : sc_storage) (new : sc_addr) (st' : sc_storage) :
  Z.land sc_type_arc_common sc_type_arc_mask <> 0 ->
  storage_wf st ->
  sc_storage_arc_new ctx fuel type beg end_ st = Done new st' ->
  new <> addr_empty ->
  sc_storage_get_arc_begin new st' = Done (SC_RESULT_OK, Some beg) st'
  /\ sc_storage_get_arc_end new st' = Done (SC_RESULT_OK, Some end_) st'.
Proof.
  intros Hc Hwf Hrun Hne.
  apply arc_new_spec in Hrun as [_ Hcr]; try done.
  destruct Hcr as (_ & Hv & _ & _ & _ & _ & _ & _ & _ & Ht & Hb & He & _).
  assert (Hclass := arc_element_class type beg end_ Hc).
  rewrite <- Ht in Hclass. apply Z.eqb_neq in Hclass.
  rewrite get_arc_begin_valid, get_arc_end_valid by done.
  rewrite Hclass, Hb, He. done.
Qed.

Lemma arc_new_ends_read_back_witness :
  Z.land (@sc_type_arc_common demo) (@sc_type_arc_mask demo) <> 0 /\
  @storage_wf demo demo_two_nodes /\
  @sc_storage_arc_new demo demo_ctx 4 0 (mk_addr 0 1) (mk_addr 0 2)
    demo_two_nodes = Done (mk_addr 0 3) demo_one_arc /\
  @sc_storage_get_arc_begin demo (mk_addr 0 3) demo_one_arc
  = Done (SC_RESULT_OK, Some (mk_addr 0 1)) demo_one_arc /\
  @sc_storage_get_arc_end demo (mk_addr 0 3) demo_one_arc
  = Done (SC_RESULT_OK, Some (mk_addr 0 2)) demo_one_arc.
Proof.
  assert (Hc : Z.land (@sc_type_arc_common demo) (@sc_type_arc_mask demo) <> 0)
    by discriminate.
  assert (Hwf : @storage_wf demo demo_two_nodes)
    by (apply (bool_decide_unpack _); vm_compute; reflexivity).
  assert (Hrun : @sc_storage_arc_new demo demo_ctx 4 0 (mk_addr 0 1)
                   (mk_addr 0 2) demo_two_nodes
                 = Done (mk_addr 0 3) demo_one_arc)
    by (vm_compute; reflexivity).
  assert (Hne : mk_addr 0 3 <> addr_empty) by discriminate.
  split; [exact Hc|]. split; [exact Hwf|]. split; [exact Hrun|].
  apply (@arc_new_ends_read_back demo demo_ctx 4 0 (mk_addr 0 1) (mk_addr 0 2)
           demo_two_nodes (mk_addr 0 3) demo_one_arc Hc Hwf Hrun Hne).
Defined.

(** ** X6 *)

(** X6. What has been created is an element: when [sc_storage_node_new],
    [sc_storage_link_new] or [sc_storage_arc_new] has returned an address
    that is not empty and the type it composes is not 0,
    [sc_storage_is_element] on that address answers true. *)
Theorem created_element_is_element `{sc_defines}
    (ctx : sc_memory_context) (fuel : nat) (c : creation)
    (st : sc_storage) (addr : sc_addr) (st' : sc_storage) :
  storage_wf st ->
  composed_type c <> 0 ->
  create ctx fuel c st = Done addr st' ->
  addr <> addr_empty ->
  sc_storage_is_element addr st' = Done true st'.
Proof.
  intros Hwf Ht Hrun Hne.
  destruct (create_type ctx fuel c st addr st' Hwf Hrun Hne) as [Hv Hty].
  rewrite is_element_valid by done. rewrite Hty.
  apply Z.eqb_neq in Ht. by rewrite Ht.
Qed.

Lemma created_element_is_element_witness :
  @storage_wf demo demo_two_nodes /\
  @composed_type demo (CreateNode 32) <> 0 /\
  @create demo demo_ctx 4 (CreateNode 32) demo_two_nodes
  = Done (mk_addr 0 3) demo_three_nodes /\
  @sc_storage_is_element demo (mk_addr 0 3) demo_three_nodes
  = Done true demo_three_nodes.
Proof.
  assert (Hwf : @storage_wf demo demo_two_nodes)
    by (apply (bool_decide_unpack _); vm_compute; reflexivity).
  assert (Ht : @composed_type demo (CreateNode 32) <> 0) by discriminate.
  assert (Hrun : @create demo demo_ctx 4 (CreateNode 32) demo_two_nodes
                 = Done (mk_addr 0 3) demo_three_nodes)
    by (vm_compute; reflexivity).
  assert (Hne : mk_addr 0 3 <> addr_empty) by discriminate.
  split; [exact Hwf|]. split; [exact Ht|]. split; [exact Hrun|].
  apply (@created_element_is_element demo demo_ctx 4 (CreateNode 32)
           demo_two_nodes (mk_addr 0 3) demo_three_nodes Hwf Ht Hrun Hne).
Defined.

(** ** X7 *)

(** X7. [sc_storage_element_free] on an address that cannot be locked (the
    segment index is out of bounds or the segment is not loaded) answers
    SC_RESULT_ERROR and leaves the storage as it was: nothing is locked,
    erased or announced. *)
Theorem free_of_unloaded_address_changes_nothing `{sc_defines}
    (ctx : sc_memory_context) (fuel : nat) (st : sc_storage) (addr : sc_addr) :
  ~ addr_valid st addr ->
  sc_storage_element_free ctx fuel addr st = Done SC_RESULT_ERROR st.
Proof. apply free_invalid. Qed.

Lemma free_of_unloaded_address_changes_nothing_witness :
  ~ @addr_valid demo demo_two_nodes (mk_addr 5 1) /\
  @sc_storage_element_free demo demo_ctx 8 (mk_addr 5 1) demo_two_nodes
  = Done SC_RESULT_ERROR demo_two_nodes.
Proof.
  assert (Hv : ~ @addr_valid demo demo_two_nodes (mk_addr 5 1))
    by (apply (bool_decide_unpack _); vm_compute; reflexivity).
  split; [exact Hv|].
  apply (@free_of_unloaded_address_changes_nothing demo demo_ctx 8
           demo_two_nodes (mk_addr 5 1) Hv).
Defined.

(** ** X8 *)

(** X8. [sc_storage_arc_new] with an end that cannot be locked returns the
    empty address after one pass and leaves the storage as it was: the lock
    taken on [beg] is given back when [end] fails, nothing is allocated and
    no event is emitted. *)
Theorem arc_new_refuses_unloaded_end `{sc_defines}
    (ctx : sc_memory_context) (fuel : nat) (type : Z) (beg end_ : sc_addr)
    (st : sc_storage) :
  Z.land sc_type_node type = 0 ->
  ~ addr_valid st beg \/ ~ addr_valid st end_ ->
  sc_storage_arc_new ctx (S fuel) type beg end_ st = Done addr_empty st.
Proof. apply arc_new_invalid. Qed.

Lemma arc_new_refuses_unloaded_end_witness :
  Z.land (@sc_type_node demo) 0 = 0 /\
  (~ @addr_valid demo demo_two_nodes (mk_addr 0 1)
   \/ ~ @addr_valid demo demo_two_nodes (mk_addr 5 1)) /\
  @sc_storage_arc_new demo demo_ctx 1 0 (mk_addr 0 1) (mk_addr 5 1)
    demo_two_nodes = Done addr_empty demo_two_nodes.
Proof.
  assert (Hm : Z.land (@sc_type_node demo) 0 = 0) by reflexivity.
  assert (Hv : ~ @addr_valid demo demo_two_nodes (mk_addr 0 1)
               \/ ~ @addr_valid demo demo_two_nodes (mk_addr 5 1)).
  { right. apply (bool_decide_unpack _). vm_compute. reflexivity. }
  split; [exact Hm|]. split; [exact Hv|].
  apply (@arc_new_refuses_unloaded_end demo demo_ctx 0 0 (mk_addr 0 1)
           (mk_addr 5 1) demo_two_nodes Hm Hv).
Defined.

(** ** X9 *)

(** X9. [sc_storage_node_new] and [sc_storage_link_new] never write to a
    slot that is in use: the slot of the address they return was empty
    before the call, every other element is as it was, no event is emitted,
    every segment that was loaded stays loaded, and the segment table stays
    well formed. *)
Theorem node_or_link_takes_an_empty_slot `{sc_defines}
    (ctx : sc_memory_context) (fuel : nat) (c : creation)
    (st : sc_storage) (addr : sc_addr) (st' : sc_storage) :
  storage_wf st ->
  creates_arc c = false ->
  create ctx fuel c st = Done addr st' ->
  addr <> addr_empty ->
  flags_type (element_at st addr) = 0
  /\ (forall a, a <> addr -> element_at st' a = element_at st a)
  /\ event_log st' = event_log st
  /\ (forall a, addr_valid st a -> addr_valid st' a)
  /\ storage_wf st'.
Proof.
  intros Hwf Hc Hrun Hne.
  assert (Hal : exists el st1, allocated el st addr st1
                               /\ st' = unlocked addr st1).
  { destruct c as [type| |type beg end_]; [| |discriminate]; simpl in Hrun.
    - apply node_new_spec in Hrun as [_ [[-> _]|(st1 & Ha & -> & _)]];
        [done|eauto|done].
    - apply link_new_spec in Hrun as [[-> _]|(st1 & Ha & -> & _)];
        [done|eauto|done]. }
  destruct Hal as (el & st1 & Ha & ->).
  destruct Ha as (_ & Hv & Ht & Hwf1 & Hg & Hev & Hel & Hothers).
  split; [done|].
  split; [intros a Ha; rewrite element_at_unlocked; by apply Hothers|].
  split; [by rewrite event_log_unlocked|].
  split.
  - intros a Ha. apply addr_valid_unlocked. by eapply segs_grow_valid.
  - eapply same_segments_wf; [apply unlocked_same_segments | done].
Qed.

Lemma node_or_link_takes_an_empty_slot_witness :
  @storage_wf demo demo_two_nodes /\
  @create demo demo_ctx 4 (CreateNode 32) demo_two_nodes
  = Done (mk_addr 0 3) demo_three_nodes /\
  flags_type (@element_at demo demo_two_nodes (mk_addr 0 3)) = 0 /\
  (forall a, a <> mk_addr 0 3 ->
     @element_at demo demo_three_nodes a = @element_at demo demo_two_nodes a).
Proof.
  assert (Hwf : @storage_wf demo demo_two_nodes)
    by (apply (bool_decide_unpack _); vm_compute; reflexivity).
  assert (Hc : creates_arc (CreateNode 32) = false) by reflexivity.
  assert (Hrun : @create demo demo_ctx 4 (CreateNode 32) demo_two_nodes
                 = Done (mk_addr 0 3) demo_three_nodes)
    by (vm_compute; reflexivity).
  assert (Hne : mk_addr 0 3 <> addr_empty) by discriminate.
  split; [exact Hwf|]. split; [exact Hrun|].
  destruct (@node_or_link_takes_an_empty_slot demo demo_ctx 4 (CreateNode 32)
              demo_two_nodes (mk_addr 0 3) demo_three_nodes Hwf Hc Hrun Hne)
    as (Ht & Hothers & _).
  split; [exact Ht | exact Hothers].
Defined.

(** ** X10 *)

(** X10. What [sc_storage_arc_new] writes.  When it returns the empty
    address, no element has changed and no event was emitted.  When it
    returns another address, the elements that may differ are the new arc,
    [beg], [end] and the two former heads [beg.first_out_arc] and
    [end.first_in_arc]; every other element is as it was, and the event log
    has grown by exactly SC_EVENT_ADD_OUTPUT_ARC on [beg] and
    SC_EVENT_ADD_INPUT_ARC on [end], in this order, both with the new arc
    as argument. *)
Theorem arc_new_writes_five_elements `{sc_defines}
    (ctx : sc_memory_context) (fuel : nat) (type : Z) (beg end_ : sc_addr)
    (st : sc_storage) (new : sc_addr) (st' : sc_storage) :
  storage_wf st ->
  sc_storage_arc_new ctx fuel type beg end_ st = Done new st' ->
  (new = addr_empty ->
   (forall a, element_at st' a = element_at st a)
   /\ event_log st' = event_log st)
  /\ (new <> addr_empty ->
      (forall a,
         a ∉ [new; beg; end_; first_out_arc (element_at st beg);
              first_in_arc (element_at st end_)] ->
         element_at st' a = element_at st a)
      /\ event_log st'
         = event_log st ++ [Emitted beg SC_EVENT_ADD_OUTPUT_ARC new;
                            Emitted end_ SC_EVENT_ADD_INPUT_ARC new]).
Proof.
  intros Hwf Hrun. split.
  - intros ->. unfold sc_storage_arc_new in Hrun.
    apply bind_Done in Hrun as ([] & st0 & Ha & Hrun).
    apply g_assert_Done in Ha as [_ ->].
    apply arc_new_loop_done in Hrun; [|done].
    destruct Hrun as [[_ Hs]|Hc].
    + split; [intros a; by apply same_segments_element_at|].
      by apply same_segments_events.
    + by destruct Hc as [? _].
  - intros Hne. split.
    + intros a Ha. eapply arc_new_frame; [done|exact Hrun|..];
        intros ->; apply Ha; set_solver.
    + apply arc_new_spec in Hrun as [_ Hc]; try done.
      by destruct Hc as (_ & _ & _ & _ & _ & _ & _ & _ & _ & _ & _ & _ & _ & Hev & _).
Qed.

Lemma arc_new_writes_five_elements_witness :
  @storage_wf demo demo_one_arc /\
  @sc_storage_arc_new demo demo_ctx 4 0 (mk_addr 0 1) (mk_addr 0 2)
    demo_one_arc = Done (mk_addr 0 4) demo_two_arcs /\
  event_log demo_two_arcs
  = event_log demo_one_arc
    ++ [Emitted (mk_addr 0 1) SC_EVENT_ADD_OUTPUT_ARC (mk_addr 0 4);
        Emitted (mk_addr 0 2) SC_EVENT_ADD_INPUT_ARC (mk_addr 0 4)].
Proof.
  assert (Hwf : @storage_wf demo demo_one_arc)
    by (apply (bool_decide_unpack _); vm_compute; reflexivity).
  assert (Hrun : @sc_storage_arc_new demo demo_ctx 4 0 (mk_addr 0 1)
                   (mk_addr 0 2) demo_one_arc
                 = Done (mk_addr 0 4) demo_two_arcs)
    by (vm_compute; reflexivity).
  assert (Hne : mk_addr 0 4 <> addr_empty) by discriminate.
  split; [exact Hwf|]. split; [exact Hrun|].
  destruct (@arc_new_writes_five_elements demo demo_ctx 4 0 (mk_addr 0 1)
              (mk_addr 0 2) demo_one_arc (mk_addr 0 4) demo_two_arcs Hwf Hrun)
    as [_ Hnew].
  destruct (Hnew Hne) as [_ Hev]. exact Hev.
Defined.

(** ** X11 *)

(** X11. The subtype written last is the one read back.  After two calls of
    [sc_storage_change_element_subtype] on an address that can be locked,
    with types that have no bit of [sc_type_element_mask],
    [sc_storage_get_element_type] answers with the class bits the element
    had before the first call ORed with the second type, and the storage is
    the one the second call alone would have left. *)
Theorem change_element_subtype_last_write_wins `{sc_defines}
    (st : sc_storage) (addr : sc_addr) (t1 t2 : Z) :
  Z.land t1 sc_type_element_mask = 0 ->
  Z.land t2 sc_type_element_mask = 0 ->
  addr_valid st addr ->
  exists st1 st2,
    sc_storage_change_element_subtype addr t1 st = Done SC_RESULT_OK st1
    /\ sc_storage_change_element_subtype addr t2 st1 = Done SC_RESULT_OK st2
    /\ sc_storage_change_element_subtype addr t2 st = Done SC_RESULT_OK st2
    /\ sc_storage_get_element_type addr st2
       = Done (SC_RESULT_OK,
               Some (Z.lor (Z.land (flags_type (element_at st addr))
                              sc_type_element_mask) t2)) st2.
Proof.
  intros H1 H2 Hv.
  assert (Hs := addr_valid_loaded _ _ Hv).
  eexists _, _. split; [by apply change_element_subtype_valid|].
  split.
  { apply change_element_subtype_valid; [done|]. by apply addr_valid_updated. }
  rewrite updated_updated. simpl.
  assert (Heq : updated addr
                  (fun e => set_flags_type
                     (subtype_changed (subtype_changed (flags_type e) t1) t2)
                     (set_flags_type (subtype_changed (flags_type e) t1) e)) st
                = updated addr
                    (fun e => set_flags_type (subtype_changed (flags_type e) t2) e)
                    st).
  { unfold updated. destruct Hs as [s ->]. do 3 f_equal.
    by rewrite subtype_changed_twice. }
  rewrite Heq. split; [by apply change_element_subtype_valid|].
  rewrite get_element_type_valid by (by apply addr_valid_updated).
  rewrite element_at_updated_same by done. simpl.
  by rewrite subtype_changed_clean.
Qed.

Lemma change_element_subtype_last_write_wins_witness :
  Z.land 32 (@sc_type_element_mask demo) = 0 /\
  Z.land 64 (@sc_type_element_mask demo) = 0 /\
  @addr_valid demo demo_two_nodes (mk_addr 0 1) /\
  exists st1 st2,
    @sc_storage_change_element_subtype demo (mk_addr 0 1) 32 demo_two_nodes
    = Done SC_RESULT_OK st1
    /\ @sc_storage_change_element_subtype demo (mk_addr 0 1) 64 st1
       = Done SC_RESULT_OK st2
    /\ @sc_storage_get_element_type demo (mk_addr 0 1) st2
       = Done (SC_RESULT_OK, Some 65) st2.
Proof.
  assert (H1 : Z.land 32 (@sc_type_element_mask demo) = 0) by reflexivity.
  assert (H2 : Z.land 64 (@sc_type_element_mask demo) = 0) by reflexivity.
  assert (Hv : @addr_valid demo demo_two_nodes (mk_addr 0 1))
    by (split; [reflexivity | vm_compute; eauto]).
  split; [exact H1|]. split; [exact H2|]. split; [exact Hv|].
  destruct (@change_element_subtype_last_write_wins demo demo_two_nodes
              (mk_addr 0 1) 32 64 H1 H2 Hv)
    as (st1 & st2 & Hr1 & Hr2 & _ & Hget).
  exists st1, st2. split; [exact Hr1|]. split; [exact Hr2|]. exact Hget.
Defined.

(** ** X12 *)

(** X12. A freed address holds no element.  When
    [sc_storage_element_free (addr)] answers SC_RESULT_OK, the slot of
    [addr] held an element before the call and is empty after it:
    [sc_storage_is_element (addr)] answers false, and a second
    [sc_storage_element_free (addr)] answers SC_RESULT_ERROR and changes no
    element.  The iteration over a hash table is taken to visit every
    entry once. *)
Theorem freed_address_holds_no_element `{sc_defines}
    (ctx : sc_memory_context) (fuel fuel' : nat) (addr : sc_addr)
    (st st' : sc_storage) :
  (forall t, g_hash_table_iter_order t ≡ₚ t) ->
  sc_storage_element_free ctx fuel addr st = Done SC_RESULT_OK st' ->
  flags_type (element_at st addr) <> 0
  /\ flags_type (element_at st' addr) = 0
  /\ sc_storage_is_element addr st' = Done false st'
  /\ exists st'',
       sc_storage_element_free ctx fuel' addr st' = Done SC_RESULT_ERROR st''
       /\ forall a, element_at st'' a = element_at st' a.
Proof.
  intros Hord Hrun.
  destruct (free_erases_root ctx fuel addr st st' Hord Hrun) as [Hlive Hz].
  split; [done|]. split; [done|]. split; [|by apply free_of_empty_slot].
  destruct (decide (addr_valid st' addr)) as [Hv|Hv].
  - rewrite is_element_valid by done. by rewrite Hz.
  - by apply is_element_invalid.
Qed.

Lemma freed_address_holds_no_element_witness :
  (forall t : hash_table, @g_hash_table_iter_order demo t ≡ₚ t) /\
  @sc_storage_element_free demo demo_ctx 8 (mk_addr 0 2) chain_demo
  = Done SC_RESULT_OK chain_freed /\
  @sc_storage_is_element demo (mk_addr 0 2) chain_freed
  = Done false chain_freed /\
  exists st'',
    @sc_storage_element_free demo demo_ctx 8 (mk_addr 0 2) chain_freed
    = Done SC_RESULT_ERROR st''.
Proof.
  assert (Hord : forall t : hash_table, @g_hash_table_iter_order demo t ≡ₚ t)
    by reflexivity.
  assert (Hrun : @sc_storage_element_free demo demo_ctx 8 (mk_addr 0 2)
                   chain_demo = Done SC_RESULT_OK chain_freed)
    by (vm_compute; reflexivity).
  split; [exact Hord|]. split; [exact Hrun|].
  destruct (@freed_address_holds_no_element demo demo_ctx 8 8 (mk_addr 0 2)
              chain_demo chain_freed Hord Hrun)
    as (_ & _ & His & st'' & Hagain & _).
  split; [exact His|]. exists st''. exact Hagain.
Defined.

(** ** X13 *)

(** X13. Deleting an element that is no arc and has no connector.  On an
    address that can be locked, whose element has a type other than 0
    without a bit of [sc_type_arc_mask] and whose two lists of arcs are
    empty, [sc_storage_element_free] returns SC_RESULT_OK: the type of the
    element becomes 0, no other element changes, and the events are the
    deletion notice of the element followed by SC_EVENT_REMOVE_ELEMENT on
    it.  The iteration over a hash table is
    taken to visit every entry once. *)
Theorem free_of_element_without_connectors `{sc_defines}
    (ctx : sc_memory_context) (fuel : nat) (addr : sc_addr) (st : sc_storage) :
  (forall t, g_hash_table_iter_order t ≡ₚ t) ->
  addr_valid st addr ->
  flags_type (element_at st addr) <> 0 ->
  Z.land (flags_type (element_at st addr)) sc_type_arc_mask = 0 ->
  first_out_arc (element_at st addr) = addr_empty ->
  first_in_arc (element_at st addr) = addr_empty ->
  exists st',
    sc_storage_element_free ctx (S (S fuel)) addr st = Done SC_RESULT_OK st'
    /\ flags_type (element_at st' addr) = 0
    /\ (forall a, a <> addr -> element_at st' a = element_at st a)
    /\ event_log st'
       = event_log st ++ [ElementDeleted addr;
                          Emitted addr SC_EVENT_REMOVE_ELEMENT addr].
Proof.
  intros Hord Hv Ht Harc Hout Hin.
  destruct (free_isolated ctx fuel addr st Hord Hv Ht Harc Hout Hin)
    as (st' & Hrun & Hz & Hrest & Hlog).
  exists st'. split; [done|]. split; [by rewrite Hz|]. done.
Qed.

Lemma free_of_element_without_connectors_witness :
  (forall t : hash_table, @g_hash_table_iter_order demo t ≡ₚ t) /\
  @addr_valid demo demo_two_nodes (mk_addr 0 1) /\
  flags_type (@element_at demo demo_two_nodes (mk_addr 0 1)) <> 0 /\
  exists st',
    @sc_storage_element_free demo demo_ctx 2 (mk_addr 0 1) demo_two_nodes
    = Done SC_RESULT_OK st'
    /\ event_log st'
       = event_log demo_two_nodes
         ++ [ElementDeleted (mk_addr 0 1);
             Emitted (mk_addr 0 1) SC_EVENT_REMOVE_ELEMENT (mk_addr 0 1)].
Proof.
  assert (Hord : forall t : hash_table, @g_hash_table_iter_order demo t ≡ₚ t)
    by reflexivity.
  assert (Hv : @addr_valid demo demo_two_nodes (mk_addr 0 1))
    by (split; [reflexivity | vm_compute; eauto]).
  assert (Ht : flags_type (@element_at demo demo_two_nodes (mk_addr 0 1)) <> 0)
    by (vm_compute; discriminate).
  assert (Harc : Z.land (flags_type (@element_at demo demo_two_nodes
                                       (mk_addr 0 1)))
                   (@sc_type_arc_mask demo) = 0)
    by (vm_compute; reflexivity).
  assert (Hout : first_out_arc (@element_at demo demo_two_nodes (mk_addr 0 1))
                 = addr_empty) by (vm_compute; reflexivity).
  assert (Hin : first_in_arc (@element_at demo demo_two_nodes (mk_addr 0 1))
                = addr_empty) by (vm_compute; reflexivity).
  split; [exact Hord|]. split; [exact Hv|]. split; [exact Ht|].
  destruct (@free_of_element_without_connectors demo demo_ctx 0 (mk_addr 0 1)
              demo_two_nodes Hord Hv Ht Harc Hout Hin)
    as (st' & Hrun & _ & _ & Hev).
  exists st'. split; [exact Hrun | exact Hev].
Defined.

(** ** X14 *)



(** ** X15 *)

(** X15. Every call but the deletion gives back the locks it takes.  When
    [sc_storage_node_new], [sc_storage_link_new], [sc_storage_element_new],
    [sc_storage_arc_new], [sc_storage_is_element],
    [sc_storage_get_element_type], [sc_storage_change_element_subtype],
    [sc_storage_get_arc_begin] or [sc_storage_get_arc_end] returns, on any
    of its paths, every slot is locked as many times as it was before the
    call. *)
Theorem calls_but_free_leave_no_lock `{sc_defines}
    (ctx : sc_memory_context) (fuel : nat) (c : call) (st st' : sc_storage) :
  (forall addr, c <> CallElementFree addr) ->
  storage_wf st ->
  run ctx fuel c st = Done tt st' ->
  forall a, lock_count st' a = lock_count st a.
Proof. apply run_locks. Qed.

Lemma calls_but_free_leave_no_lock_witness :
  @storage_wf demo demo_two_nodes /\
  @run demo demo_ctx 4 (CallArcNew 0 (mk_addr 0 1) (mk_addr 0 2)) demo_two_nodes
  = Done tt demo_one_arc /\
  forall a, lock_count demo_one_arc a = lock_count demo_two_nodes a.
Proof.
  assert (Hc : forall addr,
            CallArcNew 0 (mk_addr 0 1) (mk_addr 0 2) <> CallElementFree addr)
    by (intros addr; discriminate).
  assert (Hwf : @storage_wf demo demo_two_nodes)
    by (apply (bool_decide_unpack _); vm_compute; reflexivity).
  assert (Hrun : @run demo demo_ctx 4
                   (CallArcNew 0 (mk_addr 0 1) (mk_addr 0 2)) demo_two_nodes
                 = Done tt demo_one_arc) by (vm_compute; reflexivity).
  split; [exact Hwf|]. split; [exact Hrun|].
  apply (@calls_but_free_leave_no_lock demo demo_ctx 4
           (CallArcNew 0 (mk_addr 0 1) (mk_addr 0 2)) demo_two_nodes
           demo_one_arc Hc Hwf Hrun).
Defined.

(** ** X16 *)

(** X16. No call breaks the segment table or the cache.  From a storage
    where every loaded segment [k] carries the number [k] and lies below
    [segments_num] and SC_ADDR_SEG_MAX, where [segments_cache_count] counts
    the used slots of [segments_cache] and every cached segment is loaded,
    each call of the storage that returns (the deletion included) leaves a
    storage of the same kind; [segments_num] has not decreased, and every
    address that could be locked still can: no segment is unloaded.  The id
    of the context is not negative. *)
Theorem every_call_keeps_the_storage_in_order `{sc_defines}
    (ctx : sc_memory_context) (fuel : nat) (c : call) (st st' : sc_storage) :
  0 <= ctx_id ctx ->
  0 < SC_SEGMENT_CACHE_SIZE ->
  storage_wf st ->
  cache_ok st ->
  run ctx fuel c st = Done tt st' ->
  storage_wf st' /\ cache_ok st'
  /\ segments_num st <= segments_num st'
  /\ forall a, addr_valid st a -> addr_valid st' a.
Proof.
  intros Hctx Hsize Hwf Hok Hrun.
  destruct (keeps_settled_run ctx Hctx Hsize fuel c st tt st' Hrun Hok)
    as (Hw & Hc & Hn & Hl).
  split; [auto|]. split; [auto|]. split; [done|].
  intros a [Hlt Hs]. split; [done | auto].
Qed.

Lemma every_call_keeps_the_storage_in_order_witness :
  @storage_wf demo chain_demo /\
  @cache_ok demo chain_demo /\
  @run demo demo_ctx 8 (CallElementFree (mk_addr 0 2)) chain_demo
  = Done tt chain_freed /\
  @storage_wf demo chain_freed /\
  @cache_ok demo chain_freed.
Proof.
  assert (Hctx : 0 <= ctx_id demo_ctx) by (simpl; lia).
  assert (Hsize : 0 < @SC_SEGMENT_CACHE_SIZE demo) by reflexivity.
  assert (Hwf : @storage_wf demo chain_demo)
    by (apply (bool_decide_unpack _); vm_compute; reflexivity).
  assert (Hok : @cache_ok demo chain_demo)
    by (apply (bool_decide_unpack _); vm_compute; reflexivity).
  assert (Hrun : @run demo demo_ctx 8 (CallElementFree (mk_addr 0 2)) chain_demo
                 = Done tt chain_freed) by (vm_compute; reflexivity).
  split; [exact Hwf|]. split; [exact Hok|]. split; [exact Hrun|].
  destruct (@every_call_keeps_the_storage_in_order demo demo_ctx 8
              (CallElementFree (mk_addr 0 2)) chain_demo chain_freed
              Hctx Hsize Hwf Hok Hrun) as (Hwf' & Hok' & _).
  split; [exact Hwf' | exact Hok'].
Defined.

(** ** X17 *)



(** ** X18 *)

(** X18. [sc_storage_element_lock] and [sc_storage_element_unlock] answer
    SC_RESULT_OK exactly on the addresses whose segment index is below
    SC_ADDR_SEG_MAX and whose segment is loaded.  There the lock hands out
    the pointer to the slot and counts one acquisition more, and the unlock
    that follows gives back the storage as it was before the lock.  On
    every other address both answer SC_RESULT_ERROR, the lock stores a null
    pointer, and nothing changes. *)
Theorem element_lock_then_unlock_restores `{sc_defines}
    (st : sc_storage) (addr : sc_addr) :
  (addr_valid st addr ->
   exists st1,
     sc_storage_element_lock addr st
     = Done (SC_RESULT_OK, Some (seg addr, offset addr)) st1
     /\ lock_count st1 addr = (lock_count st addr + 1)%N
     /\ sc_storage_element_unlock addr st1 = Done SC_RESULT_OK st)
  /\ (~ addr_valid st addr ->
      sc_storage_element_lock addr st = Done (SC_RESULT_ERROR, None) st
      /\ sc_storage_element_unlock addr st = Done SC_RESULT_ERROR st).
Proof.
  split.
  - intros Hv. exists (locked addr st).
    split; [by apply element_lock_valid|].
    split; [apply lock_count_locked; by apply addr_valid_loaded|].
    rewrite element_unlock_valid by (by apply addr_valid_locked).
    by rewrite unlocked_locked.
  - intros Hv. split; [by apply element_lock_invalid|].
    by apply element_unlock_invalid.
Qed.

(** ** X19 *)

(** X19. The content of what is no link.  On an address that cannot be
    locked, [sc_storage_set_link_content] and [sc_storage_get_link_content]
    answer SC_RESULT_ERROR; on an element whose type has no bit of
    [sc_type_link] they answer SC_RESULT_ERROR_INVALID_TYPE.  In both cases
    the storage is left as it was, the file storage is not called, and
    nothing is stored through [stream]. *)
Theorem link_content_is_refused_off_links `{sc_defines}
    (sc_stream fs_storage : Type)
    (sc_link_calculate_checksum : sc_stream -> option sc_check_sum)
    (sc_fs_storage_write_content :
       sc_addr -> sc_check_sum -> sc_stream -> fs_storage
       -> sc_result * fs_storage)
    (sc_fs_storage_get_checksum_content :
       sc_check_sum -> fs_storage -> sc_result * option sc_stream * fs_storage)
    (st : sc_storage) (addr : sc_addr) (stream : option sc_stream)
    (s : sc_stream) (fs : fs_storage) :
  (~ addr_valid st addr ->
   sc_storage_set_link_content sc_stream fs_storage sc_link_calculate_checksum
     sc_fs_storage_write_content addr stream fs st
   = Done (SC_RESULT_ERROR, fs) st
   /\ sc_storage_get_link_content sc_stream fs_storage
        sc_fs_storage_get_checksum_content addr fs st
      = Done (SC_RESULT_ERROR, None, fs) st)
  /\ (addr_valid st addr ->
      Z.land (flags_type (element_at st addr)) sc_type_link = 0 ->
      sc_storage_set_link_content sc_stream fs_storage
        sc_link_calculate_checksum sc_fs_storage_write_content addr (Some s)
        fs st
      = Done (SC_RESULT_ERROR_INVALID_TYPE, fs) st
      /\ sc_storage_get_link_content sc_stream fs_storage
           sc_fs_storage_get_checksum_content addr fs st
         = Done (SC_RESULT_ERROR_INVALID_TYPE, None, fs) st).
Proof.
  split.
  - intros Hv. split.
    + by apply set_link_content_invalid.
    + by apply get_link_content_invalid.
  - intros Hv Ht. rewrite set_link_content_valid, get_link_content_valid by done.
    by rewrite Ht.
Qed.

(** ** X20 *)

(** X20. What [sc_storage_set_link_content] does on a link.  With a null
    stream, or a stream whose checksum cannot be calculated, the call does
    not return: an assertion stops the process while the element is locked.
    With a checksum that fits the arrays it returns SC_RESULT_OK whatever
    [sc_fs_storage_write_content] has answered; the first [len] bytes of
    [content.data] are those of the checksum, the type of the element is
    kept, no other element changes and no event is emitted. *)
Theorem set_link_content_keeps_no_write_result `{sc_defines}
    (sc_stream fs_storage : Type)
    (sc_link_calculate_checksum : sc_stream -> option sc_check_sum)
    (sc_fs_storage_write_content :
       sc_addr -> sc_check_sum -> sc_stream -> fs_storage
       -> sc_result * fs_storage)
    (st : sc_storage) (addr : sc_addr) (s : sc_stream) (fs : fs_storage) :
  addr_valid st addr ->
  Z.land (flags_type (element_at st addr)) sc_type_link <> 0 ->
  sc_storage_set_link_content sc_stream fs_storage sc_link_calculate_checksum
    sc_fs_storage_write_content addr None fs st = Fault
  /\ (sc_link_calculate_checksum s = None ->
      sc_storage_set_link_content sc_stream fs_storage
        sc_link_calculate_checksum sc_fs_storage_write_content addr (Some s)
        fs st = Fault)
  /\ (forall check_sum,
        sc_link_calculate_checksum s = Some check_sum ->
        0 <= cs_len check_sum ->
        cs_len check_sum <= Z.of_nat (length (cs_data check_sum)) ->
        cs_len check_sum
        <= Z.of_nat (length (content_data (element_at st addr))) ->
        exists st',
          sc_storage_set_link_content sc_stream fs_storage
            sc_link_calculate_checksum sc_fs_storage_write_content addr
            (Some s) fs st
          = Done (SC_RESULT_OK,
                  (sc_fs_storage_write_content addr check_sum s fs).2) st'
          /\ content_data (element_at st' addr)
             = take (Z.to_nat (cs_len check_sum)) (cs_data check_sum)
               ++ drop (Z.to_nat (cs_len check_sum))
                    (content_data (element_at st addr))
          /\ flags_type (element_at st' addr)
             = flags_type (element_at st addr)
          /\ (forall a, a <> addr -> element_at st' a = element_at st a)
          /\ event_log st' = event_log st).
Proof.
  intros Hv Ht%Z.eqb_neq.
  assert (Hl := addr_valid_loaded _ _ Hv).
  split; [by apply set_link_content_null|]. split.
  - intros Hc. rewrite set_link_content_valid by done. by rewrite Ht, Hc.
  - intros check_sum Hc H0 Hsrc Hdst.
    rewrite set_link_content_valid by done. rewrite Ht, Hc.
    rewrite memcpy_whole by done. eexists. split; [reflexivity|].
    rewrite element_at_updated_same by done.
    split; [done|]. split; [done|].
    split; [intros a Ha; by apply element_at_updated_ne|].
    apply event_log_updated.
Qed.

Lemma set_link_content_keeps_no_write_result_witness :
  @addr_valid demo demo_one_link (mk_addr 0 3) /\
  Z.land (flags_type (@element_at demo demo_one_link (mk_addr 0 3)))
    (@sc_type_link demo) <> 0 /\
  (demo_write_content (mk_addr 0 3)
     (mk_check_sum (take 32 ([1; 2; 3] ++ replicate 32 0)) 32) [1; 2; 3] tt).1
  = SC_RESULT_ERROR /\
  exists st',
    @sc_storage_set_link_content demo (list Z) unit demo_calculate_checksum
      demo_write_content (mk_addr 0 3) (Some [1; 2; 3]) tt demo_one_link
    = Done (SC_RESULT_OK, tt) st'.
Proof.
  assert (Hv : @addr_valid demo demo_one_link (mk_addr 0 3))
    by (split; [reflexivity | vm_compute; eauto]).
  assert (Ht : Z.land (flags_type (@element_at demo demo_one_link (mk_addr 0 3)))
                 (@sc_type_link demo) <> 0) by (vm_compute; discriminate).
  split; [exact Hv|]. split; [exact Ht|]. split; [reflexivity|].
  destruct (@set_link_content_keeps_no_write_result demo (list Z) unit
              demo_calculate_checksum demo_write_content demo_one_link
              (mk_addr 0 3) [1; 2; 3] tt Hv Ht) as (_ & _ & Hset).
  destruct (Hset (mk_check_sum (take 32 ([1; 2; 3] ++ replicate 32 0)) 32))
    as (st' & Hrun & _).
  - reflexivity.
  - vm_compute. discriminate.
  - vm_compute. discriminate.
  - vm_compute. discriminate.
  - exists st'. exact Hrun.
Defined.

(** ** X21 *)

(** X21. The content that was set is the content asked for.  After
    [sc_storage_set_link_content] has returned SC_RESULT_OK for a stream
    whose checksum has SC_CHECKSUM_LEN bytes,
    [sc_storage_get_link_content] on the same address answers what
    [sc_fs_storage_get_checksum_content] answers for exactly that
    checksum, and leaves the storage as it was. *)
Theorem link_content_is_looked_up_by_the_stored_checksum `{sc_defines}
    (sc_stream fs_storage : Type)
    (sc_link_calculate_checksum : sc_stream -> option sc_check_sum)
    (sc_fs_storage_write_content :
       sc_addr -> sc_check_sum -> sc_stream -> fs_storage
       -> sc_result * fs_storage)
    (sc_fs_storage_get_checksum_content :
       sc_check_sum -> fs_storage -> sc_result * option sc_stream * fs_storage)
    (st : sc_storage) (addr : sc_addr) (s : sc_stream) (fs : fs_storage)
    (check_sum : sc_check_sum) (fs' : fs_storage) (st' : sc_storage) :
  0 <= SC_CHECKSUM_LEN ->
  sc_link_calculate_checksum s = Some check_sum ->
  cs_len check_sum = SC_CHECKSUM_LEN ->
  SC_CHECKSUM_LEN <= Z.of_nat (length (cs_data check_sum)) ->
  sc_storage_set_link_content sc_stream fs_storage sc_link_calculate_checksum
    sc_fs_storage_write_content addr (Some s) fs st
  = Done (SC_RESULT_OK, fs') st' ->
  sc_storage_get_link_content sc_stream fs_storage
    sc_fs_storage_get_checksum_content addr fs' st'
  = Done (sc_fs_storage_get_checksum_content
            (mk_check_sum (take (Z.to_nat SC_CHECKSUM_LEN) (cs_data check_sum))
               SC_CHECKSUM_LEN) fs') st'.
Proof.
  intros H0 Hc Hlen Hsrc Hrun.
  destruct (decide (addr_valid st addr)) as [Hv|Hv].
  2: { rewrite set_link_content_invalid in Hrun by done. discriminate. }
  assert (Hl := addr_valid_loaded _ _ Hv).
  rewrite set_link_content_valid in Hrun by done.
  destruct (Z.land (flags_type (element_at st addr)) sc_type_link =? 0)
    eqn:Ht; [discriminate|].
  rewrite Hc in Hrun. unfold memcpy in Hrun.
  destruct (_ && _) eqn:Hb; [|discriminate].
  injection Hrun as _ <-.
  rewrite get_link_content_valid by (by apply addr_valid_updated).
  rewrite element_at_updated_same by done.
  cbn [set_content_data flags_type]. rewrite Ht, Hlen.
  by rewrite link_checksum_set.
Qed.

Lemma link_content_is_looked_up_by_the_stored_checksum_witness :
  0 <= @SC_CHECKSUM_LEN demo /\
  @sc_storage_set_link_content demo (list Z) unit demo_calculate_checksum
    demo_write_content (mk_addr 0 3) (Some [1; 2; 3]) tt demo_one_link
  = Done (SC_RESULT_OK, tt) demo_link_content /\
  @sc_storage_get_link_content demo (list Z) unit demo_get_checksum_content
    (mk_addr 0 3) tt demo_link_content
  = Done (SC_RESULT_OK, Some ([1; 2; 3] ++ replicate 29 0), tt)
      demo_link_content.
Proof.
  assert (H0 : 0 <= @SC_CHECKSUM_LEN demo) by (vm_compute; discriminate).
  assert (Hc : demo_calculate_checksum [1; 2; 3]
               = Some (mk_check_sum (take 32 ([1; 2; 3] ++ replicate 32 0)) 32))
    by reflexivity.
  assert (Hlen : cs_len (mk_check_sum (take 32 ([1; 2; 3] ++ replicate 32 0)) 32)
                 = @SC_CHECKSUM_LEN demo) by reflexivity.
  assert (Hsrc : @SC_CHECKSUM_LEN demo
                 <= Z.of_nat (length (cs_data
                      (mk_check_sum (take 32 ([1; 2; 3] ++ replicate 32 0)) 32))))
    by (vm_compute; discriminate).
  assert (Hrun : @sc_storage_set_link_content demo (list Z) unit
                   demo_calculate_checksum demo_write_content (mk_addr 0 3)
                   (Some [1; 2; 3]) tt demo_one_link
                 = Done (SC_RESULT_OK, tt) demo_link_content)
    by (vm_compute; reflexivity).
  split; [exact H0|]. split; [exact Hrun|].
  apply (@link_content_is_looked_up_by_the_stored_checksum demo (list Z) unit
           demo_calculate_checksum demo_write_content demo_get_checksum_content
           demo_one_link (mk_addr 0 3) [1; 2; 3] tt
           (mk_check_sum (take 32 ([1; 2; 3] ++ replicate 32 0)) 32) tt
           demo_link_content H0 Hc Hlen Hsrc Hrun).
Defined.

(** ** X22 *)

(** X22. [_sc_segment_cache_get] returns while [segments_num] is inside the
    array of segments, and what it hands out is a loaded segment: one the
    cache held, the storage staying as it was, or else a segment it has
    just created with the number [segments_num], which it stores in
    [segments] and counts in [segments_num].  A miss creates a segment
    whatever [_sc_segment_cache_update] has found before. *)
Theorem cache_get_hands_out_a_loaded_segment `{sc_defines}
    (ctx : sc_memory_context) (st : sc_storage) :
  0 <= ctx_id ctx ->
  0 < SC_SEGMENT_CACHE_SIZE ->
  cache_ok st ->
  0 <= segments_num st < SC_ADDR_SEG_MAX ->
  exists sg st',
    _sc_segment_cache_get ctx st = Done sg st'
    /\ is_Some (segments st' !! sg)
    /\ cache_ok st'
    /\ ((st' = st /\ exists i, segments_cache st !! i = Some sg)
        \/ (sg = segments_num st
            /\ segments_num st' = segments_num st + 1
            /\ segments st' = <[sg := sc_segment_new sg]> (segments st)
            /\ event_log st' = event_log st)).
Proof. intros Hctx Hsize. by apply cache_get_spec. Qed.

Lemma cache_get_hands_out_a_loaded_segment_witness :
  @cache_ok demo demo_two_nodes /\
  0 <= segments_num demo_two_nodes < @SC_ADDR_SEG_MAX demo /\
  exists sg st',
    @_sc_segment_cache_get demo demo_ctx demo_two_nodes = Done sg st'
    /\ is_Some (segments st' !! sg).
Proof.
  assert (Hctx : 0 <= ctx_id demo_ctx) by (simpl; lia).
  assert (Hsize : 0 < @SC_SEGMENT_CACHE_SIZE demo) by reflexivity.
  assert (Hok : @cache_ok demo demo_two_nodes)
    by (apply (bool_decide_unpack _); vm_compute; reflexivity).
  assert (Hn : 0 <= segments_num demo_two_nodes < @SC_ADDR_SEG_MAX demo)
    by (split; [vm_compute; discriminate | vm_compute; reflexivity]).
  split; [exact Hok|]. split; [exact Hn|].
  destruct (@cache_get_hands_out_a_loaded_segment demo demo_ctx demo_two_nodes
              Hctx Hsize Hok Hn) as (sg & st' & Hrun & Hl & _).
  exists sg, st'. split; [exact Hrun | exact Hl].
Defined.

(** ** X23 *)

(** X23. What [sc_storage_node_new] or [sc_storage_link_new] has created can
    be deleted at once.  When the type composed for the new element is not
    0 and has no bit of [sc_type_arc_mask], [sc_storage_element_free] on
    the address returned answers SC_RESULT_OK; the slot is then all zero,
    every other element is as it was before the creation, and the two
    calls together have emitted the deletion notice and
    SC_EVENT_REMOVE_ELEMENT for the address and nothing else.  The
    iteration over a hash table is taken to visit every entry once. *)
Theorem created_node_or_link_can_be_deleted `{sc_defines}
    (ctx : sc_memory_context) (fuel fuel' : nat) (c : creation)
    (st : sc_storage) (addr : sc_addr) (st1 : sc_storage) :
  (forall t, g_hash_table_iter_order t ≡ₚ t) ->
  storage_wf st ->
  creates_arc c = false ->
  composed_type c <> 0 ->
  Z.land (composed_type c) sc_type_arc_mask = 0 ->
  create ctx fuel c st = Done addr st1 ->
  addr <> addr_empty ->
  exists st2,
    sc_storage_element_free ctx (S (S fuel')) addr st1 = Done SC_RESULT_OK st2
    /\ element_at st2 addr = sc_element_zero
    /\ (forall a, a <> addr -> element_at st2 a = element_at st a)
    /\ event_log st2
       = event_log st ++ [ElementDeleted addr;
                          Emitted addr SC_EVENT_REMOVE_ELEMENT addr].
Proof. apply create_then_free. Qed.

Lemma created_node_or_link_can_be_deleted_witness :
  @storage_wf demo demo_two_nodes /\
  @create demo demo_ctx 4 CreateLink demo_two_nodes
  = Done (mk_addr 0 3) demo_one_link /\
  exists st2,
    @sc_storage_element_free demo demo_ctx 2 (mk_addr 0 3) demo_one_link
    = Done SC_RESULT_OK st2
    /\ @element_at demo st2 (mk_addr 0 3) = @sc_element_zero demo.
Proof.
  assert (Hord : forall t : hash_table, @g_hash_table_iter_order demo t ≡ₚ t)
    by reflexivity.
  assert (Hwf : @storage_wf demo demo_two_nodes)
    by (apply (bool_decide_unpack _); vm_compute; reflexivity).
  assert (Hc : creates_arc CreateLink = false) by reflexivity.
  assert (Ht : @composed_type demo CreateLink <> 0) by discriminate.
  assert (Harc : Z.land (@composed_type demo CreateLink)
                   (@sc_type_arc_mask demo) = 0) by reflexivity.
  assert (Hrun : @create demo demo_ctx 4 CreateLink demo_two_nodes
                 = Done (mk_addr 0 3) demo_one_link)
    by (vm_compute; reflexivity).
  assert (Hne : mk_addr 0 3 <> addr_empty) by discriminate.
  split; [exact Hwf|]. split; [exact Hrun|].
  destruct (@created_node_or_link_can_be_deleted demo demo_ctx 4 0 CreateLink
              demo_two_nodes (mk_addr 0 3) demo_one_link
              Hord Hwf Hc Ht Harc Hrun Hne) as (st2 & Hfree & Hz & _).
  exists st2. split; [exact Hfree | exact Hz].
Defined.

(** ** X24 *)


